(** * Replicated JSON documents: replica service, conflict inbox,
      divergence detection, schema upgrade votes and the audit hash chain.

    A shallow embedding of the TypeScript sources, followed by the
    properties established about them.

    Conventions of the embedding.
    - JavaScript values are the trees of [Json]. The numbers are the
      integers (IEEE doubles are exact on them below 2^53, which is where
      version counters, timestamps and indices live) and [NaN], the one
      number that is not equal to itself.
    - A string is the text of its UTF-8 bytes; its length, its slices, its
      characters and the order of [sort()] go by its UTF-16 code units, as
      they do in the engine.
    - An object is the list of its own entries in the order in which the
      engine enumerates them: the keys that are array indices first, in
      ascending order, then the other keys in the order of their
      creation. A [Map] is a [gmap], a [Set] of objects a list of heap
      addresses.
    - A tree that is written in place is a [Cell]: it tells the objects
      that the writer owns from the values that were put in and are
      shared with whoever passed them.
    - [Date.now()] is an explicit argument; [sha256Hex] and [JSON.stringify]
      are the two platform services the code calls, gathered in [Platform].
    - A call returns ([Ok]), throws ([Throw]), or leaves what the embedding
      follows ([Outside]): it goes through [__proto__] to a built-in
      prototype, it gives an array a property that is no index, or it
      writes into a value that it shares. Nothing is claimed about a call
      that ends [Outside]. *)

From Stdlib Require Import ZArith Lia Ascii String.
From stdpp Require Import base option list sorting strings pretty gmap fin_maps.

Local Open Scope Z_scope.
Local Open Scope string_scope.
Local Open Scope list_scope.

(* ===================================================================== *)
(** * Part I.  The embedding                                               *)
(* ===================================================================== *)

(** ** JavaScript values *)

Module Js.

#[warnings="-register-all"]
Inductive Json : Type :=
| JUndefined
| JNull
| JBool (b : bool)
| JNum (n : Z)
| JNaN
| JStr (s : string)
| JArr (xs : list Json)
| JObj (kvs : list (string * Json)).

(** What a call does: it returns a value, it throws, or it goes to where
    this embedding does not follow it ([Outside]): it reads or writes a
    built-in prototype object, it gives an array a property that is no
    index, or it writes into an object that it shares with its input.
    Nothing is said of a call that ends [Outside]. *)
Inductive outcome (A : Type) : Type :=
| Ok (a : A)
| Throw
| Outside.
Arguments Ok {A} a.
Arguments Throw {A}.
Arguments Outside {A}.

Definition obind {A B} (k : A -> outcome B) (m : outcome A) : outcome B :=
  match m with
  | Ok a => k a
  | Throw => Throw
  | Outside => Outside
  end.

#[global] Instance outcome_ret : MRet outcome := fun A a => Ok a.
#[global] Instance outcome_bind : MBind outcome := fun A B k m => obind k m.

(** [typeof x], with the ["array"] refinement several functions add. *)
Inductive JsType := TUndefined | TObject | TBoolean | TNumber | TString | TArray.

Definition typeof (x : Json) : JsType :=
  match x with
  | JUndefined => TUndefined
  | JNull => TObject
  | JBool _ => TBoolean
  | JNum _ | JNaN => TNumber
  | JStr _ => TString
  | JArr _ => TObject
  | JObj _ => TObject
  end.

Definition isArray (x : Json) : bool :=
  match x with JArr _ => true | _ => false end.

Definition JsType_eqb (a b : JsType) : bool :=
  match a, b with
  | TUndefined, TUndefined | TObject, TObject | TBoolean, TBoolean
  | TNumber, TNumber | TString, TString | TArray, TArray => true
  | _, _ => false
  end.

(** ToBoolean. *)
Definition truthy (x : Json) : bool :=
  match x with
  | JUndefined | JNull | JNaN => false
  | JBool b => b
  | JNum n => negb (Z.eqb n 0)
  | JStr s => negb (String.eqb s "")
  | JArr _ | JObj _ => true
  end.

(** [x ?? d]. *)
Definition nullish (x : Json) : bool :=
  match x with JUndefined | JNull => true | _ => false end.

Definition orElse (x d : Json) : Json := if nullish x then d else x.

(** An object or an array: [x && typeof x === "object"]. *)
Definition is_container (x : Json) : bool :=
  match x with JArr _ | JObj _ => true | _ => false end.

(** *** Strings as UTF-16 code units *)

Definition byte (c : ascii) : N := N_of_ascii c.

(** A continuation byte, [10xxxxxx]. *)
Definition cont (c : ascii) : bool := N.leb 128 (byte c) && N.ltb (byte c) 192.

(** The code units of the text whose UTF-8 bytes the string holds: one for
    a character of up to three bytes, a surrogate pair for one of four. A
    byte that starts no character counts as a unit of its own. *)
Fixpoint units (s : string) : list N :=
  match s with
  | EmptyString => []
  | String a r =>
      let b := byte a in
      if N.ltb b 128 then b :: units r
      else
        match r with
        | String a1 r1 =>
            if N.leb 192 b && N.ltb b 224 && cont a1 then
              ((b - 192) * 64 + (byte a1 - 128))%N :: units r1
            else
              match r1 with
              | String a2 r2 =>
                  if N.leb 224 b && N.ltb b 240 && cont a1 && cont a2 then
                    ((b - 224) * 4096 + (byte a1 - 128) * 64 + (byte a2 - 128))%N
                    :: units r2
                  else
                    match r2 with
                    | String a3 r3 =>
                        if N.leb 240 b && N.ltb b 248 && cont a1 && cont a2 && cont a3 then
                          let v := ((b - 240) * 262144 + (byte a1 - 128) * 4096
                                    + (byte a2 - 128) * 64 + (byte a3 - 128) - 65536)%N in
                          (55296 + v / 1024)%N :: (56320 + v mod 1024)%N :: units r3
                        else b :: units r
                    | EmptyString => b :: units r
                    end
              | EmptyString => b :: units r
              end
        | EmptyString => [b]
        end
  end.

Definition three_bytes (u : N) (rest : string) : string :=
  String (ascii_of_N (224 + u / 4096))
    (String (ascii_of_N (128 + (u / 64) mod 64))
       (String (ascii_of_N (128 + u mod 64)) rest)).

(** The string of a list of code units; a surrogate without its partner
    is kept, in three bytes. *)
Fixpoint of_units (l : list N) : string :=
  match l with
  | [] => EmptyString
  | u :: r =>
      if N.ltb u 128 then String (ascii_of_N u) (of_units r)
      else if N.ltb u 2048 then
        String (ascii_of_N (192 + u / 64)) (String (ascii_of_N (128 + u mod 64)) (of_units r))
      else
        match r with
        | lo :: r' =>
            if N.leb 55296 u && N.ltb u 56320 && N.leb 56320 lo && N.ltb lo 57344 then
              let cp := (65536 + (u - 55296) * 1024 + (lo - 56320))%N in
              String (ascii_of_N (240 + cp / 262144))
                (String (ascii_of_N (128 + (cp / 4096) mod 64))
                   (String (ascii_of_N (128 + (cp / 64) mod 64))
                      (String (ascii_of_N (128 + cp mod 64)) (of_units r'))))
            else three_bytes u (of_units r)
        | [] => three_bytes u EmptyString
        end
  end.

(** [s.length]. *)
Definition strlen (s : string) : Z := Z.of_nat (length (units s)).

(** The order of [<] on strings and of [Array.prototype.sort()]: code unit
    by code unit. Two strings with the same code units are the same text;
    the bytes decide between them here. *)
Fixpoint lex (a b : list N) : comparison :=
  match a, b with
  | [], [] => Eq
  | [], _ :: _ => Lt
  | _ :: _, [] => Gt
  | x :: a', y :: b' =>
      match N.compare x y with
      | Eq => lex a' b'
      | c => c
      end
  end.

Definition unit_compare (a b : string) : comparison :=
  match lex (units a) (units b) with
  | Eq => String.compare a b
  | c => c
  end.

Definition unit_leb (a b : string) : bool :=
  match unit_compare a b with Gt => false | _ => true end.

(** [s.startsWith(p)]. *)
Fixpoint units_prefix (p s : list N) : bool :=
  match p, s with
  | [], _ => true
  | _ :: _, [] => false
  | x :: p', y :: s' => N.eqb x y && units_prefix p' s'
  end.

Definition startsWith (s p : string) : bool := units_prefix (units p) (units s).

(** *** Objects *)

(** Decimal text of a non-negative index, and the index a key denotes. *)
Definition index_key (i : nat) : string := pretty i.

Fixpoint find_index (k : string) (i fuel : nat) : option nat :=
  match fuel with
  | O => None
  | S fuel' => if String.eqb k (index_key i) then Some i else find_index k (S i) fuel'
  end.

(** [array_index k bound]: the index below [bound] whose canonical decimal
    text is [k]. *)
Definition array_index (k : string) (bound : nat) : option nat :=
  find_index k 0 bound.

Definition is_digit (c : ascii) : bool :=
  let n := nat_of_ascii c in (48 <=? n)%nat && (n <=? 57)%nat.

Fixpoint all_digits (s : string) : bool :=
  match s with
  | EmptyString => true
  | String c r => is_digit c && all_digits r
  end.

(** Decimal digits, no leading zero. *)
Definition canonical_index (k : string) : bool :=
  match k with
  | EmptyString => false
  | String "0" EmptyString => true
  | String "0" _ => false
  | _ => all_digits k
  end.

Fixpoint digits_value (s : string) (acc : Z) : Z :=
  match s with
  | EmptyString => acc
  | String c r => digits_value r (10 * acc + (Z.of_nat (nat_of_ascii c) - 48))
  end.

(** The array index that a key is: the canonical text of an integer below
    [2^32 - 1]. *)
Definition key_index (k : string) : option Z :=
  if canonical_index k then
    let i := digits_value k 0 in
    if Z.ltb i 4294967295 then Some i else None
  else None.

(** The own entries of an object are listed in the order in which the
    engine enumerates them: the keys that are array indices first, in
    ascending order, then the other keys in the order of their creation. *)
Fixpoint obj_get {A} (k : string) (kvs : list (string * A)) : option A :=
  match kvs with
  | [] => None
  | (k', v) :: rest => if String.eqb k k' then Some v else obj_get k rest
  end.

Definition obj_has {A} (k : string) (kvs : list (string * A)) : bool :=
  match obj_get k kvs with Some _ => true | None => false end.

Definition obj_keys {A} (kvs : list (string * A)) : list string := map fst kvs.

(** A new key [k] is enumerated before the key [k']. *)
Definition before (k k' : string) : bool :=
  match key_index k, key_index k' with
  | Some i, Some i' => Z.ltb i i'
  | Some _, None => true
  | None, _ => false
  end.

Fixpoint obj_add {A} (k : string) (v : A) (kvs : list (string * A)) : list (string * A) :=
  match kvs with
  | [] => [(k, v)]
  | (k', v') :: rest =>
      if before k k' then (k, v) :: kvs else (k', v') :: obj_add k v rest
  end.

Fixpoint obj_replace {A} (k : string) (v : A) (kvs : list (string * A))
  : list (string * A) :=
  match kvs with
  | [] => []
  | (k', v') :: rest =>
      if String.eqb k k' then (k, v) :: rest else (k', v') :: obj_replace k v rest
  end.

(** The entry [k] becomes [v]: in its place when the object has the key,
    as a new key otherwise. *)
Definition obj_set {A} (k : string) (v : A) (kvs : list (string * A))
  : list (string * A) :=
  if obj_has k kvs then obj_replace k v kvs else obj_add k v kvs.

(** [out[k] = v] on an object made by [{}] that is only serialised or
    enumerated afterwards: the key ["__proto__"], which such an object
    does not own, goes to the setter that [Object.prototype] defines and
    leaves no entry. *)
Definition obj_assign (k : string) (v : Json) (kvs : list (string * Json))
  : list (string * Json) :=
  if String.eqb k "__proto__" && negb (obj_has k kvs) then kvs else obj_set k v kvs.

(** Entries that [{...x}] copies. *)
Fixpoint indexed {A} (i : nat) (xs : list A) : list (string * A) :=
  match xs with
  | [] => []
  | x :: r => (index_key i, x) :: indexed (S i) r
  end.

(** The characters of a string, one for each code unit. *)
Definition chars (s : string) : list Json :=
  map (fun u => JStr (of_units [u])) (units s).

Definition spread_entries (x : Json) : list (string * Json) :=
  match x with
  | JObj kvs => kvs
  | JArr xs => indexed 0 xs
  | JStr s => indexed 0 (chars s)
  | _ => []
  end.

(** [{ ...a, ...b }]: the entries are defined one by one, so that a key
    ["__proto__"] becomes an entry like any other. *)
Definition spread2 (a b : Json) : Json :=
  JObj (fold_left (fun acc kv => obj_set kv.1 kv.2 acc)
          (spread_entries b)
          (fold_left (fun acc kv => obj_set kv.1 kv.2 acc) (spread_entries a) [])).

(** [x.k] for a key that no built-in prototype defines ([path], [value],
    [actions], [$set], an index, ...): the own entry, or [undefined]. *)
Definition js_get (cur : Json) (k : string) : Json :=
  match cur with
  | JObj kvs => default JUndefined (obj_get k kvs)
  | JArr xs =>
      match array_index k (length xs) with
      | Some i => default JUndefined (xs !! i)
      | None => if String.eqb k "length" then JNum (Z.of_nat (length xs)) else JUndefined
      end
  | JStr s =>
      match array_index k (length (units s)) with
      | Some i => default JUndefined (chars s !! i)
      | None => if String.eqb k "length" then JNum (strlen s) else JUndefined
      end
  | _ => JUndefined
  end.

(** [s.split(".").filter(Boolean)]: the non-empty segments between dots. *)
Fixpoint split_dots (s : string) (cur : string) : list string :=
  match s with
  | EmptyString => if String.eqb cur "" then [] else [cur]
  | String c r =>
      if Ascii.eqb c "."%char
      then (if String.eqb cur "" then split_dots r "" else cur :: split_dots r "")
      else split_dots r (cur +:+ String c EmptyString)
  end.

Definition path_parts (path : string) : list string := split_dots path "".

(** [String(x)]. *)
Fixpoint js_String (x : Json) : string :=
  match x with
  | JUndefined => "undefined"
  | JNull => "null"
  | JBool true => "true"
  | JBool false => "false"
  | JNum n => pretty n
  | JNaN => "NaN"
  | JStr s => s
  | JArr xs =>
      (fix join (l : list Json) : string :=
         match l with
         | [] => ""
         | [y] => (if nullish y then "" else js_String y)
         | y :: r => (if nullish y then "" else js_String y) +:+ "," +:+ join r
         end) xs
  | JObj _ => "[object Object]"
  end.

(** *** Trees that are written to *)

(** The tree that [setByPath] and [ReplayStateStore.set] write to. An
    object or array that belongs to the tree alone (a copy that
    [structuredClone] made, or a [{}] made on the way) is a [Node] or
    [Items]. A value that was put in is [Held]: when it is an object or an
    array it is put in by reference and stays part of the patch or of the
    event that it came with. *)
#[warnings="-register-all"]
Inductive Cell : Type :=
| Held (v : Json)
| Node (kvs : list (string * Cell))
| Items (xs : list Cell).

(** [structuredClone(x)]. *)
Fixpoint own (x : Json) : Cell :=
  match x with
  | JObj kvs =>
      Node ((fix each (l : list (string * Json)) : list (string * Cell) :=
               match l with
               | [] => []
               | (k, v) :: r => (k, own v) :: each r
               end) kvs)
  | JArr xs => Items (map own xs)
  | _ => Held x
  end.

(** The value that a tree is, as a serialisation or a copy sees it. *)
Fixpoint seal (c : Cell) : Json :=
  match c with
  | Held v => v
  | Node kvs =>
      JObj ((fix each (l : list (string * Cell)) : list (string * Json) :=
               match l with
               | [] => []
               | (k, v) :: r => (k, seal v) :: each r
               end) kvs)
  | Items xs => JArr (map seal xs)
  end.

(** An object (or [null]) as the value of an assignment. *)
Definition object_or_null (v : Cell) : bool :=
  match v with
  | Held x => is_container x || match x with JNull => true | _ => false end
  | _ => true
  end.

(** [cur[k]] as a read. A key that the object does not own is looked up
    in its prototype: there ["__proto__"] is the prototype object itself,
    and every other name is absent or a function, which the callers treat
    like [undefined]. *)
Definition c_get (cur : Cell) (k : string) : outcome Cell :=
  match cur with
  | Node kvs =>
      match obj_get k kvs with
      | Some c => Ok c
      | None => if String.eqb k "__proto__" then Outside else Ok (Held JUndefined)
      end
  | Items xs =>
      match array_index k (length xs) with
      | Some i => Ok (default (Held JUndefined) (xs !! i))
      | None =>
          if String.eqb k "length" then Ok (Held (JNum (Z.of_nat (length xs))))
          else if String.eqb k "__proto__" then Outside
          else Ok (Held JUndefined)
      end
  | Held x =>
      match x with
      | JUndefined | JNull => Throw
      | JArr _ | JObj _ => Outside
      | _ =>
          if String.eqb k "__proto__" then Outside
          else Ok (Held (js_get x k))
      end
  end.

(** [xs.length = v]. *)
Definition set_length (xs : list Cell) (v : Cell) : outcome Cell :=
  let resize (n : Z) : outcome Cell :=
    if Z.leb 0 n && Z.ltb n 4294967296 then
      Ok (Items (take (Z.to_nat n) xs
                 ++ replicate (Z.to_nat n - length xs) (Held JUndefined)))
    else Throw in
  match v with
  | Held (JNum n) => resize n
  | Held JNull => resize 0
  | Held (JBool b) => resize (if b then 1 else 0)
  | Held JNaN | Held JUndefined => Throw
  | Held (JObj _) | Node _ => Throw
  | Held (JStr _) | Held (JArr _) | Items _ => Outside
  end.

(** [cur[k] = v] in strict mode (every source file is an ES module).
    - On an object: the own entry is set; without an own entry the key
      ["__proto__"] goes to the setter of [Object.prototype], which makes
      an object (or [null]) the prototype and ignores any other value.
    - On an array: an index in range replaces the element, an index past
      the end extends the array (the holes read as [undefined]), and
      ["length"] resizes it or raises [RangeError]; any other key is a
      property that is no index.
    - On a number, string or boolean: [TypeError], but for ["__proto__"],
      whose setter returns at once. *)
Definition c_put (cur : Cell) (k : string) (v : Cell) : outcome Cell :=
  match cur with
  | Node kvs =>
      if String.eqb k "__proto__" && negb (obj_has k kvs) then
        if object_or_null v then Outside else Ok cur
      else Ok (Node (obj_set k v kvs))
  | Items xs =>
      match array_index k (length xs) with
      | Some i => Ok (Items (<[i := v]> xs))
      | None =>
          match key_index k with
          | Some i =>
              Ok (Items (xs ++ replicate (Z.to_nat i - length xs) (Held JUndefined) ++ [v]))
          | None =>
              if String.eqb k "length" then set_length xs v
              else if String.eqb k "__proto__" && negb (object_or_null v) then Ok cur
              else Outside
          end
      end
  | Held x =>
      match x with
      | JUndefined | JNull => Throw
      | JArr _ | JObj _ => Outside
      | _ => if String.eqb k "__proto__" then Ok cur else Throw
      end
  end.

(** The entry [k] of [cur], an object or array of the tree, after the
    writes that were made inside it. *)
Definition c_keep (cur : Cell) (k : string) (sub : Cell) : Cell :=
  match cur with
  | Node kvs => Node (obj_replace k sub kvs)
  | Items xs =>
      match array_index k (length xs) with
      | Some i => Items (<[i := sub]> xs)
      | None => cur
      end
  | Held _ => cur
  end.

(** The write along a path ([setByPath] of the two replica servers, and
    the loop of [ReplayStateStore.set]): on the way an entry that is falsy
    or no object is replaced by [{}]; the value is put in by reference.
    With no segment at all the key is [parts[-1]], that is ["undefined"].
    A write that would go into a held object or array leaves the tree. *)
Fixpoint setByPath_parts (cur : Cell) (parts : list string) (value : Json)
  : outcome Cell :=
  match parts with
  | [] => c_put cur "undefined" (Held value)
  | [k] => c_put cur k (Held value)
  | k :: rest =>
      child ← c_get cur k;
      match child with
      | Held x =>
          if is_container x then Outside
          else
            cur1 ← c_put cur k (Node []);
            sub ← setByPath_parts (Node []) rest value;
            Ok (c_keep cur1 k sub)
      | _ =>
          sub ← setByPath_parts child rest value;
          Ok (c_keep cur k sub)
      end
  end.

Definition setByPath (obj : Cell) (path : string) (value : Json) : outcome Cell :=
  setByPath_parts obj (path_parts path) value.

End Js.

(** ** Platform services *)

(** [sha256Hex] (the digest of [crypto.subtle] or of Node's [crypto], or the
    empty text when no crypto is available) and [JSON.stringify]. *)
Class Platform := {
  sha256Hex : string -> string;
  JSON_stringify : Js.Json -> string;
}.

(** ** Canonical serialisation (crdt/canonicalize.ts) *)

Module Canonical.
Import Js.

(** [Array.prototype.sort()] on strings: ascending code-unit order. *)
Fixpoint insert_sorted (k : string) (l : list string) : list string :=
  match l with
  | [] => [k]
  | k' :: r => if unit_leb k k' then k :: l else k' :: insert_sorted k r
  end.

Definition sort_strings (l : list string) : list string :=
  fold_right insert_sorted [] l.

(** [sortKeys]: a fresh object filled in sorted key order, by [out[k] =
    obj[k]]. *)
Definition sortKeys (obj : list (string * Json)) : list (string * Json) :=
  fold_left (fun out k => obj_assign k (default JUndefined (obj_get k obj)) out)
    (sort_strings (obj_keys obj)) [].

(** [canonicalizeInner]. The values are canonicalised entry by entry and the
    entries then put in key order; the source puts the entries in key
    order first ([sortKeys]) and canonicalises the values as it copies
    them, which gives the same object, the order depending on the keys
    alone. A number that is not finite becomes its text. Dates and typed
    arrays do not occur in [Json], and the fallback [String(x)] is reached
    by [undefined] only. *)
Fixpoint canonicalizeInner (x : Json) (depth maxDepth : Z) : Json :=
  if Z.ltb maxDepth depth then JStr "[MAX_DEPTH]" else
  match x with
  | JNull => JNull
  | JNum n => JNum n
  | JNaN => JStr (js_String x)
  | JStr s => JStr s
  | JBool b => JBool b
  | JArr xs => JArr (map (fun v => canonicalizeInner v (depth + 1) maxDepth) xs)
  | JObj kvs =>
      JObj (sortKeys
              ((fix each (l : list (string * Json)) : list (string * Json) :=
                  match l with
                  | [] => []
                  | (k, v) :: r => (k, canonicalizeInner v (depth + 1) maxDepth) :: each r
                  end) kvs))
  | JUndefined => JStr (js_String x)
  end.

Definition canonicalize (value : Json) (maxDepth : option Z) : Json :=
  canonicalizeInner value 0 (default 64 maxDepth).

Definition canonicalJSONStringify `{Platform} (value : Json) : string :=
  JSON_stringify (canonicalize value None).

(** The canonical state hash of §4.4: [H(canonicalize(state))]. *)
Definition canonicalHash `{Platform} (value : Json) : string :=
  sha256Hex (canonicalJSONStringify value).

End Canonical.

(** ** Replica service: what the two servers share *)

Module Collab.
Import Js.

Record DocState := {
  docId : string;
  version : Z;
  state : Json;
}.

(** A connection context. [ws_open] is [ws.readyState === WebSocket.OPEN]. *)
Record ClientCtx := {
  ws_open : bool;
  clientId : string;
  ctx_docId : option string;
}.

(** The server object. Contexts are heap objects shared between the
    [clients] set and the handlers' closures: [heap] maps an address to the
    context, [clients] lists the addresses in the set, in insertion order. *)
Record Server := {
  docs : gmap string DocState;
  heap : gmap nat ClientCtx;
  clients : list nat;
  maxMessageBytes : Z;
}.

(** Wire messages, over the patch type [P] of the protocol version. *)
Inductive Msg (P : Type) : Type :=
| MSnapshot (d : string) (v : Z) (st : Json)
| MOp (d : string) (baseVersion : Z) (opId : string) (patch : P)
| MAck (d : string) (opId : string) (newVersion : Z)
| MPresence (d : string) (cid : string) (cursor selection : Json)
| MConflict (d : string) (opId : string) (applied : bool) (reason : string)
            (serverVersion : Z)
| MError (code message : string).
Arguments MSnapshot {P}.
Arguments MOp {P}.
Arguments MAck {P}.
Arguments MPresence {P}.
Arguments MConflict {P}.
Arguments MError {P}.

(** A received frame after [JSON.parse] and the handler's coercions:
    [String(parsed.docId ?? "")], [String(parsed.opId ?? "")],
    [Number(parsed.baseVersion)] ([None] when it is not an integer),
    and the patch as the protocol version reads it. *)
Inductive Incoming (P : Type) : Type :=
| InHello (d : string)
| InOp (opId : string) (baseVersion : option Z) (patch : P)
| InPresence (cursor selection : Json)
| InOther (t : string).
Arguments InHello {P}.
Arguments InOp {P}.
Arguments InPresence {P}.
Arguments InOther {P}.

(** [None] for [parsed] is a frame that is no message ([isMsg] fails). *)
Record Frame (P : Type) := {
  raw_length : Z;
  parsed : option (Incoming P);
}.
Arguments raw_length {P}.
Arguments parsed {P}.

(** How a handler run ends: it returns, an exception goes through it, or
    the function that applies the patch goes outside the embedding. *)
Inductive Ending := Returned | Raised | WentOutside.

(** What a handler run leaves: the server, the frames put on sockets in
    order, and how the run ended. *)
Record Run (P : Type) := {
  srv : Server;
  sent : list (nat * Msg P);
  ended : Ending;
}.
Arguments srv {P}.
Arguments sent {P}.
Arguments ended {P}.
Arguments Build_Run {P}.

Definition new_server (initialDocs : list (string * Json)) (maxBytes : option Z)
  : Server :=
  {| docs := fold_left
               (fun m d => <[d.1 := {| docId := d.1; version := 0; state := d.2 |}]> m)
               initialDocs ∅;
     heap := ∅;
     clients := [];
     maxMessageBytes := default 256000 maxBytes |}.

(** [onConn]: a fresh context (at address [c]) joins the set. *)
Definition onConn (s : Server) (c : nat) (uuid : string) : Server :=
  {| docs := docs s;
     heap := <[c := {| ws_open := true; clientId := uuid; ctx_docId := None |}]> (heap s);
     clients := if bool_decide (c ∈ clients s) then clients s else clients s ++ [c];
     maxMessageBytes := maxMessageBytes s |}.

Definition onClose (s : Server) (c : nat) : Server :=
  {| docs := docs s;
     heap := heap s;
     clients := filter (fun c' => c' ≠ c) (clients s);
     maxMessageBytes := maxMessageBytes s |}.

Definition send {P} (s : Server) (c : nat) (m : Msg P) : list (nat * Msg P) :=
  match heap s !! c with
  | Some ctx => if ws_open ctx then [(c, m)] else []
  | None => []
  end.

Definition getOrCreateDoc (s : Server) (d : string) : Server * DocState :=
  match docs s !! d with
  | Some doc => (s, doc)
  | None =>
      let created := {| docId := d; version := 0; state := JObj [] |} in
      ({| docs := <[d := created]> (docs s);
          heap := heap s;
          clients := clients s;
          maxMessageBytes := maxMessageBytes s |}, created)
  end.

Definition set_doc (s : Server) (d : string) (doc : DocState) : Server :=
  {| docs := <[d := doc]> (docs s);
     heap := heap s;
     clients := clients s;
     maxMessageBytes := maxMessageBytes s |}.

Definition set_ctx_docId (s : Server) (c : nat) (d : string) : Server :=
  {| docs := docs s;
     heap := alter (fun ctx => {| ws_open := ws_open ctx; clientId := clientId ctx;
                                  ctx_docId := Some d |}) c (heap s);
     clients := clients s;
     maxMessageBytes := maxMessageBytes s |}.

(** The loop over [this.clients] that skips [except] and the contexts bound
    to another document. *)
Definition broadcast {P} (s : Server) (d : string) (m : Msg P) (except : option nat)
  : list (nat * Msg P) :=
  flat_map
    (fun c =>
       if bool_decide (except = Some c) then []
       else match heap s !! c with
            | Some ctx => if bool_decide (ctx_docId ctx = Some d) then send s c m else []
            | None => []
            end)
    (clients s).

(** [!ctx.docId]. *)
Definition session_of (ctx : ClientCtx) : option string :=
  match ctx_docId ctx with
  | Some d => if String.eqb d "" then None else Some d
  | None => None
  end.

End Collab.

(** ** Replica service, protocol v2 (strict for set/merge, LWW for pathset) *)

Module ReplicaV2.
Import Js Collab.

Inductive ConflictPolicy := Strict | LwwPathset.

Record PathSetOp := {
  path : string;
  value : Json;
  ts : option Z;
  op_clientId : option string;
}.

(** The [Patch] union of protocol_v2.ts. The handler only checks that a
    [kind] is present, so a patch of any other kind reaches [applyPatch],
    which reads its [ops]: that is [POther]. *)
Inductive Patch :=
| PSet (v : Json)
| PMerge (v : Json)
| PPathSet (ops : list PathSetOp) (policy : option ConflictPolicy)
| POther (kind : string) (ops : list PathSetOp).

(** [if (!op.ts) op.ts = Date.now(); if (!op.clientId) op.clientId = clientId]. *)
Definition stamp (op : PathSetOp) (now : Z) (cid : string) : PathSetOp :=
  {| path := path op;
     value := value op;
     ts := match ts op with
           | Some t => if Z.eqb t 0 then Some now else Some t
           | None => Some now
           end;
     op_clientId := match op_clientId op with
                    | Some c => if String.eqb c "" then Some cid else Some c
                    | None => Some cid
                    end |}.

(** The loop of [applyPatch] over the ops, in arrival order; [clock i] is
    what [Date.now()] returns while op number [i] is handled. The ops are
    returned as the loop leaves them: stamped, and with the values they
    came with, since a write into a value that an earlier op of the patch
    put in leaves the tree ([Outside]). [filter(Boolean)] and
    [String(op.path ?? "")] do nothing on ops of the protocol's type. *)
Fixpoint apply_ops (next : Cell) (ops : list PathSetOp) (cid : string)
    (clock : nat -> Z) (i : nat) : outcome (Cell * list PathSetOp) :=
  match ops with
  | [] => Ok (next, [])
  | op :: rest =>
      if String.eqb (path op) "" then
        r ← apply_ops next rest cid clock (S i);
        Ok (r.1, op :: r.2)
      else
        next' ← setByPath next (path op) (value op);
        r ← apply_ops next' rest cid clock (S i);
        Ok (r.1, stamp op (clock i) cid :: r.2)
  end.

(** [applyPatch]: the next state and the patch object as it is afterwards. *)
Definition applyPatch (st : Json) (patch : Patch) (cid : string) (clock : nat -> Z)
  : outcome (Json * Patch) :=
  match patch with
  | PSet v => Ok (v, patch)
  | PMerge v =>
      if negb (truthy v) || negb (JsType_eqb (typeof v) TObject) || isArray v
      then Ok (st, patch)
      else Ok (spread2 (orElse st (JObj [])) v, patch)
  | PPathSet ops pol =>
      r ← apply_ops (own (orElse st (JObj []))) ops cid clock 0;
      Ok (seal r.1, PPathSet r.2 pol)
  | POther kind ops =>
      r ← apply_ops (own (orElse st (JObj []))) ops cid clock 0;
      Ok (seal r.1, POther kind r.2)
  end.

(** [patch.kind === "pathset" && (patch.policy ?? "lww_pathset") === "lww_pathset"]. *)
Definition canLww (patch : Patch) : bool :=
  match patch with
  | PPathSet _ None | PPathSet _ (Some LwwPathset) => true
  | _ => false
  end.

(** The patch of an op frame: [None] when it is missing, no object or has
    no [kind]. *)
Definition Frame2 := Frame (option Patch).
Definition Msg2 := Msg Patch.
Definition Run2 := Run Patch.

Definition done (s : Server) (out : list (nat * Msg2)) : Run2 :=
  Build_Run s out Returned.

(** How a run ends when the patch function does not return. *)
Definition failed {A} (r : outcome A) : Ending :=
  match r with
  | Outside => WentOutside
  | _ => Raised
  end.

Section Handler.

(** The function that the handler calls as [applyPatch]: what the handler
    does with its result does not depend on how the patch is applied. It
    returns the next state and the patch object as it has left it. *)
Variable apply : Json -> Patch -> string -> (nat -> Z) -> outcome (Json * Patch).

Definition onMessage_with (s : Server) (c : nat) (f : Frame2) (clock : nat -> Z) : Run2 :=
  match heap s !! c with
  | None => done s []
  | Some ctx =>
  if Z.ltb (maxMessageBytes s) (raw_length f) then
    done s (send s c (MError "MSG_TOO_LARGE" "Message too large."))
  else
  match parsed f with
  | None => done s (send s c (MError "BAD_MSG" "Invalid message."))
  | Some (InHello d) =>
      if String.eqb d "" then done s (send s c (MError "NO_DOC" "docId required."))
      else
        let s1 := set_ctx_docId s c d in
        let '(s2, doc) := getOrCreateDoc s1 d in
        done s2 (send s2 c (MSnapshot d (version doc) (state doc)))
  | Some (InOp opId baseVersion patch) =>
      match session_of ctx with
      | None => done s (send s c (MError "NO_SESSION" "Send hello first."))
      | Some d =>
        let '(s1, doc) := getOrCreateDoc s d in
        if String.eqb opId "" then
          done s1 (send s1 c (MError "NO_OPID" "opId required."))
        else
        match baseVersion with
        | None => done s1 (send s1 c (MError "BAD_VERSION" "baseVersion invalid."))
        | Some bv =>
          if Z.ltb bv 0 then
            done s1 (send s1 c (MError "BAD_VERSION" "baseVersion invalid."))
          else
          match patch with
          | None => done s1 (send s1 c (MError "BAD_PATCH" "patch.kind required."))
          | Some p =>
            if negb (canLww p) && negb (Z.eqb bv (version doc)) then
              done s1
                (send s1 c (MConflict (docId doc) opId false "VERSION_MISMATCH" (version doc))
                 ++ send s1 c (MSnapshot (docId doc) (version doc) (state doc)))
            else
            match apply (state doc) p (clientId ctx) clock with
            | Ok (next, p') =>
              let doc' := {| docId := docId doc; version := version doc + 1;
                             state := next |} in
              let s2 := set_doc s1 d doc' in
              done s2
                (send s2 c (MAck (docId doc') opId (version doc'))
                 ++ (if canLww p && negb (Z.eqb bv (version doc' - 1))
                     then send s2 c (MConflict (docId doc') opId true
                                       "LWW_PATHSET_APPLIED" (version doc'))
                     else [])
                 ++ broadcast s2 (docId doc')
                      (MOp (docId doc') (version doc' - 1) opId p') (Some c))
            | r => Build_Run s1 [] (failed r)
            end
          end
        end
      end
  | Some (InPresence cursor selection) =>
      match session_of ctx with
      | None => done s []
      | Some d => done s (broadcast s d (MPresence d (clientId ctx) cursor selection) (Some c))
      end
  | Some (InOther t) =>
      done s (send s c (MError "UNSUPPORTED" ("Unsupported msg: " +:+ t)))
  end
  end.

End Handler.

(** [CollabWSServerV2.onMessage]. *)
Definition onMessage : Server -> nat -> Frame2 -> (nat -> Z) -> Run2 :=
  onMessage_with applyPatch.

End ReplicaV2.

(** ** Replica service, protocol v1 (every stale op is rejected) *)

Module ReplicaV1.
Import Js Collab.

(** The loop of [applyServerPatch] over an array patch. *)
Fixpoint apply_path_sets (next : Cell) (ops : list Json) : outcome Cell :=
  match ops with
  | [] => Ok next
  | op :: rest =>
      if negb (truthy op) || negb (JsType_eqb (typeof op) TObject) then
        apply_path_sets next rest
      else
        let p := js_String (orElse (js_get op "path") (JStr "")) in
        if String.eqb p "" then apply_path_sets next rest
        else next' ← setByPath next p (js_get op "value"); apply_path_sets next' rest
  end.

(** [k in patch] for the two keys the function looks for, which no
    built-in prototype defines: an own entry of an object (an array has
    neither). *)
Definition has_key (k : string) (patch : Json) : bool :=
  match patch with
  | JObj kvs => obj_has k kvs
  | _ => false
  end.

(** [applyServerPatch]: the next state. The patch is as it was when the
    function returns: a write into a value that an earlier op put in
    leaves the tree ([Outside]). *)
Definition applyServerPatch (st : Json) (patch : Json) : outcome Json :=
  if truthy patch && JsType_eqb (typeof patch) TObject && has_key "$set" patch then
    Ok (js_get patch "$set")
  else if truthy patch && JsType_eqb (typeof patch) TObject && has_key "$merge" patch then
    let m := js_get patch "$merge" in
    if truthy m && JsType_eqb (typeof m) TObject && negb (isArray m)
    then Ok (spread2 (orElse st (JObj [])) m)
    else Ok st
  else
    match patch with
    | JArr ops => next ← apply_path_sets (own (orElse st (JObj []))) ops; Ok (seal next)
    | _ => Ok st
    end.

Definition Frame1 := Frame Json.
Definition Msg1 := Msg Json.
Definition Run1 := Run Json.

Definition done (s : Server) (out : list (nat * Msg1)) : Run1 :=
  Build_Run s out Returned.

Section Handler.

(** The function that the handler calls as [applyServerPatch]; it returns
    the next state and the patch as it has left it. *)
Variable apply : Json -> Json -> outcome (Json * Json).

Definition onMessage_with (s : Server) (c : nat) (f : Frame1) : Run1 :=
  match heap s !! c with
  | None => done s []
  | Some ctx =>
  if Z.ltb (maxMessageBytes s) (raw_length f) then
    done s (send s c (MError "MSG_TOO_LARGE" "Message too large."))
  else
  match parsed f with
  | None => done s (send s c (MError "BAD_MSG" "Invalid message."))
  | Some (InHello d) =>
      if String.eqb d "" then done s (send s c (MError "NO_DOC" "docId required."))
      else
        let s1 := set_ctx_docId s c d in
        let '(s2, doc) := getOrCreateDoc s1 d in
        done s2 (send s2 c (MSnapshot d (version doc) (state doc)))
  | Some (InOp opId baseVersion patch) =>
      match session_of ctx with
      | None => done s (send s c (MError "NO_SESSION" "Send hello first."))
      | Some d =>
        let '(s1, doc) := getOrCreateDoc s d in
        if String.eqb opId "" then
          done s1 (send s1 c (MError "NO_OPID" "opId required."))
        else
        match baseVersion with
        | None => done s1 (send s1 c (MError "BAD_VERSION" "baseVersion invalid."))
        | Some bv =>
          if Z.ltb bv 0 then
            done s1 (send s1 c (MError "BAD_VERSION" "baseVersion invalid."))
          else if negb (Z.eqb bv (version doc)) then
            done s1
              (send s1 c (MError "VERSION_MISMATCH" "Out of date. Resync.")
               ++ send s1 c (MSnapshot (docId doc) (version doc) (state doc)))
          else
          match apply (state doc) patch with
          | Ok (next, patch') =>
            let doc' := {| docId := docId doc; version := version doc + 1;
                           state := next |} in
            let s2 := set_doc s1 d doc' in
            done s2
              (send s2 c (MAck (docId doc') opId (version doc'))
               ++ broadcast s2 (docId doc')
                    (MOp (docId doc') (version doc' - 1) opId patch') (Some c))
          | r => Build_Run s1 [] (ReplicaV2.failed r)
          end
        end
      end
  | Some (InPresence cursor selection) =>
      match session_of ctx with
      | None => done s []
      | Some d => done s (broadcast s d (MPresence d (clientId ctx) cursor selection) (Some c))
      end
  | Some (InOther t) =>
      done s (send s c (MError "UNSUPPORTED" ("Unsupported msg type: " +:+ t)))
  end
  end.

End Handler.

(** [CollabWSServer.onMessage]. The patch that is broadcast is the patch
    of the frame, which [applyServerPatch] leaves as it was when it
    returns. *)
Definition onMessage : Server -> nat -> Frame1 -> Run1 :=
  onMessage_with (fun st patch => next ← applyServerPatch st patch; Ok (next, patch)).

End ReplicaV1.

(** ** Conflict store (conflicts/conflict_id.ts, conflicts/conflict_store.ts) *)

Module Conflicts.
Import Js Canonical.

Inductive ConflictSeverity := Info | Warn | Critical.

Inductive ConflictKind :=
| HashMismatch | OpApplyFailed | SnapshotApplyFailed | SchemaMismatch
| PolicyViolation | TransportError | Unknown.

Inductive ConflictStatus := Open | Acked | Resolved | Ignored.

Inductive RecommendedAction :=
| RequestSnapshot | SetReferencePeer | InspectOp | ActIgnore | ActNone.

#[global] Instance ConflictSeverity_eq_dec : EqDecision ConflictSeverity.
Proof. solve_decision. Defined.
#[global] Instance ConflictKind_eq_dec : EqDecision ConflictKind.
Proof. solve_decision. Defined.
#[global] Instance ConflictStatus_eq_dec : EqDecision ConflictStatus.
Proof. solve_decision. Defined.

Definition severity_name (s : ConflictSeverity) : string :=
  match s with Info => "info" | Warn => "warn" | Critical => "critical" end.

Definition kind_name (k : ConflictKind) : string :=
  match k with
  | HashMismatch => "hash_mismatch"
  | OpApplyFailed => "op_apply_failed"
  | SnapshotApplyFailed => "snapshot_apply_failed"
  | SchemaMismatch => "schema_mismatch"
  | PolicyViolation => "policy_violation"
  | TransportError => "transport_error"
  | Unknown => "unknown"
  end.

(** The correlation object [related]; an absent key is [None]. *)
Record Related := {
  auditId : option string;
  messageId : option string;
  opHash : option string;
  stateHash : option string;
}.

Definition related_empty : Related :=
  {| auditId := None; messageId := None; opHash := None; stateHash := None |}.

(** [{ ...a, ...b }] on two correlation objects. *)
Definition related_merge (a b : Related) : Related :=
  {| auditId := from_option Some (auditId a) (auditId b);
     messageId := from_option Some (messageId a) (messageId b);
     opHash := from_option Some (opHash a) (opHash b);
     stateHash := from_option Some (stateHash a) (stateHash b) |}.

Definition opt_entry (k : string) (v : option string) : list (string * Json) :=
  match v with Some x => [(k, JStr x)] | None => [] end.

Definition related_json (r : Related) : Json :=
  JObj (opt_entry "auditId" (auditId r) ++ opt_entry "messageId" (messageId r)
        ++ opt_entry "opHash" (opHash r) ++ opt_entry "stateHash" (stateHash r)).

Record ConflictItem := {
  id : string;
  createdAtMs : Z;
  updatedAtMs : Z;
  severity : ConflictSeverity;
  kind : ConflictKind;
  status : ConflictStatus;
  sourcePeer : option string;
  localClientTag : string;
  title : string;
  detail : option string;
  payload : Json;
  related : option Related;
  recommendedAction : option RecommendedAction;
}.

Record AutoAck := {
  aa_enabled : bool;
  aa_severities : list ConflictSeverity;
  aa_kinds : list ConflictKind;
}.

Record Purge := {
  purge_enabled : bool;
  resolvedTTLms : Z;
  ignoredTTLms : Z;
}.

Record ConflictPolicy := {
  maxItems : Z;
  autoAck : AutoAck;
  purge : Purge;
}.

(** The policy the constructor builds when none is given. *)
Definition default_policy : ConflictPolicy :=
  {| maxItems := 2000;
     autoAck := {| aa_enabled := true; aa_severities := [Info];
                   aa_kinds := [TransportError] |};
     purge := {| purge_enabled := true; resolvedTTLms := 60 * 60 * 1000;
                 ignoredTTLms := 15 * 60 * 1000 |} |}.

(** The store. [order] holds the ids, newest last. The subscriber set only
    receives notifications and is left out. *)
Record ConflictStore := {
  st_localClientTag : string;
  policy : ConflictPolicy;
  items : gmap string ConflictItem;
  order : list string;
}.

Definition new_store (tag : string) (p : ConflictPolicy) : ConflictStore :=
  {| st_localClientTag := tag; policy := p; items := ∅; order := [] |}.

(** The argument of [add]. *)
Record AddInput := {
  in_severity : ConflictSeverity;
  in_kind : ConflictKind;
  in_title : string;
  in_detail : option string;
  in_sourcePeer : option string;
  in_payload : Json;
  in_related : option Related;
  in_recommendedAction : option RecommendedAction;
}.

(** [s.slice(0, n)] for a non-negative [n]. *)
Definition str_take (n : nat) (s : string) : string := String.substring 0 n s.

(** [makeConflictId]. *)
Definition makeConflictId `{Platform} (tag : string) (k : ConflictKind)
    (sev : ConflictSeverity) (peer : option string) (rel : option Related)
    (pl : Json) : string :=
  let canon := canonicalJSONStringify
    (JObj [("localClientTag", JStr tag);
           ("kind", JStr (kind_name k));
           ("severity", JStr (severity_name sev));
           ("sourcePeer", from_option JStr JNull peer);
           ("related", from_option related_json JNull rel);
           ("payload", orElse pl JNull)]) in
  "c_" +:+ str_take 24 (sha256Hex canon).

Definition severityRank (s : ConflictSeverity) : Z :=
  match s with Critical => 2 | Warn => 1 | Info => 0 end.

Definition escalateSeverity (a b : ConflictSeverity) : ConflictSeverity :=
  if Z.ltb (severityRank a) (severityRank b) then b else a.

(** The ids the purge pass collects at time [t]. *)
Definition expired (p : Purge) (t : Z) (it : ConflictItem) : bool :=
  (bool_decide (status it = Resolved) && Z.ltb (resolvedTTLms p) (t - updatedAtMs it))
  || (bool_decide (status it = Ignored) && Z.ltb (ignoredTTLms p) (t - updatedAtMs it)).

Definition expired_id (s : ConflictStore) (t : Z) (i : string) : bool :=
  match items s !! i with
  | Some it => expired (purge (policy s)) t it
  | None => false
  end.

Definition shouldRemove (s : ConflictStore) (t : Z) : list string :=
  filter (fun i => expired_id s t i = true) (order s).

Definition delete_all (ids : list string) (m : gmap string ConflictItem)
  : gmap string ConflictItem :=
  fold_left (fun acc i => delete i acc) ids m.

(** [cleanup]: the TTL purge, then the trim to [maxItems] (oldest first). *)
Definition cleanup (s : ConflictStore) (t : Z) : ConflictStore :=
  let s1 :=
    if purge_enabled (purge (policy s)) then
      match shouldRemove s t with
      | [] => s
      | ids =>
          let m := delete_all ids (items s) in
          {| st_localClientTag := st_localClientTag s; policy := policy s;
             items := m;
             order := filter (fun i => is_Some (m !! i)) (order s) |}
      end
    else s in
  let max := maxItems (policy s1) in
  if Z.ltb max (Z.of_nat (length (order s1))) then
    let excess := Z.to_nat (Z.of_nat (length (order s1)) - max) in
    {| st_localClientTag := st_localClientTag s1; policy := policy s1;
       items := delete_all (take excess (order s1)) (items s1);
       order := drop excess (order s1) |}
  else s1.

(** [add], with the two clock reads it makes: [t] for [createdAtMs] (before
    the id is awaited) and [t'] inside [cleanup]. *)
Definition add `{Platform} (s : ConflictStore) (input : AddInput) (t t' : Z)
  : ConflictStore * ConflictItem :=
  let i := makeConflictId (st_localClientTag s) (in_kind input) (in_severity input)
             (in_sourcePeer input) (in_related input)
             (orElse (in_payload input) JUndefined) in
  match items s !! i with
  | Some existing =>
      let next :=
        {| id := id existing;
           createdAtMs := createdAtMs existing;
           updatedAtMs := t;
           severity := escalateSeverity (severity existing) (in_severity input);
           kind := kind existing;
           status := status existing;
           sourcePeer := sourcePeer existing;
           localClientTag := localClientTag existing;
           title := in_title input;
           detail := from_option Some (detail existing) (in_detail input);
           payload := orElse (in_payload input) (payload existing);
           related := Some (related_merge (default related_empty (related existing))
                                          (default related_empty (in_related input)));
           recommendedAction := from_option Some (recommendedAction existing)
                                  (in_recommendedAction input) |} in
      (cleanup {| st_localClientTag := st_localClientTag s; policy := policy s;
                  items := <[i := next]> (items s); order := order s |} t', next)
  | None =>
      let auto :=
        aa_enabled (autoAck (policy s))
        && bool_decide (in_severity input ∈ aa_severities (autoAck (policy s)))
        && bool_decide (in_kind input ∈ aa_kinds (autoAck (policy s))) in
      let it :=
        {| id := i;
           createdAtMs := t;
           updatedAtMs := t;
           severity := in_severity input;
           kind := in_kind input;
           status := if auto then Acked else Open;
           sourcePeer := in_sourcePeer input;
           localClientTag := st_localClientTag s;
           title := in_title input;
           detail := in_detail input;
           payload := in_payload input;
           related := in_related input;
           recommendedAction := Some (default ActNone (in_recommendedAction input)) |} in
      (cleanup {| st_localClientTag := st_localClientTag s; policy := policy s;
                  items := <[i := it]> (items s); order := order s ++ [i] |} t', it)
  end.

(** [setStatus] and the three operator actions. *)
Definition setStatus (s : ConflictStore) (i : string) (st : ConflictStatus) (t t' : Z)
  : ConflictStore * bool :=
  match items s !! i with
  | None => (s, false)
  | Some it =>
      (cleanup {| st_localClientTag := st_localClientTag s; policy := policy s;
                  items := <[i := {| id := id it; createdAtMs := createdAtMs it;
                                     updatedAtMs := t; severity := severity it;
                                     kind := kind it; status := st;
                                     sourcePeer := sourcePeer it;
                                     localClientTag := localClientTag it;
                                     title := title it; detail := detail it;
                                     payload := payload it; related := related it;
                                     recommendedAction := recommendedAction it |}]>
                             (items s);
                  order := order s |} t', true)
  end.

Definition resolve (s : ConflictStore) (i : string) (t t' : Z) : ConflictStore * bool :=
  match items s !! i with
  | None => (s, false)
  | Some it => if bool_decide (status it = Resolved) then (s, false)
               else setStatus s i Resolved t t'
  end.

Definition ignore (s : ConflictStore) (i : string) (t t' : Z) : ConflictStore * bool :=
  match items s !! i with
  | None => (s, false)
  | Some it => if bool_decide (status it = Ignored) then (s, false)
               else setStatus s i Ignored t t'
  end.

Definition ack (s : ConflictStore) (i : string) (t t' : Z) : ConflictStore * bool :=
  match items s !! i with
  | None => (s, false)
  | Some it => if bool_decide (status it = Open) then setStatus s i Acked t t'
               else (s, false)
  end.

End Conflicts.

(** ** Audit log: hash chain, replay, first-divergence locator *)

Module Audit.
Import Js Canonical.

(** [tsMonoMs] comes from [performance.now()]; the verifier only serialises
    it, and it is kept as an integer count here. *)
Record AuditEvent := {
  v : Z;
  sessionId : string;
  clientId : string;
  tsWallMs : Z;
  tsMonoMs : option Z;
  type : string;
  ok : bool;
  docId : option string;
  room : option string;
  runId : option string;
  payload : Json;
  prevHash : option string;
  hash : option string;
}.

Definition opt_str (x : option string) : Json := from_option JStr JNull x.

(** [canonicalLineForHash]: the event without its own [hash], numbered. *)
Definition canonicalLineForHash `{Platform} (e : AuditEvent) (seq : nat) : string :=
  JSON_stringify
    (JObj [("seq", JNum (Z.of_nat seq));
           ("v", JNum (v e));
           ("sessionId", JStr (sessionId e));
           ("clientId", JStr (clientId e));
           ("tsWallMs", JNum (tsWallMs e));
           ("tsMonoMs", from_option JNum JNull (tsMonoMs e));
           ("type", JStr (type e));
           ("ok", JBool (ok e));
           ("docId", opt_str (docId e));
           ("room", opt_str (room e));
           ("runId", opt_str (runId e));
           ("prevHash", opt_str (prevHash e));
           ("payload", orElse (payload e) JNull)]).

Record HashChainResult := {
  hc_ok : bool;
  checked : nat;
  firstBadIndex : option nat;
  reason : option string;
}.

(** A string field that is present and not empty ([!!x]). *)
Definition nonempty (x : option string) : bool :=
  match x with
  | Some s => negb (String.eqb s "")
  | None => false
  end.

(** The loop of [verifyHashChain] from index [i] on, [prev] being the last
    hash seen and [total] the length of the whole log. *)
Fixpoint verify_loop `{Platform} (events : list AuditEvent) (i : nat) (prev : string)
    (total : nat) : HashChainResult :=
  match events with
  | [] => {| hc_ok := true; checked := total; firstBadIndex := None; reason := None |}
  | e :: rest =>
      if negb (nonempty (hash e)) then verify_loop rest (S i) prev total
      else if nonempty (prevHash e)
              && negb (String.eqb (default "" (prevHash e)) prev) then
        {| hc_ok := false; checked := S i; firstBadIndex := Some i;
           reason := Some "prevHash mismatch" |}
      else
        let h := sha256Hex (canonicalLineForHash e i) in
        if negb (String.eqb h "") && negb (String.eqb (default "" (hash e)) h) then
          {| hc_ok := false; checked := S i; firstBadIndex := Some i;
             reason := Some "hash mismatch" |}
        else verify_loop rest (S i) (default prev (hash e)) total
  end.

Definition verifyHashChain `{Platform} (events : list AuditEvent) : HashChainResult :=
  verify_loop events 0 "" (length events).

(** *** Replay (replay/state_store.ts, replay/replay_engine.ts) *)

(** [ReplayStateStore.set]: nothing for a path without segment, otherwise
    the write along the path. The store keeps the value by reference: a
    later write that would go into it, and so into the event it came
    with, leaves the tree ([Outside]). *)
Definition store_set (root : Cell) (path : string) (value : Json) : outcome Cell :=
  match path_parts path with
  | [] => Ok root
  | parts => setByPath_parts root parts value
  end.

(** [sortRec] and [stableStringify]. *)
Fixpoint sortRec (x : Json) : Json :=
  match x with
  | JArr xs => JArr (map sortRec xs)
  | JObj kvs =>
      JObj (sortKeys
              ((fix each (l : list (string * Json)) : list (string * Json) :=
                  match l with
                  | [] => []
                  | (k, v) :: r => (k, sortRec v) :: each r
                  end) kvs))
  | _ => x
  end.

Definition stableStringify `{Platform} (x : Json) : string :=
  JSON_stringify (sortRec x).

Record ReplayMetrics := {
  events_seen : nat;
  appliedSets : nat;
  rejected : nat;
  pipelinesStarted : nat;
  pipelinesFailed : nat;
  finalStateHashHex : string;
}.

(** [allowed]: no prefix list, or an empty one, lets every path through. *)
Definition allowed (path : string) (prefixes : list string) : bool :=
  match prefixes with
  | [] => true
  | _ => existsb (fun p => startsWith path p) prefixes
  end.

(** [payload?.k]. *)
Definition opt_get (x : Json) (k : string) : Json :=
  if nullish x then JUndefined else js_get x k.

Definition extractSetOpsFromNlActions (pl : Json) : list (string * Json) :=
  match opt_get pl "actions" with
  | JArr actions =>
      flat_map
        (fun a =>
           if negb (truthy a) || negb (JsType_eqb (typeof a) TObject) then []
           else match js_get a "type" with
                | JStr "set_value" =>
                    let p := js_String (orElse (js_get a "path") (JStr "")) in
                    if String.eqb p "" then [] else [(p, js_get a "value")]
                | _ => []
                end)
        actions
  | _ => []
  end.

Definition extractSetFromCrdt (pl : Json) : option (string * Json) :=
  let p := if truthy (opt_get pl "path") then pl else opt_get pl "set" in
  if negb (truthy p) then None
  else
    let pa := js_String (orElse (js_get p "path") (JStr "")) in
    if String.eqb pa "" then None else Some (pa, js_get p "value").

(** The running state of [replayAuditLog]. *)
Record ReplayAcc := {
  root : Cell;
  n_applied : nat;
  n_rejected : nat;
  n_started : nat;
  n_failed : nat;
}.

Definition apply_set (prefixes : list string) (acc : ReplayAcc) (s : string * Json)
  : outcome ReplayAcc :=
  if negb (allowed s.1 prefixes) then
    Ok {| root := root acc; n_applied := n_applied acc; n_rejected := S (n_rejected acc);
          n_started := n_started acc; n_failed := n_failed acc |}
  else
    r ← store_set (root acc) s.1 s.2;
    Ok {| root := r; n_applied := S (n_applied acc); n_rejected := n_rejected acc;
          n_started := n_started acc; n_failed := n_failed acc |}.

Fixpoint apply_sets (prefixes : list string) (acc : ReplayAcc)
    (sets : list (string * Json)) : outcome ReplayAcc :=
  match sets with
  | [] => Ok acc
  | s :: r => acc' ← apply_set prefixes acc s; apply_sets prefixes acc' r
  end.

Definition replay_event (prefixes : list string) (acc : ReplayAcc) (e : AuditEvent)
  : outcome ReplayAcc :=
  if String.eqb (type e) "nl.actions" && ok e then
    apply_sets prefixes acc (extractSetOpsFromNlActions (payload e))
  else if String.eqb (type e) "crdt.set" && ok e then
    match extractSetFromCrdt (payload e) with
    | None => Ok acc
    | Some s => apply_set prefixes acc s
    end
  else
    let started := if String.eqb (type e) "pipeline.start" && ok e
                   then S (n_started acc) else n_started acc in
    let failed := if String.eqb (type e) "pipeline.fail" && negb (ok e)
                  then S (n_failed acc) else n_failed acc in
    Ok {| root := root acc; n_applied := n_applied acc; n_rejected := n_rejected acc;
          n_started := started; n_failed := failed |}.

Fixpoint replay_loop (prefixes : list string) (acc : ReplayAcc)
    (events : list AuditEvent) : outcome ReplayAcc :=
  match events with
  | [] => Ok acc
  | e :: r => acc' ← replay_event prefixes acc e; replay_loop prefixes acc' r
  end.

Definition replayAuditLog `{Platform} (events : list AuditEvent)
    (allowedPrefixes : list string) : outcome (Json * ReplayMetrics) :=
  acc ← replay_loop allowedPrefixes
         {| root := Node []; n_applied := 0; n_rejected := 0; n_started := 0;
            n_failed := 0 |} events;
  Ok (seal (root acc),
      {| events_seen := length events;
         appliedSets := n_applied acc;
         rejected := n_rejected acc;
         pipelinesStarted := n_started acc;
         pipelinesFailed := n_failed acc;
         finalStateHashHex := sha256Hex (stableStringify (seal (root acc))) |}).

(** *** First-divergence locator (replay/first_divergence.ts) *)

(** [prefixHash]: replay of [events.slice(0, n)], hashed. *)
Definition prefixHash `{Platform} (events : list AuditEvent) (n : nat)
    (allowedPrefixes : list string) : outcome string :=
  r ← replayAuditLog (take n events) allowedPrefixes;
  Ok (sha256Hex (stableStringify r.1)).

Record FirstDivergenceResult := {
  fd_ok : bool;
  firstIndex : option Z;
  leftHash : option string;
  rightHash : option string;
  note : option string;
}.

(** A computation that counts the prefix replays it makes. *)
Definition Counted (A : Type) : Type := nat -> outcome (A * nat).

Definition cret {A} (a : A) : Counted A := fun n => Ok (a, n).

Definition cbind {A B} (m : Counted A) (k : A -> Counted B) : Counted B :=
  fun n => r ← m n; k r.1 r.2.

(** One call of [prefixHash] on each log is two replays. *)
Definition bothHashes `{Platform} (eventsA eventsB : list AuditEvent) (n : Z)
    (allowedPrefixes : list string) : Counted (string * string) :=
  fun c =>
    ha ← prefixHash eventsA (Z.to_nat n) allowedPrefixes;
    hb ← prefixHash eventsB (Z.to_nat n) allowedPrefixes;
    Ok ((ha, hb), (c + 2)%nat).

(** The [while (lo <= hi)] loop. [fuel] bounds the number of rounds; [None]
    is returned only if it runs out before the loop ends. *)
Fixpoint search `{Platform} (fuel : nat) (eventsA eventsB : list AuditEvent)
    (allowedPrefixes : list string) (lo hi first : Z) : Counted (option Z) :=
  if Z.ltb hi lo then cret (Some first)
  else
    match fuel with
    | O => cret None
    | S fuel' =>
        let mid := (lo + hi) / 2 in
        cbind (bothHashes eventsA eventsB mid allowedPrefixes)
          (fun h =>
             if String.eqb h.1 h.2
             then search fuel' eventsA eventsB allowedPrefixes (mid + 1) hi first
             else search fuel' eventsA eventsB allowedPrefixes lo (mid - 1) mid)
    end.

(** [findFirstDivergence]; the result is [None] only if the loop ran out of
    fuel, which [nMax] rounds never do. *)
Definition findFirstDivergence `{Platform} (eventsA eventsB : list AuditEvent)
    (allowedPrefixes : list string) : Counted (option FirstDivergenceResult) :=
  let nMax := Z.of_nat (Nat.min (length eventsA) (length eventsB)) in
  cbind (bothHashes eventsA eventsB nMax allowedPrefixes)
    (fun hEnd =>
       if String.eqb hEnd.1 hEnd.2 then
         if Nat.eqb (length eventsA) (length eventsB) then
           cret (Some {| fd_ok := true; firstIndex := None; leftHash := None;
                         rightHash := None; note := None |})
         else
           cret (Some {| fd_ok := false; firstIndex := Some (nMax + 1);
                         leftHash := Some hEnd.1; rightHash := Some "";
                         note := Some "States match through min length; divergence may occur after due to extra events in one log." |})
       else
         cbind (search (Z.to_nat nMax) eventsA eventsB allowedPrefixes 1 nMax nMax)
           (fun found =>
              match found with
              | None => cret None
              | Some first =>
                  let leftIdx := Z.max 0 (first - 1) in
                  cbind (bothHashes eventsA eventsB leftIdx allowedPrefixes)
                    (fun l =>
                       let leftH := if String.eqb l.1 l.2 then l.1 else "" in
                       cbind (bothHashes eventsA eventsB first allowedPrefixes)
                         (fun r =>
                            cret (Some {| fd_ok := false; firstIndex := Some first;
                                          leftHash := Some leftH;
                                          rightHash := Some (r.1 +:+ "|" +:+ r.2);
                                          note := None |})))
              end)).

End Audit.

(** ** Bounded deep-diff divergence report *)

Module Diff.
Import Js Canonical.

Inductive DiffKind := KType | KValue | KMissingLocal | KMissingRef.

Record DiffItem := {
  path : string;
  local : Json;
  ref : Json;
  kind : DiffKind;
}.

Record DivergenceReportOptions := {
  maxDiffs : Z;
  maxDepth : Z;
  maxValueChars : Z;
}.

Definition DEFAULTS : DivergenceReportOptions :=
  {| maxDiffs := 50; maxDepth := 12; maxValueChars := 240 |}.

Record DivergenceReport := {
  ok : bool;
  localHash : string;
  refHash : string;
  firstMismatchPath : option string;
  diffs : list DiffItem;
}.

(** [sortRec] of this file has the text of the replay store's. *)
Definition stableStringify `{Platform} (x : Json) : string :=
  JSON_stringify (Audit.sortRec x).

Definition isObj (x : Json) : bool :=
  match x with JObj _ => true | _ => false end.

(** [s.slice(0, e)], in code units: a negative [e] counts from the end. *)
Definition slice0 (s : string) (e : Z) : string :=
  if Z.ltb e 0 then of_units (take (Z.to_nat (Z.max 0 (strlen s + e))) (units s))
  else of_units (take (Z.to_nat (Z.min e (strlen s))) (units s)).

Definition ellipsis : string := "…".

Definition clipText (s : string) (maxChars : Z) : string :=
  if Z.ltb maxChars (strlen s) then slice0 s maxChars +:+ ellipsis else s.

Definition clipValue `{Platform} (x : Json) (maxChars : Z) : Json :=
  match x with
  | JNull | JUndefined => x
  | JStr s => JStr (clipText s maxChars)
  | JNum _ | JNaN | JBool _ => x
  | _ => JStr (clipText (JSON_stringify x) maxChars)
  end.

(** [/^[a-zA-Z_$][a-zA-Z0-9_$]*$/]. *)
Definition ident_start (c : ascii) : bool :=
  let n := nat_of_ascii c in
  ((65 <=? n) && (n <=? 90) || (97 <=? n) && (n <=? 122)
   || (n =? 95) || (n =? 36))%nat.

Definition ident_part (c : ascii) : bool := ident_start c || is_digit c.

Fixpoint all_ident_part (s : string) : bool :=
  match s with
  | EmptyString => true
  | String c r => ident_part c && all_ident_part r
  end.

Definition is_identifier (s : string) : bool :=
  match s with
  | EmptyString => false
  | String c r => ident_start c && all_ident_part r
  end.

(** [k.replaceAll('"', '\\"')]. *)
Fixpoint escape_quotes (s : string) : string :=
  match s with
  | EmptyString => EmptyString
  | String c r =>
      if Ascii.eqb c (ascii_of_nat 34)
      then String (ascii_of_nat 92) (String c (escape_quotes r))
      else String c (escape_quotes r)
  end.

Definition quote : string := String (ascii_of_nat 34) EmptyString.

(** [pathJoin], for a number key and for a string key. *)
Definition pathJoin_index (base : string) (i : nat) : string :=
  if String.eqb base "" then index_key i
  else base +:+ "[" +:+ index_key i +:+ "]".

Definition pathJoin_key (base : string) (k : string) : string :=
  if String.eqb base "" then k
  else if is_identifier k then base +:+ "." +:+ k
  else base +:+ "[" +:+ quote +:+ escape_quotes k +:+ quote +:+ "]".

(** The two accumulators [deepDiff] writes to: [out] and [first.path]. *)
Record Acc := {
  out : list DiffItem;
  first : option string;
}.

Definition full (a : Acc) (opts : DivergenceReportOptions) : bool :=
  Z.leb (maxDiffs opts) (Z.of_nat (length (out a))).

(** [!first.path]. *)
Definition no_first (a : Acc) : bool :=
  match first a with
  | Some s => String.eqb s ""
  | None => true
  end.

(** [if (!first.path) first.path = p; pushDiff(out, item, opts)]. *)
Definition record `{Platform} (a : Acc) (p : string) (l r : Json) (k : DiffKind)
    (opts : DivergenceReportOptions) : Acc :=
  let f := if no_first a then Some p else first a in
  if full a opts then {| out := out a; first := f |}
  else {| out := out a ++ [{| path := p;
                             local := clipValue l (maxValueChars opts);
                             ref := clipValue r (maxValueChars opts);
                             kind := k |}];
          first := f |}.

(** [local === ref] on two values that are not one and the same object:
    equal primitives, [NaN] being equal to nothing. *)
Definition strict_eq (a b : Json) : bool :=
  match a, b with
  | JUndefined, JUndefined | JNull, JNull => true
  | JBool x, JBool y => Bool.eqb x y
  | JNum x, JNum y => Z.eqb x y
  | JStr x, JStr y => String.eqb x y
  | _, _ => false
  end.

(** [Array.isArray(x) ? "array" : typeof x]. *)
Definition diff_type (x : Json) : JsType :=
  if isArray x then TArray else typeof x.

(** [basePath || "(root)"]. *)
Definition or_root (basePath : string) : string :=
  if String.eqb basePath "" then "(root)" else basePath.

(** The keys of both objects, without repetition, sorted. *)
Fixpoint dedup_keys (l : list string) (seen : list string) : list string :=
  match l with
  | [] => []
  | k :: r => if bool_decide (k ∈ seen) then dedup_keys r seen
              else k :: dedup_keys r (k :: seen)
  end.

Definition union_keys (a b : list (string * Json)) : list string :=
  sort_strings (dedup_keys (obj_keys a ++ obj_keys b) []).

(** The [for] loop of [deepDiff] over two arrays, [n] rounds from index
    [i]; [rec] is the nested call on two elements and their path. *)
Fixpoint array_loop `{Platform} (rec : Json -> Json -> string -> Acc -> Acc)
    (xs ys : list Json) (basePath : string) (opts : DivergenceReportOptions)
    (n i : nat) (a : Acc) : Acc :=
  match n with
  | O => a
  | S n' =>
      if full a opts then a
      else if (length xs <=? i)%nat then
        array_loop rec xs ys basePath opts n' (S i)
          (record a (pathJoin_index basePath i) JUndefined
             (default JUndefined (ys !! i)) KMissingLocal opts)
      else if (length ys <=? i)%nat then
        array_loop rec xs ys basePath opts n' (S i)
          (record a (pathJoin_index basePath i)
             (default JUndefined (xs !! i)) JUndefined KMissingRef opts)
      else
        let a' := rec (default JUndefined (xs !! i)) (default JUndefined (ys !! i))
                    (pathJoin_index basePath i) a in
        if negb (no_first a') && full a' opts then a'
        else array_loop rec xs ys basePath opts n' (S i) a'
  end.

(** The [for] loop of [deepDiff] over the sorted keys of two objects. *)
Fixpoint object_loop `{Platform} (rec : Json -> Json -> string -> Acc -> Acc)
    (kl kr : list (string * Json)) (basePath : string)
    (opts : DivergenceReportOptions) (keys : list string) (a : Acc) : Acc :=
  match keys with
  | [] => a
  | k :: rest =>
      if full a opts then a
      else
        let p := pathJoin_key basePath k in
        match obj_get k kl, obj_get k kr with
        | None, Some vr =>
            object_loop rec kl kr basePath opts rest
              (record a p JUndefined vr KMissingLocal opts)
        | Some vl, None =>
            object_loop rec kl kr basePath opts rest
              (record a p vl JUndefined KMissingRef opts)
        | Some vl, Some vr =>
            object_loop rec kl kr basePath opts rest (rec vl vr p a)
        | None, None =>
            object_loop rec kl kr basePath opts rest (rec JUndefined JUndefined p a)
        end
  end.

(** [deepDiff]. Each nested call is one level deeper and a call past
    [maxDepth] returns at once, so the recursion is on a counter [fuel] of
    levels still allowed; [firstDivergenceReport] starts it above
    [maxDepth], where the depth test always fires first. *)
Fixpoint deepDiff `{Platform} (fuel : nat) (l r : Json) (basePath : string)
    (depth : Z) (a : Acc) (opts : DivergenceReportOptions) : Acc :=
  match fuel with
  | O => a
  | S fuel' =>
  if full a opts then a
  else if Z.ltb (maxDepth opts) depth then a
  else if strict_eq l r then a
  else if negb (JsType_eqb (diff_type l) (diff_type r)) then
    record a (or_root basePath) l r KType opts
  else
    match l, r with
    | JArr xs, JArr ys =>
        array_loop (fun x y p acc => deepDiff fuel' x y p (depth + 1) acc opts)
          xs ys basePath opts (Nat.max (length xs) (length ys)) 0%nat a
    | JObj kl, JObj kr =>
        object_loop (fun x y p acc => deepDiff fuel' x y p (depth + 1) acc opts)
          kl kr basePath opts (union_keys kl kr) a
    | _, _ => record a (or_root basePath) l r KValue opts
    end
  end.

Definition levels (opts : DivergenceReportOptions) : nat :=
  S (S (Z.to_nat (maxDepth opts))).

(** [firstDivergenceReport], with [options] already merged over
    [DEFAULTS]; the audit entry it appends has no part in the result. *)
Definition firstDivergenceReport `{Platform} (l r : Json)
    (o : DivergenceReportOptions) : DivergenceReport :=
  let l0 := orElse l (JObj []) in
  let r0 := orElse r (JObj []) in
  let a := deepDiff (levels o) l0 r0 "" 0 {| out := []; first := None |} o in
  {| ok := Nat.eqb (length (out a)) 0;
     localHash := sha256Hex (stableStringify l0);
     refHash := sha256Hex (stableStringify r0);
     firstMismatchPath := first a;
     diffs := out a |}.

End Diff.

(** ** Schema upgrade coordinator (crdt_upgrade/upgrade_manager.ts) *)

Module Upgrade.
Import Js Canonical.

Inductive UpgradeRole := Host | Editor | Viewer.

Inductive UpgradePhase :=
| Idle | Proposed | Voting | Approved | Applying | Verifying | Completed
| Failed | Aborted.

Record CRDTMeta := {
  schemaVersion : string;
  stateHash : string;
  meta_atMs : Z;
}.

Record UpgradeContext := {
  role : UpgradeRole;
  isCollaborative : bool;
  clientTag : string;
}.

Record PlanStep := {
  step_id : string;
  step_from : string;
  step_to : string;
  description : string;
}.

Record UpgradePlan := {
  planId : string;
  plan_from : string;
  plan_to : string;
  steps : list PlanStep;
}.

Record Precheck := {
  pre_ok : bool;
  notes : list string;
  fromMeta : option CRDTMeta;
}.

Record UpgradeProposal := {
  proposalId : string;
  createdAtMs : Z;
  createdBy : string;
  plan : UpgradePlan;
  precheck : Precheck;
}.

Inductive Ballot := approve | reject.

#[global] Instance Ballot_eq_dec : EqDecision Ballot.
Proof. solve_decision. Defined.

Record UpgradeVote := {
  vote_proposalId : string;
  from : string;
  vote_atMs : Z;
  vote : Ballot;
  vote_reason : option string;
}.

Record UpgradeStatus := {
  status_proposalId : string;
  status_phase : UpgradePhase;
  status_atMs : Z;
  error : option string;
}.

Record Peer := {
  peer_clientTag : string;
  peer_schemaVersion : option string;
  peer_stateHash : option string;
}.

Record UpgradeSnapshot := {
  atMs : Z;
  phase : UpgradePhase;
  peers : list Peer;
  proposal : option UpgradeProposal;
  status : option UpgradeStatus;
}.

(** The manager: its context, [snapshotState] and the [votes] map, keyed
    by the voter's client tag. *)
Record Manager := {
  ctx : UpgradeContext;
  snapshotState : UpgradeSnapshot;
  votes : gmap string UpgradeVote;
}.

Definition new_manager (c : UpgradeContext) (t : Z) : Manager :=
  {| ctx := c;
     snapshotState := {| atMs := t; phase := Idle; peers := []; proposal := None;
                         status := None |};
     votes := ∅ |}.

Definition setPeers (m : Manager) (ps : list Peer) (t : Z) : Manager :=
  {| ctx := ctx m;
     snapshotState := {| atMs := t; phase := phase (snapshotState m); peers := ps;
                         proposal := proposal (snapshotState m);
                         status := status (snapshotState m) |};
     votes := votes m |}.

(** JSON images of the records that are hashed. *)
Definition meta_json (m : CRDTMeta) : Json :=
  JObj [("schemaVersion", JStr (schemaVersion m));
        ("stateHash", JStr (stateHash m));
        ("atMs", JNum (meta_atMs m))].

Definition step_json (s : PlanStep) : Json :=
  JObj [("id", JStr (step_id s)); ("from", JStr (step_from s));
        ("to", JStr (step_to s)); ("description", JStr (description s))].

Definition planCore_json (from to : string) (ss : list PlanStep) : Json :=
  JObj [("v", JNum 1); ("from", JStr from); ("to", JStr to);
        ("steps", JArr (map step_json ss))].

Definition plan_json (p : UpgradePlan) : Json :=
  JObj [("v", JNum 1); ("from", JStr (plan_from p)); ("to", JStr (plan_to p));
        ("steps", JArr (map step_json (steps p))); ("planId", JStr (planId p))].

Definition precheck_json (p : Precheck) : Json :=
  JObj ([("ok", JBool (pre_ok p)); ("notes", JArr (map JStr (notes p)))]
        ++ match fromMeta p with
           | Some m => [("fromMeta", meta_json m)]
           | None => []
           end).

(** [proposalCore]: the proposal without [proposalId] and [createdAtMs]. *)
Definition proposalCore_json (by_ : string) (pl : UpgradePlan) (pre : Precheck) : Json :=
  JObj [("v", JNum 1); ("createdBy", JStr by_); ("plan", plan_json pl);
        ("precheck", precheck_json pre)].

Definition str_take (n : nat) (s : string) : string := String.substring 0 n s.

(** [MigrationRegistry.makePlan], given the steps [findPlan] found. *)
Definition makePlan `{Platform} (from to : string) (found : list PlanStep) : UpgradePlan :=
  {| planId := "p_" +:+ str_take 20 (sha256Hex (canonicalJSONStringify
                                                  (planCore_json from to found)));
     plan_from := from;
     plan_to := to;
     steps := found |}.

Definition proposal_id `{Platform} (by_ : string) (pl : UpgradePlan) (pre : Precheck)
  : string :=
  "u_" +:+ str_take 20 (sha256Hex (canonicalJSONStringify (proposalCore_json by_ pl pre))).

(** What a call returns to its caller. *)
Record Reply := {
  reply_ok : bool;
  message : string;
}.

(** [proposeUpgrade]. [fromMeta] is what [crdt.getMeta()] answers and
    [planned] what [registry.makePlan(from, to)] does with it: the steps
    found, or the message of the error thrown. [t] is the clock at
    [createdAtMs] and [t'] at the later reads. The result carries the
    proposal that is broadcast, when there is one. *)
Definition proposeUpgrade `{Platform} (m : Manager) (target : string)
    (fromMeta_ : CRDTMeta) (planned : string + list PlanStep) (t t' : Z)
  : Manager * option UpgradeProposal * Reply :=
  if isCollaborative (ctx m) && negb (match role (ctx m) with Host => true | _ => false end)
  then (m, None, {| reply_ok := false;
                    message := "only host can propose schema upgrade in collaborative mode" |})
  else
    let from_ := schemaVersion fromMeta_ in
    if String.eqb from_ target
    then (m, None, {| reply_ok := false; message := "already at target schema version" |})
    else
      match planned with
      | inl err => (m, None, {| reply_ok := false; message := err |})
      | inr found =>
          let pl := makePlan from_ target found in
          let pre := {| pre_ok := true; notes := []; fromMeta := Some fromMeta_ |} in
          let pid := proposal_id (clientTag (ctx m)) pl pre in
          let p := {| proposalId := pid; createdAtMs := t;
                      createdBy := clientTag (ctx m); plan := pl; precheck := pre |} in
          ({| ctx := ctx m;
              snapshotState :=
                {| atMs := t'; phase := Proposed; peers := peers (snapshotState m);
                   proposal := Some p;
                   status := Some {| status_proposalId := pid; status_phase := Proposed;
                                     status_atMs := t'; error := None |} |};
              votes := ∅ |},
           Some p,
           {| reply_ok := true;
              message := "proposed upgrade " +:+ from_ +:+ " -> " +:+ target |})
      end.

(** [vote]: the local ballot on the tracked proposal. *)
Definition cast (m : Manager) (b : Ballot) (why : option string) (t : Z)
  : Manager * Reply :=
  match proposal (snapshotState m) with
  | None => (m, {| reply_ok := false; message := "no active proposal" |})
  | Some p =>
      let v := {| vote_proposalId := proposalId p; from := clientTag (ctx m);
                  vote_atMs := t; vote := b; vote_reason := why |} in
      ({| ctx := ctx m; snapshotState := snapshotState m;
          votes := <[from v := v]> (votes m) |},
       {| reply_ok := true;
          message := "voted " +:+ match b with approve => "approve" | reject => "reject" end |})
  end.

(** [onUpgradeMsg] for a vote from a peer: kept only for the tracked
    proposal. *)
Definition onVote (m : Manager) (v : UpgradeVote) : Manager :=
  match proposal (snapshotState m) with
  | None => m
  | Some p =>
      if negb (String.eqb (proposalId p) "") && String.eqb (vote_proposalId v) (proposalId p)
      then {| ctx := ctx m; snapshotState := snapshotState m;
              votes := <[from v := v]> (votes m) |}
      else m
  end.

(** [onUpgradeMsg] for a proposal from a peer. *)
Definition onPropose (m : Manager) (p : UpgradeProposal) (t : Z) : Manager :=
  {| ctx := ctx m;
     snapshotState :=
       {| atMs := t; phase := Voting; peers := peers (snapshotState m);
          proposal := Some p;
          status := Some {| status_proposalId := proposalId p; status_phase := Voting;
                            status_atMs := t; error := None |} |};
     votes := ∅ |}.

Inductive Quorum := QAll | QMajority.

Record Approval := {
  approved : bool;
  approval_reason : string;
}.

(** The votes of the map that name the proposal [pid], and their count by
    ballot. *)
Definition votes_on (m : Manager) (pid : string) : list UpgradeVote :=
  filter (fun v => vote_proposalId v = pid) (map snd (map_to_list (votes m))).

Definition count_ballot (b : Ballot) (vs : list UpgradeVote) : Z :=
  Z.of_nat (length (filter (fun v => vote v = b) vs)).

(** [isApproved]. *)
Definition isApproved (m : Manager) (quorum : Quorum) : Approval :=
  match proposal (snapshotState m) with
  | None => {| approved := false; approval_reason := "no proposal" |}
  | Some p =>
      let peerCount := Z.of_nat (length (peers (snapshotState m))) + 1 in
      let vs := votes_on m (proposalId p) in
      let approves := count_ballot approve vs in
      let rejects := count_ballot reject vs in
      if Z.ltb 0 rejects then {| approved := false; approval_reason := "rejected" |}
      else
        match quorum with
        | QAll =>
            {| approved := Z.leb peerCount approves;
               approval_reason := "approves=" +:+ pretty approves +:+ "/" +:+ pretty peerCount |}
        | QMajority =>
            let need := peerCount / 2 + 1 in
            {| approved := Z.leb need approves;
               approval_reason := "approves=" +:+ pretty approves +:+ "/" +:+ pretty need |}
        end
  end.

End Upgrade.

(** ** A platform to evaluate with *)

(** [json_text] is [JSON.stringify] on [Json] (text without control
    characters): an [undefined] entry of an object is left out, an
    [undefined] element of an array and [NaN] are written [null]. [tagged_text] stands
    in for the digest where a concrete one is needed: it is injective, so
    two digests are equal exactly when the hashed texts are, and it is never
    empty. *)
Module Reference.
Import Js.

Fixpoint escape (s : string) : string :=
  match s with
  | EmptyString => EmptyString
  | String c r =>
      if Ascii.eqb c (ascii_of_nat 34) || Ascii.eqb c (ascii_of_nat 92)
      then String (ascii_of_nat 92) (String c (escape r))
      else String c (escape r)
  end.

Definition quoted (s : string) : string := Diff.quote +:+ escape s +:+ Diff.quote.

Fixpoint json_text (x : Json) : string :=
  match x with
  | JUndefined => "null"
  | JNull => "null"
  | JBool true => "true"
  | JBool false => "false"
  | JNum n => pretty n
  | JNaN => "null"
  | JStr s => quoted s
  | JArr xs =>
      "[" +:+
      (fix elems (l : list Json) : string :=
         match l with
         | [] => ""
         | [y] => json_text y
         | y :: r => json_text y +:+ "," +:+ elems r
         end) xs
      +:+ "]"
  | JObj kvs =>
      "{" +:+
      (fix members (l : list (string * Json)) (sep : string) : string :=
         match l with
         | [] => ""
         | (k, JUndefined) :: r => members r sep
         | (k, y) :: r => sep +:+ quoted k +:+ ":" +:+ json_text y +:+ members r ","
         end) kvs ""
      +:+ "}"
  end.

Definition tagged_text (s : string) : string := "#" +:+ s.

#[global] Instance platform : Platform :=
  {| sha256Hex := tagged_text; JSON_stringify := json_text |}.

End Reference.

(** ** Conflict store: counters, listing, bulk acknowledgement *)

Module ConflictViews.
Import Js Conflicts.

(** [clampLimit]. *)
Definition clampLimit (n : option Z) (max : Z) : Z :=
  match n with
  | None => max
  | Some n => Z.max 1 (Z.min max n)
  end.

Record ConflictCounts := {
  n_open : nat;
  n_acked : nat;
  n_resolved : nat;
  n_ignored : nat;
  n_criticalOpen : nat;
}.

Definition no_counts : ConflictCounts :=
  {| n_open := 0; n_acked := 0; n_resolved := 0; n_ignored := 0; n_criticalOpen := 0 |}.

(** The body of the loop of [counts]. *)
Definition count_item (c : ConflictCounts) (it : ConflictItem) : ConflictCounts :=
  match status it with
  | Open =>
      {| n_open := S (n_open c); n_acked := n_acked c; n_resolved := n_resolved c;
         n_ignored := n_ignored c;
         n_criticalOpen := if bool_decide (severity it = Critical)
                           then S (n_criticalOpen c) else n_criticalOpen c |}
  | Acked =>
      {| n_open := n_open c; n_acked := S (n_acked c); n_resolved := n_resolved c;
         n_ignored := n_ignored c; n_criticalOpen := n_criticalOpen c |}
  | Resolved =>
      {| n_open := n_open c; n_acked := n_acked c; n_resolved := S (n_resolved c);
         n_ignored := n_ignored c; n_criticalOpen := n_criticalOpen c |}
  | Ignored =>
      {| n_open := n_open c; n_acked := n_acked c; n_resolved := n_resolved c;
         n_ignored := S (n_ignored c); n_criticalOpen := n_criticalOpen c |}
  end.

(** [counts]: one pass over [items.values()]. *)
Definition counts (s : ConflictStore) : ConflictCounts :=
  fold_left count_item (snd <$> map_to_list (items s)) no_counts.

(** The query of [list]: an absent field and the value ["any"] are [None]. *)
Record ConflictQuery := {
  q_status : option ConflictStatus;
  q_severity : option ConflictSeverity;
  q_kind : option ConflictKind;
  q_text : option string;
  q_limit : option Z;
}.

(** [s.includes(t)]. *)
Definition includes (s t : string) : bool :=
  bool_decide (is_Some (String.index 0 t s)).

Section Listing.
(** [String.prototype.toLowerCase]. *)
Variable toLowerCase : string -> string.

Definition text_matches (t : string) (x : ConflictItem) : bool :=
  includes (toLowerCase (title x +:+ " " +:+ default "" (detail x))) (toLowerCase t).

(** [list], with the clock read of its [cleanup]. The limit is an integer. *)
Definition list_ (s : ConflictStore) (q : ConflictQuery) (t : Z)
  : ConflictStore * list ConflictItem :=
  let s' := cleanup s t in
  let limit := clampLimit (q_limit q) 500 in
  let out := omap (fun i => items s' !! i) (reverse (order s')) in
  let out := match q_status q with
             | Some st => filter (fun x => status x = st) out | None => out end in
  let out := match q_severity q with
             | Some sv => filter (fun x => severity x = sv) out | None => out end in
  let out := match q_kind q with
             | Some k => filter (fun x => kind x = k) out | None => out end in
  let out := match q_text q with
             | Some tx => if bool_decide (tx = "") then out
                          else filter (fun x => text_matches tx x = true) out
             | None => out end in
  (s', take (Z.to_nat limit) out).

End Listing.

(** The test of [autoAckEligible] on one record. *)
Definition eligible (p : ConflictPolicy) (it : ConflictItem) : bool :=
  aa_enabled (autoAck p)
  && bool_decide (severity it ∈ aa_severities (autoAck p))
  && bool_decide (kind it ∈ aa_kinds (autoAck p)).

Definition acked_at (it : ConflictItem) (t : Z) : ConflictItem :=
  {| id := id it; createdAtMs := createdAtMs it; updatedAtMs := t;
     severity := severity it; kind := kind it; status := Acked;
     sourcePeer := sourcePeer it; localClientTag := localClientTag it;
     title := title it; detail := detail it; payload := payload it;
     related := related it; recommendedAction := recommendedAction it |}.

(** One round of the loop of [autoAckEligible]; [clock n] is the reading of
    the clock when [n] records have been acknowledged. *)
Definition ack_round (p : ConflictPolicy) (clock : nat -> Z)
    (acc : gmap string ConflictItem * nat) (i : string)
  : gmap string ConflictItem * nat :=
  match acc.1 !! i with
  | None => acc
  | Some it =>
      if bool_decide (status it = Open) then
        if eligible p it then (<[i := acked_at it (clock acc.2)]> acc.1, S acc.2)
        else acc
      else acc
  end.

(** [autoAckEligible]; [t'] is the clock read of [cleanup]. *)
Definition autoAckEligible (s : ConflictStore) (clock : nat -> Z) (t' : Z)
  : ConflictStore * nat :=
  let r := fold_left (ack_round (policy s) clock) (order s) (items s, 0%nat) in
  let s1 := {| st_localClientTag := st_localClientTag s; policy := policy s;
               items := r.1; order := order s |} in
  match r.2 with
  | O => (s1, O)
  | n => (cleanup s1 t', n)
  end.

(** [setPolicy]: the fields given replace the store's; [autoAck] and
    [purge] are given whole or not at all. *)
Record PolicyPatch := {
  pp_maxItems : option Z;
  pp_autoAck : option AutoAck;
  pp_purge : option Purge;
}.

Definition setPolicy (s : ConflictStore) (p : PolicyPatch) : ConflictStore :=
  {| st_localClientTag := st_localClientTag s;
     policy := {| maxItems := default (maxItems (policy s)) (pp_maxItems p);
                  autoAck := default (autoAck (policy s)) (pp_autoAck p);
                  purge := default (purge (policy s)) (pp_purge p) |};
     items := items s; order := order s |}.

End ConflictViews.

(** ** Audit logger *)

Module AuditLog.
Import Js Audit.

(** The logger's own copy of [canonicalLineForHash]. *)
Definition canonicalLineForHash `{Platform} (e : AuditEvent) (seq : nat) : string :=
  JSON_stringify
    (JObj [("seq", JNum (Z.of_nat seq));
           ("v", JNum (v e));
           ("sessionId", JStr (sessionId e));
           ("clientId", JStr (clientId e));
           ("tsWallMs", JNum (tsWallMs e));
           ("tsMonoMs", from_option JNum JNull (tsMonoMs e));
           ("type", JStr (type e));
           ("ok", JBool (ok e));
           ("docId", opt_str (docId e));
           ("room", opt_str (room e));
           ("runId", opt_str (runId e));
           ("prevHash", opt_str (prevHash e));
           ("payload", orElse (payload e) JNull)]).

(** The argument [extra] of [log]: the fields it carries override the
    logger's; a field it does not carry is [None]. *)
Record Extra := {
  x_v : option Z;
  x_sessionId : option string;
  x_clientId : option string;
  x_tsWallMs : option Z;
  x_tsMonoMs : option Z;
  x_type : option string;
  x_ok : option bool;
  x_docId : option string;
  x_room : option string;
  x_runId : option string;
  x_payload : option Json;
  x_prevHash : option string;
  x_hash : option string;
}.

Definition no_extra : Extra :=
  {| x_v := None; x_sessionId := None; x_clientId := None; x_tsWallMs := None;
     x_tsMonoMs := None; x_type := None; x_ok := None; x_docId := None;
     x_room := None; x_runId := None; x_payload := None; x_prevHash := None;
     x_hash := None |}.

(** The logger: its options, [prevHash], [seq], and the events handed to
    the sink, oldest first. *)
Record AuditLogger := {
  lo_sessionId : string;
  lo_clientId : string;
  enableHashChain : bool;
  redact : AuditEvent -> AuditEvent;
  lg_prevHash : string;
  lg_seq : nat;
  written : list AuditEvent;
}.

(** The constructor: hashing is on and nothing is redacted unless the
    options say otherwise. *)
Definition new_logger (sid cid : string) (enable : option bool)
    (red : option (AuditEvent -> AuditEvent)) : AuditLogger :=
  {| lo_sessionId := sid; lo_clientId := cid;
     enableHashChain := default true enable;
     redact := default (fun e => e) red;
     lg_prevHash := ""; lg_seq := 0; written := [] |}.

Definition set_prevHash (e : AuditEvent) (p : option string) : AuditEvent :=
  {| v := v e; sessionId := sessionId e; clientId := clientId e;
     tsWallMs := tsWallMs e; tsMonoMs := tsMonoMs e; type := type e; ok := ok e;
     docId := docId e; room := room e; runId := runId e; payload := payload e;
     prevHash := p; hash := hash e |}.

Definition set_hash (e : AuditEvent) (h : option string) : AuditEvent :=
  {| v := v e; sessionId := sessionId e; clientId := clientId e;
     tsWallMs := tsWallMs e; tsMonoMs := tsMonoMs e; type := type e; ok := ok e;
     docId := docId e; room := room e; runId := runId e; payload := payload e;
     prevHash := prevHash e; hash := h |}.

(** One awaited call of [log]; [wall] and [mono] are the readings of
    [Date.now()] and [performance.now()]. *)
Definition log `{Platform} (L : AuditLogger) (ty : string) (ok_ : bool) (pl : Json)
    (extra : Extra) (wall : Z) (mono : option Z) : AuditLogger :=
  let base :=
    {| v := default 1 (x_v extra);
       sessionId := default (lo_sessionId L) (x_sessionId extra);
       clientId := default (lo_clientId L) (x_clientId extra);
       tsWallMs := default wall (x_tsWallMs extra);
       tsMonoMs := from_option Some mono (x_tsMonoMs extra);
       type := default ty (x_type extra);
       ok := default ok_ (x_ok extra);
       docId := x_docId extra;
       room := x_room extra;
       runId := x_runId extra;
       payload := default pl (x_payload extra);
       prevHash := x_prevHash extra;
       hash := x_hash extra |} in
  let e := redact L base in
  if enableHashChain L then
    let e1 := set_prevHash e (if String.eqb (lg_prevHash L) "" then None
                              else Some (lg_prevHash L)) in
    let h := sha256Hex (canonicalLineForHash e1 (lg_seq L)) in
    if String.eqb h "" then
      {| lo_sessionId := lo_sessionId L; lo_clientId := lo_clientId L;
         enableHashChain := enableHashChain L; redact := redact L;
         lg_prevHash := lg_prevHash L; lg_seq := S (lg_seq L);
         written := written L ++ [e1] |}
    else
      {| lo_sessionId := lo_sessionId L; lo_clientId := lo_clientId L;
         enableHashChain := enableHashChain L; redact := redact L;
         lg_prevHash := h; lg_seq := S (lg_seq L);
         written := written L ++ [set_hash e1 (Some h)] |}
  else
    {| lo_sessionId := lo_sessionId L; lo_clientId := lo_clientId L;
       enableHashChain := enableHashChain L; redact := redact L;
       lg_prevHash := lg_prevHash L; lg_seq := lg_seq L;
       written := written L ++ [e] |}.

End AuditLog.

(** ** Migration registry (crdt_upgrade/upgrade_registry.ts) *)

(** [String.prototype.localeCompare], which depends on the host's locale. *)
Class Locale := {
  localeCompare : string -> string -> Z;
}.

Module Registry.
Import Js Upgrade.

Section Steps.
Context {State : Type}.

(** A migration step. [migrate] returns the new state or throws (the
    message of the error is kept); [validate], when the step has one,
    returns [ok] and an optional error text, or throws. *)
Record MigrationStep := {
  ms_id : string;
  ms_from : string;
  ms_to : string;
  ms_description : string;
  migrate : State -> string + State;
  validate : option (State -> string + bool * option string);
}.

(** The registry is its array of steps, in the order of registration. *)
Definition Registry := list MigrationStep.

(** [register]: the error thrown, or the registry with the step added. *)
Definition register (r : Registry) (step : MigrationStep) : string + Registry :=
  if String.eqb (ms_id step) "" || String.eqb (ms_from step) ""
     || String.eqb (ms_to step) ""
  then inl "invalid migration step"
  else inr (r ++ [step]).

(** The comparator of [list]: [a || b] on numbers is the first that is not
    zero. *)
Definition compare_steps `{Locale} (a b : MigrationStep) : Z :=
  let c1 := localeCompare (ms_from a) (ms_from b) in
  if negb (Z.eqb c1 0) then c1
  else
    let c2 := localeCompare (ms_to a) (ms_to b) in
    if negb (Z.eqb c2 0) then c2
    else localeCompare (ms_id a) (ms_id b).

(** [Array.prototype.sort] with a comparator is stable: a step goes before
    the first step it does not come after. *)
Fixpoint insert_step `{Locale} (x : MigrationStep) (l : list MigrationStep)
  : list MigrationStep :=
  match l with
  | [] => [x]
  | y :: r => if Z.leb (compare_steps x y) 0 then x :: l else y :: insert_step x r
  end.

Definition list_ `{Locale} (r : Registry) : list MigrationStep :=
  fold_right insert_step [] r.

(** The state of the search of [findPlan]: the queue, the [prev] map and
    the [seen] set. *)
Record Bfs := {
  q : list string;
  prev : gmap string (MigrationStep * string);
  seen : list string;
}.

(** [unwind]: the loop from [cur] back to [start]; [None] only if the
    rounds allowed run out. *)
Fixpoint unwind_loop (fuel : nat) (pv : gmap string (MigrationStep * string))
    (start cur : string) (out : list MigrationStep) : option (list MigrationStep) :=
  if String.eqb cur start then Some (reverse out)
  else
    match fuel with
    | O => None
    | S fuel' =>
        match pv !! cur with
        | None => Some []
        | Some (via, from_) => unwind_loop fuel' pv start from_ (out ++ [via])
        end
    end.

Definition unwind (pv : gmap string (MigrationStep * string)) (start end_ : string)
  : option (list MigrationStep) :=
  unwind_loop (S (size pv)) pv start end_ [].

(** The [for] loop over the steps that leave [cur]: the plan found, or the
    search state after the loop. *)
Fixpoint visit (outs : list MigrationStep) (cur from_ to_ : string) (b : Bfs)
  : option (list MigrationStep) + Bfs :=
  match outs with
  | [] => inr b
  | step :: rest =>
      let nxt := ms_to step in
      if bool_decide (nxt ∈ seen b) then visit rest cur from_ to_ b
      else
        let pv := <[nxt := (step, cur)]> (prev b) in
        if String.eqb nxt to_ then inl (unwind pv from_ to_)
        else visit rest cur from_ to_
               {| q := q b ++ [nxt]; prev := pv; seen := nxt :: seen b |}
  end.

(** [adj.get(cur) ?? []]: the sorted steps that leave [cur], in order. *)
Definition outs_of (steps : list MigrationStep) (cur : string) : list MigrationStep :=
  filter (fun s => ms_from s = cur) steps.

(** The [while (q.length)] loop. The outer [None] is returned only if the
    rounds allowed run out; [Some None] is the answer [null]. *)
Fixpoint search (fuel : nat) (steps : list MigrationStep) (from_ to_ : string) (b : Bfs)
  : option (option (list MigrationStep)) :=
  match q b with
  | [] => Some None
  | cur :: waiting =>
      match fuel with
      | O => None
      | S fuel' =>
          match visit (outs_of steps cur) cur from_ to_
                  {| q := waiting; prev := prev b; seen := seen b |} with
          | inl found => Some <$> found
          | inr b' => search fuel' steps from_ to_ b'
          end
      end
  end.

(** [findPlan]. *)
Definition findPlan `{Locale} (r : Registry) (from_ to_ : string)
  : option (option (list MigrationStep)) :=
  if String.eqb from_ to_ then Some (Some [])
  else search (S (length r)) (list_ r) from_ to_
         {| q := [from_]; prev := ∅; seen := [from_] |}.

(** The part of a step that a plan carries. *)
Definition pick (s : MigrationStep) : PlanStep :=
  {| step_id := ms_id s; step_from := ms_from s; step_to := ms_to s;
     description := ms_description s |}.

(** [makePlan]: the plan, or the error thrown when no path is found. *)
Definition makePlan `{Platform} `{Locale} (r : Registry) (from_ to_ : string)
  : option (string + UpgradePlan) :=
  found ← findPlan r from_ to_;
  Some match found with
       | None => inl ("no migration path from " +:+ from_ +:+ " to " +:+ to_)
       | Some steps => inr (Upgrade.makePlan from_ to_ (map pick steps))
       end.

(** [new Map(steps.map(s => [s.id, s]))]: a later step replaces an earlier
    one with the same id. *)
Definition byId (r : Registry) : gmap string MigrationStep :=
  fold_left (fun m s => <[ms_id s := s]> m) r ∅.

(** [resolveSteps]: the steps, or the message of the error thrown. *)
Fixpoint resolve_loop (ids : gmap string MigrationStep) (wanted : list PlanStep)
  : string + list MigrationStep :=
  match wanted with
  | [] => inr []
  | s :: rest =>
      match ids !! step_id s with
      | None => inl ("missing migration step id=" +:+ step_id s)
      | Some step =>
          if negb (String.eqb (ms_from step) (step_from s))
             || negb (String.eqb (ms_to step) (step_to s))
          then inl ("step mismatch id=" +:+ step_id s)
          else match resolve_loop ids rest with
               | inl e => inl e
               | inr steps => inr (step :: steps)
               end
      end
  end.

Definition resolveSteps (r : Registry) (plan : UpgradePlan) : string + list MigrationStep :=
  resolve_loop (byId r) (steps plan).

(** [applyPlan]: the final state, or the error. *)
Record Applied := {
  ap_ok : bool;
  ap_state : option State;
  ap_error : option string;
}.

Fixpoint applyPlan (state : State) (planSteps : list MigrationStep) : Applied :=
  match planSteps with
  | [] => {| ap_ok := true; ap_state := Some state; ap_error := None |}
  | step :: rest =>
      match migrate step state with
      | inl msg => {| ap_ok := false; ap_state := None; ap_error := Some msg |}
      | inr cur =>
          match validate step with
          | None => applyPlan cur rest
          | Some check =>
              match check cur with
              | inl msg => {| ap_ok := false; ap_state := None; ap_error := Some msg |}
              | inr (true, _) => applyPlan cur rest
              | inr (false, err) =>
                  {| ap_ok := false; ap_state := None;
                     ap_error := Some (default ("validation failed at " +:+ ms_id step) err) |}
              end
          end
      end
  end.

End Steps.

Arguments MigrationStep : clear implicits.
Arguments Registry : clear implicits.
Arguments Bfs : clear implicits.
Arguments Applied : clear implicits.

End Registry.

(* ===================================================================== *)
(** * Part II.  Terms of the properties and sample data                    *)
(* ===================================================================== *)

Section HashChainTerms.
Import Js Audit.
Context `{Platform}.

Definition all_checked (total : nat) : HashChainResult :=
  {| hc_ok := true; checked := total; firstBadIndex := None; reason := None |}.

Definition bad_at (i : nat) (why : string) : HashChainResult :=
  {| hc_ok := false; checked := S i; firstBadIndex := Some i; reason := Some why |}.

End HashChainTerms.

Section TamperTerms.
Import Js Audit.
Context `{Platform}.

(** The event with another payload. *)
Definition with_payload (e : AuditEvent) (pl : Json) : AuditEvent :=
  {| v := v e; sessionId := sessionId e; clientId := clientId e;
     tsWallMs := tsWallMs e; tsMonoMs := tsMonoMs e; type := type e; ok := ok e;
     docId := docId e; room := room e; runId := runId e; payload := pl;
     prevHash := prevHash e; hash := hash e |}.

(** The checks of one round, as a function of the event. *)
Definition link_broken (e : AuditEvent) (prev : string) : bool :=
  nonempty (prevHash e) && negb (String.eqb (default "" (prevHash e)) prev).

Definition digest_wrong (e : AuditEvent) (i : nat) : bool :=
  negb (String.eqb (sha256Hex (canonicalLineForHash e i)) "")
  && negb (String.eqb (default "" (hash e)) (sha256Hex (canonicalLineForHash e i))).

End TamperTerms.

(** Sample logs, evaluated on the reference platform. *)
Definition sample_event (ty : string) (pl : Js.Json) : Audit.AuditEvent :=
  {| Audit.v := 1; Audit.sessionId := "s1"; Audit.clientId := "c1";
     Audit.tsWallMs := 1000; Audit.tsMonoMs := None; Audit.type := ty;
     Audit.ok := true; Audit.docId := None; Audit.room := None;
     Audit.runId := None; Audit.payload := pl; Audit.prevHash := None;
     Audit.hash := None |}.

(** The sample event as the logger seals it at position [seq]. *)
Definition sealed (e : Audit.AuditEvent) (seq : nat) : Audit.AuditEvent :=
  {| Audit.v := Audit.v e; Audit.sessionId := Audit.sessionId e;
     Audit.clientId := Audit.clientId e; Audit.tsWallMs := Audit.tsWallMs e;
     Audit.tsMonoMs := Audit.tsMonoMs e; Audit.type := Audit.type e;
     Audit.ok := Audit.ok e; Audit.docId := Audit.docId e;
     Audit.room := Audit.room e; Audit.runId := Audit.runId e;
     Audit.payload := Audit.payload e; Audit.prevHash := Audit.prevHash e;
     Audit.hash := Some (sha256Hex (Audit.canonicalLineForHash e seq)) |}.

Definition set_payload (p : string) (n : Z) : Js.Json :=
  Js.JObj [("path", Js.JStr p); ("value", Js.JNum n)].

Section LocatorTerms.
Import Js Audit.
Context `{Platform}.
Variables (eventsA eventsB : list AuditEvent) (allowedPrefixes : list string).

(** The two logs replay to the same hash at prefix length [n], or to two
    different hashes. *)
Definition agree (n : nat) : Prop :=
  exists h, prefixHash eventsA n allowedPrefixes = Ok h
            /\ prefixHash eventsB n allowedPrefixes = Ok h.

Definition differ (n : nat) : Prop :=
  exists ha hb, prefixHash eventsA n allowedPrefixes = Ok ha
                /\ prefixHash eventsB n allowedPrefixes = Ok hb
                /\ ha <> hb.

(** Rounds of the loop on a range of [m] prefix lengths: none for an empty
    range, [log2 m + 1] otherwise. *)
Definition rounds (m : Z) : nat := Z.to_nat (Z.log2 (2 * m)).

End LocatorTerms.

(** Two logs that differ after one event, agree again after two and differ
    at the end: the locator answers 3, not 1. *)
Definition log_left : list Audit.AuditEvent :=
  [sample_event "crdt.set" (set_payload "x" 1);
   sample_event "crdt.set" (set_payload "x" 2);
   sample_event "crdt.set" (set_payload "y" 1)].

Definition log_right : list Audit.AuditEvent :=
  [sample_event "crdt.set" (set_payload "x" 2);
   sample_event "crdt.set" (set_payload "x" 2);
   sample_event "crdt.set" (set_payload "y" 2)].

(** Two logs that part at prefix length 2 and stay apart. *)
Definition log_apart : list Audit.AuditEvent :=
  [sample_event "crdt.set" (set_payload "x" 1);
   sample_event "crdt.set" (set_payload "x" 3);
   sample_event "crdt.set" (set_payload "y" 1)].

Section DeepDiffTerms.
Import Js Diff.
Context `{Platform}.

Definition tree_ab (n : Z) : Json := JObj [("a", JObj [("b", JNum n)])].

(** A tree that holds no [NaN]. *)
Fixpoint nan_free (x : Json) : bool :=
  match x with
  | JNaN => false
  | JArr xs => forallb nan_free xs
  | JObj kvs =>
      (fix each (l : list (string * Json)) : bool :=
         match l with
         | [] => true
         | (_, v) :: r => nan_free v && each r
         end) kvs
  | _ => true
  end.

End DeepDiffTerms.

(** A snapshot that holds [NaN], as two peers can have it in memory. *)
Definition tree_nan : Js.Json := Js.JObj [("a", Js.JNaN)].

Definition sample_manager : Upgrade.Manager :=
  let ctx := {| Upgrade.role := Upgrade.Host; Upgrade.isCollaborative := true;
                Upgrade.clientTag := "host" |} in
  let m0 := Upgrade.setPeers (Upgrade.new_manager ctx 0)
              [{| Upgrade.peer_clientTag := "p1"; Upgrade.peer_schemaVersion := None;
                  Upgrade.peer_stateHash := None |};
               {| Upgrade.peer_clientTag := "p2"; Upgrade.peer_schemaVersion := None;
                  Upgrade.peer_stateHash := None |}] 1 in
  (Upgrade.proposeUpgrade m0 "v2"
     {| Upgrade.schemaVersion := "v1"; Upgrade.stateHash := "h"; Upgrade.meta_atMs := 5 |}
     (inr [{| Upgrade.step_id := "m_001"; Upgrade.step_from := "v1";
              Upgrade.step_to := "v2"; Upgrade.description := "first" |}]) 2 3).1.1.

Definition sample_pid : string :=
  from_option Upgrade.proposalId ""
    (Upgrade.proposal (Upgrade.snapshotState sample_manager)).

Definition peer_vote (who : string) (b : Upgrade.Ballot) : Upgrade.UpgradeVote :=
  {| Upgrade.vote_proposalId := sample_pid; Upgrade.from := who;
     Upgrade.vote_atMs := 10; Upgrade.vote := b; Upgrade.vote_reason := None |}.

(** Two approvals and one rejection among three participants. *)
Definition vetoed_manager : Upgrade.Manager :=
  Upgrade.onVote
    (Upgrade.onVote (Upgrade.cast sample_manager Upgrade.approve None 9).1
       (peer_vote "p1" Upgrade.approve))
    (peer_vote "p2" Upgrade.reject).

Section ProposalIdsTerms.
Import Upgrade.
Context `{Platform}.

(** The content of a proposal: everything but its id and creation time. *)
Definition same_content (p q : UpgradeProposal) : Prop :=
  createdBy p = createdBy q /\ plan p = plan q /\ precheck p = precheck q.

End ProposalIdsTerms.

Definition sample_ctx : Upgrade.UpgradeContext :=
  {| Upgrade.role := Upgrade.Host; Upgrade.isCollaborative := true;
     Upgrade.clientTag := "host" |}.

Definition sample_meta : Upgrade.CRDTMeta :=
  {| Upgrade.schemaVersion := "v1"; Upgrade.stateHash := "h"; Upgrade.meta_atMs := 5 |}.

Definition sample_steps : list Upgrade.PlanStep :=
  [{| Upgrade.step_id := "m_001"; Upgrade.step_from := "v1";
      Upgrade.step_to := "v2"; Upgrade.description := "first" |}].

(** The same upgrade proposed at time 2 by a fresh manager and at time 70
    by the manager that holds three votes on an earlier proposal. *)
Definition proposal_early : option Upgrade.UpgradeProposal :=
  (Upgrade.proposeUpgrade (Upgrade.new_manager sample_ctx 0) "v2" sample_meta
     (inr sample_steps) 2 3).1.2.

Definition proposal_late : option Upgrade.UpgradeProposal :=
  (Upgrade.proposeUpgrade vetoed_manager "v2" sample_meta (inr sample_steps) 70 71).1.2.

Section ReplicaInvariantTerms.
Import Js Collab.

(** What holds of every server the constructor and the handlers produce:
    a document is stored under its own id, versions are not negative, and
    a context bound to a document finds that document. *)
Definition server_wf (s : Server) : Prop :=
  (forall d doc, docs s !! d = Some doc -> docId doc = d /\ (0 <= version doc)%Z)
  /\ (forall c ctx d, heap s !! c = Some ctx -> session_of ctx = Some d ->
        is_Some (docs s !! d)).

End ReplicaInvariantTerms.

Section ReplicaV2FactsTerms.
Import Js Collab ReplicaV2.

(** A frame within the size cap that carries an op with an id, a valid
    base version and a patch. *)
Definition valid_op (s : Server) (f : Frame2) (opId : string) (bv : Z) (p : Patch)
  : Prop :=
  (raw_length f <= maxMessageBytes s)%Z
  /\ parsed f = Some (InOp opId (Some bv) (Some p))
  /\ opId <> ""
  /\ (0 <= bv)%Z.

Definition op_frame (len : Z) (opId : string) (bv : Z) (p : Patch) : Frame2 :=
  {| raw_length := len; parsed := Some (InOp opId (Some bv) (Some p)) |}.

(** The handler on a valid op of a client bound to an existing document,
    [apply] being the function that applies patches. *)
Definition op_outcome (apply : Json -> Patch -> string -> (nat -> Z) -> outcome (Json * Patch))
    (s : Server) (c : nat) (ctx : ClientCtx) (d : string)
    (doc : DocState) (opId : string) (bv : Z) (p : Patch) (clock : nat -> Z) : Run2 :=
  if negb (canLww p) && negb (Z.eqb bv (version doc)) then
    done s (send s c (MConflict (docId doc) opId false "VERSION_MISMATCH" (version doc))
            ++ send s c (MSnapshot (docId doc) (version doc) (state doc)))
  else
    match apply (state doc) p (clientId ctx) clock with
    | Ok (next, p') =>
        let doc' := {| docId := docId doc; version := version doc + 1; state := next |} in
        let s2 := set_doc s d doc' in
        done s2
          (send s2 c (MAck (docId doc') opId (version doc'))
           ++ (if canLww p && negb (Z.eqb bv (version doc' - 1))
               then send s2 c (MConflict (docId doc') opId true
                                 "LWW_PATHSET_APPLIED" (version doc'))
               else [])
           ++ broadcast s2 (docId doc')
                (MOp (docId doc') (version doc' - 1) opId p') (Some c))
    | r => Build_Run s [] (failed r)
    end.

End ReplicaV2FactsTerms.

Section PlainWritesTerms.
Import Js Collab ReplicaV2.




(** The same of a tree that is written to. *)
Fixpoint plain_cell (c : Cell) : bool :=
  match c with
  | Held x => negb (is_container x)
  | Node kvs =>
      (fix each (l : list (string * Cell)) : bool :=
         match l with
         | [] => true
         | (_, v) :: r => plain_cell v && each r
         end) kvs
  | Items _ => false
  end.



End PlainWritesTerms.


Section ReplicaStepsTerms.
Import Js Collab.

(** Documents are never removed and their versions never go down. *)
Definition docs_grow (s s' : Server) : Prop :=
  forall d doc, docs s !! d = Some doc ->
    exists doc', docs s' !! d = Some doc' /\ (version doc <= version doc')%Z.

End ReplicaStepsTerms.

Section ReplicaV1FactsTerms.
Import Js Collab ReplicaV1.



End ReplicaV1FactsTerms.

Section AppliedOpsTerms.
Import Js Collab.


End AppliedOpsTerms.

Section DeterminismTerms.
Import Js Collab ReplicaV2.
Context `{Platform}.

(** What a replay does not fix: the connection's address and id, the
    document's name, the size cap and the sizes of the frames, the op ids,
    and every clock reading. *)
Record Env := {
  e_conn : nat;
  e_uuid : string;
  e_doc : string;
  e_max : option Z;
  e_len : nat -> Z;
  e_opId : nat -> string;
  e_clock : nat -> nat -> Z;
}.


(** A fresh server, one connection, its [hello]. *)
Definition connect (e : Env) : Server :=
  srv (onMessage (onConn (new_server [] (e_max e)) (e_conn e) (e_uuid e)) (e_conn e)
         {| raw_length := e_len e 0; parsed := Some (InHello (e_doc e)) |}
         (e_clock e 0)).

(** The patches sent as ops with base versions [i], [i + 1], ... *)
Fixpoint run_ops (e : Env) (s : Server) (i : nat) (ps : list Patch) : Server :=
  match ps with
  | [] => s
  | p :: rest =>
      run_ops e
        (srv (onMessage s (e_conn e)
                (op_frame (e_len e (S i)) (e_opId e i) (Z.of_nat i) p)
                (e_clock e (S i))))
        (S i) rest
  end.

Definition replay (e : Env) (ps : list Patch) : Server := run_ops e (connect e) 0 ps.

Definition final (e : Env) (ps : list Patch) : option (Json * Z) :=
  (fun doc => (state doc, version doc)) <$> docs (replay e ps) !! e_doc e.

(** The state a patch leads to, as a function of the state and the patch
    alone. *)
Definition patched (st : Json) (p : Patch) : outcome Json :=
  r ← applyPatch st p "" (fun _ => 0%Z); Ok r.1.

(** The document after the op number [i]: as it was when the op is stale
    and not admitted, patched and one version up otherwise. *)
Definition step_patch (sv : Json * Z) (i : nat) (p : Patch) : outcome (Json * Z) :=
  if negb (canLww p) && negb (Z.eqb (Z.of_nat i) sv.2) then Ok sv
  else next ← patched sv.1 p; Ok (next, (sv.2 + 1)%Z).

Fixpoint fold_patches (sv : Json * Z) (i : nat) (ps : list Patch) : outcome (Json * Z) :=
  match ps with
  | [] => Ok sv
  | p :: rest => sv' ← step_patch sv i p; fold_patches sv' (S i) rest
  end.


(** The same replay on the v1 server, whose patches are plain values. *)
Definition connect1 (e : Env) : Server :=
  srv (ReplicaV1.onMessage (onConn (new_server [] (e_max e)) (e_conn e) (e_uuid e))
         (e_conn e)
         {| raw_length := e_len e 0; parsed := Some (InHello (e_doc e)) |}).

Fixpoint run_ops1 (e : Env) (s : Server) (i : nat) (ps : list Json) : Server :=
  match ps with
  | [] => s
  | p :: rest =>
      run_ops1 e
        (srv (ReplicaV1.onMessage s (e_conn e)
                {| raw_length := e_len e (S i);
                   parsed := Some (InOp (e_opId e i) (Some (Z.of_nat i)) p) |}))
        (S i) rest
  end.




End DeterminismTerms.

(** A live server: two connections bound to one document, which a first
    op has brought to version 1. *)
Definition tick (_ : nat) : Z := 1700000000000%Z.

Definition hello_frame {P} (d : string) : Collab.Frame P :=
  {| Collab.raw_length := 40; Collab.parsed := Some (Collab.InHello d) |}.

Definition joined_server : Collab.Server :=
  let s0 := Collab.new_server [] None in
  let s1 := Collab.onConn (Collab.onConn s0 1 "u1") 2 "u2" in
  let s2 := Collab.srv (ReplicaV2.onMessage s1 1 (hello_frame "doc") tick) in
  Collab.srv (ReplicaV2.onMessage s2 2 (hello_frame "doc") tick).

Definition live_server : Collab.Server :=
  Collab.srv (ReplicaV2.onMessage joined_server 1
                (op_frame 60 "op1" 0 (ReplicaV2.PSet (Js.JObj [("n", Js.JNum 1)]))) tick).

(** The same two connections on a document that a first op has set to a
    number. *)
Definition number_server : Collab.Server :=
  Collab.srv (ReplicaV2.onMessage joined_server 1
                (op_frame 60 "op1" 0 (ReplicaV2.PSet (Js.JNum 7))) tick).



Definition path_op (p : string) (n : Z) : ReplicaV2.PathSetOp :=
  {| ReplicaV2.path := p; ReplicaV2.value := Js.JNum n; ReplicaV2.ts := None;
     ReplicaV2.op_clientId := None |}.

(** Two replays of three patches that agree on nothing but the patches. *)
Definition env_a : Env :=
  {| e_conn := 1; e_uuid := "u1"; e_doc := "doc"; e_max := None;
     e_len := fun _ => 100%Z; e_opId := fun i => "a" +:+ pretty i;
     e_clock := fun _ _ => 1700000000000%Z |}.



Section ConflictStoreFactsTerms.
Import Js Conflicts.

(** The store's tables agree: [order] has no repetition and lists exactly
    the ids of [items], and a record is stored under its own id. *)
Definition store_sync (s : ConflictStore) : Prop :=
  NoDup (order s)
  /\ (forall i, i ∈ order s <-> is_Some (items s !! i))
  /\ (forall i it, items s !! i = Some it -> id it = i).

Definition within_capacity (s : ConflictStore) : Prop :=
  (Z.of_nat (length (order s)) <= maxItems (policy s))%Z.

Definition store_ok (s : ConflictStore) : Prop :=
  store_sync s /\ within_capacity s.

(** The two passes of [cleanup]. *)
Definition purge_pass (s : ConflictStore) (t : Z) : ConflictStore :=
  if purge_enabled (purge (policy s)) then
    {| st_localClientTag := st_localClientTag s; policy := policy s;
       items := delete_all (shouldRemove s t) (items s);
       order := filter (fun i => expired_id s t i <> true) (order s) |}
  else s.

Definition excess (s : ConflictStore) : nat :=
  Z.to_nat (Z.of_nat (length (order s)) - maxItems (policy s)).

Definition trim_pass (s : ConflictStore) : ConflictStore :=
  {| st_localClientTag := st_localClientTag s; policy := policy s;
     items := delete_all (take (excess s) (order s)) (items s);
     order := drop (excess s) (order s) |}.

End ConflictStoreFactsTerms.

Section ConflictAddTerms.
Import Js Conflicts.
Context `{Platform}.

(** The id [add] computes for an input. *)
Definition conflict_id (s : ConflictStore) (input : AddInput) : string :=
  makeConflictId (st_localClientTag s) (in_kind input) (in_severity input)
    (in_sourcePeer input) (in_related input) (orElse (in_payload input) JUndefined).

(** Two inputs that describe the same condition. *)
Definition same_condition (a b : AddInput) : Prop :=
  in_kind a = in_kind b /\ in_severity a = in_severity b
  /\ in_sourcePeer a = in_sourcePeer b /\ in_related a = in_related b
  /\ in_payload a = in_payload b.

(** The purge is off, or the time between the two clock reads of one call
    is within both TTLs. *)
Definition in_time (p : Purge) (t t' : Z) : Prop :=
  purge_enabled p = false
  \/ ((t' - t <= resolvedTTLms p)%Z /\ (t' - t <= ignoredTTLms p)%Z).

(** The record an occurrence leaves when one exists already, and when
    none does. *)
Definition reraised (existing : ConflictItem) (input : AddInput) (t : Z) : ConflictItem :=
  {| id := id existing;
     createdAtMs := createdAtMs existing;
     updatedAtMs := t;
     severity := escalateSeverity (severity existing) (in_severity input);
     kind := kind existing;
     status := status existing;
     sourcePeer := sourcePeer existing;
     localClientTag := localClientTag existing;
     title := in_title input;
     detail := from_option Some (detail existing) (in_detail input);
     payload := orElse (in_payload input) (payload existing);
     related := Some (related_merge (default related_empty (related existing))
                                    (default related_empty (in_related input)));
     recommendedAction := from_option Some (recommendedAction existing)
                            (in_recommendedAction input) |}.

Definition auto_acked (p : ConflictPolicy) (input : AddInput) : bool :=
  aa_enabled (autoAck p)
  && bool_decide (in_severity input ∈ aa_severities (autoAck p))
  && bool_decide (in_kind input ∈ aa_kinds (autoAck p)).

Definition first_raised (s : ConflictStore) (input : AddInput) (t : Z) : ConflictItem :=
  {| id := conflict_id s input;
     createdAtMs := t;
     updatedAtMs := t;
     severity := in_severity input;
     kind := in_kind input;
     status := if auto_acked (policy s) input then Acked else Open;
     sourcePeer := in_sourcePeer input;
     localClientTag := st_localClientTag s;
     title := in_title input;
     detail := in_detail input;
     payload := in_payload input;
     related := in_related input;
     recommendedAction := Some (default ActNone (in_recommendedAction input)) |}.

Definition with_item (s : ConflictStore) (i : string) (it : ConflictItem)
    (o : list string) : ConflictStore :=
  {| st_localClientTag := st_localClientTag s; policy := policy s;
     items := <[i := it]> (items s); order := o |}.

(** What one call of [add] leaves. *)
Definition add_post (s : ConflictStore) (input : AddInput) (s' : ConflictStore)
    (r : ConflictItem) : Prop :=
  items s' !! conflict_id s input = Some r
  /\ conflict_id s input ∈ order s'
  /\ store_ok s'
  /\ policy s' = policy s
  /\ st_localClientTag s' = st_localClientTag s.

End ConflictAddTerms.

(** A transport error reported twice, the second time without detail. *)
Definition report_with (d : option string) (ttl : string) : Conflicts.AddInput :=
  {| Conflicts.in_severity := Conflicts.Warn;
     Conflicts.in_kind := Conflicts.TransportError;
     Conflicts.in_title := ttl;
     Conflicts.in_detail := d;
     Conflicts.in_sourcePeer := Some "peer-1";
     Conflicts.in_payload := Js.JObj [("code", Js.JNum 1006)];
     Conflicts.in_related := None;
     Conflicts.in_recommendedAction := None |}.

Definition empty_store : Conflicts.ConflictStore :=
  Conflicts.new_store "me" Conflicts.default_policy.

Definition after_two_reports : Conflicts.ConflictStore * Conflicts.ConflictItem :=
  Conflicts.add
    (Conflicts.add empty_store (report_with (Some "socket closed") "ws error") 1000 1001).1
    (report_with None "ws error again") 2000 2003.

Section ConflictViewsTerms.
Import Js Conflicts ConflictViews.

(** A record with a new status and time of update, as [setStatus] writes it. *)
Definition with_status (it : ConflictItem) (st : ConflictStatus) (t : Z) : ConflictItem :=
  {| id := id it; createdAtMs := createdAtMs it; updatedAtMs := t;
     severity := severity it; kind := kind it; status := st;
     sourcePeer := sourcePeer it; localClientTag := localClientTag it;
     title := title it; detail := detail it; payload := payload it;
     related := related it; recommendedAction := recommendedAction it |}.

(** The record is open and the policy acknowledges it automatically. *)
Definition open_eligible (p : ConflictPolicy) (it : ConflictItem) : bool :=
  bool_decide (status it = Open) && eligible p it.

Definition open_eligible_id (s : ConflictStore) (i : string) : bool :=
  match items s !! i with
  | Some it => open_eligible (policy s) it
  | None => false
  end.

(** [m'] holds the records of [m], some open eligible ones acknowledged. *)
Definition acked_from (p : ConflictPolicy) (m m' : gmap string ConflictItem) : Prop :=
  forall i,
    match m !! i, m' !! i with
    | None, None => True
    | Some it, Some it' =>
        it' = it \/ (open_eligible p it = true /\ exists t, it' = acked_at it t)
    | _, _ => False
    end.

(** The sum of the four status counters. *)
Definition total (c : ConflictCounts) : nat :=
  (n_open c + n_acked c + n_resolved c + n_ignored c)%nat.

(** The record passes the filters of the query. *)
Definition matches (toLowerCase : string -> string) (q : ConflictQuery)
    (x : ConflictItem) : Prop :=
  from_option (fun st => status x = st) True (q_status q)
  /\ from_option (fun sv => severity x = sv) True (q_severity q)
  /\ from_option (fun k => kind x = k) True (q_kind q)
  /\ from_option (fun tx => tx = "" \/ text_matches toLowerCase tx x = true) True
       (q_text q).

End ConflictViewsTerms.

(** A store of capacity two after two reports of different kinds. *)
Definition report_of (k : Conflicts.ConflictKind) : Conflicts.AddInput :=
  {| Conflicts.in_severity := Conflicts.Critical;
     Conflicts.in_kind := k;
     Conflicts.in_title := "replica check failed";
     Conflicts.in_detail := None;
     Conflicts.in_sourcePeer := None;
     Conflicts.in_payload := Js.JNull;
     Conflicts.in_related := None;
     Conflicts.in_recommendedAction := None |}.

Definition small_policy : Conflicts.ConflictPolicy :=
  {| Conflicts.maxItems := 2;
     Conflicts.autoAck := Conflicts.autoAck Conflicts.default_policy;
     Conflicts.purge := Conflicts.purge Conflicts.default_policy |}.

Definition two_reports : Conflicts.ConflictStore :=
  let s0 := Conflicts.new_store "me" small_policy in
  let s1 := (Conflicts.add s0 (report_of Conflicts.HashMismatch) 1000 1001).1 in
  (Conflicts.add s1 (report_of Conflicts.OpApplyFailed) 2000 2001).1.

(** The same records under a policy that acknowledges critical records of
    these two kinds automatically. *)
Definition eager_store : Conflicts.ConflictStore :=
  ConflictViews.setPolicy two_reports
    {| ConflictViews.pp_maxItems := None;
       ConflictViews.pp_autoAck :=
         Some {| Conflicts.aa_enabled := true;
                 Conflicts.aa_severities := [Conflicts.Critical];
                 Conflicts.aa_kinds := [Conflicts.HashMismatch; Conflicts.OpApplyFailed] |};
       ConflictViews.pp_purge := None |}.

Definition open_first : ConflictViews.ConflictQuery :=
  {| ConflictViews.q_status := Some Conflicts.Open; ConflictViews.q_severity := None;
     ConflictViews.q_kind := None; ConflictViews.q_text := None;
     ConflictViews.q_limit := Some 1 |}.

(** The same records in a store whose capacity was two when they came in
    and is one now. *)
Definition shrunk_store : Conflicts.ConflictStore :=
  ConflictViews.setPolicy two_reports
    {| ConflictViews.pp_maxItems := Some 1; ConflictViews.pp_autoAck := None;
       ConflictViews.pp_purge := None |}.

Section AuditLogTerms.
Import Js Audit AuditLog.
Context `{Platform}.

(** The arguments of one call of [log], with the two clock readings. *)
Record LogCall := {
  c_type : string;
  c_ok : bool;
  c_payload : Json;
  c_extra : Extra;
  c_wall : Z;
  c_mono : option Z;
}.

(** A sequence of calls of [log], each awaited before the next. *)
Definition log_all (L : AuditLogger) (calls : list LogCall) : AuditLogger :=
  fold_left (fun L c => log L (c_type c) (c_ok c) (c_payload c) (c_extra c)
                          (c_wall c) (c_mono c)) calls L.

(** A chain as the logger writes it from position [i] on, [prev] being the
    hash before it: every event carries the digest of its canonical line at
    its position, and the hash of the event before it, if any. *)
Fixpoint linked (prev : string) (i : nat) (l : list AuditEvent) : Prop :=
  match l with
  | [] => True
  | e :: r =>
      hash e = Some (sha256Hex (Audit.canonicalLineForHash e i))
      /\ sha256Hex (Audit.canonicalLineForHash e i) <> ""
      /\ prevHash e = (if String.eqb prev "" then None else Some prev)
      /\ linked (sha256Hex (Audit.canonicalLineForHash e i)) (S i) r
  end.

(** The hash the verifier holds after a chain written from position [i]
    on. *)
Fixpoint end_hash (prev : string) (i : nat) (l : list AuditEvent) : string :=
  match l with
  | [] => prev
  | e :: r => end_hash (sha256Hex (Audit.canonicalLineForHash e i)) (S i) r
  end.

(** What the logger keeps: its [seq] is the number of events written, its
    [prevHash] the hash the verifier holds after them, and they are linked. *)
Definition logger_inv (L : AuditLogger) : Prop :=
  linked "" 0 (written L)
  /\ lg_seq L = length (written L)
  /\ lg_prevHash L = end_hash "" 0 (written L)
  /\ enableHashChain L = true.

(** The hash of the last event of a chain, the empty text for the empty
    chain. *)
Definition last_hash (l : list AuditEvent) : string :=
  default "" (last l ≫= hash).

End AuditLogTerms.

(** Three calls of the logger, on the reference platform. *)
Definition sample_calls : list LogCall :=
  [{| c_type := "crdt.set"; c_ok := true; c_payload := set_payload "x" 1;
      c_extra := AuditLog.no_extra; c_wall := 1000; c_mono := None |};
   {| c_type := "pipeline.start"; c_ok := true; c_payload := Js.JUndefined;
      c_extra := AuditLog.no_extra; c_wall := 1001; c_mono := Some 12%Z |};
   {| c_type := "crdt.set"; c_ok := true; c_payload := set_payload "y" 2;
      c_extra := AuditLog.no_extra; c_wall := 1002; c_mono := None |}].

Definition sample_log : list Audit.AuditEvent :=
  AuditLog.written (log_all (AuditLog.new_logger "s1" "c1" None None) sample_calls).

Section RegistryTerms.
Import Js Upgrade Registry.
Context {State : Type}.

(** A chain of registered steps that leads from one schema version to
    another. *)
Fixpoint chain (r : Registry State) (cur to_ : string) (path : list (MigrationStep State))
  : Prop :=
  match path with
  | [] => cur = to_
  | s :: rest => s ∈ r /\ ms_from s = cur /\ chain r (ms_to s) to_ rest
  end.

(** The steps whose target the search has not seen yet. *)
Definition unseen (steps : list (MigrationStep State)) (b : Bfs State)
  : list (MigrationStep State) :=
  filter (fun s => ms_to s ∉ seen b) steps.

(** Every entry of [prev] is a registered step into its key from a version
    reached before, [rank] being the order in which the versions were
    reached and [d] the number of steps that [prev] takes back to the
    start. *)
Definition reached (steps : list (MigrationStep State)) (from_ : string)
    (pv : gmap string (MigrationStep State * string)) (rank d : string -> nat) : Prop :=
  d from_ = 0%nat
  /\ forall v via f, pv !! v = Some (via, f) ->
       via ∈ steps /\ ms_from via = f /\ ms_to via = v /\ v <> from_
       /\ (f = from_ \/ is_Some (pv !! f))
       /\ (1 <= rank v <= size pv)%nat
       /\ (f <> from_ -> (rank f < rank v)%nat)
       /\ d v = S (d f).

(** Every seen version is waiting or has all its steps followed, but for
    the steps [pending] of the version being visited. *)
Definition frontier (steps : list (MigrationStep State)) (b : Bfs State)
    (pending : list (MigrationStep State)) : Prop :=
  forall s, s ∈ steps -> ms_from s ∈ seen b ->
    ms_from s ∈ q b \/ ms_to s ∈ seen b \/ s ∈ pending.

(** What the search keeps while the version at [c] steps from the start
    is visited: the versions waiting and the versions with an entry in
    [prev] have been seen, and the target has not; a step between seen
    versions adds at most one to [d]; the versions wait in the order of
    [d], none nearer than [c], and no seen version is further than
    [c + 1]. *)
Definition search_inv (steps : list (MigrationStep State)) (from_ to_ : string)
    (b : Bfs State) (pending : list (MigrationStep State)) (c : nat)
    (rank d : string -> nat) : Prop :=
  reached steps from_ (prev b) rank d
  /\ (forall x, x ∈ q b -> (x = from_ \/ is_Some (prev b !! x)) /\ x ∈ seen b)
  /\ from_ ∈ seen b
  /\ (forall v, is_Some (prev b !! v) -> v ∈ seen b)
  /\ (to_ ∉ seen b)
  /\ frontier steps b pending
  /\ (forall s, s ∈ steps -> ms_from s ∈ seen b -> ms_to s ∈ seen b ->
        (d (ms_to s) <= S (d (ms_from s)))%nat)
  /\ (forall x, x ∈ q b -> (c <= d x)%nat)
  /\ (forall y, y ∈ seen b -> (d y <= S c)%nat)
  /\ StronglySorted (fun x y => (d x <= d y)%nat) (q b).

End RegistryTerms.

(** A registry of three steps over numbers, registered out of order. *)
Definition step_of (i f t : string) (k : Z) : Registry.MigrationStep Z :=
  {| Registry.ms_id := i; Registry.ms_from := f; Registry.ms_to := t;
     Registry.ms_description := "add " +:+ pretty k;
     Registry.migrate := fun n => inr (n + k)%Z;
     Registry.validate := None |}.

Definition sample_registry : Registry.Registry Z :=
  [step_of "m_002" "2" "3" 20; step_of "m_001" "1" "2" 10; step_of "m_003" "1" "3" 30].

(** Code-unit order as the comparison of the locale. *)
#[global] Instance code_unit_locale : Locale :=
  {| localeCompare := fun a b =>
       match String.compare a b with Lt => (-1)%Z | Eq => 0%Z | Gt => 1%Z end |}.

Section LocatorSoundTerms.
Import Js Audit.
Context `{Platform}.

(** Both logs replay at every prefix length up to the common length. *)
Definition comparable (eventsA eventsB : list AuditEvent) (P : list string) : Prop :=
  forall n, (n <= Nat.min (length eventsA) (length eventsB))%nat ->
    agree eventsA eventsB P n \/ differ eventsA eventsB P n.

End LocatorSoundTerms.

Section DiffBoundTerms.
Import Js Diff.

(** What the two accumulators of [deepDiff] keep: no more than [maxDiffs]
    items; no first path before the first item; and once there is an item,
    a first path, which is the path of the first item unless that path is
    empty. *)
Definition tidy (o : DivergenceReportOptions) (a : Acc) : Prop :=
  (Z.of_nat (length (out a)) <= Z.max 0 (maxDiffs o))%Z
  /\ (out a = [] -> first a = None)
  /\ (forall d rest, out a = d :: rest ->
        exists p, first a = Some p /\ (path d <> "" -> p = path d)).

(** The number of containers above the deepest value of a tree. *)
Fixpoint depth_of (x : Json) : Z :=
  match x with
  | JArr xs =>
      1 + (fix deepest (l : list Json) : Z :=
             match l with
             | [] => 0
             | y :: r => Z.max (depth_of y) (deepest r)
             end) xs
  | JObj kvs =>
      1 + (fix deepest (l : list (string * Json)) : Z :=
             match l with
             | [] => 0
             | (_, v) :: r => Z.max (depth_of v) (deepest r)
             end) kvs
  | _ => 0
  end.

End DiffBoundTerms.

Section ReplicaLocalTerms.
Import Js Collab.

(** The document a frame is about: the one a hello names, the one the
    sender is bound to for an op. *)
Definition target {P} (s : Server) (c : nat) (f : Frame P) : option string :=
  match parsed f with
  | Some (InHello d) => Some d
  | Some (InOp _ _ _) => heap s !! c ≫= session_of
  | _ => None
  end.

(** An op or a presence frame of document [d]. *)
Definition msg_about {P} (d : string) (m : Msg P) : Prop :=
  match m with
  | MOp d' _ _ _ | MPresence d' _ _ _ => d' = d
  | _ => False
  end.

(** What a handler run leaves alone: every document but the frame's, every
    context but the sender's, and the set of connections; and what it sends
    to a connection other than the sender is an op or a presence frame of
    the sender's document, sent to an open connection bound to it. *)
Definition stays_local {P Q} (s : Server) (c : nat) (f : Frame P) (r : Run Q) : Prop :=
  (forall d', target s c f <> Some d' -> docs (srv r) !! d' = docs s !! d')
  /\ (forall c', c' <> c -> heap (srv r) !! c' = heap s !! c')
  /\ clients (srv r) = clients s
  /\ maxMessageBytes (srv r) = maxMessageBytes s
  /\ (forall c' m, (c', m) ∈ sent r -> c' <> c ->
        exists ctx d ctx',
          heap s !! c = Some ctx /\ session_of ctx = Some d
          /\ c' ∈ clients s /\ heap s !! c' = Some ctx'
          /\ ctx_docId ctx' = Some d /\ ws_open ctx' = true
          /\ msg_about d m).

End ReplicaLocalTerms.

Section PatchFormsTerms.
Import Js Collab ReplicaV2.

(** The v1 form of a v2 patch: [{ $set }], [{ $merge }], or the array of
    [{ path, value }] entries. *)
Definition v1_op (op : PathSetOp) : Json :=
  JObj [("path", JStr (path op)); ("value", value op)].

Definition v1_patch (p : Patch) : Json :=
  match p with
  | PSet v => JObj [("$set", v)]
  | PMerge v => JObj [("$merge", v)]
  | PPathSet ops _ | POther _ ops => JArr (map v1_op ops)
  end.

(** The sender's context once a hello has bound it to [d]. *)
Definition bound_to (ctx : ClientCtx) (d : string) : ClientCtx :=
  {| ws_open := ws_open ctx; clientId := clientId ctx; ctx_docId := Some d |}.

End PatchFormsTerms.

Section ReplayTerms.
Import Js Audit.

(** The set operations the replay takes from one event, and from a log. *)
Definition sets_of (e : AuditEvent) : list (string * Json) :=
  if String.eqb (type e) "nl.actions" && ok e then
    extractSetOpsFromNlActions (payload e)
  else if String.eqb (type e) "crdt.set" && ok e then
    option_list (extractSetFromCrdt (payload e))
  else [].

Definition all_sets (events : list AuditEvent) : list (string * Json) :=
  flat_map sets_of events.

Definition admitted (prefixes : list string) (sets : list (string * Json))
  : list (string * Json) :=
  filter (fun s => allowed s.1 prefixes = true) sets.

Definition turned_away (prefixes : list string) (sets : list (string * Json))
  : list (string * Json) :=
  filter (fun s => allowed s.1 prefixes <> true) sets.

(** The writes of a list of set operations, in order. *)
Fixpoint write_all (root : Cell) (sets : list (string * Json)) : outcome Cell :=
  match sets with
  | [] => Ok root
  | s :: r => root' ← store_set root s.1 s.2; write_all root' r
  end.

(** A set operation that writes a primitive value along keys other than
    [__proto__]. *)
Definition plain_set (s : string * Json) : Prop :=
  is_container s.2 = false /\ "__proto__" ∉ path_parts s.1.

(** The pipeline markers the replay counts. *)
Definition starts (e : AuditEvent) : bool :=
  String.eqb (type e) "pipeline.start" && ok e.

Definition fails (e : AuditEvent) : bool :=
  String.eqb (type e) "pipeline.fail" && negb (ok e).

Definition count_where (f : AuditEvent -> bool) (events : list AuditEvent) : nat :=
  length (List.filter f events).

(** The state a replay ends in, when it returns. *)
Definition replayed_state (o : outcome (Json * ReplayMetrics)) : outcome Json :=
  r ← o; Ok r.1.

Definition replayed_hash (o : outcome (Json * ReplayMetrics)) : outcome string :=
  r ← o; Ok (finalStateHashHex r.2).

End ReplayTerms.

(** The sample log without its pipeline marker, as another logger would
    have written it. *)
Definition sample_log_bare : list Audit.AuditEvent :=
  [sample_event "crdt.set" (set_payload "x" 1);
   sample_event "crdt.set" (set_payload "y" 2)].

Section PathTerms.
Import Js.




End PathTerms.


Section CanonicalTerms.
Import Js Canonical.

(** Every object of the tree has each key once, as every JavaScript
    object does. *)
Fixpoint well_keyed (x : Json) : Prop :=
  match x with
  | JArr xs =>
      (fix all (l : list Json) : Prop :=
         match l with
         | [] => True
         | y :: r => well_keyed y /\ all r
         end) xs
  | JObj kvs =>
      NoDup (obj_keys kvs)
      /\ (fix all (l : list (string * Json)) : Prop :=
            match l with
            | [] => True
            | (_, v) :: r => well_keyed v /\ all r
            end) kvs
  | _ => True
  end.

(** Two trees that differ in the order of the keys of their objects
    only, each object having each key once. *)
Fixpoint same_tree (x y : Json) : Prop :=
  match x, y with
  | JArr xs, JArr ys =>
      (fix all (l l' : list Json) : Prop :=
         match l, l' with
         | [], [] => True
         | u :: r, v :: r' => same_tree u v /\ all r r'
         | _, _ => False
         end) xs ys
  | JObj a, JObj b =>
      NoDup (obj_keys a)
      /\ obj_keys a ≡ₚ obj_keys b
      /\ (fix all (l : list (string * Json)) : Prop :=
            match l with
            | [] => True
            | (k, u) :: r =>
                match obj_get k b with
                | Some v => same_tree u v
                | None => False
                end /\ all r
            end) a
  | JArr _, _ | JObj _, _ | _, JArr _ | _, JObj _ => False
  | _, _ => x = y
  end.

(** The order of the keys of the sorted objects. *)
Definition key_le (a b : string) : Prop := unit_leb a b = true.

End CanonicalTerms.

Definition doc_lo_hi : Js.Json :=
  Js.JObj [("opt", Js.JObj [("lo", Js.JNum 0); ("hi", Js.JNum 1)]); ("n", Js.JNum 2)].

Definition doc_hi_lo : Js.Json :=
  Js.JObj [("n", Js.JNum 2); ("opt", Js.JObj [("hi", Js.JNum 1); ("lo", Js.JNum 0)])].

(* ===================================================================== *)
(** * Part III.  Properties                                                *)
(* ===================================================================== *)

(** ** The exception monad *)

Lemma bind_Ok {A B} (a : A) (k : A -> Js.outcome B) : (Js.Ok a ≫= k) = k a.
Proof. reflexivity. Qed.

Lemma bind_Throw {A B} (k : A -> Js.outcome B) : (Js.Throw ≫= k) = Js.Throw.
Proof. reflexivity. Qed.


Lemma bind_Outside {A B} (k : A -> Js.outcome B) : (Js.Outside ≫= k) = Js.Outside.
Proof. reflexivity. Qed.

(** ** The audit hash chain *)

Section HashChain.
Import Js Audit.
Context `{Platform}.

(** An event without a hash is stepped over. *)
Lemma verify_loop_skip (e : AuditEvent) rest i prev total :
  nonempty (hash e) = false ->
  verify_loop (e :: rest) i prev total = verify_loop rest (S i) prev total.
Proof. intros Hn. simpl. now rewrite Hn. Qed.

Lemma verify_loop_unhashed events : forall i prev total,
  Forall (fun e => nonempty (hash e) = false) events ->
  verify_loop events i prev total = all_checked total.
Proof.
  induction events as [|e rest IH]; intros i prev total Hall.
  - reflexivity.
  - inversion Hall as [|? ? He Hrest]; subst.
    rewrite verify_loop_skip by exact He. now apply IH.
Qed.

(** A failure is reported at the index of an event that carries a hash. *)
Lemma verify_loop_bad_has_hash events : forall i prev total j,
  firstBadIndex (verify_loop events i prev total) = Some j ->
  exists e, events !! (j - i)%nat = Some e /\ nonempty (hash e) = true /\ (i <= j)%nat.
Proof.
  induction events as [|e rest IH]; intros i prev total j Hbad.
  - discriminate.
  - simpl in Hbad.
    destruct (nonempty (hash e)) eqn:Hh; simpl in Hbad.
    + destruct (nonempty (prevHash e) && negb (String.eqb (default "" (prevHash e)) prev)).
      { simpl in Hbad. injection Hbad as <-. exists e.
        rewrite Nat.sub_diag. auto. }
      destruct (negb (String.eqb (sha256Hex (canonicalLineForHash e i)) "")
                && negb (String.eqb (default "" (hash e))
                           (sha256Hex (canonicalLineForHash e i)))).
      { simpl in Hbad. injection Hbad as <-. exists e.
        rewrite Nat.sub_diag. auto. }
      destruct (IH _ _ _ _ Hbad) as (e' & Hl & Hn & Hle).
      exists e'. split; [|split; [exact Hn | lia]].
      replace (j - i)%nat with (S (j - S i)) by lia. exact Hl.
    + destruct (IH _ _ _ _ Hbad) as (e' & Hl & Hn & Hle).
      exists e'. split; [|split; [exact Hn | lia]].
      replace (j - i)%nat with (S (j - S i)) by lia. exact Hl.
Qed.

(** C10. A log none of whose events has a hash field verifies, with every
    event counted as checked, whatever the events contain; and whenever
    [verifyHashChain] reports a first bad index, the event at that index
    carries a hash. *)
Theorem verifyHashChain_vacuous_without_hashes (events : list AuditEvent) :
  (Forall (fun e => hash e = None) events ->
   verifyHashChain events = all_checked (length events))
  /\ (forall j, firstBadIndex (verifyHashChain events) = Some j ->
        exists e h, events !! j = Some e /\ hash e = Some h /\ h <> "").
Proof.
  split.
  - intros Hall. apply verify_loop_unhashed.
    eapply Forall_impl; [exact Hall|]. intros e He. simpl in He.
    unfold nonempty. now rewrite He.
  - intros j Hbad. apply verify_loop_bad_has_hash in Hbad.
    destruct Hbad as (e & Hl & Hn & _). rewrite Nat.sub_0_r in Hl.
    unfold nonempty in Hn. destruct (hash e) as [h|] eqn:Hh; [|discriminate].
    exists e, h. repeat split; auto.
    intros ->. discriminate.
Qed.

End HashChain.

Section Tamper.
Import Js Audit.
Context `{Platform}.

Lemma verify_loop_cons (e : AuditEvent) rest i prev total :
  verify_loop (e :: rest) i prev total =
  if negb (nonempty (hash e)) then verify_loop rest (S i) prev total
  else if link_broken e prev then bad_at i "prevHash mismatch"
  else if digest_wrong e i then bad_at i "hash mismatch"
  else verify_loop rest (S i) (default prev (hash e)) total.
Proof. reflexivity. Qed.

(** A run that succeeds on [pre ++ rest] goes through [pre] in the same way
    whatever follows it, and reaches [rest] with some last hash [prev']. *)
Lemma verify_loop_through pre : forall rest i prev total,
  hc_ok (verify_loop (pre ++ rest) i prev total) = true ->
  exists prev',
    hc_ok (verify_loop rest (i + length pre) prev' total) = true
    /\ forall rest' total',
         verify_loop (pre ++ rest') i prev total'
         = verify_loop rest' (i + length pre) prev' total'.
Proof.
  induction pre as [|e pre IH]; intros rest i prev total Hok.
  - exists prev. simpl. rewrite Nat.add_0_r. split; [exact Hok | reflexivity].
  - rewrite <- app_comm_cons, verify_loop_cons in Hok.
    destruct (negb (nonempty (hash e))) eqn:Hh.
    + destruct (IH _ _ _ _ Hok) as (prev' & Hok' & Heq).
      exists prev'. simpl length. rewrite <- Nat.add_succ_comm. split; [exact Hok'|].
      intros rest' total'. rewrite <- app_comm_cons, verify_loop_cons, Hh. apply Heq.
    + destruct (link_broken e prev) eqn:Hl; [discriminate|].
      destruct (digest_wrong e i) eqn:Hd; [discriminate|].
      destruct (IH _ _ _ _ Hok) as (prev' & Hok' & Heq).
      exists prev'. simpl length. rewrite <- Nat.add_succ_comm. split; [exact Hok'|].
      intros rest' total'. rewrite <- app_comm_cons, verify_loop_cons, Hh, Hl, Hd.
      apply Heq.
Qed.

(** C3, as the code has it. On a chain that verifies, replacing the payload
    of an event that carries a hash by one whose canonical line has another
    digest (both digests being non-empty, that is, crypto is available)
    makes the verification fail with first bad index exactly the index of
    that event, for the reason "hash mismatch". *)
Theorem tamper_detected_at_index (events : list AuditEvent) (i : nat)
    (e : AuditEvent) (pl : Json) :
  hc_ok (verifyHashChain events) = true ->
  events !! i = Some e ->
  nonempty (hash e) = true ->
  sha256Hex (canonicalLineForHash e i) <> "" ->
  sha256Hex (canonicalLineForHash (with_payload e pl) i) <> "" ->
  sha256Hex (canonicalLineForHash (with_payload e pl) i)
    <> sha256Hex (canonicalLineForHash e i) ->
  verifyHashChain (<[i := with_payload e pl]> events) = bad_at i "hash mismatch".
Proof.
  intros Hok Hi Hhash Hne Hne' Hdiff.
  destruct (list_elem_of_split_length events i e Hi) as (pre & post & -> & Hlen).
  unfold verifyHashChain in *.
  rewrite length_insert.
  replace (<[i := with_payload e pl]> (pre ++ e :: post))
    with (pre ++ with_payload e pl :: post).
  2:{ subst i. rewrite insert_app_r_alt by lia.
      now rewrite Nat.sub_diag. }
  destruct (verify_loop_through pre _ _ _ _ Hok) as (prev' & Hok' & Heq).
  rewrite Heq. simpl (0 + _)%nat in *. rewrite <- Hlen in *.
  rewrite verify_loop_cons in Hok'. rewrite verify_loop_cons.
  change (hash (with_payload e pl)) with (hash e).
  rewrite Hhash in *. simpl negb in *. cbv iota in *.
  change (link_broken (with_payload e pl) prev') with (link_broken e prev').
  destruct (link_broken e prev') eqn:Hl; [discriminate|].
  destruct (digest_wrong e i) eqn:Hd; [discriminate|].
  assert (Hw : digest_wrong (with_payload e pl) i = true).
  { unfold digest_wrong in *. change (hash (with_payload e pl)) with (hash e).
    apply andb_false_iff in Hd. apply andb_true_iff. split.
    - apply negb_true_iff, String.eqb_neq. exact Hne'.
    - apply negb_true_iff, String.eqb_neq. intros Heq'.
      destruct Hd as [Hd|Hd].
      + apply negb_false_iff, String.eqb_eq in Hd. contradiction.
      + apply negb_false_iff, String.eqb_eq in Hd. congruence. }
  now rewrite Hw.
Qed.

End Tamper.

Lemma verifyHashChain_vacuous_witness :
  Audit.verifyHashChain
    [sample_event "crdt.set" (set_payload "x" 1); sample_event "junk" Js.JNull]
  = all_checked 2.
Proof.
  apply (proj1 (verifyHashChain_vacuous_without_hashes
                  [sample_event "crdt.set" (set_payload "x" 1);
                   sample_event "junk" Js.JNull])).
  repeat constructor.
Defined.

Lemma tamper_detected_witness :
  Audit.verifyHashChain
    (<[0%nat := with_payload (sealed (sample_event "crdt.set" (set_payload "x" 1)) 0)
                  (set_payload "x" 2)]>
       [sealed (sample_event "crdt.set" (set_payload "x" 1)) 0])
  = bad_at 0 "hash mismatch".
Proof.
  apply (tamper_detected_at_index
           [sealed (sample_event "crdt.set" (set_payload "x" 1)) 0] 0
           (sealed (sample_event "crdt.set" (set_payload "x" 1)) 0)
           (set_payload "x" 2)).
  - vm_compute. reflexivity.
  - reflexivity.
  - vm_compute. reflexivity.
  - vm_compute. discriminate.
  - vm_compute. discriminate.
  - vm_compute. discriminate.
Defined.

(** A log recorded without hashing verifies before and after one of its
    payloads is changed: the change is not reported at that event's index. *)
Lemma tamper_unhashed_counterexample :
  let e := sample_event "crdt.set" (set_payload "x" 1) in
  let e' := with_payload e (set_payload "x" 2) in
  Audit.hc_ok (Audit.verifyHashChain [e]) = true
  /\ Audit.payload e' <> Audit.payload e
  /\ Audit.verifyHashChain [e'] = all_checked 1
  /\ Audit.firstBadIndex (Audit.verifyHashChain [e']) <> Some 0%nat.
Proof.
  vm_compute. repeat split; discriminate.
Qed.

(** ** The first-divergence locator *)

Section Locator.
Import Js Audit.
Context `{Platform}.
Variables (eventsA eventsB : list AuditEvent) (allowedPrefixes : list string).

Local Abbreviation agree := (agree eventsA eventsB allowedPrefixes).
Local Abbreviation differ := (differ eventsA eventsB allowedPrefixes).

Lemma log2_of_nat (n : nat) : Z.log2 (Z.of_nat n) = Z.of_nat (Nat.log2 n).
Proof.
  destruct n as [|n]; [reflexivity|].
  apply Z.log2_unique; [lia|].
  pose proof (Nat.log2_spec (S n) ltac:(lia)) as [Hlo Hhi].
  apply Nat2Z.inj_le in Hlo. apply Nat2Z.inj_lt in Hhi.
  rewrite Nat2Z.inj_pow in Hlo, Hhi.
  change (Z.of_nat 2) with 2%Z in Hlo, Hhi.
  split; [exact Hlo|].
  rewrite <- Nat2Z.inj_succ. exact Hhi.
Qed.

Lemma rounds_halve (m m' : Z) :
  (1 <= m)%Z -> (0 <= m')%Z -> (2 * m' <= m)%Z -> (S (rounds m') <= rounds m)%nat.
Proof.
  intros Hm Hm' Hle. unfold rounds.
  destruct (Z.eq_dec m' 0) as [->|Hnz].
  - simpl. change (Z.to_nat 0) with 0%nat.
    assert (1 <= Z.log2 (2 * m))%Z.
    { change 1%Z with (Z.log2 2). apply Z.log2_le_mono. lia. }
    lia.
  - assert (Hd : Z.log2 (2 * (2 * m')) = Z.succ (Z.log2 (2 * m'))).
    { apply Z.log2_double. lia. }
    assert (Z.log2 (2 * (2 * m')) <= Z.log2 (2 * m))%Z.
    { apply Z.log2_le_mono. lia. }
    pose proof (Z.log2_nonneg (2 * m')). lia.
Qed.

Lemma bothHashes_agree (n : Z) (c : nat) :
  agree (Z.to_nat n) ->
  exists h, bothHashes eventsA eventsB n allowedPrefixes c = Ok ((h, h), (c + 2)%nat).
Proof.
  intros (h & Ha & Hb). exists h. unfold bothHashes. now rewrite Ha, Hb.
Qed.

Lemma bothHashes_differ (n : Z) (c : nat) :
  differ (Z.to_nat n) ->
  exists ha hb, ha <> hb
    /\ bothHashes eventsA eventsB n allowedPrefixes c = Ok ((ha, hb), (c + 2)%nat).
Proof.
  intros (ha & hb & Ha & Hb & Hne). exists ha, hb. split; [exact Hne|].
  unfold bothHashes. now rewrite Ha, Hb.
Qed.

Variables (k nMax : nat).

Hypothesis below_agree : forall n, (n < k)%nat -> agree n.

Hypothesis from_differ : forall n, (k <= n <= nMax)%nat -> differ n.

(** The loop finds [k] on every range that brackets it, within the fuel of
    the range's size and in a logarithmic number of rounds. *)
Lemma search_finds (fuel : nat) : forall (lo hi first : Z) (c : nat),
  (1 <= lo)%Z -> (lo <= Z.of_nat k)%Z -> (Z.of_nat k <= hi + 1)%Z ->
  (hi <= Z.of_nat nMax)%Z -> (k <= nMax)%nat ->
  first = (hi + 1)%Z \/ hi = Z.of_nat nMax ->
  (hi - lo + 1 <= Z.of_nat fuel)%Z ->
  exists c',
    search fuel eventsA eventsB allowedPrefixes lo hi first c
      = Ok (Some (Z.of_nat k), c')
    /\ (c' <= c + 2 * rounds (hi - lo + 1))%nat.
Proof.
  induction fuel as [|fuel IH]; intros lo hi first c Hlo Hk1 Hk2 Hhi Hkn Hfirst Hfuel.
  - assert (Hlt : (hi <? lo)%Z = true) by (apply Z.ltb_lt; lia).
    simpl. rewrite Hlt. exists c. split; [|lia].
    unfold cret. do 3 f_equal. destruct Hfirst; lia.
  - simpl. destruct (hi <? lo)%Z eqn:Hlt.
    + apply Z.ltb_lt in Hlt. exists c. split; [|lia].
      unfold cret. do 3 f_equal. destruct Hfirst; lia.
    + apply Z.ltb_ge in Hlt.
      set (mid := ((lo + hi) / 2)%Z).
      assert (Hmid : (lo <= mid <= hi)%Z).
      { subst mid. split.
        - apply Z.div_le_lower_bound; lia.
        - apply Z.div_le_upper_bound; lia. }
      assert (Hmid2 : (2 * mid <= lo + hi < 2 * mid + 2)%Z).
      { subst mid. pose proof (Z.div_mod (lo + hi) 2 ltac:(lia)).
        pose proof (Z.mod_pos_bound (lo + hi) 2 ltac:(lia)). lia. }
      unfold cbind.
      destruct (Z_lt_le_dec mid (Z.of_nat k)) as [Hbelow|Habove].
      * destruct (bothHashes_agree mid c) as (h & ->).
        { apply below_agree. lia. }
        simpl. rewrite String.eqb_refl.
        destruct (IH (mid + 1)%Z hi first (c + 2)%nat) as (c' & -> & Hc'); try lia.
        exists c'. split; [reflexivity|].
        pose proof (rounds_halve (hi - lo + 1) (hi - (mid + 1) + 1)
                      ltac:(lia) ltac:(lia) ltac:(lia)).
        lia.
      * destruct (bothHashes_differ mid c) as (ha & hb & Hne & ->).
        { apply from_differ. lia. }
        simpl. apply String.eqb_neq in Hne. rewrite Hne.
        destruct (IH lo (mid - 1)%Z mid (c + 2)%nat) as (c' & -> & Hc'); try lia.
        exists c'. split; [reflexivity|].
        pose proof (rounds_halve (hi - lo + 1) (mid - 1 - lo + 1)
                      ltac:(lia) ltac:(lia) ltac:(lia)).
        lia.
Qed.

End Locator.

Section LocatorResult.
Import Js Audit.
Context `{Platform}.

(** C4, as the code has it. [k] is a prefix length. When the two logs replay
    to equal hashes at every prefix length below [k] and to different
    hashes at every prefix length from [k] to the common length, the
    locator answers [firstIndex = k], and it makes at most
    [2 * (log2 n + 1) + 6] prefix replays, [n] being the common length.
    That a prefix replays to a hash ([agree], [differ]) says that its
    replay returns: no set of the prefix writes inside a value that an
    earlier event stored, which would change the log that the later
    replays read. *)
Theorem first_divergence_binary_search (eventsA eventsB : list AuditEvent)
    (allowedPrefixes : list string) (k : nat) :
  (1 <= k <= Nat.min (length eventsA) (length eventsB))%nat ->
  (forall n, (n < k)%nat -> agree eventsA eventsB allowedPrefixes n) ->
  (forall n, (k <= n <= Nat.min (length eventsA) (length eventsB))%nat ->
             differ eventsA eventsB allowedPrefixes n) ->
  exists r replays,
    findFirstDivergence eventsA eventsB allowedPrefixes 0%nat = Ok (Some r, replays)
    /\ fd_ok r = false
    /\ firstIndex r = Some (Z.of_nat k)
    /\ (replays <= 2 * (Nat.log2 (Nat.min (length eventsA) (length eventsB)) + 1) + 6)%nat.
Proof.
  set (nMax := Nat.min (length eventsA) (length eventsB)).
  intros Hk Hbelow Hfrom.
  unfold findFirstDivergence, cbind. fold nMax.
  destruct (bothHashes_differ eventsA eventsB allowedPrefixes (Z.of_nat nMax) 0)
    as (ha & hb & Hne & ->).
  { rewrite Nat2Z.id. apply Hfrom. lia. }
  rewrite bind_Ok. cbn [fst snd]. apply String.eqb_neq in Hne. rewrite Hne.
  destruct (search_finds eventsA eventsB allowedPrefixes k nMax Hbelow Hfrom
              (Z.to_nat (Z.of_nat nMax)) 1 (Z.of_nat nMax) (Z.of_nat nMax) (0 + 2)%nat)
    as (c' & -> & Hc'); try lia.
  rewrite bind_Ok. cbn [fst snd].
  destruct (bothHashes_agree eventsA eventsB allowedPrefixes
              (Z.max 0 (Z.of_nat k - 1)) c') as (hl & ->).
  { apply Hbelow. lia. }
  rewrite bind_Ok. cbn [fst snd].
  destruct (bothHashes_differ eventsA eventsB allowedPrefixes (Z.of_nat k) (c' + 2))
    as (ra & rb & _ & ->).
  { rewrite Nat2Z.id. apply Hfrom. lia. }
  rewrite bind_Ok. unfold cret. eexists _, _. split; [reflexivity|].
  cbn [fd_ok firstIndex fst snd]. repeat split.
  assert (Hr : rounds (Z.of_nat nMax - 1 + 1) = (Nat.log2 nMax + 1)%nat).
  { unfold rounds. replace (Z.of_nat nMax - 1 + 1)%Z with (Z.of_nat nMax) by lia.
    rewrite Z.log2_double by lia. rewrite log2_of_nat. lia. }
  lia.
Qed.

End LocatorResult.

Lemma first_divergence_reconverging_counterexample :
  agree log_left log_right [] 0
  /\ differ log_left log_right [] 1
  /\ exists r replays,
       Audit.findFirstDivergence log_left log_right [] 0%nat = Js.Ok (Some r, replays)
       /\ Audit.firstIndex r = Some 3%Z
       /\ Audit.firstIndex r <> Some 1%Z.
Proof.
  split; [|split].
  - eexists. split; vm_compute; reflexivity.
  - eexists _, _. split; [vm_compute; reflexivity|].
    split; [vm_compute; reflexivity|]. discriminate.
  - eexists _, _. split; [vm_compute; reflexivity|].
    split; [reflexivity | discriminate].
Qed.

Lemma first_divergence_witness :
  exists r replays,
    Audit.findFirstDivergence log_left log_apart [] 0%nat = Js.Ok (Some r, replays)
    /\ Audit.fd_ok r = false
    /\ Audit.firstIndex r = Some 2%Z
    /\ (replays <= 10)%nat.
Proof.
  apply (first_divergence_binary_search log_left log_apart [] 2).
  - vm_compute. lia.
  - intros n Hn. destruct n as [|[|n]]; [| |lia];
      (eexists; split; vm_compute; reflexivity).
  - intros n Hn. change (Nat.min (length log_left) (length log_apart)) with 3%nat in Hn.
    destruct n as [|[|[|[|n]]]]; try lia;
      (eexists _, _; split; [vm_compute; reflexivity|];
       split; [vm_compute; reflexivity|]; discriminate).
Defined.

(** A set that stores an object and a set that writes inside it: the
    store holds the event's own value, so the second write changes the
    event, and the log with it. The replay of this prefix is not followed. *)
Lemma replay_writes_into_stored_value :
  Audit.prefixHash
    [sample_event "crdt.set"
       (Js.JObj [("path", Js.JStr "a"); ("value", Js.JObj [("x", Js.JNum 1)])]);
     sample_event "crdt.set" (set_payload "a.y" 1)] 2 []
  = Js.Outside.
Proof. vm_compute. reflexivity. Qed.

(** ** The deep-diff report *)

Section DeepDiff.
Import Js Diff.
Context `{Platform}.

Lemma strict_eq_prim (x : Json) :
  strict_eq x x = match x with JArr _ | JObj _ | JNaN => false | _ => true end.
Proof.
  destruct x as [| |b|n| |s|xs|kvs]; simpl; auto.
  - now destruct b.
  - apply Z.eqb_refl.
  - apply String.eqb_refl.
Qed.

Lemma JsType_eqb_refl (t : JsType) : JsType_eqb t t = true.
Proof. now destruct t. Qed.

Lemma array_loop_same rec (xs : list Json) basePath opts :
  (forall x, x ∈ xs -> forall p acc, rec x x p acc = acc) ->
  forall n i a, (n + i <= length xs)%nat ->
    array_loop rec xs xs basePath opts n i a = a.
Proof.
  intros Hrec. induction n as [|n IH]; intros i a Hle; simpl.
  - reflexivity.
  - destruct (full a opts) eqn:Hfull; [reflexivity|].
    assert (Hi : (length xs <=? i)%nat = false) by (apply Nat.leb_gt; lia).
    rewrite Hi.
    destruct (lookup_lt_is_Some_2 xs i) as [x Hx]; [lia|]. rewrite Hx. simpl.
    rewrite Hrec by (eapply list_elem_of_lookup_2; exact Hx).
    rewrite Hfull, andb_false_r. apply IH. lia.
Qed.

Lemma object_loop_same rec (kvs : list (string * Json)) basePath opts :
  (forall k v, obj_get k kvs = Some v -> forall p acc, rec v v p acc = acc) ->
  (forall p acc, rec JUndefined JUndefined p acc = acc) ->
  forall keys a, object_loop rec kvs kvs basePath opts keys a = a.
Proof.
  intros Hrec Hundef. induction keys as [|k keys IH]; intros a; simpl.
  - reflexivity.
  - destruct (full a opts); [reflexivity|].
    destruct (obj_get k kvs) as [v|] eqn:Hk.
    + rewrite (Hrec k v Hk). apply IH.
    + rewrite Hundef. apply IH.
Qed.

Lemma nan_free_element (xs : list Json) (x : Json) :
  forallb nan_free xs = true -> x ∈ xs -> nan_free x = true.
Proof.
  intros Hall Hx. rewrite forallb_forall in Hall. apply Hall.
  now apply list_elem_of_In.
Qed.

Lemma nan_free_entry (kvs : list (string * Json)) (k : string) (v : Json) :
  nan_free (JObj kvs) = true -> obj_get k kvs = Some v -> nan_free v = true.
Proof.
  induction kvs as [|[k' v'] kvs IH]; simpl; [discriminate|].
  intros [Hv Hrest]%andb_prop. destruct (String.eqb k k').
  - now intros [= <-].
  - now apply IH.
Qed.

(** A tree without [NaN] compared with itself leaves both accumulators as
    they are. *)
Lemma deepDiff_same (fuel : nat) : forall x basePath depth a opts,
  nan_free x = true ->
  deepDiff fuel x x basePath depth a opts = a.
Proof.
  induction fuel as [|fuel IH]; intros x basePath depth a opts Hx; simpl.
  - reflexivity.
  - destruct (full a opts); [reflexivity|].
    destruct (maxDepth opts <? depth)%Z; [reflexivity|].
    rewrite strict_eq_prim, JsType_eqb_refl. simpl negb. cbv iota.
    destruct x as [| |b|n| |s|xs|kvs]; try reflexivity; try discriminate.
    + apply array_loop_same; [|lia]. intros x Hin p acc. apply IH.
      now apply (nan_free_element xs).
    + apply object_loop_same.
      * intros k v Hk p acc. apply IH. now apply (nan_free_entry kvs k).
      * intros p acc. now apply IH.
Qed.

(** C5, as the code has it. On [{a:{b:1}}] against [{a:{b:2}}] the report
    is not ok, its first mismatch path is ["a.b"] and its only diff is the
    value diff of 1 against 2 at ["a.b"]; a tree that holds no [NaN]
    against itself gives an ok report without diffs, under any options;
    and a report is ok exactly when its list of diffs is empty. *)
Theorem divergence_report_exact :
  (ok (firstDivergenceReport (tree_ab 1) (tree_ab 2) DEFAULTS) = false
   /\ firstMismatchPath (firstDivergenceReport (tree_ab 1) (tree_ab 2) DEFAULTS)
      = Some "a.b"
   /\ diffs (firstDivergenceReport (tree_ab 1) (tree_ab 2) DEFAULTS)
      = [{| path := "a.b"; local := JNum 1; ref := JNum 2; kind := KValue |}])
  /\ (forall x o,
        nan_free x = true ->
        ok (firstDivergenceReport x x o) = true
        /\ diffs (firstDivergenceReport x x o) = []
        /\ firstMismatchPath (firstDivergenceReport x x o) = None)
  /\ (forall l r o,
        ok (firstDivergenceReport l r o) = true
        <-> diffs (firstDivergenceReport l r o) = []).
Proof.
  split; [|split].
  - repeat split; reflexivity.
  - intros x o Hx. unfold firstDivergenceReport. rewrite deepDiff_same.
    + repeat split; reflexivity.
    + unfold orElse. now destruct (nullish x).
  - intros l r o. unfold firstDivergenceReport. cbn [ok diffs].
    rewrite Nat.eqb_eq. split.
    + now intros ->%length_zero_iff_nil.
    + now intros ->.
Qed.

End DeepDiff.

(** A snapshot that is [NaN], and one that holds [NaN], against
    themselves: the report is not ok, and has a value diff of [NaN]
    against [NaN]. *)
Lemma identical_nan_counterexample :
  (Diff.ok (Diff.firstDivergenceReport Js.JNaN Js.JNaN Diff.DEFAULTS) = false
   /\ Diff.diffs (Diff.firstDivergenceReport Js.JNaN Js.JNaN Diff.DEFAULTS)
      = [{| Diff.path := "(root)"; Diff.local := Js.JNaN; Diff.ref := Js.JNaN;
            Diff.kind := Diff.KValue |}])
  /\ Diff.ok (Diff.firstDivergenceReport tree_nan tree_nan Diff.DEFAULTS) = false
  /\ Diff.diffs (Diff.firstDivergenceReport tree_nan tree_nan Diff.DEFAULTS)
     = [{| Diff.path := "a"; Diff.local := Js.JNaN; Diff.ref := Js.JNaN;
           Diff.kind := Diff.KValue |}]
  /\ Diff.diffs (Diff.firstDivergenceReport tree_nan tree_nan Diff.DEFAULTS) <> [].
Proof.
  vm_compute. repeat split. discriminate.
Qed.

Lemma divergence_report_exact_witness :
  Diff.ok (Diff.firstDivergenceReport (tree_ab 1) (tree_ab 1) Diff.DEFAULTS) = true
  /\ Diff.diffs (Diff.firstDivergenceReport (tree_ab 1) (tree_ab 1) Diff.DEFAULTS) = []
  /\ Diff.firstMismatchPath (Diff.firstDivergenceReport (tree_ab 1) (tree_ab 1) Diff.DEFAULTS)
     = None.
Proof.
  apply (proj1 (proj2 divergence_report_exact) (tree_ab 1) Diff.DEFAULTS).
  reflexivity.
Defined.

(** ** Schema-upgrade votes and proposal identifiers *)

Section UpgradeVotes.
Import Upgrade.

Lemma vote_listed (m : Manager) (voter : string) (v : UpgradeVote) :
  votes m !! voter = Some v ->
  v ∈ votes_on m (vote_proposalId v).
Proof.
  intros Hv. unfold votes_on. apply list_elem_of_filter. split; [reflexivity|].
  apply list_elem_of_fmap. exists (voter, v). split; [reflexivity|].
  now apply elem_of_map_to_list.
Qed.

Lemma votes_on_inv (m : Manager) (pid : string) (v : UpgradeVote) :
  v ∈ votes_on m pid ->
  vote_proposalId v = pid /\ exists voter, votes m !! voter = Some v.
Proof.
  unfold votes_on. intros [Hpid Hin]%list_elem_of_filter. split; [exact Hpid|].
  apply list_elem_of_fmap in Hin as ([voter v'] & -> & Hin).
  exists voter. now apply elem_of_map_to_list.
Qed.

Lemma count_ballot_pos (b : Ballot) (vs : list UpgradeVote) (v : UpgradeVote) :
  v ∈ vs -> vote v = b -> (0 < count_ballot b vs)%Z.
Proof.
  intros Hin Hb. unfold count_ballot.
  assert (Hf : v ∈ filter (fun v => vote v = b) vs) by (apply list_elem_of_filter; auto).
  destruct (filter (fun v => vote v = b) vs); [inversion Hf | simpl; lia].
Qed.

Lemma count_ballot_zero (b : Ballot) (vs : list UpgradeVote) :
  (forall v, v ∈ vs -> vote v <> b) -> count_ballot b vs = 0%Z.
Proof.
  intros Hnone. unfold count_ballot.
  destruct (filter (fun v => vote v = b) vs) as [|v l] eqn:Hf; [reflexivity|].
  assert (Hin : v ∈ filter (fun v => vote v = b) vs) by (rewrite Hf; left).
  apply list_elem_of_filter in Hin as [Hb Hin]. now apply Hnone in Hin.
Qed.

(** C7. With a proposal tracked: one recorded reject vote on it makes
    [isApproved] answer not approved under either quorum, whatever the
    approve votes; and without any reject vote on it, the majority quorum
    approves exactly when the approve votes are more than half of the
    peers plus the local participant. *)
Theorem reject_vote_vetoes (m : Manager) (p : UpgradeProposal) :
  proposal (snapshotState m) = Some p ->
  (forall q voter v,
      votes m !! voter = Some v -> vote_proposalId v = proposalId p ->
      vote v = reject ->
      approved (isApproved m q) = false)
  /\ ((forall voter v,
          votes m !! voter = Some v -> vote_proposalId v = proposalId p ->
          vote v <> reject) ->
      (approved (isApproved m QMajority) = true
       <-> (Z.of_nat (length (peers (snapshotState m))) + 1
            < 2 * count_ballot approve (votes_on m (proposalId p)))%Z)).
Proof.
  intros Hp. split.
  - intros q voter v Hv Hpid Hrej. unfold isApproved. rewrite Hp.
    assert (Hpos : (0 < count_ballot reject (votes_on m (proposalId p)))%Z).
    { apply (count_ballot_pos _ _ v); [|exact Hrej].
      rewrite <- Hpid. now apply (vote_listed m voter). }
    apply Z.ltb_lt in Hpos. now rewrite Hpos.
  - intros Hnone. unfold isApproved. rewrite Hp.
    rewrite (count_ballot_zero reject).
    2:{ intros v [Hpid [voter Hv]]%votes_on_inv. now apply (Hnone voter). }
    simpl. rewrite Z.leb_le.
    set (n := Z.of_nat (length (peers (snapshotState m)))).
    set (a := count_ballot approve (votes_on m (proposalId p))).
    pose proof (Z.div_mod (n + 1) 2 ltac:(lia)).
    pose proof (Z.mod_pos_bound (n + 1) 2 ltac:(lia)).
    lia.
Qed.

End UpgradeVotes.

Lemma reject_vote_vetoes_witness :
  Upgrade.approved (Upgrade.isApproved vetoed_manager Upgrade.QMajority) = false.
Proof.
  destruct (Upgrade.proposal (Upgrade.snapshotState vetoed_manager)) as [p|] eqn:Hp;
    [|vm_compute in Hp; discriminate].
  apply (proj1 (reject_vote_vetoes vetoed_manager p Hp) Upgrade.QMajority "p2"
           (peer_vote "p2" Upgrade.reject)).
  - vm_compute. reflexivity.
  - vm_compute in Hp. injection Hp as <-. vm_compute. reflexivity.
  - reflexivity.
Defined.

Section ProposalIds.
Import Upgrade.
Context `{Platform}.

(** The id of a proposal that [proposeUpgrade] builds is the hash of its
    content. *)
Lemma proposeUpgrade_id (m : Manager) target meta planned t t' (p : UpgradeProposal) :
  (proposeUpgrade m target meta planned t t').1.2 = Some p ->
  proposalId p = proposal_id (createdBy p) (plan p) (precheck p)
  /\ createdAtMs p = t.
Proof.
  unfold proposeUpgrade.
  destruct (isCollaborative (ctx m) && negb _); [discriminate|].
  destruct (String.eqb _ target); [discriminate|].
  destruct planned as [err|found]; [discriminate|].
  simpl. intros [= <-]. split; reflexivity.
Qed.

(** C9. Two calls of [proposeUpgrade], on any two managers and at any
    times, that produce proposals with the same content produce the same
    [proposalId]. *)
Theorem proposalId_deterministic
    (m1 m2 : Manager) (target1 target2 : string) (meta1 meta2 : CRDTMeta)
    (planned1 planned2 : string + list PlanStep) (t1 t1' t2 t2' : Z)
    (p1 p2 : UpgradeProposal) :
  (proposeUpgrade m1 target1 meta1 planned1 t1 t1').1.2 = Some p1 ->
  (proposeUpgrade m2 target2 meta2 planned2 t2 t2').1.2 = Some p2 ->
  same_content p1 p2 ->
  proposalId p1 = proposalId p2.
Proof.
  intros [Hid1 _]%proposeUpgrade_id [Hid2 _]%proposeUpgrade_id (Hby & Hplan & Hpre).
  rewrite Hid1, Hid2, Hby, Hplan, Hpre. reflexivity.
Qed.

End ProposalIds.

Lemma proposalId_deterministic_witness :
  from_option Upgrade.createdAtMs 0%Z proposal_early
    <> from_option Upgrade.createdAtMs 0%Z proposal_late
  /\ from_option Upgrade.proposalId "" proposal_early
     = from_option Upgrade.proposalId "" proposal_late.
Proof.
  destruct proposal_early as [p1|] eqn:H1; [|vm_compute in H1; discriminate].
  destruct proposal_late as [p2|] eqn:H2; [|vm_compute in H2; discriminate].
  split.
  - vm_compute in H1, H2. injection H1 as <-. injection H2 as <-. discriminate.
  - apply (proposalId_deterministic (Upgrade.new_manager sample_ctx 0) vetoed_manager
             "v2" "v2" sample_meta sample_meta (inr sample_steps) (inr sample_steps)
             2 3 70 71 p1 p2 H1 H2).
    vm_compute in H1, H2. injection H1 as <-. injection H2 as <-.
    repeat split.
Defined.

(** ** The replica service *)

Section ReplicaInvariant.
Import Js Collab.

Lemma new_server_docs (l : list (string * Json)) : forall (m : gmap string DocState),
  (forall d doc, m !! d = Some doc -> docId doc = d /\ (0 <= version doc)%Z) ->
  forall d doc,
    fold_left (fun m d => <[d.1 := {| docId := d.1; version := 0; state := d.2 |}]> m) l m
      !! d = Some doc ->
    docId doc = d /\ (0 <= version doc)%Z.
Proof.
  induction l as [|[k v] l IH]; intros m Hm d doc; simpl.
  - apply Hm.
  - apply IH. intros d' doc'. destruct (decide (k = d')) as [->|Hne].
    + rewrite lookup_insert_eq. intros [= <-]. simpl. split; [reflexivity | lia].
    + rewrite lookup_insert_ne by exact Hne. apply Hm.
Qed.

Lemma new_server_wf initialDocs maxBytes : server_wf (new_server initialDocs maxBytes).
Proof.
  split.
  - apply new_server_docs. intros d doc. rewrite lookup_empty. discriminate.
  - intros c ctx d. simpl. rewrite lookup_empty. discriminate.
Qed.

Lemma onConn_wf s c uuid : server_wf s -> server_wf (onConn s c uuid).
Proof.
  intros [Hd Hs]. split; [exact Hd|].
  intros c' ctx d. simpl. destruct (decide (c = c')) as [->|Hne].
  - rewrite lookup_insert_eq. intros [= <-]. discriminate.
  - rewrite lookup_insert_ne by exact Hne. apply Hs.
Qed.

Lemma onClose_wf s c : server_wf s -> server_wf (onClose s c).
Proof. intros [Hd Hs]. split; [exact Hd | exact Hs]. Qed.

Lemma getOrCreateDoc_found s d doc :
  docs s !! d = Some doc -> getOrCreateDoc s d = (s, doc).
Proof. intros Hd. unfold getOrCreateDoc. now rewrite Hd. Qed.

Lemma getOrCreateDoc_wf s d :
  server_wf s -> server_wf (getOrCreateDoc s d).1 /\
  docs (getOrCreateDoc s d).1 !! d = Some (getOrCreateDoc s d).2.
Proof.
  intros [Hd Hs]. unfold getOrCreateDoc.
  destruct (docs s !! d) as [doc|] eqn:Hdoc; simpl.
  - split; [split; assumption | exact Hdoc].
  - split; [|apply lookup_insert_eq]. split; simpl.
    + intros d' doc'. destruct (decide (d = d')) as [->|Hne].
      * rewrite lookup_insert_eq. intros [= <-]. simpl. split; [reflexivity | lia].
      * rewrite lookup_insert_ne by exact Hne. apply Hd.
    + intros c ctx d' Hc Hsess. destruct (decide (d = d')) as [->|Hne].
      * rewrite lookup_insert_eq. eauto.
      * rewrite lookup_insert_ne by exact Hne. eapply Hs; eauto.
Qed.

Lemma set_doc_wf s d doc doc' :
  server_wf s -> docs s !! d = Some doc ->
  docId doc' = d -> (0 <= version doc')%Z ->
  server_wf (set_doc s d doc').
Proof.
  intros [Hd Hs] Hdoc Hid Hv. split; simpl.
  - intros d' doc''. destruct (decide (d = d')) as [->|Hne].
    + rewrite lookup_insert_eq. intros [= <-]. auto.
    + rewrite lookup_insert_ne by exact Hne. apply Hd.
  - intros c ctx d' Hc Hsess. destruct (decide (d = d')) as [->|Hne].
    + rewrite lookup_insert_eq. eauto.
    + rewrite lookup_insert_ne by exact Hne. eapply Hs; eauto.
Qed.

Lemma hello_wf s c d :
  server_wf s -> d <> "" ->
  server_wf (getOrCreateDoc (set_ctx_docId s c d) d).1.
Proof.
  intros [Hd Hs] Hne.
  assert (Hdocs : docs (getOrCreateDoc (set_ctx_docId s c d) d).1 !! d
                  = Some (getOrCreateDoc (set_ctx_docId s c d) d).2
                  /\ forall d' doc, docs (set_ctx_docId s c d) !! d' = Some doc ->
                       docs (getOrCreateDoc (set_ctx_docId s c d) d).1 !! d' = Some doc).
  { unfold getOrCreateDoc. destruct (docs (set_ctx_docId s c d) !! d) eqn:Hl; simpl.
    - split; [exact Hl | auto].
    - split; [apply lookup_insert_eq|]. intros d' doc Hd'.
      rewrite lookup_insert_ne; [exact Hd'|].
      intros <-. simpl in Hl, Hd'. congruence. }
  destruct Hdocs as [Hhere Hkeep].
  assert (Hwf0 : forall d' doc, docs (set_ctx_docId s c d) !! d' = Some doc ->
                   docId doc = d' /\ (0 <= version doc)%Z) by exact Hd.
  split.
  - unfold getOrCreateDoc in *. destruct (docs (set_ctx_docId s c d) !! d) eqn:Hl;
      simpl in *; [exact Hd|].
    intros d' doc. destruct (decide (d = d')) as [->|Hne'].
    + rewrite lookup_insert_eq. intros [= <-]. simpl. split; [reflexivity | lia].
    + rewrite lookup_insert_ne by exact Hne'. apply Hd.
  - intros c' ctx d' Hc Hsess.
    assert (Hheap : heap (getOrCreateDoc (set_ctx_docId s c d) d).1
                    = heap (set_ctx_docId s c d)).
    { unfold getOrCreateDoc. now destruct (docs (set_ctx_docId s c d) !! d). }
    rewrite Hheap in Hc. simpl in Hc.
    destruct (decide (c = c')) as [->|Hne'].
    + rewrite lookup_alter_eq in Hc. destruct (heap s !! c') as [ctx0|]; [|discriminate].
      simpl in Hc. injection Hc as <-. unfold session_of in Hsess. simpl in Hsess.
      destruct (String.eqb d ""); [discriminate|]. injection Hsess as <-.
      rewrite Hhere. eauto.
    + rewrite lookup_alter_ne in Hc by exact Hne'.
      destruct (Hs _ _ _ Hc Hsess) as [doc Hdoc]. exists doc. now apply Hkeep.
Qed.

End ReplicaInvariant.

Section ReplicaV2Facts.
Import Js Collab ReplicaV2.

Lemma onMessage_op apply s c ctx d doc f opId bv p clock :
  heap s !! c = Some ctx -> session_of ctx = Some d -> docs s !! d = Some doc ->
  valid_op s f opId bv p ->
  onMessage_with apply s c f clock = op_outcome apply s c ctx d doc opId bv p clock.
Proof.
  intros Hc Hsess Hdoc (Hlen & Hparsed & Hop & Hbv).
  unfold onMessage_with. rewrite Hc.
  assert (Hl : (maxMessageBytes s <? raw_length f)%Z = false) by (apply Z.ltb_ge; lia).
  rewrite Hl, Hparsed, Hsess, (getOrCreateDoc_found _ _ _ Hdoc).
  apply String.eqb_neq in Hop. rewrite Hop.
  assert (Hb : (bv <? 0)%Z = false) by (apply Z.ltb_ge; lia).
  rewrite Hb. reflexivity.
Qed.

Lemma send_open {P} s c ctx (m : Msg P) :
  heap s !! c = Some ctx -> ws_open ctx = true -> send s c m = [(c, m)].
Proof. intros Hc Ho. unfold send. now rewrite Hc, Ho. Qed.

Lemma send_set_doc {P} s d doc c (m : Msg P) :
  send (set_doc s d doc) c m = send s c m.
Proof. reflexivity. Qed.



Lemma broadcast_only {P} s d (m : Msg P) except c' m' :
  (c', m') ∈ broadcast s d m except ->
  m' = m /\ c' ∈ clients s /\ except <> Some c'
  /\ exists ctx', heap s !! c' = Some ctx' /\ ctx_docId ctx' = Some d
                  /\ ws_open ctx' = true.
Proof.
  unfold broadcast. intros Hin. apply list_elem_of_In, in_flat_map in Hin.
  destruct Hin as (c0 & Hc0 & Hin).
  destruct (bool_decide (except = Some c0)) eqn:He; [inversion Hin|].
  apply bool_decide_eq_false in He.
  destruct (heap s !! c0) as [ctx0|] eqn:Hh; [|inversion Hin].
  destruct (bool_decide (ctx_docId ctx0 = Some d)) eqn:Hd; [|inversion Hin].
  apply bool_decide_eq_true in Hd.
  unfold send in Hin. rewrite Hh in Hin.
  destruct (ws_open ctx0) eqn:Ho; [|inversion Hin].
  destruct Hin as [[= <- <-]|[]].
  split; [reflexivity|]. split; [now apply list_elem_of_In|]. split; [exact He|].
  exists ctx0. auto.
Qed.

End ReplicaV2Facts.

Section ReplicaV2Policy.
Import Js Collab ReplicaV2.


End ReplicaV2Policy.

Section PlainWrites.
Import Js Collab ReplicaV2.

Lemma plain_node (kvs : list (string * Cell)) :
  plain_cell (Node kvs) = forallb (fun kv => plain_cell kv.2) kvs.
Proof.
  induction kvs as [|[k v] kvs IH]; [reflexivity|].
  simpl in *. now rewrite IH.
Qed.

Lemma forallb_obj_get {A} (f : A -> bool) k (kvs : list (string * A)) c :
  forallb (fun kv => f kv.2) kvs = true -> obj_get k kvs = Some c -> f c = true.
Proof.
  induction kvs as [|[k' v] kvs IH]; simpl; [discriminate|].
  intros [Hv Hr]%andb_prop. destruct (String.eqb k k').
  - now intros [= <-].
  - now apply IH.
Qed.

Lemma forallb_obj_replace {A} (f : A -> bool) k v (kvs : list (string * A)) :
  forallb (fun kv => f kv.2) kvs = true -> f v = true ->
  forallb (fun kv => f kv.2) (obj_replace k v kvs) = true.
Proof.
  intros Hkvs Hv. induction kvs as [|[k' v'] kvs IH]; simpl in *; [reflexivity|].
  apply andb_prop in Hkvs as [Hv' Hr]. destruct (String.eqb k k'); simpl.
  - now rewrite Hv, Hr.
  - now rewrite Hv', IH.
Qed.

Lemma forallb_obj_add {A} (f : A -> bool) k v (kvs : list (string * A)) :
  forallb (fun kv => f kv.2) kvs = true -> f v = true ->
  forallb (fun kv => f kv.2) (obj_add k v kvs) = true.
Proof.
  intros Hkvs Hv. induction kvs as [|[k' v'] kvs IH]; simpl in *.
  - now rewrite Hv.
  - apply andb_prop in Hkvs as [Hv' Hr]. destruct (before k k'); simpl.
    + now rewrite Hv, Hv', Hr.
    + now rewrite Hv', IH.
Qed.

Lemma forallb_obj_set {A} (f : A -> bool) k v (kvs : list (string * A)) :
  forallb (fun kv => f kv.2) kvs = true -> f v = true ->
  forallb (fun kv => f kv.2) (obj_set k v kvs) = true.
Proof.
  intros Hkvs Hv. unfold obj_set.
  destruct (obj_has k kvs); [now apply forallb_obj_replace | now apply forallb_obj_add].
Qed.



(** A write of a primitive along keys other than [__proto__], into an
    object of the writer's own that is made of objects: it returns, with
    such an object. *)
Lemma setByPath_parts_plain (parts : list string) (value : Json) :
  is_container value = false -> "__proto__" ∉ parts ->
  forall kvs, plain_cell (Node kvs) = true ->
  exists kvs', setByPath_parts (Node kvs) parts value = Ok (Node kvs')
               /\ plain_cell (Node kvs') = true.
Proof.
  intros Hval. 
  assert (Hput : forall k kvs v, k <> "__proto__" -> plain_cell (Node kvs) = true ->
            plain_cell v = true ->
            c_put (Node kvs) k v = Ok (Node (obj_set k v kvs))
            /\ plain_cell (Node (obj_set k v kvs)) = true).
  { intros k kvs v Hk Hkvs Hv. unfold c_put.
    apply String.eqb_neq in Hk. rewrite Hk. cbn [andb]. split; [reflexivity|].
    rewrite plain_node in Hkvs |- *. now apply forallb_obj_set. }
  assert (Hheld : plain_cell (Held value) = true) by (simpl; now rewrite Hval).
  induction parts as [|k rest IH]; intros Hparts kvs Hkvs.
  - destruct (Hput "undefined" kvs (Held value) ltac:(discriminate) Hkvs Hheld) as [Hp Hq].
    cbn [setByPath_parts]. rewrite Hp. eauto.
  - assert (Hk : k <> "__proto__") by (intros ->; apply Hparts; now left).
    assert (Hrest : "__proto__" ∉ rest) by (intros Hin; apply Hparts; now right).
    destruct rest as [|k2 rest].
    { destruct (Hput k kvs (Held value) Hk Hkvs Hheld) as [Hp Hq].
      cbn [setByPath_parts]. rewrite Hp. eauto. }
    assert (Hfresh : exists kvs', 
               (cur1 ← c_put (Node kvs) k (Node []);
                sub ← setByPath_parts (Node []) (k2 :: rest) value;
                Ok (c_keep cur1 k sub)) = Ok (Node kvs')
               /\ plain_cell (Node kvs') = true).
    { destruct (Hput k kvs (Node []) Hk Hkvs eq_refl) as [Hp Hq].
      rewrite Hp, bind_Ok.
      destruct (IH Hrest [] eq_refl) as (sub & Hsub & Hsubp).
      rewrite Hsub, bind_Ok. simpl c_keep. eexists. split; [reflexivity|].
      rewrite plain_node in Hq |- *. now apply forallb_obj_replace. }
    change (setByPath_parts (Node kvs) (k :: k2 :: rest) value)
      with (child ← c_get (Node kvs) k;
            match child with
            | Held x =>
                if is_container x then Outside
                else
                  cur1 ← c_put (Node kvs) k (Node []);
                  sub ← setByPath_parts (Node []) (k2 :: rest) value;
                  Ok (c_keep cur1 k sub)
            | _ =>
                sub ← setByPath_parts child (k2 :: rest) value;
                Ok (c_keep (Node kvs) k sub)
            end).
    unfold c_get. destruct (obj_get k kvs) as [c|] eqn:Hget.
    + rewrite bind_Ok.
      assert (Hc : plain_cell c = true).
      { rewrite plain_node in Hkvs. exact (forallb_obj_get _ _ _ _ Hkvs Hget). }
      destruct c as [x|kvs1|xs]; [| |discriminate].
      * simpl in Hc. apply negb_true_iff in Hc. rewrite Hc. exact Hfresh.
      * destruct (IH Hrest kvs1 Hc) as (sub & Hsub & Hsubp).
        rewrite Hsub, bind_Ok. simpl c_keep. eexists. split; [reflexivity|].
        rewrite plain_node in Hkvs |- *. now apply forallb_obj_replace.
    + apply String.eqb_neq in Hk. rewrite Hk, bind_Ok. simpl is_container. cbv iota.
      exact Hfresh.
Qed.



End PlainWrites.

Section StalePolicy.
Import Js Collab ReplicaV2.


End StalePolicy.

Section ReplicaSteps.
Import Js Collab.

Lemma docs_grow_refl s : docs_grow s s.
Proof. intros d doc Hd. exists doc. split; [exact Hd | lia]. Qed.

Lemma docs_grow_same_docs s s' : docs s' = docs s -> docs_grow s s'.
Proof. intros Heq d doc Hd. exists doc. rewrite Heq. split; [exact Hd | lia]. Qed.

Lemma docs_grow_trans s1 s2 s3 : docs_grow s1 s2 -> docs_grow s2 s3 -> docs_grow s1 s3.
Proof.
  intros H12 H23 d doc Hd.
  destruct (H12 _ _ Hd) as (doc2 & Hd2 & Hle2).
  destruct (H23 _ _ Hd2) as (doc3 & Hd3 & Hle3).
  exists doc3. split; [exact Hd3 | lia].
Qed.

Lemma getOrCreateDoc_grow s d : docs_grow s (getOrCreateDoc s d).1.
Proof.
  unfold getOrCreateDoc. destruct (docs s !! d) eqn:Hl; simpl.
  - apply docs_grow_refl.
  - intros d' doc Hd'. exists doc. simpl. split; [|lia].
    rewrite lookup_insert_ne; [exact Hd'|]. intros <-. congruence.
Qed.

Lemma set_doc_grow s d doc doc' :
  docs s !! d = Some doc -> (version doc <= version doc')%Z ->
  docs_grow s (set_doc s d doc').
Proof.
  intros Hd Hle d0 doc0 Hd0. simpl. destruct (decide (d = d0)) as [->|Hne].
  - rewrite lookup_insert_eq. exists doc'. split; [reflexivity|]. congruence.
  - rewrite lookup_insert_ne by exact Hne. exists doc0. split; [exact Hd0 | lia].
Qed.

Lemma getOrCreateDoc_eq s d s1 doc :
  getOrCreateDoc s d = (s1, doc) ->
  docs s1 !! d = Some doc /\ docs_grow s s1 /\ heap s1 = heap s
  /\ (server_wf s -> server_wf s1).
Proof.
  intros Heq.
  pose proof (getOrCreateDoc_grow s d) as Hg.
  assert (Hh : heap (getOrCreateDoc s d).1 = heap s).
  { unfold getOrCreateDoc. now destruct (docs s !! d). }
  rewrite Heq in Hg, Hh. simpl in Hg, Hh.
  split; [|split; [exact Hg|split; [exact Hh|]]].
  - assert (Hl : docs (getOrCreateDoc s d).1 !! d = Some (getOrCreateDoc s d).2).
    { unfold getOrCreateDoc. destruct (docs s !! d) eqn:Hl; simpl; [exact Hl|].
      apply lookup_insert_eq. }
    now rewrite Heq in Hl.
  - intros Hwf. pose proof (proj1 (getOrCreateDoc_wf s d Hwf)) as Hwf'.
    now rewrite Heq in Hwf'.
Qed.

End ReplicaSteps.

(** The two cases of a handler run, once the frame is taken apart. *)
Ltac handler_step s c Hwf :=
  repeat case_match; simpl;
    try (split; [exact Hwf | apply docs_grow_refl]);
    match goal with
    | Hg : Collab.getOrCreateDoc (Collab.set_ctx_docId _ _ ?d) ?d = _, Hne : (?d =? "") = false |- _ =>
        pose proof (getOrCreateDoc_eq _ _ _ _ Hg) as (_ & Hgrow & _ & _);
        pose proof (hello_wf s c d Hwf) as Hwf'; rewrite Hg in Hwf';
        split;
        [ apply Hwf'; now apply String.eqb_neq
        | eapply docs_grow_trans; [|exact Hgrow]; now apply docs_grow_same_docs ]
    | Hg : Collab.getOrCreateDoc s _ = (_, _) |- _ =>
        pose proof (getOrCreateDoc_eq _ _ _ _ Hg) as (Hd & Hgrow & Hheap & Hwf1);
        specialize (Hwf1 Hwf);
        first
          [ split; [exact Hwf1 | exact Hgrow]
          | destruct (proj1 Hwf1 _ _ Hd) as [Hid Hver];
            split;
            [ eapply set_doc_wf; [exact Hwf1 | exact Hd | exact Hid | simpl; lia]
            | eapply docs_grow_trans; [exact Hgrow|];
              eapply set_doc_grow; [exact Hd | simpl; lia] ] ]
    end.

Section ReplicaV2Steps.
Import Js Collab.

(** Every run of the v2 handler keeps the invariant and lets no version go
    down. *)
Lemma onMessage2_step apply s c f clock :
  server_wf s ->
  server_wf (srv (ReplicaV2.onMessage_with apply s c f clock))
  /\ docs_grow s (srv (ReplicaV2.onMessage_with apply s c f clock)).
Proof.
  intros Hwf. unfold ReplicaV2.onMessage_with, ReplicaV2.done.
  handler_step s c Hwf.
Qed.

End ReplicaV2Steps.

Section ReplicaV1Facts.
Import Js Collab ReplicaV1.



End ReplicaV1Facts.

Section AppliedOps.
Import Js Collab.




End AppliedOps.

Section Determinism.
Import Js Collab ReplicaV2.
Context `{Platform}.











End Determinism.

Lemma live_server_wf : server_wf live_server.
Proof.
  unfold live_server, joined_server, ReplicaV2.onMessage.
  repeat (apply onMessage2_step || apply onConn_wf). apply new_server_wf.
Qed.

Lemma number_server_wf : server_wf number_server.
Proof.
  unfold number_server, joined_server, ReplicaV2.onMessage.
  repeat (apply onMessage2_step || apply onConn_wf). apply new_server_wf.
Qed.







(** C6 at the failing input: after the write [a.c := 2], the write
    [__proto__.a.b := 1] does not stay inside the replica. [setByPath]
    reads [cur["__proto__"]], which on an object without such an entry is
    [Object.prototype], and goes on writing there: the run leaves the
    document as it was and what it changes is shared by every object of
    the process, the documents of later replays among them. *)
Lemma proto_path_leaves_replica :
  let s1 := replay env_a [ReplicaV2.PPathSet [path_op "a.c" 2] None] in
  final env_a [ReplicaV2.PPathSet [path_op "a.c" 2] None]
  = Some (Js.JObj [("a", Js.JObj [("c", Js.JNum 2)])], 1%Z)
  /\ ReplicaV2.onMessage s1 1
       (op_frame 100 "a1" 1 (ReplicaV2.PPathSet [path_op "__proto__.a.b" 1] None)) tick
     = {| Collab.srv := s1; Collab.sent := []; Collab.ended := Collab.WentOutside |}
  /\ ReplicaV1.onMessage (run_ops1 env_a (connect1 env_a) 0
                            [Js.JArr [Js.JObj [("path", Js.JStr "a.c");
                                               ("value", Js.JNum 2)]]]) 1
       {| Collab.raw_length := 100;
          Collab.parsed :=
            Some (Collab.InOp "a1" (Some 1%Z)
                    (Js.JArr [Js.JObj [("path", Js.JStr "__proto__.a.b");
                                       ("value", Js.JNum 1)]])) |}
     = {| Collab.srv := run_ops1 env_a (connect1 env_a) 0
                          [Js.JArr [Js.JObj [("path", Js.JStr "a.c");
                                             ("value", Js.JNum 2)]]];
          Collab.sent := []; Collab.ended := Collab.WentOutside |}.
Proof.
  vm_compute. repeat split.
Qed.

(** ** The conflict store *)

Section ConflictStoreFacts.
Import Js Conflicts.

Lemma new_store_ok tag p : (0 <= maxItems p)%Z -> store_ok (new_store tag p).
Proof.
  intros Hmax. split; [split; [|split]|].
  - constructor.
  - intros i. simpl. rewrite lookup_empty. split; [inversion 1 | intros [? [=]]].
  - intros i it. simpl. rewrite lookup_empty. discriminate.
  - unfold within_capacity. simpl. lia.
Qed.

Lemma lookup_delete_all (ids : list string) : forall (m : gmap string ConflictItem) j,
  delete_all ids m !! j = if decide (j ∈ ids) then None else m !! j.
Proof.
  unfold delete_all. induction ids as [|i ids IH]; intros m j; simpl.
  - destruct (decide (j ∈ [])) as [Hin|_]; [inversion Hin | reflexivity].
  - rewrite IH. destruct (decide (j ∈ ids)) as [Hin|Hnin].
    + rewrite decide_True by (now right). reflexivity.
    + destruct (decide (i = j)) as [->|Hne].
      * rewrite decide_True by left. apply lookup_delete_eq.
      * rewrite lookup_delete_ne by exact Hne.
        rewrite decide_False; [reflexivity|].
        intros [->|Hin]%elem_of_cons; contradiction.
Qed.

Lemma filter_none_all (P : string -> Prop) `{forall x, Decision (P x)} (l : list string) :
  filter P l = [] -> filter (fun x => ~ P x) l = l.
Proof.
  induction l as [|x l IH]; [reflexivity|].
  rewrite !filter_cons. destruct (decide (P x)) as [Hp|Hn]; [discriminate|].
  intros Hnil. rewrite decide_True by exact Hn. now rewrite IH.
Qed.

Lemma filter_iff_on (P Q : string -> Prop) `{forall x, Decision (P x)}
    `{forall x, Decision (Q x)} (l : list string) :
  (forall x, x ∈ l -> (P x <-> Q x)) -> filter P l = filter Q l.
Proof.
  induction l as [|x l IH]; intros Hiff; [reflexivity|].
  rewrite !filter_cons.
  rewrite IH by (intros y Hy; apply Hiff; now right).
  apply decide_ext. apply Hiff. left.
Qed.

Lemma cleanup_passes (s : ConflictStore) (t : Z) :
  store_sync s -> cleanup s t = trim_pass (purge_pass s t).
Proof.
  intros (Hnd & Hsync & _).
  assert (Hpurge :
    (if purge_enabled (purge (policy s)) then
       match shouldRemove s t with
       | [] => s
       | ids =>
           let m := delete_all ids (items s) in
           {| st_localClientTag := st_localClientTag s; policy := policy s;
              items := m; order := filter (fun i => is_Some (m !! i)) (order s) |}
       end
     else s) = purge_pass s t).
  { unfold purge_pass. destruct (purge_enabled (purge (policy s))); [|reflexivity].
    destruct (shouldRemove s t) as [|i0 ids] eqn:Hrm.
    - unfold shouldRemove in Hrm. rewrite (filter_none_all _ _ Hrm).
      now destruct s.
    - cbv zeta. f_equal. apply filter_iff_on. intros j Hj.
      rewrite lookup_delete_all. rewrite <- Hrm. unfold shouldRemove.
      destruct (decide (j ∈ filter (fun i => expired_id s t i = true) (order s)))
        as [Hin|Hnin].
      + apply list_elem_of_filter in Hin as [He _]. split; [intros [? [=]] | congruence].
      + split; [|intros _; now apply Hsync].
        intros _ He. apply Hnin, list_elem_of_filter. auto. }
  unfold cleanup. cbv zeta in Hpurge |- *. rewrite Hpurge. unfold trim_pass, excess.
  destruct (maxItems (policy (purge_pass s t)) <? Z.of_nat (length (order (purge_pass s t))))%Z
    eqn:Hlt; [reflexivity|].
  apply Z.ltb_ge in Hlt.
  replace (Z.to_nat _) with 0%nat by lia.
  simpl. now destruct (purge_pass s t).
Qed.

Lemma purge_pass_policy s t : policy (purge_pass s t) = policy s.
Proof. unfold purge_pass. now destruct (purge_enabled (purge (policy s))). Qed.

Lemma purge_pass_lookup s t j :
  store_sync s ->
  items (purge_pass s t) !! j
  = if purge_enabled (purge (policy s)) && expired_id s t j then None else items s !! j.
Proof.
  intros (_ & Hsync & _). unfold purge_pass.
  destruct (purge_enabled (purge (policy s))); [|reflexivity].
  simpl. rewrite lookup_delete_all. unfold shouldRemove.
  destruct (expired_id s t j) eqn:He.
  - rewrite decide_True; [reflexivity|]. apply list_elem_of_filter. split; [exact He|].
    apply Hsync. unfold expired_id in He. destruct (items s !! j); [eauto | discriminate].
  - rewrite decide_False; [reflexivity|].
    intros [He' _]%list_elem_of_filter. congruence.
Qed.

Lemma purge_pass_order s t :
  order (purge_pass s t)
  = if purge_enabled (purge (policy s))
    then filter (fun i => expired_id s t i <> true) (order s) else order s.
Proof. unfold purge_pass. now destruct (purge_enabled (purge (policy s))). Qed.

Lemma purge_pass_sync s t : store_sync s -> store_sync (purge_pass s t).
Proof.
  intros Hs. pose proof Hs as (Hnd & Hsync & Hkey).
  split; [|split].
  - rewrite purge_pass_order. destruct (purge_enabled (purge (policy s))); [|exact Hnd].
    now apply NoDup_filter.
  - intros j. rewrite purge_pass_lookup by exact Hs. rewrite purge_pass_order.
    destruct (purge_enabled (purge (policy s))); simpl; [|apply Hsync].
    rewrite list_elem_of_filter, Hsync.
    destruct (expired_id s t j); split.
    + intros [Hne _]. now contradiction Hne.
    + intros [? [=]].
    + intros [_ Hsome]. exact Hsome.
    + intros Hsome. split; [discriminate | exact Hsome].
  - intros j it. rewrite purge_pass_lookup by exact Hs.
    destruct (purge_enabled (purge (policy s)) && expired_id s t j); [discriminate|].
    apply Hkey.
Qed.

Lemma trim_pass_sync s : store_sync s -> store_sync (trim_pass s).
Proof.
  intros (Hnd & Hsync & Hkey).
  assert (Hsplit : order s = take (excess s) (order s) ++ drop (excess s) (order s))
    by (symmetry; apply take_drop).
  rewrite Hsplit in Hnd. apply NoDup_app in Hnd as (Hnd1 & Hdisj & Hnd2).
  split; [exact Hnd2|]. split.
  - intros j. simpl. rewrite lookup_delete_all.
    destruct (decide (j ∈ take (excess s) (order s))) as [Hin|Hnin].
    + split; [|intros [? [=]]]. intros Hd. now apply Hdisj in Hin.
    + rewrite <- Hsync. rewrite Hsplit at 2. rewrite elem_of_app. tauto.
  - intros j it. simpl. rewrite lookup_delete_all.
    destruct (decide (j ∈ take (excess s) (order s))); [discriminate | apply Hkey].
Qed.

Lemma trim_pass_capacity s :
  (0 <= maxItems (policy s))%Z -> within_capacity (trim_pass s).
Proof.
  intros Hmax. unfold within_capacity, trim_pass, excess. simpl.
  rewrite length_drop. lia.
Qed.

Lemma cleanup_policy s t : store_sync s -> policy (cleanup s t) = policy s.
Proof. intros Hs. rewrite cleanup_passes by exact Hs. simpl. apply purge_pass_policy. Qed.

Lemma cleanup_ok s t :
  store_sync s -> (0 <= maxItems (policy s))%Z -> store_ok (cleanup s t).
Proof.
  intros Hs Hmax. rewrite cleanup_passes by exact Hs. split.
  - now apply trim_pass_sync, purge_pass_sync.
  - apply trim_pass_capacity. now rewrite purge_pass_policy.
Qed.

(** A record that is not expired and has fewer than [maxItems] records
    after it in [order] survives [cleanup]. *)
Lemma cleanup_keeps s t i it pre post :
  store_sync s ->
  items s !! i = Some it ->
  purge_enabled (purge (policy s)) && expired (purge (policy s)) t it = false ->
  order s = pre ++ i :: post ->
  (Z.of_nat (length (i :: post)) <= maxItems (policy s))%Z ->
  items (cleanup s t) !! i = Some it /\ i ∈ order (cleanup s t).
Proof.
  intros Hs Hi Hlive Horder Hroom. pose proof Hs as (Hnd & Hsync & Hkey).
  rewrite cleanup_passes by exact Hs.
  assert (Hexp : purge_enabled (purge (policy s)) && expired_id s t i = false).
  { unfold expired_id. now rewrite Hi. }
  assert (Hi1 : items (purge_pass s t) !! i = Some it).
  { rewrite purge_pass_lookup by exact Hs. now rewrite Hexp. }
  assert (Ho1 : exists pre' post', order (purge_pass s t) = pre' ++ i :: post'
                                   /\ (i ∉ pre') /\ (length post' <= length post)%nat).
  { rewrite purge_pass_order, Horder.
    rewrite Horder in Hnd. apply NoDup_app in Hnd as (_ & Hdisj & _).
    assert (Hpre : i ∉ pre) by (intros Hin; apply (Hdisj _ Hin); left).
    destruct (purge_enabled (purge (policy s))) eqn:Hen.
    - simpl in Hexp. rewrite filter_app, filter_cons.
      rewrite decide_True by congruence.
      eexists _, _. split; [reflexivity|]. split.
      + intros [_ Hin]%list_elem_of_filter. contradiction.
      + apply length_filter.
    - exists pre, post. auto. }
  destruct Ho1 as (pre' & post' & Ho1 & Hpre' & Hlen').
  assert (Hex : (excess (purge_pass s t) <= length pre')%nat).
  { unfold excess. rewrite purge_pass_policy, Ho1, length_app. simpl in *. lia. }
  simpl. rewrite lookup_delete_all, Ho1.
  rewrite take_app_le, drop_app_le by exact Hex.
  split.
  - rewrite decide_False; [exact Hi1|].
    intros (n & Hn & _)%elem_of_take. apply Hpre'. eapply list_elem_of_lookup_2, Hn.
  - apply elem_of_app. right. left.
Qed.

End ConflictStoreFacts.

Section ConflictAdd.
Import Js Conflicts.
Context `{Platform}.

Lemma add_existing s input t t' existing :
  items s !! conflict_id s input = Some existing ->
  add s input t t'
  = (cleanup (with_item s (conflict_id s input) (reraised existing input t) (order s)) t',
     reraised existing input t).
Proof. intros He. unfold add. fold (conflict_id s input). now rewrite He. Qed.

Lemma add_fresh s input t t' :
  items s !! conflict_id s input = None ->
  add s input t t'
  = (cleanup (with_item s (conflict_id s input) (first_raised s input t)
                (order s ++ [conflict_id s input])) t',
     first_raised s input t).
Proof. intros He. unfold add. fold (conflict_id s input). now rewrite He. Qed.

Lemma cleanup_tag s t : st_localClientTag (cleanup s t) = st_localClientTag s.
Proof.
  unfold cleanup. cbv zeta.
  destruct (purge_enabled (purge (policy s))); [destruct (shouldRemove s t)|];
    simpl; now repeat case_match.
Qed.

Lemma severity_max (a b : ConflictSeverity) :
  severityRank (escalateSeverity a b) = Z.max (severityRank a) (severityRank b).
Proof. destruct a, b; reflexivity. Qed.

Lemma add_reraise s input t t' existing :
  store_ok s -> in_time (purge (policy s)) t t' ->
  items s !! conflict_id s input = Some existing ->
  (add s input t t').2 = reraised existing input t
  /\ add_post s input (add s input t t').1 (add s input t t').2.
Proof.
  intros [Hs Hcap] Htime He. pose proof Hs as (Hnd & Hsync & Hkey).
  rewrite (add_existing _ _ _ _ _ He). cbn [fst snd]. split; [reflexivity|].
  set (cid := conflict_id s input) in *.
  set (next := reraised existing input t).
  assert (Hin : cid ∈ order s) by (apply Hsync; eauto).
  assert (Hmid : store_sync (with_item s cid next (order s))).
  { split; [exact Hnd|]. split.
    - intros j. simpl. rewrite lookup_insert_is_Some, Hsync.
      destruct (decide (cid = j)) as [<-|Hne]; [|tauto].
      split; [auto|]. intros _. apply Hsync, Hin.
    - intros j it. simpl. destruct (decide (cid = j)) as [<-|Hne].
      + rewrite lookup_insert_eq. intros [= <-]. simpl. now apply Hkey.
      + rewrite lookup_insert_ne by exact Hne. apply Hkey. }
  destruct (list_elem_of_split _ _ Hin) as (pre & post & Hsplit).
  assert (Hlive : purge_enabled (purge (policy s)) && expired (purge (policy s)) t' next
                  = false).
  { destruct Htime as [-> | [Hr Hi]]; [reflexivity|].
    apply andb_false_iff. right. unfold expired. simpl.
    apply orb_false_iff. split; apply andb_false_iff; right; apply Z.ltb_ge; lia. }
  destruct (cleanup_keeps (with_item s cid next (order s)) t' cid next pre post Hmid)
    as [Hl Ho]; try assumption.
  { simpl. apply lookup_insert_eq. }
  { unfold within_capacity in Hcap. rewrite Hsplit, length_app in Hcap.
    simpl in *. lia. }
  split; [exact Hl|]. split; [exact Ho|]. split.
  - apply cleanup_ok; [exact Hmid|]. unfold within_capacity in Hcap. simpl. lia.
  - split; [now rewrite cleanup_policy by exact Hmid | now rewrite cleanup_tag].
Qed.

Lemma add_first s input t t' :
  store_ok s -> (1 <= maxItems (policy s))%Z ->
  items s !! conflict_id s input = None ->
  (add s input t t').2 = first_raised s input t
  /\ add_post s input (add s input t t').1 (add s input t t').2.
Proof.
  intros [Hs Hcap] Hmax He. pose proof Hs as (Hnd & Hsync & Hkey).
  rewrite (add_fresh _ _ _ _ He). cbn [fst snd]. split; [reflexivity|].
  set (cid := conflict_id s input) in *.
  set (it := first_raised s input t).
  assert (Hnin : cid ∉ order s).
  { intros Hin. apply Hsync in Hin as [? Hin]. congruence. }
  assert (Hmid : store_sync (with_item s cid it (order s ++ [cid]))).
  { split; [|split].
    - apply NoDup_app. split; [exact Hnd|]. split; [|apply NoDup_singleton].
      intros j Hj ->%list_elem_of_singleton. contradiction.
    - intros j. simpl. rewrite lookup_insert_is_Some, elem_of_app, Hsync,
        list_elem_of_singleton.
      destruct (decide (cid = j)) as [<-|Hne]; [tauto|].
      split; [intros [Hj | ->]; [auto | contradiction] | intros [-> | [_ Hj]]; auto].
    - intros j it'. simpl. destruct (decide (cid = j)) as [<-|Hne].
      + rewrite lookup_insert_eq. intros [= <-]. reflexivity.
      + rewrite lookup_insert_ne by exact Hne. apply Hkey. }
  assert (Hlive : purge_enabled (purge (policy s)) && expired (purge (policy s)) t' it
                  = false).
  { apply andb_false_iff. right. unfold expired, it, first_raised. simpl.
    now destruct (auto_acked (policy s) input). }
  destruct (cleanup_keeps (with_item s cid it (order s ++ [cid])) t' cid it (order s) []
              Hmid) as [Hl Ho]; try assumption.
  { simpl. apply lookup_insert_eq. }
  { reflexivity. }
  split; [exact Hl|]. split; [exact Ho|]. split.
  - apply cleanup_ok; [exact Hmid|]. simpl. lia.
  - split; [now rewrite cleanup_policy by exact Hmid | now rewrite cleanup_tag].
Qed.

Lemma once_in_NoDup (l : list string) (x : string) :
  NoDup l -> x ∈ l -> length (filter (fun j => j = x) l) = 1%nat.
Proof.
  intros Hnd Hin. destruct (list_elem_of_split _ _ Hin) as (pre & post & ->).
  apply NoDup_app in Hnd as (_ & Hdisj & Hpost).
  apply NoDup_cons in Hpost as [Hpost _].
  rewrite filter_app, filter_cons, decide_True by reflexivity.
  assert (Hpre0 : filter (fun j => j = x) pre = []).
  { apply elem_of_nil_inv. intros j [-> Hj]%list_elem_of_filter.
    apply (Hdisj _ Hj). left. }
  assert (Hpost0 : filter (fun j => j = x) post = []).
  { apply elem_of_nil_inv. intros j [-> Hj]%list_elem_of_filter. contradiction. }
  now rewrite Hpre0, Hpost0.
Qed.

End ConflictAdd.

Section ConflictIdempotence.
Import Js Conflicts.
Context `{Platform}.

Lemma same_condition_id s s' a b :
  same_condition a b -> st_localClientTag s' = st_localClientTag s ->
  conflict_id s' b = conflict_id s a.
Proof.
  intros (Hk & Hsev & Hpeer & Hrel & Hpl) Htag. unfold conflict_id.
  now rewrite Htag, Hk, Hsev, Hpeer, Hrel, Hpl.
Qed.

(** C2, as the code has it. The store is consistent and within a capacity
    of at least one record, and in each call the time between the two
    clock reads is within the purge TTLs. After two calls of [add] with
    the same [kind], [severity], [sourcePeer], [related] and [payload]:
    the id computed from them names exactly one record, the one the second
    call returns; its severity is the higher of the record's and the new
    one; its title is the newer title; its detail and payload are the newer
    ones when the newer occurrence has them and the older ones otherwise;
    [related] is the shallow merge; and its status is the status the record
    had. The same holds of a call that finds a record of any status in the
    store: the status is kept. *)
Theorem add_twice_one_record (s : ConflictStore) (a b : AddInput) (t1 t1' t2 t2' : Z) :
  store_ok s ->
  (1 <= maxItems (policy s))%Z ->
  in_time (purge (policy s)) t1 t1' ->
  in_time (purge (policy s)) t2 t2' ->
  same_condition a b ->
  let s1 := (add s a t1 t1').1 in
  let r1 := (add s a t1 t1').2 in
  let s2 := (add s1 b t2 t2').1 in
  let r2 := (add s1 b t2 t2').2 in
  let cid := conflict_id s a in
  (items s2 !! cid = Some r2
   /\ length (filter (fun j => j = cid) (order s2)) = 1%nat
   /\ id r2 = cid
   /\ severityRank (severity r2)
      = Z.max (severityRank (severity r1)) (severityRank (in_severity b))
   /\ title r2 = in_title b
   /\ detail r2 = from_option Some (detail r1) (in_detail b)
   /\ payload r2 = orElse (in_payload b) (payload r1)
   /\ related r2 = Some (related_merge (default related_empty (related r1))
                                       (default related_empty (in_related b)))
   /\ status r2 = status r1)
  /\ (forall existing, items s !! cid = Some existing ->
        items s1 !! cid = Some r1 /\ status r1 = status existing).
Proof.
  intros Hok Hmax Ht1 Ht2 Hsame s1 r1 s2 r2 cid.
  assert (H1 : add_post s a s1 r1
               /\ forall existing, items s !! cid = Some existing ->
                    status r1 = status existing).
  { destruct (items s !! cid) as [existing|] eqn:He.
    - destruct (add_reraise s a t1 t1' existing Hok Ht1 He) as [Hr Hp].
      split; [exact Hp|]. intros ? [= <-]. subst r1. now rewrite Hr.
    - destruct (add_first s a t1 t1' Hok Hmax He) as [_ Hp].
      split; [exact Hp | discriminate]. }
  destruct H1 as [(Hl1 & Hin1 & Hok1 & Hpol1 & Htag1) Hstatus].
  fold cid in Hl1, Hin1.
  assert (Hcid : conflict_id s1 b = cid) by now apply same_condition_id.
  destruct (add_reraise s1 b t2 t2' r1 Hok1) as [Hr2 (Hl2 & Hin2 & Hok2 & _)].
  { now rewrite Hpol1. }
  { now rewrite Hcid. }
  rewrite Hcid in Hl2, Hin2. fold s2 r2 in Hr2, Hl2, Hin2, Hok2.
  split.
  - split; [exact Hl2|]. split.
    { apply once_in_NoDup; [apply Hok2 | exact Hin2]. }
    rewrite Hr2. cbn [id severity title detail payload related status reraised].
    split; [apply (proj2 (proj2 (proj1 Hok1))), Hl1|].
    split; [apply severity_max|]. repeat split.
  - intros existing He. split; [exact Hl1 | now apply Hstatus].
Qed.

End ConflictIdempotence.

(** The newer occurrence has no detail; the record keeps the older one. *)
Lemma add_detail_kept_counterexample :
  Conflicts.in_detail (report_with None "ws error again") = None
  /\ Conflicts.detail after_two_reports.2 = Some "socket closed"
  /\ Conflicts.detail after_two_reports.2
     <> Conflicts.in_detail (report_with None "ws error again").
Proof.
  vm_compute. repeat split. discriminate.
Qed.

Lemma add_twice_one_record_witness :
  Conflicts.items after_two_reports.1
    !! conflict_id empty_store (report_with (Some "socket closed") "ws error")
  = Some after_two_reports.2
  /\ Conflicts.title after_two_reports.2 = "ws error again"
  /\ Conflicts.status after_two_reports.2 = Conflicts.Open.
Proof.
  destruct (add_twice_one_record empty_store
              (report_with (Some "socket closed") "ws error")
              (report_with None "ws error again") 1000 1001 2000 2003)
    as [(Hl & _ & _ & _ & Ht & _ & _ & _ & Hs) _].
  - apply new_store_ok. vm_compute. discriminate.
  - vm_compute. discriminate.
  - right. vm_compute. split; discriminate.
  - right. vm_compute. split; discriminate.
  - repeat split.
  - split; [exact Hl|]. split; [exact Ht|].
    unfold after_two_reports. rewrite Hs. vm_compute. reflexivity.
Defined.

(** ** Worked examples *)

(** The two path writes of the convergence scenario, applied in either
    order to the empty document, give states with one canonical text. *)
Example bounds_converge :
  let lo := ReplicaV2.PPathSet
              [{| ReplicaV2.path := "opt.bounds.lo";
                  ReplicaV2.value := Js.JArr [Js.JNum 0; Js.JNum 0; Js.JNum 0];
                  ReplicaV2.ts := None; ReplicaV2.op_clientId := None |}] None in
  let hi := ReplicaV2.PPathSet
              [{| ReplicaV2.path := "opt.bounds.hi";
                  ReplicaV2.value := Js.JArr [Js.JNum 1; Js.JNum 1; Js.JNum 1];
                  ReplicaV2.ts := None; ReplicaV2.op_clientId := None |}] None in
  exists st1 st2,
    fold_patches (Js.JObj [], 0%Z) 0 [lo; hi] = Js.Ok (st1, 2%Z)
    /\ fold_patches (Js.JObj [], 0%Z) 0 [hi; lo] = Js.Ok (st2, 2%Z)
    /\ st1 <> st2
    /\ Canonical.canonicalJSONStringify st1 = Canonical.canonicalJSONStringify st2.
Proof.
  eexists _, _. split; [vm_compute; reflexivity|]. split; [vm_compute; reflexivity|].
  split; [discriminate | vm_compute; reflexivity].
Qed.

(** A record that the operator resolved stays resolved when the condition
    is raised again. *)
Example resolved_stays_resolved :
  let s1 := (Conflicts.add empty_store (report_with None "ws error") 1000 1001).1 in
  let cid := conflict_id empty_store (report_with None "ws error") in
  let s2 := (Conflicts.resolve s1 cid 1500 1500).1 in
  Conflicts.status (Conflicts.add s2 (report_with None "ws error") 2000 2002).2
  = Conflicts.Resolved.
Proof. vm_compute. reflexivity. Qed.

(** A chain of two sealed events verifies. *)
Example sealed_chain_verifies :
  let e0 := sealed (sample_event "crdt.set" (set_payload "x" 1)) 0 in
  let e1 := sealed (with_payload
                      {| Audit.v := 1; Audit.sessionId := "s1"; Audit.clientId := "c1";
                         Audit.tsWallMs := 1001; Audit.tsMonoMs := None;
                         Audit.type := "crdt.set"; Audit.ok := true;
                         Audit.docId := None; Audit.room := None; Audit.runId := None;
                         Audit.payload := Js.JNull;
                         Audit.prevHash := Audit.hash e0; Audit.hash := None |}
                      (set_payload "y" 2)) 1 in
  Audit.verifyHashChain [e0; e1] = all_checked 2.
Proof. vm_compute. reflexivity. Qed.

(** ** The conflict store: invariant, eviction, counters, bulk actions *)

Section ConflictEviction.
Import Js Conflicts.

Lemma cleanup_lookup_inv s t i it :
  store_sync s ->
  items (cleanup s t) !! i = Some it ->
  items s !! i = Some it
  /\ purge_enabled (purge (policy s)) && expired (purge (policy s)) t it = false.
Proof.
  intros Hs. rewrite cleanup_passes by exact Hs. simpl.
  rewrite lookup_delete_all. case_decide; [discriminate|].
  rewrite purge_pass_lookup by exact Hs.
  destruct (purge_enabled (purge (policy s)) && expired_id s t i) eqn:He; [discriminate|].
  intros Hi. split; [exact Hi|]. unfold expired_id in He. now rewrite Hi in He.
Qed.

Lemma purge_pass_capacity s t : within_capacity s -> within_capacity (purge_pass s t).
Proof.
  unfold within_capacity. rewrite purge_pass_policy, purge_pass_order.
  destruct (purge_enabled (purge (policy s))); [|auto].
  pose proof (length_filter (fun i => expired_id s t i <> true) (order s)). lia.
Qed.

Lemma trim_pass_idle s : within_capacity s -> trim_pass s = s.
Proof.
  unfold within_capacity, trim_pass, excess. intros Hcap.
  replace (Z.to_nat _) with 0%nat by lia. simpl. now destruct s.
Qed.

Lemma cleanup_lookup_live s t i it :
  store_sync s -> within_capacity s ->
  items s !! i = Some it ->
  purge_enabled (purge (policy s)) && expired (purge (policy s)) t it = false ->
  items (cleanup s t) !! i = Some it.
Proof.
  intros Hs Hcap Hi Hlive. rewrite cleanup_passes by exact Hs.
  rewrite trim_pass_idle by now apply purge_pass_capacity.
  rewrite purge_pass_lookup by exact Hs. unfold expired_id. now rewrite Hi, Hlive.
Qed.

(** X2. [cleanup] on a consistent store. Every record that remains was in
    the store, unchanged, and is not expired (when the purge is enabled:
    not resolved for longer than [resolvedTTLms] nor ignored for longer than
    [ignoredTTLms]). When the store holds no more than [maxItems] records,
    the converse holds: every record that is not expired remains. *)
Theorem cleanup_removes_exactly_expired (s : ConflictStore) (t : Z) :
  store_sync s ->
  (forall i it, items (cleanup s t) !! i = Some it ->
     items s !! i = Some it
     /\ purge_enabled (purge (policy s)) && expired (purge (policy s)) t it = false)
  /\ (within_capacity s ->
      forall i it, items s !! i = Some it ->
        purge_enabled (purge (policy s)) && expired (purge (policy s)) t it = false ->
        items (cleanup s t) !! i = Some it).
Proof.
  intros Hs. split.
  - intros i it. now apply cleanup_lookup_inv.
  - intros Hcap i it. now apply cleanup_lookup_live.
Qed.

Lemma cleanup_order s t :
  store_sync s ->
  order (cleanup s t)
  = drop (excess (purge_pass s t)) (order (purge_pass s t)).
Proof. intros Hs. now rewrite cleanup_passes by exact Hs. Qed.

(** X3. The trim of [cleanup] evicts in the order of first report: when a
    record survives, every record that was first reported after it and is
    not expired survives too, whatever their times of last update. *)
Theorem cleanup_evicts_oldest_first (s : ConflictStore) (t : Z) (i j : string)
    (l1 l2 l3 : list string) (itj : ConflictItem) :
  store_sync s ->
  order s = l1 ++ i :: l2 ++ j :: l3 ->
  is_Some (items (cleanup s t) !! i) ->
  items s !! j = Some itj ->
  purge_enabled (purge (policy s)) && expired (purge (policy s)) t itj = false ->
  items (cleanup s t) !! j = Some itj.
Proof.
  intros Hs Horder [iti Hi] Hj Hlive.
  pose proof (trim_pass_sync _ (purge_pass_sync s t Hs)) as Hs'.
  rewrite <- cleanup_passes in Hs' by exact Hs.
  destruct Hs' as (Hnd' & Hsync' & _).
  assert (Hin : i ∈ order (cleanup s t)) by (apply Hsync'; eauto).
  assert (Hjp : items (purge_pass s t) !! j = Some itj).
  { rewrite purge_pass_lookup by exact Hs. unfold expired_id. now rewrite Hj, Hlive. }
  rewrite cleanup_passes by exact Hs. simpl. rewrite lookup_delete_all.
  rewrite decide_False; [exact Hjp|].
  rewrite cleanup_order in Hin by exact Hs.
  pose proof (purge_pass_sync s t Hs) as (Hndp & Hsyncp & _).
  set (o := order (purge_pass s t)) in *. set (e := excess (purge_pass s t)) in *.
  assert (Ho : exists m1 m2 m3, o = m1 ++ i :: m2 ++ j :: m3).
  { assert (Hip : i ∈ o).
    { rewrite <- (take_drop e o). apply elem_of_app. now right. }
    assert (Hjo : j ∈ o) by (apply Hsyncp; eauto).
    subst o. rewrite purge_pass_order in *.
    destruct (purge_enabled (purge (policy s))); [|rewrite Horder; eauto].
    apply list_elem_of_filter in Hip as [Hpi _].
    apply list_elem_of_filter in Hjo as [Hpj _].
    rewrite Horder, filter_app, filter_cons, filter_app, filter_cons.
    rewrite decide_True by exact Hpi. rewrite decide_True by exact Hpj. eauto. }
  destruct Ho as (m1 & m2 & m3 & Ho).
  assert (He : (e <= length m1)%nat).
  { destruct (decide (e <= length m1)%nat) as [|Hgt]; [assumption|]. exfalso.
    rewrite Ho in Hndp, Hin.
    apply NoDup_app in Hndp as (_ & _ & Hnd2). apply NoDup_cons in Hnd2 as [Hni _].
    rewrite drop_app_ge in Hin by lia.
    destruct (e - length m1)%nat as [|k] eqn:Hk; [lia|]. simpl in Hin.
    apply Hni. eapply subseteq_drop, Hin. }
  rewrite Ho. rewrite take_app_le by exact He.
  intros Hjt. assert (Hjm : j ∈ m1).
  { apply elem_of_take in Hjt as (n & Hn & _). eapply list_elem_of_lookup_2, Hn. }
  rewrite Ho in Hndp. apply NoDup_app in Hndp as (_ & Hdisj & _).
  apply (Hdisj _ Hjm). right. apply elem_of_app. right. left.
Qed.

End ConflictEviction.

Section ConflictInvariant.
Import Js Conflicts ConflictViews.
Context `{Platform}.

Lemma store_ok_capacity s : store_ok s -> (0 <= maxItems (policy s))%Z.
Proof. intros [_ Hcap]. unfold within_capacity in Hcap. lia. Qed.

(** Writing a record over one with the same id keeps the tables in step. *)
Lemma overwrite_sync s i it next :
  store_sync s -> items s !! i = Some it -> id next = id it ->
  store_sync (with_item s i next (order s)).
Proof.
  intros (Hnd & Hsync & Hkey) Hi Hid. split; [exact Hnd|]. split.
  - intros j. simpl. rewrite lookup_insert_is_Some, Hsync.
    destruct (decide (i = j)) as [<-|Hne]; [|tauto].
    split; [auto|]. intros _. eauto.
  - intros j it'. simpl. destruct (decide (i = j)) as [<-|Hne].
    + rewrite lookup_insert_eq. intros [= <-]. rewrite Hid. now apply Hkey.
    + rewrite lookup_insert_ne by exact Hne. apply Hkey.
Qed.

Lemma append_sync s i it :
  store_sync s -> items s !! i = None -> id it = i ->
  store_sync (with_item s i it (order s ++ [i])).
Proof.
  intros (Hnd & Hsync & Hkey) Hi Hid.
  assert (Hnin : i ∉ order s).
  { intros Hin. apply Hsync in Hin as [? Hin]. congruence. }
  split; [|split].
  - apply NoDup_app. split; [exact Hnd|]. split; [|apply NoDup_singleton].
    intros j Hj ->%list_elem_of_singleton. contradiction.
  - intros j. simpl. rewrite lookup_insert_is_Some, elem_of_app, Hsync,
      list_elem_of_singleton.
    destruct (decide (i = j)) as [<-|Hne]; [tauto|].
    split; [intros [Hj | ->]; [auto | contradiction] | intros [-> | [_ Hj]]; auto].
  - intros j it'. simpl. destruct (decide (i = j)) as [<-|Hne].
    + rewrite lookup_insert_eq. now intros [= <-].
    + rewrite lookup_insert_ne by exact Hne. apply Hkey.
Qed.

Lemma add_ok s input t t' :
  store_sync s -> (0 <= maxItems (policy s))%Z -> store_ok (add s input t t').1.
Proof.
  intros Hs Hmax. destruct (items s !! conflict_id s input) as [existing|] eqn:He.
  - rewrite (add_existing _ _ _ _ _ He). cbn [fst].
    apply cleanup_ok; [|exact Hmax]. now apply (overwrite_sync _ _ existing).
  - rewrite (add_fresh _ _ _ _ He). cbn [fst].
    apply cleanup_ok; [|exact Hmax]. now apply append_sync.
Qed.

Lemma setStatus_eq s i st t t' it :
  items s !! i = Some it ->
  setStatus s i st t t' = (cleanup (with_item s i (with_status it st t) (order s)) t', true).
Proof. intros Hi. unfold setStatus. now rewrite Hi. Qed.

Lemma setStatus_ok s i st t t' : store_ok s -> store_ok (setStatus s i st t t').1.
Proof.
  intros Hok. destruct (items s !! i) as [it|] eqn:Hi.
  - rewrite (setStatus_eq _ _ _ _ _ _ Hi). cbn [fst].
    apply cleanup_ok; [|exact (store_ok_capacity _ Hok)].
    apply (overwrite_sync _ _ it); [apply Hok | exact Hi | reflexivity].
  - unfold setStatus. now rewrite Hi.
Qed.

Lemma acked_from_refl p m : acked_from p m m.
Proof. intros i. destruct (m !! i); auto. Qed.

Lemma open_eligible_acked p it t : open_eligible p (acked_at it t) = false.
Proof. reflexivity. Qed.

Lemma ack_round_from p clock m n i :
  acked_from p m (ack_round p clock (m, n) i).1.
Proof.
  unfold ack_round. cbn [fst snd]. destruct (m !! i) as [it|] eqn:Hi;
    [|apply acked_from_refl].
  destruct (bool_decide (status it = Open)) eqn:Ho; [|apply acked_from_refl].
  destruct (eligible p it) eqn:He; [|apply acked_from_refl].
  cbn [fst]. intros j. destruct (decide (i = j)) as [<-|Hne].
  - rewrite lookup_insert_eq, Hi. right. unfold open_eligible. rewrite Ho, He. eauto.
  - rewrite lookup_insert_ne by exact Hne. destruct (m !! j); auto.
Qed.

Lemma acked_from_trans p m1 m2 m3 :
  acked_from p m1 m2 -> acked_from p m2 m3 -> acked_from p m1 m3.
Proof.
  intros H12 H23 i. specialize (H12 i). specialize (H23 i).
  destruct (m1 !! i) as [a|], (m2 !! i) as [b|], (m3 !! i) as [c|]; try tauto.
  destruct H12 as [->|(Ha & u & ->)]; [exact H23|].
  destruct H23 as [->|(Hb & _)]; [right; eauto|].
  now rewrite open_eligible_acked in Hb.
Qed.

(** Once a record is not open and eligible, it stays so. *)
Lemma acked_from_settled p m m' i :
  acked_from p m m' ->
  (forall it, m !! i = Some it -> open_eligible p it = false) ->
  forall it', m' !! i = Some it' -> open_eligible p it' = false.
Proof.
  intros Hfrom Hm it' Hi'. specialize (Hfrom i). rewrite Hi' in Hfrom.
  destruct (m !! i) as [it|]; [|contradiction].
  destruct Hfrom as [->|(_ & u & ->)]; [now apply Hm | reflexivity].
Qed.

Lemma ack_rounds p clock (l : list string) : forall m n,
  let r := fold_left (ack_round p clock) l (m, n) in
  acked_from p m r.1
  /\ (forall i it', i ∈ l -> r.1 !! i = Some it' -> open_eligible p it' = false)
  /\ (NoDup l ->
      r.2 = (n + length (filter (fun i => from_option (open_eligible p) false (m !! i) = true)
                           l))%nat).
Proof.
  induction l as [|i l IH]; intros m n; cbn zeta.
  - simpl. split; [apply acked_from_refl|]. split; [intros ? ? Hin; inversion Hin | lia].
  - cbn [fold_left]. destruct (ack_round p clock (m, n) i) as [m1 n1] eqn:Hstep.
    destruct (IH m1 n1) as (Hfrom & Hdone & Hcount).
    pose proof (ack_round_from p clock m n i) as Hfrom1. rewrite Hstep in Hfrom1.
    cbn [fst] in Hfrom1.
    split; [eapply acked_from_trans; eassumption|]. split.
    + intros j it' [->|Hin]%elem_of_cons; [|now apply Hdone].
      apply (acked_from_settled p m1 _ i Hfrom).
      intros it Hi. unfold ack_round in Hstep. cbn [fst snd] in Hstep.
      destruct (m !! i) as [it0|] eqn:Hi0.
      * destruct (bool_decide (status it0 = Open)) eqn:Ho.
        -- destruct (eligible p it0) eqn:He.
           ++ injection Hstep as <- <-. rewrite lookup_insert_eq in Hi.
              now injection Hi as <-.
           ++ injection Hstep as <- <-. rewrite Hi0 in Hi. injection Hi as <-.
              unfold open_eligible. now rewrite Ho, He.
        -- injection Hstep as <- <-. rewrite Hi0 in Hi. injection Hi as <-.
           unfold open_eligible. now rewrite Ho.
      * injection Hstep as <- <-. congruence.
    + intros [Hni Hnd]%NoDup_cons. rewrite Hcount by exact Hnd.
      rewrite filter_cons.
      assert (Hsame : filter (fun i0 => from_option (open_eligible p) false (m1 !! i0) = true) l
                      = filter (fun i0 => from_option (open_eligible p) false (m !! i0) = true) l).
      { apply filter_iff_on. intros j Hj.
        assert (Hne : i <> j) by (intros ->; contradiction).
        unfold ack_round in Hstep. cbn [fst snd] in Hstep.
        destruct (m !! i) as [it0|]; [|now injection Hstep as <- <-].
        destruct (bool_decide (status it0 = Open)); [|now injection Hstep as <- <-].
        destruct (eligible p it0); injection Hstep as <- <-; [|reflexivity].
        now rewrite lookup_insert_ne by exact Hne. }
      rewrite Hsame. unfold ack_round in Hstep. cbn [fst snd] in Hstep.
      destruct (m !! i) as [it0|]; cbn [from_option].
      * assert (Hoe : open_eligible p it0
                      = bool_decide (status it0 = Open) && eligible p it0) by reflexivity.
        destruct (bool_decide (status it0 = Open)); [destruct (eligible p it0)|];
          injection Hstep as <- <-; rewrite Hoe; cbn [andb].
        -- rewrite decide_True by reflexivity. simpl. lia.
        -- rewrite decide_False by discriminate. lia.
        -- rewrite decide_False by discriminate. lia.
      * injection Hstep as <- <-. rewrite decide_False by discriminate. lia.
Qed.

Lemma acked_from_sync p s m' :
  store_sync s -> acked_from p (items s) m' ->
  store_sync {| st_localClientTag := st_localClientTag s; policy := policy s;
                items := m'; order := order s |}.
Proof.
  intros (Hnd & Hsync & Hkey) Hfrom. split; [exact Hnd|]. split.
  - intros i. simpl. rewrite Hsync. specialize (Hfrom i).
    destruct (items s !! i), (m' !! i); try contradiction; split; eauto;
      intros [? [=]].
  - intros i it'. simpl. intros Hi'. specialize (Hfrom i). rewrite Hi' in Hfrom.
    destruct (items s !! i) as [it|] eqn:Hi; [|contradiction].
    destruct Hfrom as [->|(_ & u & ->)]; [now apply Hkey | simpl; now apply Hkey].
Qed.

Lemma autoAckEligible_ok s clock t' :
  store_ok s -> store_ok (autoAckEligible s clock t').1.
Proof.
  intros Hok. unfold autoAckEligible. cbv zeta.
  destruct (ack_rounds (policy s) clock (order s) (items s) 0%nat) as (Hfrom & _ & _).
  pose proof (acked_from_sync _ s _ (proj1 Hok) Hfrom) as Hmid.
  destruct (fold_left (ack_round (policy s) clock) (order s) (items s, 0%nat)).2.
  - cbn [fst]. split; [exact Hmid | apply Hok].
  - cbn [fst]. apply cleanup_ok; [exact Hmid | exact (store_ok_capacity _ Hok)].
Qed.

(** X1. Every operation of the store keeps its tables consistent and within
    capacity: after [add], [setStatus], [ack], [resolve], [ignore], [list]
    and [autoAckEligible], [order] has no repetition and lists exactly the
    ids of [items], each record is stored under its own id, and at most
    [maxItems] records are held. [add] and [list] also bring a consistent
    store that holds too many records (after [setPolicy] lowered the
    capacity) back within capacity. *)
Theorem store_stays_ok (s : ConflictStore) :
  store_sync s -> (0 <= maxItems (policy s))%Z ->
  (forall input t t', store_ok (add s input t t').1)
  /\ (forall lower q t, store_ok (list_ lower s q t).1)
  /\ (within_capacity s ->
      forall i t t',
        (forall st, store_ok (setStatus s i st t t').1)
        /\ store_ok (ack s i t t').1
        /\ store_ok (resolve s i t t').1
        /\ store_ok (ignore s i t t').1)
  /\ (within_capacity s -> forall clock t', store_ok (autoAckEligible s clock t').1)
  /\ (forall p, store_sync (setPolicy s p)).
Proof.
  intros Hs Hmax. split; [intros; now apply add_ok|].
  split; [intros; now apply cleanup_ok|]. split; [|split].
  - intros Hcap i t t'. assert (Hok : store_ok s) by now split.
    split; [intros; now apply setStatus_ok|].
    unfold ack, resolve, ignore.
    destruct (items s !! i) as [it|]; [|split; [|split]; exact Hok].
    split; [|split]; case_bool_decide; first [exact Hok | now apply setStatus_ok].
  - intros Hcap clock t'. apply autoAckEligible_ok. now split.
  - intros p. exact Hs.
Qed.

End ConflictInvariant.

Lemma two_reports_ok : store_ok two_reports.
Proof.
  unfold two_reports. cbv zeta. apply add_ok.
  - apply add_ok; [apply new_store_ok|]; vm_compute; discriminate.
  - vm_compute. discriminate.
Qed.

Lemma store_stays_ok_witness :
  store_ok (Conflicts.add shrunk_store (report_of Conflicts.SchemaMismatch) 3000 3001).1
  /\ length (Conflicts.order (Conflicts.add shrunk_store (report_of Conflicts.SchemaMismatch) 3000 3001).1)
     = 1%nat.
Proof.
  assert (Hmax : (0 <= Conflicts.maxItems (Conflicts.policy shrunk_store))%Z)
    by (vm_compute; discriminate).
  destruct (store_stays_ok shrunk_store (proj1 two_reports_ok) Hmax) as (Hadd & _).
  split; [apply Hadd | vm_compute; reflexivity].
Defined.

Lemma cleanup_removes_exactly_expired_witness :
  is_Some (Conflicts.items (Conflicts.cleanup two_reports 5000)
             !! conflict_id two_reports (report_of Conflicts.HashMismatch)).
Proof.
  assert (Hi : is_Some (Conflicts.items two_reports
                          !! conflict_id two_reports (report_of Conflicts.HashMismatch)))
    by (vm_compute; eauto).
  destruct Hi as [it Hi]. exists it.
  apply (proj2 (cleanup_removes_exactly_expired two_reports 5000 (proj1 two_reports_ok))
           (proj2 two_reports_ok) _ it Hi).
  apply andb_false_iff. right. revert Hi. vm_compute. now intros [= <-].
Defined.

Lemma cleanup_evicts_oldest_first_witness :
  is_Some (Conflicts.items (Conflicts.cleanup two_reports 5000)
             !! conflict_id two_reports (report_of Conflicts.OpApplyFailed)).
Proof.
  assert (Hj : is_Some (Conflicts.items two_reports
                          !! conflict_id two_reports (report_of Conflicts.OpApplyFailed)))
    by (vm_compute; eauto).
  destruct Hj as [itj Hj]. exists itj.
  apply (cleanup_evicts_oldest_first two_reports 5000
           (conflict_id two_reports (report_of Conflicts.HashMismatch))
           (conflict_id two_reports (report_of Conflicts.OpApplyFailed)) [] [] [] itj).
  - apply two_reports_ok.
  - vm_compute. reflexivity.
  - vm_compute. eauto.
  - exact Hj.
  - apply andb_false_iff. right. revert Hj. vm_compute. now intros [= <-].
Defined.

Section ConflictBulkAck.
Import Js Conflicts ConflictViews.

Lemma ack_rounds_store s clock :
  store_sync s ->
  let r := fold_left (ack_round (policy s) clock) (order s) (items s, 0%nat) in
  acked_from (policy s) (items s) r.1
  /\ (forall i it, r.1 !! i = Some it -> open_eligible (policy s) it = false)
  /\ r.2 = length (filter (fun i => open_eligible_id s i = true) (order s)).
Proof.
  intros (Hnd & Hsync & _).
  destruct (ack_rounds (policy s) clock (order s) (items s) 0%nat)
    as (Hfrom & Hdone & Hcount).
  cbv zeta in *. split; [exact Hfrom|]. split.
  - intros i it Hi. apply (Hdone i it); [|exact Hi]. apply Hsync.
    specialize (Hfrom i). rewrite Hi in Hfrom.
    destruct (items s !! i); [eauto | contradiction].
  - rewrite Hcount by exact Hnd. reflexivity.
Qed.

(** X6. [autoAckEligible] on a consistent store. Afterwards no record is
    open and eligible under the policy; the number returned is the number of
    records that were open and eligible; every record left is one the store
    had, either untouched or acknowledged (only [status] and [updatedAtMs]
    differ) because it was open and eligible; and when nothing was eligible
    the store is returned as it was. *)
Theorem autoAckEligible_acks_every_eligible (s : ConflictStore) (clock : nat -> Z)
    (t' : Z) :
  store_sync s ->
  let r := autoAckEligible s clock t' in
  (forall i it, items r.1 !! i = Some it -> open_eligible (policy s) it = false)
  /\ r.2 = length (filter (fun i => open_eligible_id s i = true) (order s))
  /\ (forall i it, items r.1 !! i = Some it ->
        exists it0, items s !! i = Some it0
          /\ (it = it0
              \/ (open_eligible (policy s) it0 = true /\ exists t, it = acked_at it0 t)))
  /\ (r.2 = 0%nat -> r.1 = s).
Proof.
  intros Hs. destruct (ack_rounds_store s clock Hs) as (Hfrom & Hdone & Hcount).
  cbv zeta in *. unfold autoAckEligible. cbv zeta.
  pose proof (acked_from_sync _ s _ Hs Hfrom) as Hmid.
  set (r := fold_left (ack_round (policy s) clock) (order s) (items s, 0%nat)) in *.
  assert (Hback : forall i it, r.1 !! i = Some it ->
            exists it0, items s !! i = Some it0
              /\ (it = it0 \/ (open_eligible (policy s) it0 = true
                               /\ exists t, it = acked_at it0 t))).
  { intros i it Hi. specialize (Hfrom i). rewrite Hi in Hfrom.
    destruct (items s !! i) as [it0|]; [eauto | contradiction]. }
  destruct r.2 as [|n] eqn:Hn; cbn [fst snd].
  - split; [exact Hdone|]. split; [exact Hcount|]. split; [exact Hback|].
    intros _. destruct s as [tag pol its ord]. simpl in *. f_equal.
    apply map_eq. intros i. specialize (Hfrom i).
    destruct (its !! i) as [it0|] eqn:Hi0, (r.1 !! i) as [it|] eqn:Hi;
      try contradiction; [|reflexivity].
    destruct Hfrom as [->|(Hoe & _)]; [reflexivity|]. exfalso.
    symmetry in Hcount. apply length_zero_iff_nil in Hcount.
    assert (Hin : i ∈ filter (fun j => open_eligible_id
                     {| st_localClientTag := tag; policy := pol; items := its;
                        order := ord |} j = true) ord).
    { apply list_elem_of_filter. split.
      - unfold open_eligible_id. simpl. now rewrite Hi0.
      - apply (proj1 (proj2 Hs)). simpl. eauto. }
    rewrite Hcount in Hin. inversion Hin.
  - split; [|split; [exact Hcount|split; [|discriminate]]].
    + intros i it Hi. apply cleanup_lookup_inv in Hi as [Hi _]; [|exact Hmid].
      now apply (Hdone i).
    + intros i it Hi. apply cleanup_lookup_inv in Hi as [Hi _]; [|exact Hmid].
      now apply Hback.
Qed.

End ConflictBulkAck.

Section ConflictCounters.
Import Js Conflicts ConflictViews.

Lemma counts_fold (l : list ConflictItem) : forall c,
  let r := fold_left count_item l c in
  n_open r = (n_open c + length (filter (fun it => status it = Open) l))%nat
  /\ n_criticalOpen r
     = (n_criticalOpen c
        + length (filter (fun it => status it = Open /\ severity it = Critical) l))%nat
  /\ total r = (total c + length l)%nat.
Proof.
  induction l as [|it l IH]; intros c; cbn zeta.
  - simpl. unfold total. lia.
  - cbn [fold_left]. destruct (IH (count_item c it)) as (Ho & Hc & Ht).
    rewrite Ho, Hc, Ht. rewrite !filter_cons. unfold count_item, total.
    destruct (status it) eqn:Hst; cbn [n_open n_acked n_resolved n_ignored n_criticalOpen].
    + rewrite decide_True by reflexivity. case_bool_decide as Hsev.
      * rewrite decide_True by auto. simpl. lia.
      * rewrite decide_False by tauto. simpl. lia.
    + rewrite !decide_False by (first [discriminate | intros [? _]; discriminate]).
      simpl. lia.
    + rewrite !decide_False by (first [discriminate | intros [? _]; discriminate]).
      simpl. lia.
    + rewrite !decide_False by (first [discriminate | intros [? _]; discriminate]).
      simpl. lia.
Qed.

Lemma sync_size s : store_sync s -> length (order s) = size (items s).
Proof.
  intros (Hnd & Hsync & _). rewrite <- length_map_to_list.
  rewrite <- (length_fmap fst (map_to_list (items s))).
  apply Permutation_length, NoDup_Permutation;
    [exact Hnd | apply NoDup_fst_map_to_list |].
  intros i. rewrite Hsync, list_elem_of_fmap. split.
  - intros [it Hi]. exists (i, it). split; [reflexivity|].
    now apply elem_of_map_to_list.
  - intros ([j it] & -> & Hin). apply elem_of_map_to_list in Hin. eauto.
Qed.

(** X4. [counts] on a consistent store. The four status counters add up to
    the number of records held; [criticalOpen] never exceeds [open];
    [open] is zero exactly when no record is open, and [criticalOpen] is
    zero exactly when no open record is critical. *)
Theorem counts_partition (s : ConflictStore) :
  store_sync s ->
  let c := counts s in
  total c = length (order s)
  /\ (n_criticalOpen c <= n_open c)%nat
  /\ (n_open c = 0%nat <-> forall i it, items s !! i = Some it -> status it <> Open)
  /\ (n_criticalOpen c = 0%nat
      <-> forall i it, items s !! i = Some it -> status it = Open ->
            severity it <> Critical).
Proof.
  intros Hs. cbv zeta. unfold counts.
  destruct (counts_fold (snd <$> map_to_list (items s)) no_counts) as (Ho & Hc & Ht).
  cbv zeta in *. rewrite Ho, Hc, Ht. simpl.
  rewrite length_fmap, length_map_to_list, (sync_size s Hs).
  set (l := (map_to_list (items s)).*2).
  assert (Hl : forall it, it ∈ l <-> exists i, items s !! i = Some it).
  { intros it. unfold l. rewrite list_elem_of_fmap. split.
    - intros ([i x] & -> & Hin). exists i. now apply elem_of_map_to_list.
    - intros [i Hi]. exists (i, it). split; [reflexivity|].
      now apply elem_of_map_to_list. }
  split; [reflexivity|]. split; [|split].
  - clear. induction l as [|it l IH]; [reflexivity|]. rewrite !filter_cons.
    destruct (decide (status it = Open)) as [Hst|Hst].
    + case_decide; simpl; lia.
    + rewrite decide_False by tauto. exact IH.
  - rewrite length_zero_iff_nil. split.
    + intros Hnil i it Hi Hst.
      assert (Hin : it ∈ filter (fun it => status it = Open) l).
      { apply list_elem_of_filter. split; [exact Hst | apply Hl; eauto]. }
      rewrite Hnil in Hin. inversion Hin.
    + intros Hnone. apply elem_of_nil_inv. intros it [Hst Hin]%list_elem_of_filter.
      apply Hl in Hin as [i Hi]. now apply (Hnone i it).
  - rewrite length_zero_iff_nil. split.
    + intros Hnil i it Hi Hst Hsev.
      assert (Hin : it ∈ filter (fun it => status it = Open /\ severity it = Critical) l).
      { apply list_elem_of_filter. split; [auto | apply Hl; eauto]. }
      rewrite Hnil in Hin. inversion Hin.
    + intros Hnone. apply elem_of_nil_inv.
      intros it [[Hst Hsev] Hin]%list_elem_of_filter.
      apply Hl in Hin as [i Hi]. now apply (Hnone i it).
Qed.

End ConflictCounters.

Section ConflictListing.
Import Js Conflicts ConflictViews.
Variable toLowerCase : string -> string.

Lemma omap_lookup_ids (m : gmap string ConflictItem) (l : list string) :
  (forall i, i ∈ l -> is_Some (m !! i)) ->
  (forall i it, m !! i = Some it -> id it = i) ->
  id <$> omap (fun i => m !! i) l = l.
Proof.
  intros Hall Hkey. induction l as [|i l IH]; [reflexivity|].
  destruct (Hall i) as [it Hi]; [left|]. simpl. rewrite Hi. simpl.
  rewrite (Hkey _ _ Hi). f_equal. apply IH. intros j Hj. apply Hall. now right.
Qed.

(** X5. [list] on a consistent store. At most 500 records are returned,
    and no more than the limit asked for (at least one); every record
    returned is a record of the store, after [cleanup], that passes every
    filter of the query; the records come newest first, in the reverse of
    the order of first report; and when fewer records are returned than the
    limit allows, every record of the store that passes the filters is
    among them. *)
Theorem list_bounded_newest_first (s : ConflictStore) (q : ConflictQuery) (t : Z) :
  store_sync s ->
  let r := list_ toLowerCase s q t in
  r.1 = cleanup s t
  /\ (length r.2 <= 500)%nat
  /\ (forall n, q_limit q = Some n -> (Z.of_nat (length r.2) <= Z.max 1 n)%Z)
  /\ (forall x, x ∈ r.2 -> items r.1 !! id x = Some x /\ matches toLowerCase q x)
  /\ (id <$> r.2) `sublist_of` reverse (order r.1)
  /\ ((Z.of_nat (length r.2) < clampLimit (q_limit q) 500)%Z ->
      forall i x, items r.1 !! i = Some x -> matches toLowerCase q x -> x ∈ r.2).
Proof.
  intros Hs. cbv zeta. unfold list_. cbv zeta. cbn [fst snd].
  pose proof (trim_pass_sync _ (purge_pass_sync s t Hs)) as Hs'.
  rewrite <- cleanup_passes in Hs' by exact Hs.
  destruct Hs' as (Hnd' & Hsync' & Hkey').
  set (s' := cleanup s t) in *.
  set (out0 := omap (fun i => items s' !! i) (reverse (order s'))).
  match goal with |- context [take _ ?F] => set (out := F) end.
  assert (Hmem : forall x, x ∈ out <-> x ∈ out0 /\ matches toLowerCase q x).
  { intros x. unfold out, matches.
    destruct (q_status q), (q_severity q), (q_kind q), (q_text q) as [tx|];
      try case_bool_decide; cbn [from_option]; rewrite ?list_elem_of_filter; tauto. }
  assert (Hsub : out `sublist_of` out0).
  { unfold out.
    destruct (q_status q), (q_severity q), (q_kind q), (q_text q) as [tx|];
      try case_bool_decide;
      repeat first [reflexivity | etrans; [apply sublist_filter|]]. }
  assert (Hout0 : forall x, x ∈ out0 <-> exists i, items s' !! i = Some x).
  { intros x. unfold out0. rewrite list_elem_of_omap. split.
    - intros (i & _ & Hi). eauto.
    - intros [i Hi]. exists i. split; [|exact Hi].
      rewrite elem_of_reverse. apply Hsync'. eauto. }
  assert (Hids : id <$> out0 = reverse (order s')).
  { apply omap_lookup_ids; [|exact Hkey'].
    intros i Hi. rewrite elem_of_reverse in Hi. apply Hsync', Hi. }
  assert (Hclamp : (1 <= clampLimit (q_limit q) 500 <= 500)%Z).
  { unfold clampLimit. destruct (q_limit q); lia. }
  split; [reflexivity|]. split; [rewrite length_take; lia|]. split; [|split; [|split]].
  - intros n Hn. rewrite length_take, Hn. simpl. lia.
  - intros x Hx. apply (subseteq_take (Z.to_nat (clampLimit (q_limit q) 500))) in Hx.
    apply Hmem in Hx as [Hx Hm]. split; [|exact Hm].
    apply Hout0 in Hx as [i Hi]. now rewrite (Hkey' _ _ Hi).
  - rewrite <- Hids. apply fmap_sublist. etrans; [apply sublist_take | exact Hsub].
  - intros Hshort i x Hi Hm. rewrite length_take in Hshort.
    rewrite take_ge by lia. apply Hmem. split; [|exact Hm]. apply Hout0. eauto.
Qed.

End ConflictListing.

Section ConflictLifecycle.
Import Js Conflicts ConflictViews.

(** X7. The life of a resolved record. [resolve] on a record of a store
    that is consistent and within capacity, when the record is not yet
    resolved and the time between the two clock reads is within the purge
    TTLs: the call returns true and the record keeps every field but
    [status], now resolved, and [updatedAtMs], now the time of the call; a
    second [resolve] returns false and leaves the store as it is; a clean-up
    up to [resolvedTTLms] after the call keeps the record, and a clean-up
    later than that removes it when the purge is enabled. *)
Theorem resolve_then_purge (s : ConflictStore) (i : string) (it : ConflictItem)
    (t t' u : Z) :
  store_ok s ->
  in_time (purge (policy s)) t t' ->
  items s !! i = Some it ->
  status it <> Resolved ->
  let r := resolve s i t t' in
  r.2 = true
  /\ items r.1 !! i = Some (with_status it Resolved t)
  /\ (forall v v', resolve r.1 i v v' = (r.1, false))
  /\ ((u - t <= resolvedTTLms (purge (policy s)))%Z ->
      items (cleanup r.1 u) !! i = Some (with_status it Resolved t))
  /\ (purge_enabled (purge (policy s)) = true ->
      (resolvedTTLms (purge (policy s)) < u - t)%Z ->
      items (cleanup r.1 u) !! i = None).
Proof.
  intros Hok Htime Hi Hst. cbv zeta.
  assert (Hr : resolve s i t t'
               = (cleanup (with_item s i (with_status it Resolved t) (order s)) t', true)).
  { unfold resolve. rewrite Hi. rewrite bool_decide_eq_false_2 by exact Hst.
    now apply setStatus_eq. }
  rewrite Hr. cbn [fst snd].
  set (mid := with_item s i (with_status it Resolved t) (order s)).
  assert (Hmid : store_ok mid).
  { split; [|apply Hok].
    apply (overwrite_sync _ _ it); [apply Hok | exact Hi | reflexivity]. }
  assert (Hmax : (0 <= maxItems (policy mid))%Z) by exact (store_ok_capacity _ Hmid).
  pose proof (cleanup_ok mid t' (proj1 Hmid) Hmax) as Hok1.
  pose proof (cleanup_policy mid t' (proj1 Hmid)) as Hpol.
  assert (Hi1 : items (cleanup mid t') !! i = Some (with_status it Resolved t)).
  { apply cleanup_lookup_live; [apply Hmid | apply Hmid | apply lookup_insert_eq |].
    simpl. destruct Htime as [-> | [Hr' _]]; [reflexivity|].
    apply andb_false_iff. right. unfold expired. simpl.
    rewrite orb_false_r. apply Z.ltb_ge. lia. }
  split; [reflexivity|]. split; [exact Hi1|]. split; [|split].
  - intros v v'. unfold resolve. rewrite Hi1. simpl. reflexivity.
  - intros Hu. apply cleanup_lookup_live; [apply Hok1 | apply Hok1 | exact Hi1 |].
    rewrite Hpol. simpl. apply andb_false_iff. right. unfold expired. simpl.
    rewrite orb_false_r. apply Z.ltb_ge. lia.
  - intros Hen Hu. destruct (items (cleanup (cleanup mid t') u) !! i) as [x|] eqn:Hx;
      [|reflexivity]. exfalso.
    apply cleanup_lookup_inv in Hx as [Hx Hlive]; [|apply Hok1].
    rewrite Hi1 in Hx. injection Hx as <-. rewrite Hpol in Hlive. simpl in Hlive.
    rewrite Hen in Hlive. unfold expired in Hlive. simpl in Hlive.
    apply orb_false_iff in Hlive as [Hlive _].
    apply Z.ltb_ge in Hlive. lia.
Qed.

End ConflictLifecycle.

Lemma autoAckEligible_acks_every_eligible_witness :
  (ConflictViews.autoAckEligible eager_store tick 5000).2 = 2%nat
  /\ ConflictViews.n_open
       (ConflictViews.counts (ConflictViews.autoAckEligible eager_store tick 5000).1)
     = 0%nat.
Proof.
  destruct (autoAckEligible_acks_every_eligible eager_store tick 5000
              (proj1 two_reports_ok)) as (_ & Hn & _).
  split; [rewrite Hn|]; vm_compute; reflexivity.
Defined.

Lemma counts_partition_witness :
  total (ConflictViews.counts two_reports) = length (Conflicts.order two_reports)
  /\ ConflictViews.n_criticalOpen (ConflictViews.counts two_reports) = 2%nat.
Proof.
  destruct (counts_partition two_reports (proj1 two_reports_ok)) as (Htotal & _).
  split; [exact Htotal | vm_compute; reflexivity].
Defined.

Lemma list_bounded_newest_first_witness :
  (length (ConflictViews.list_ id two_reports open_first 5000).2 <= 500)%nat
  /\ Conflicts.id <$> (ConflictViews.list_ id two_reports open_first 5000).2
     = [conflict_id two_reports (report_of Conflicts.OpApplyFailed)].
Proof.
  destruct (list_bounded_newest_first id two_reports open_first 5000
              (proj1 two_reports_ok)) as (_ & Hlen & _).
  split; [exact Hlen | vm_compute; reflexivity].
Defined.

Lemma resolve_then_purge_witness :
  (Conflicts.resolve two_reports (conflict_id two_reports (report_of Conflicts.HashMismatch)) 3000 3001).2
  = true.
Proof.
  assert (Hi : is_Some (Conflicts.items two_reports
                          !! conflict_id two_reports (report_of Conflicts.HashMismatch)))
    by (vm_compute; eauto).
  destruct Hi as [it Hi].
  assert (Htime : in_time (Conflicts.purge (Conflicts.policy two_reports)) 3000 3001)
    by (right; vm_compute; split; discriminate).
  assert (Hst : Conflicts.status it <> Conflicts.Resolved)
    by (revert Hi; vm_compute; intros [= <-]; discriminate).
  exact (proj1 (resolve_then_purge two_reports _ it 3000 3001 3002 two_reports_ok
                  Htime Hi Hst)).
Defined.

(** ** The audit logger and the verifier *)

Section LoggerChain.
Import Js Audit AuditLog.
Context `{Platform}.

(** The logger and the verifier hash the same line. *)
Lemma logger_line_is_verifier_line (e : AuditEvent) (seq : nat) :
  AuditLog.canonicalLineForHash e seq = Audit.canonicalLineForHash e seq.
Proof. reflexivity. Qed.

Lemma linked_app l1 : forall prev i l2,
  linked prev i (l1 ++ l2)
  <-> linked prev i l1 /\ linked (end_hash prev i l1) (i + length l1) l2.
Proof.
  induction l1 as [|e l1 IH]; intros prev i l2; simpl.
  - rewrite Nat.add_0_r. tauto.
  - rewrite IH, <- Nat.add_succ_comm. tauto.
Qed.

Lemma linked_verify l : forall prev i rest total,
  linked prev i l ->
  verify_loop (l ++ rest) i prev total
  = verify_loop rest (i + length l) (end_hash prev i l) total.
Proof.
  induction l as [|e l IH]; intros prev i rest total Hl.
  - simpl. now rewrite Nat.add_0_r.
  - destruct Hl as (Hh & Hne & Hp & Hl). rewrite <- app_comm_cons, verify_loop_cons.
    apply String.eqb_neq in Hne.
    unfold link_broken, digest_wrong, nonempty. rewrite Hh, Hp. simpl default.
    rewrite Hne. simpl negb. cbv iota.
    replace ((if (prev =? "")%string then None else Some prev) : option string)
      with (if (prev =? "")%string then @None string else Some prev) by reflexivity.
    destruct (prev =? "")%string eqn:Hprev; simpl.
    + rewrite String.eqb_refl. simpl. rewrite IH by exact Hl.
      now rewrite <- Nat.add_succ_comm.
    + rewrite Hprev, !String.eqb_refl. simpl. rewrite IH by exact Hl.
      now rewrite <- Nat.add_succ_comm.
Qed.

Lemma linked_hashed prev i l :
  linked prev i l -> Forall (fun e => nonempty (hash e) = true) l.
Proof.
  revert prev i. induction l as [|e l IH]; intros prev i Hl; constructor.
  - destruct Hl as (Hh & Hne & _). unfold nonempty. rewrite Hh.
    apply negb_true_iff, String.eqb_neq, Hne.
  - destruct Hl as (_ & _ & _ & Hl). eapply IH, Hl.
Qed.

Lemma end_hash_last l : forall prev i,
  linked prev i l -> end_hash prev i l = match l with [] => prev | _ => last_hash l end.
Proof.
  induction l as [|e l IH]; intros prev i Hl; [reflexivity|].
  destruct Hl as (Hh & _ & _ & Hl). simpl. rewrite (IH _ _ Hl).
  destruct l as [|e' l]; [|reflexivity].
  unfold last_hash. simpl. now rewrite Hh.
Qed.

Hypothesis crypto : forall s, sha256Hex s <> "".

Lemma end_hash_app l1 : forall prev i l2,
  end_hash prev i (l1 ++ l2) = end_hash (end_hash prev i l1) (i + length l1) l2.
Proof.
  induction l1 as [|e l1 IH]; intros prev i l2; simpl.
  - now rewrite Nat.add_0_r.
  - now rewrite IH, <- Nat.add_succ_comm.
Qed.

Lemma log_inv L ty ok_ pl extra wall mono :
  logger_inv L -> logger_inv (log L ty ok_ pl extra wall mono).
Proof.
  intros (Hl & Hseq & Hprev & Hen). unfold log. cbv zeta. rewrite Hen.
  match goal with |- context [set_prevHash ?e ?p] => set (e1 := set_prevHash e p) end.
  pose proof (crypto (AuditLog.canonicalLineForHash e1 (lg_seq L))) as Hne.
  apply String.eqb_neq in Hne as Hne'. rewrite Hne'.
  unfold logger_inv. cbn [written lg_seq lg_prevHash enableHashChain].
  split; [|split; [rewrite length_app; simpl; lia|split; [|reflexivity]]].
  - apply linked_app. split; [exact Hl|]. simpl.
    rewrite <- Hseq, <- Hprev. repeat split; exact Hne.
  - rewrite end_hash_app. simpl. now rewrite <- Hseq.
Qed.

Lemma log_all_inv calls : forall L, logger_inv L -> logger_inv (log_all L calls).
Proof.
  induction calls as [|c calls IH]; intros L HL; [exact HL|].
  simpl. apply IH. now apply log_inv.
Qed.

Lemma log_all_length calls : forall L,
  length (written (log_all L calls)) = (length (written L) + length calls)%nat.
Proof.
  induction calls as [|c calls IH]; intros L; simpl; [lia|].
  rewrite IH. unfold log. cbv zeta.
  repeat case_match; cbn [written]; rewrite length_app; simpl; lia.
Qed.

Lemma new_logger_inv sid cid red : logger_inv (new_logger sid cid None red).
Proof. repeat split. Qed.

(** X8. A log written by a fresh logger with the hash chain on, each call
    of [log] awaited before the next, on a platform whose [sha256Hex]
    always returns a digest: whatever the calls, the redaction and the
    fields overridden through [extra], every event carries a hash and
    [verifyHashChain] accepts the log, having checked every event. *)
Theorem logged_chain_verifies (sid cid : string)
    (red : option (AuditEvent -> AuditEvent)) (calls : list LogCall) :
  let events := written (log_all (new_logger sid cid None red) calls) in
  length events = length calls
  /\ Forall (fun e => nonempty (hash e) = true) events
  /\ verifyHashChain events = all_checked (length calls).
Proof.
  cbv zeta.
  pose proof (log_all_inv calls _ (new_logger_inv sid cid red)) as (Hl & _).
  pose proof (log_all_length calls (new_logger sid cid None red)) as Hlen.
  simpl in Hlen. split; [exact Hlen|]. split; [eapply linked_hashed, Hl|].
  unfold verifyHashChain. rewrite <- (app_nil_r (written _)) at 1.
  rewrite linked_verify by exact Hl. simpl. now rewrite Hlen.
Qed.

(** X10. In such a log, deleting an event that has a successor is
    detected at the place of the deletion: when the digest of the deleted
    event differs from the digest of the event before it (the first event
    has none before it, and the condition holds), [verifyHashChain] fails
    with first bad index the index the deleted event had, for the reason
    "prevHash mismatch". *)
Theorem deletion_detected (sid cid : string) (red : option (AuditEvent -> AuditEvent))
    (calls : list LogCall) (pre post : list AuditEvent) (e nxt : AuditEvent) :
  written (log_all (new_logger sid cid None red) calls) = pre ++ e :: nxt :: post ->
  default "" (hash e) <> last_hash pre ->
  verifyHashChain (pre ++ nxt :: post) = bad_at (length pre) "prevHash mismatch".
Proof.
  intros Hw Hdiff.
  pose proof (log_all_inv calls _ (new_logger_inv sid cid red)) as (Hl & _).
  rewrite Hw in Hl. apply linked_app in Hl as [Hpre Hrest].
  destruct Hrest as (Hhe & Hnee & _ & Hhn & Hnen & Hpn & _).
  unfold verifyHashChain. rewrite linked_verify by exact Hpre.
  rewrite verify_loop_cons. simpl (0 + _)%nat in *.
  apply String.eqb_neq in Hnee as Hnee'. rewrite Hnee' in Hpn.
  assert (Hend : end_hash "" 0 pre = last_hash pre).
  { rewrite (end_hash_last _ _ _ Hpre). now destruct pre. }
  rewrite Hhe in Hdiff. simpl in Hdiff. rewrite <- Hend in Hdiff.
  unfold nonempty at 1. rewrite Hhn.
  apply String.eqb_neq in Hnen as Hnen'. rewrite Hnen'. simpl negb. cbv iota.
  unfold link_broken, nonempty. rewrite Hpn. simpl default. rewrite Hnee'. simpl.
  apply String.eqb_neq in Hdiff. now rewrite Hdiff.
Qed.

End LoggerChain.

Section Truncation.
Import Js Audit.
Context `{Platform}.

(** X9. [verifyHashChain] accepts every prefix of a log it accepts: cutting
    events off the end of a log is not detected by the chain alone. *)
Theorem truncation_not_detected (pre rest : list AuditEvent) :
  hc_ok (verifyHashChain (pre ++ rest)) = true ->
  verifyHashChain pre = all_checked (length pre).
Proof.
  intros Hok. unfold verifyHashChain in *.
  destruct (verify_loop_through pre rest 0 "" _ Hok) as (prev' & _ & Heq).
  rewrite <- (app_nil_r pre) at 1. now rewrite Heq.
Qed.

End Truncation.

Lemma reference_digest (s : string) : sha256Hex (Platform := Reference.platform) s <> "".
Proof. discriminate. Qed.

Lemma logged_chain_verifies_witness :
  Audit.verifyHashChain sample_log = all_checked 3.
Proof.
  exact (proj2 (proj2 (logged_chain_verifies reference_digest "s1" "c1" None
                         sample_calls))).
Defined.

Lemma deletion_detected_witness :
  Audit.verifyHashChain (drop 1 sample_log) = bad_at 0 "prevHash mismatch".
Proof.
  pose (e0 := default (sample_event "" Js.JNull) (sample_log !! 0%nat)).
  pose (e1 := default (sample_event "" Js.JNull) (sample_log !! 1%nat)).
  replace (drop 1 sample_log) with ([] ++ e1 :: drop 2 sample_log)
    by (vm_compute; reflexivity).
  apply (deletion_detected reference_digest "s1" "c1" None sample_calls
           [] (drop 2 sample_log) e0 e1).
  - vm_compute. reflexivity.
  - vm_compute. discriminate.
Defined.

Lemma truncation_not_detected_witness :
  Audit.verifyHashChain (take 2 sample_log) = all_checked 2.
Proof.
  apply (truncation_not_detected (take 2 sample_log) (drop 2 sample_log)).
  vm_compute. reflexivity.
Defined.

(** ** The migration registry *)

Section RegistrySearch.
Import Js Upgrade Registry.
Context {State : Type} `{Locale}.
Implicit Types (r steps : list (MigrationStep State)) (b : Bfs State).

Lemma insert_step_perm (x : MigrationStep State) l : insert_step x l ≡ₚ x :: l.
Proof.
  induction l as [|y l IH]; simpl; [reflexivity|].
  destruct (compare_steps x y <=? 0)%Z; [reflexivity|].
  rewrite IH. apply Permutation_swap.
Qed.

(** [list] returns the registered steps, in some order. *)
Lemma list_perm r : list_ r ≡ₚ r.
Proof.
  induction r as [|x r IH]; simpl; [reflexivity|].
  now rewrite insert_step_perm, IH.
Qed.

Lemma chain_snoc r (path : list (MigrationStep State)) : forall cur mid s,
  chain r cur mid path -> s ∈ r -> ms_from s = mid ->
  chain r cur (ms_to s) (path ++ [s]).
Proof.
  induction path as [|x path IH]; intros cur mid s Hc Hs Hfrom; simpl in *.
  - subst. auto.
  - destruct Hc as (Hx & Hxf & Hc). split; [exact Hx|]. split; [exact Hxf|].
    now apply (IH _ mid).
Qed.

Lemma chain_perm r r' cur to_ (path : list (MigrationStep State)) :
  r ≡ₚ r' -> chain r cur to_ path -> chain r' cur to_ path.
Proof.
  intros Hp. revert cur. induction path as [|x path IH]; intros cur; simpl; [auto|].
  intros (Hx & Hf & Hc). split; [now rewrite <- Hp|]. split; [exact Hf | now apply IH].
Qed.

(** [unwind] follows [prev] back to the start and returns the chain. *)
Lemma unwind_loop_chain steps from_ pv rank d :
  reached steps from_ pv rank d ->
  forall fuel cur out,
    (cur = from_ \/ is_Some (pv !! cur)) ->
    (cur <> from_ -> (rank cur <= fuel)%nat) ->
    exists path,
      unwind_loop fuel pv from_ cur out = Some (path ++ reverse out)
      /\ chain steps from_ cur path /\ length path = d cur.
Proof.
  intros [Hd0 Hprev]. induction fuel as [|fuel IH]; intros cur out Hcur Hrank.
  - destruct (decide (cur = from_)) as [->|He].
    + exists []. simpl. rewrite String.eqb_refl. auto.
    + exfalso. destruct Hcur as [?|[[via f] Hv]]; [contradiction|].
      destruct (Hprev _ _ _ Hv) as (_ & _ & _ & _ & _ & Hsz & _).
      specialize (Hrank He). lia.
  - destruct (decide (cur = from_)) as [->|He].
    + exists []. simpl. rewrite String.eqb_refl. auto.
    + simpl. rewrite (proj2 (String.eqb_neq _ _) He).
      destruct Hcur as [?|[[via f] Hv]]; [contradiction|]. rewrite Hv.
      destruct (Hprev _ _ _ Hv) as (Hvia & Hfrom & Hto & _ & Hf & Hsz & Hlt & Hd).
      destruct (IH f (out ++ [via]) Hf) as (path & -> & Hpath & Hlen).
      { intros Hne. specialize (Hlt Hne). specialize (Hrank He). lia. }
      exists (path ++ [via]). split; [|split].
      * rewrite reverse_app. simpl. now rewrite <- app_assoc.
      * rewrite <- Hto. now apply (chain_snoc _ _ _ f).
      * rewrite length_app. simpl. lia.
Qed.

Lemma unwind_chain steps from_ pv rank d cur :
  reached steps from_ pv rank d ->
  cur = from_ \/ is_Some (pv !! cur) ->
  exists path, unwind pv from_ cur = Some path
               /\ chain steps from_ cur path /\ length path = d cur.
Proof.
  intros Hinv Hcur.
  destruct (unwind_loop_chain _ _ _ _ _ Hinv (S (size pv)) cur [] Hcur)
    as (path & Hp & Hc).
  - intros Hne. destruct Hcur as [?|[[via f] Hv]]; [contradiction|].
    destruct (proj2 Hinv _ _ _ Hv) as (_ & _ & _ & _ & _ & Hsz & _). lia.
  - exists path. unfold unwind. rewrite Hp. now rewrite app_nil_r.
Qed.

(** Recording a step into a version that has no entry yet. *)
Lemma reached_insert steps from_ pv rank d (step : MigrationStep State) cur :
  reached steps from_ pv rank d ->
  step ∈ steps -> ms_from step = cur ->
  (cur = from_ \/ is_Some (pv !! cur)) ->
  pv !! ms_to step = None -> ms_to step <> from_ ->
  reached steps from_ (<[ms_to step := (step, cur)]> pv)
    (fun x => if decide (x = ms_to step) then S (size pv) else rank x)
    (fun x => if decide (x = ms_to step) then S (d cur) else d x).
Proof.
  intros [Hd0 Hprev] Hstep Hsf Hcur Hfresh Hnf.
  set (nxt := ms_to step) in *.
  assert (Hsize : size (<[nxt := (step, cur)]> pv) = S (size pv))
    by now apply map_size_insert_None.
  assert (Hkeep : forall x, is_Some (pv !! x) ->
                   is_Some (<[nxt := (step, cur)]> pv !! x)).
  { intros x Hx. apply lookup_insert_is_Some. destruct (decide (nxt = x)); auto. }
  assert (Hold : forall x, x = from_ \/ is_Some (pv !! x) -> x <> nxt).
  { intros x [->|[y Hx]] ->; [now apply Hnf | congruence]. }
  split; [now rewrite decide_False by (intros Heq; now apply Hnf)|].
  intros v via f. destruct (decide (nxt = v)) as [<-|Hne].
  - rewrite lookup_insert_eq. intros [= <- <-].
    split; [exact Hstep|]. split; [exact Hsf|]. split; [reflexivity|].
    split; [exact Hnf|].
    split; [destruct Hcur; auto|].
    rewrite !(decide_True (P := nxt = nxt)) by reflexivity. rewrite Hsize.
    rewrite !(decide_False (P := cur = nxt)) by now apply Hold.
    split; [lia|]. split; [|reflexivity].
    intros Hne. destruct Hcur as [?|[[via' f'] Hc]]; [contradiction|].
    destruct (Hprev _ _ _ Hc) as (_ & _ & _ & _ & _ & Hsz & _). lia.
  - rewrite lookup_insert_ne by exact Hne. intros Hv.
    destruct (Hprev _ _ _ Hv) as (Hvia & Hvf & Hvt & Hvs & Hf & Hsz & Hlt & Hd).
    split; [exact Hvia|]. split; [exact Hvf|]. split; [exact Hvt|].
    split; [exact Hvs|]. split; [destruct Hf; auto|].
    rewrite !(decide_False (P := v = nxt)) by congruence. rewrite Hsize.
    rewrite !(decide_False (P := f = nxt)) by now apply Hold.
    split; [lia|]. split; [exact Hlt | exact Hd].
Qed.

Lemma unseen_shrinks steps b (step : MigrationStep State) q' pv' :
  step ∈ steps -> ms_to step ∉ seen b ->
  (S (length (unseen steps {| q := q'; prev := pv'; seen := ms_to step :: seen b |}))
   <= length (unseen steps b))%nat.
Proof.
  intros Hin Hnew. unfold unseen. simpl.
  assert (Hmono : forall l : list (MigrationStep State),
            (length (filter (fun s => ms_to s ∉ ms_to step :: seen b) l)
             <= length (filter (fun s => ms_to s ∉ seen b) l))%nat).
  { induction l as [|s l IH]; [reflexivity|].
    rewrite !filter_cons. destruct (decide (ms_to s ∉ ms_to step :: seen b)) as [Hs|Hs].
    - rewrite decide_True by (intros Hn; apply Hs; now right). simpl. lia.
    - destruct (decide (ms_to s ∉ seen b)); simpl; lia. }
  induction steps as [|s steps IH]; [inversion Hin|].
  rewrite !filter_cons. apply elem_of_cons in Hin as [<-|Hin].
  - destruct (decide (ms_to step ∉ ms_to step :: seen b)) as [Hn|_];
      [exfalso; apply Hn; left|].
    destruct (decide (ms_to step ∉ seen b)) as [_|Hn]; [|contradiction].
    simpl. apply le_n_S, Hmono.
  - specialize (IH Hin).
    destruct (decide (ms_to s ∉ ms_to step :: seen b)) as [Hs|Hs].
    + rewrite decide_True by (intros Hn; apply Hs; now right). simpl. lia.
    + destruct (decide (ms_to s ∉ seen b)); simpl; lia.
Qed.

(** A version that has not been seen is more than [c] steps away. *)
Lemma unseen_is_far steps from_ to_ b pending c rank d cur :
  search_inv steps from_ to_ b pending c rank d ->
  (forall s, s ∈ pending -> ms_from s = cur) -> d cur = c ->
  forall (other : list (MigrationStep State)) x target,
    chain steps x target other -> x ∈ seen b -> target ∉ seen b ->
    (S c <= d x + length other)%nat.
Proof.
  intros (_ & _ & _ & _ & _ & Hfront & Hedge & Hq & _) Hpend Hc.
  induction other as [|s other IH]; intros x target; simpl.
  - intros -> Hx Ht. contradiction.
  - intros (Hs & Hsf & Hrest) Hx Ht. subst x.
    destruct (decide (ms_to s ∈ seen b)) as [Hin|Hout].
    + specialize (IH _ _ Hrest Hin Ht). specialize (Hedge s Hs Hx Hin). lia.
    + destruct (Hfront s Hs Hx) as [Hw|[Hw|Hw]]; [|contradiction|].
      * specialize (Hq _ Hw). lia.
      * rewrite (Hpend s Hw). lia.
Qed.

Lemma sorted_same (d d' : string -> nat) (l : list string) :
  (forall x, x ∈ l -> d' x = d x) ->
  StronglySorted (fun x y => (d x <= d y)%nat) l ->
  StronglySorted (fun x y => (d' x <= d' y)%nat) l.
Proof.
  intros Hsame Hs. induction Hs as [|x l Hs IH Hall]; constructor.
  - apply IH. intros y Hy. apply Hsame. now right.
  - rewrite Forall_forall in *. intros y Hy.
    rewrite (Hsame x) by left. rewrite (Hsame y) by now right. now apply Hall.
Qed.

Lemma sorted_snoc (d : string -> nat) (l : list string) w :
  StronglySorted (fun x y => (d x <= d y)%nat) l ->
  (forall x, x ∈ l -> (d x <= d w)%nat) ->
  StronglySorted (fun x y => (d x <= d y)%nat) (l ++ [w]).
Proof.
  intros Hs Hle. induction Hs as [|x l Hs IH Hall]; simpl.
  - constructor; constructor.
  - constructor.
    + apply IH. intros y Hy. apply Hle. now right.
    + rewrite Forall_app. split; [exact Hall|]. constructor; [|constructor].
      apply Hle. left.
Qed.

(** The loop over the steps that leave [cur]: it finds a chain to the
    target that no chain is shorter than, or leaves the search in order,
    with no more to do than before. *)
Lemma visit_spec steps from_ to_ cur c (outs : list (MigrationStep State)) :
  forall b rank d,
    search_inv steps from_ to_ b outs c rank d ->
    (forall s, s ∈ outs -> s ∈ steps /\ ms_from s = cur) ->
    (cur = from_ \/ is_Some (prev b !! cur)) ->
    d cur = c ->
    match visit outs cur from_ to_ b with
    | inl found =>
        exists path, found = Some path /\ chain steps from_ to_ path
          /\ forall other, chain steps from_ to_ other ->
               (length path <= length other)%nat
    | inr b' =>
        (exists rank' d', search_inv steps from_ to_ b' [] c rank' d')
        /\ (length (q b') + length (unseen steps b')
            <= length (q b) + length (unseen steps b))%nat
    end.
Proof.
  induction outs as [|step outs IH]; intros b rank d Hinv Houts Hcur Hc.
  - simpl. split; [eauto|lia].
  - simpl. destruct (Houts step) as [Hstep Hsf]; [left|].
    assert (Houts' : forall s, s ∈ outs -> s ∈ steps /\ ms_from s = cur)
      by (intros; apply Houts; now right).
    assert (Hpend : forall s, s ∈ step :: outs -> ms_from s = cur)
      by (intros s Hs; now apply Houts).
    pose proof (unseen_is_far _ _ _ _ _ _ _ _ _ Hinv Hpend Hc) as Hfar.
    destruct Hinv as (Hprev & Hq & Hfrom & Hdom & Hto & Hfront & Hedge & Hlo & Hhi & Hsort).
    assert (Hcs : cur ∈ seen b).
    { destruct Hcur as [->|Hcur]; [exact Hfrom | now apply Hdom]. }
    case_bool_decide as Hseen.
    + apply (IH b rank d); [|exact Houts'|exact Hcur|exact Hc].
      repeat (split; [assumption|]). split; [|auto 10].
      intros s Hs Hsfrom.
      destruct (Hfront s Hs Hsfrom) as [?|[?|Hp]]; auto.
      apply elem_of_cons in Hp as [->|Hp]; auto.
    + assert (Hfresh : prev b !! ms_to step = None).
      { destruct (prev b !! ms_to step) eqn:Hl; [|reflexivity].
        exfalso. apply Hseen, Hdom. eauto. }
      assert (Hnf : ms_to step <> from_) by (intros Heq; apply Hseen; now rewrite Heq).
      pose proof (reached_insert _ _ _ _ _ step cur Hprev Hstep Hsf Hcur Hfresh Hnf)
        as Hprev'.
      set (w := ms_to step) in *.
      set (rank' := fun x => if decide (x = w) then S (size (prev b)) else rank x) in *.
      set (d' := fun x => if decide (x = w) then S (d cur) else d x) in *.
      assert (Hd'w : d' w = S c) by (unfold d'; now rewrite decide_True, Hc).
      assert (Hd'old : forall x, x ∈ seen b -> d' x = d x).
      { intros x Hx. unfold d'. rewrite decide_False; [reflexivity|].
        intros ->. contradiction. }
      destruct (String.eqb w to_) eqn:Heq.
      * apply String.eqb_eq in Heq. rewrite <- Heq.
        destruct (unwind_chain _ _ _ _ _ w Hprev') as (path & Hp & Hchain & Hlen).
        { right. rewrite lookup_insert_eq. eauto. }
        exists path. split; [exact Hp|]. split; [exact Hchain|].
        intros other Hother. rewrite Hlen, Hd'w.
        specialize (Hfar other from_ w Hother Hfrom Hseen).
        rewrite (proj1 Hprev) in Hfar. lia.
      * apply String.eqb_neq in Heq.
        set (b1 := {| q := q b ++ [w];
                      prev := <[w := (step, cur)]> (prev b);
                      seen := w :: seen b |}).
        assert (Hkeep : forall x, is_Some (prev b !! x) -> is_Some (prev b1 !! x)).
        { intros x Hx. simpl. apply lookup_insert_is_Some.
          destruct (decide (w = x)); auto. }
        assert (Hinv1 : search_inv steps from_ to_ b1 outs c rank' d').
        { split; [exact Hprev'|]. split; [|split; [|split; [|split; [|split]]]].
          - intros x [Hx| ->%list_elem_of_singleton]%elem_of_app.
            + destruct (Hq x Hx) as [Hx1 Hx2].
              split; [destruct Hx1; auto | now right].
            + split; [right; simpl; rewrite lookup_insert_eq; eauto | left].
          - now right.
          - intros v [[via f] Hv]. simpl in Hv.
            destruct (decide (w = v)) as [<-|Hne]; [left|].
            rewrite lookup_insert_ne in Hv by exact Hne. right. apply Hdom. eauto.
          - simpl. intros [?|?]%elem_of_cons; [congruence | contradiction].
          - intros s Hs Hsfrom. simpl in Hsfrom.
            apply elem_of_cons in Hsfrom as [Hsf'|Hsf'].
            + left. simpl. apply elem_of_app. right. rewrite Hsf'. left.
            + destruct (Hfront s Hs Hsf') as [Hw|[Hw|Hp]].
              * left. simpl. apply elem_of_app. now left.
              * right. left. now right.
              * apply elem_of_cons in Hp as [->|Hp]; [right; left; left | auto].
          - split; [|split; [|split]].
            + intros s Hs Hsfrom Hsto. simpl in Hsfrom, Hsto.
              apply elem_of_cons in Hsfrom as [Hf1|Hf1];
                apply elem_of_cons in Hsto as [Ht1|Ht1].
              * rewrite Hf1, Ht1. lia.
              * rewrite Hf1, Hd'w, (Hd'old _ Ht1). specialize (Hhi _ Ht1). lia.
              * rewrite Ht1, Hd'w, (Hd'old _ Hf1).
                destruct (Hfront s Hs Hf1) as [Hw|[Hw|Hw]].
                -- specialize (Hlo _ Hw). lia.
                -- rewrite Ht1 in Hw. contradiction.
                -- rewrite (Hpend s Hw). lia.
              * rewrite (Hd'old _ Hf1), (Hd'old _ Ht1). now apply Hedge.
            + intros x [Hx| ->%list_elem_of_singleton]%elem_of_app.
              * rewrite (Hd'old x) by now apply Hq. now apply Hlo.
              * lia.
            + intros y [->|Hy]%elem_of_cons; [lia|].
              rewrite (Hd'old _ Hy). now apply Hhi.
            + simpl. apply sorted_snoc.
              * apply (sorted_same d); [|exact Hsort].
                intros x Hx. apply Hd'old. now apply Hq.
              * intros x Hx. rewrite Hd'w, (Hd'old x) by now apply Hq.
                apply Hhi. now apply Hq. }
        assert (Hcur1 : cur = from_ \/ is_Some (prev b1 !! cur))
          by (destruct Hcur; auto).
        assert (Hc1 : d' cur = c) by (now rewrite (Hd'old _ Hcs)).
        specialize (IH b1 rank' d' Hinv1 Houts' Hcur1 Hc1).
        destruct (visit outs cur from_ to_ b1) as [found|b']; [exact IH|].
        destruct IH as (Hinv' & Hle). split; [exact Hinv'|].
        pose proof (unseen_shrinks steps b step (q b ++ [w])
                      (<[w := (step, cur)]> (prev b)) Hstep Hseen) as Hsh.
        fold w in Hsh. fold b1 in Hsh. simpl in Hle. rewrite length_app in Hle.
        simpl in Hle. lia.
Qed.

(** The search ends within the rounds allowed; a plan it returns is a
    shortest chain to the target, and when it returns none every step out
    of a seen version leads to a seen version. *)
Lemma search_spec steps from_ to_ : forall fuel b c rank d,
  search_inv steps from_ to_ b [] c rank d ->
  (length (q b) + length (unseen steps b) <= fuel)%nat ->
  (exists path, search fuel steps from_ to_ b = Some (Some path)
                /\ chain steps from_ to_ path
                /\ forall other, chain steps from_ to_ other ->
                     (length path <= length other)%nat)
  \/ (search fuel steps from_ to_ b = Some None
      /\ exists seen' : list string, from_ ∈ seen' /\ (to_ ∉ seen')
           /\ (forall s, s ∈ steps -> ms_from s ∈ seen' -> ms_to s ∈ seen')).
Proof.
  assert (Hempty : forall fuel b c rank d,
            search_inv steps from_ to_ b [] c rank d -> q b = [] ->
            search fuel steps from_ to_ b = Some None
            /\ exists seen' : list string, from_ ∈ seen' /\ (to_ ∉ seen')
                 /\ (forall s, s ∈ steps -> ms_from s ∈ seen' -> ms_to s ∈ seen')).
  { intros fuel b c rank d (_ & _ & Hfrom & _ & Hto & Hfront & _) Hqb.
    split; [destruct fuel; simpl; now rewrite Hqb|]. exists (seen b).
    split; [exact Hfrom|]. split; [exact Hto|]. intros s Hs Hsf.
    destruct (Hfront s Hs Hsf) as [Hw|[Hw|Hw]]; [|exact Hw|inversion Hw].
    rewrite Hqb in Hw. inversion Hw. }
  induction fuel as [|fuel IH]; intros b c rank d Hinv Hfuel.
  - destruct (q b) as [|cur waiting] eqn:Hqb; [|simpl in Hfuel; lia].
    right. now apply (Hempty _ _ c rank d).
  - destruct (q b) as [|cur waiting] eqn:Hqb.
    + right. now apply (Hempty _ _ c rank d).
    + simpl. rewrite Hqb.
      set (b0 := {| q := waiting; prev := prev b; seen := seen b |}).
      destruct Hinv as (Hprev & Hq & Hfrom & Hdom & Hto & Hfront & Hedge & Hlo & Hhi & Hsort).
      rewrite Hqb in Hq, Hlo, Hsort.
      apply StronglySorted_inv in Hsort as [Hsort Hall].
      rewrite Forall_forall in Hall.
      assert (Hinv0 : search_inv steps from_ to_ b0 (outs_of steps cur) (d cur) rank d).
      { split; [exact Hprev|]. split; [intros x Hx; apply Hq; now right|].
        split; [exact Hfrom|]. split; [exact Hdom|]. split; [exact Hto|].
        split; [|split; [exact Hedge|split; [|split; [|exact Hsort]]]].
        - intros s Hs Hsf. simpl in Hsf.
          destruct (Hfront s Hs Hsf) as [Hw|[Hw|Hw]]; [|auto|inversion Hw].
          rewrite Hqb in Hw. apply elem_of_cons in Hw as [Hw|Hw]; [|now left].
          right. right. unfold outs_of. apply list_elem_of_filter. auto.
        - intros x Hx. now apply Hall.
        - intros y Hy. specialize (Hhi _ Hy). specialize (Hlo cur). 
          assert (c <= d cur)%nat by (apply Hlo; left). lia. }
      assert (Hcur : cur = from_ \/ is_Some (prev b0 !! cur)).
      { apply (Hq cur). left. }
      assert (Houts : forall s, s ∈ outs_of steps cur -> s ∈ steps /\ ms_from s = cur).
      { intros s Hs. unfold outs_of in Hs. apply list_elem_of_filter in Hs. tauto. }
      pose proof (visit_spec steps from_ to_ cur (d cur) (outs_of steps cur) b0 rank d
                    Hinv0 Houts Hcur eq_refl) as Hvisit.
      destruct (visit (outs_of steps cur) cur from_ to_ b0) as [found|b'].
      * destruct Hvisit as (path & -> & Hchain). left. exists path. auto.
      * destruct Hvisit as ((rank' & d' & Hinv') & Hle).
        apply (IH b' (d cur) rank' d' Hinv').
        unfold unseen in *. simpl in *. lia.
Qed.

Lemma closed_under_chain steps (seen' : list string) :
  (forall s, s ∈ steps -> ms_from s ∈ seen' -> ms_to s ∈ seen') ->
  forall (path : list (MigrationStep State)) cur to_,
    chain steps cur to_ path -> cur ∈ seen' -> to_ ∈ seen'.
Proof.
  intros Hclosed. induction path as [|s path IH]; intros cur to_; simpl.
  - now intros ->.
  - intros (Hs & Hf & Hc) Hcur. apply (IH _ _ Hc). apply Hclosed; [exact Hs|].
    now rewrite Hf.
Qed.

(** What [findPlan] answers: a shortest chain of registered steps, or
    [null] when there is no chain. *)
Lemma findPlan_spec r from_ to_ :
  exists answer,
    findPlan r from_ to_ = Some answer
    /\ match answer with
       | Some path =>
           chain r from_ to_ path
           /\ forall other, chain r from_ to_ other -> (length path <= length other)%nat
       | None => forall other, ~ chain r from_ to_ other
       end.
Proof.
  unfold findPlan. destruct (decide (from_ = to_)) as [->|Hne].
  - rewrite String.eqb_refl. exists (Some []). simpl.
    split; [reflexivity|]. split; [reflexivity|]. intros; lia.
  - rewrite (proj2 (String.eqb_neq _ _) Hne).
    destruct (search_spec (list_ r) from_ to_ (S (length r))
                {| q := [from_]; prev := ∅; seen := [from_] |} 0%nat
                (fun _ => 0%nat) (fun _ => 0%nat)) as
      [(path & -> & Hchain & Hmin)|(-> & seen' & Hfrom & Hto & Hclosed)].
    + split.
      { split; [reflexivity|]. intros v via f Hv. simpl in Hv.
        now rewrite lookup_empty in Hv. }
      split; [intros x ->%list_elem_of_singleton; split; [now left | left]|].
      split; [left|].
      split; [intros v [x Hv]; simpl in Hv; now rewrite lookup_empty in Hv|].
      split; [simpl; now intros ->%list_elem_of_singleton|].
      split; [intros s Hs Hsf; left; exact Hsf|].
      split; [intros; lia|]. split; [intros; lia|]. split; [intros; lia|].
      simpl. repeat constructor.
    + simpl. unfold unseen. rewrite <- (Permutation_length (list_perm r)).
      pose proof (length_filter (fun s : MigrationStep State => ms_to s ∉ [from_]) (list_ r)).
      simpl. lia.
    + exists (Some path). split; [reflexivity|]. split.
      * apply (chain_perm (list_ r)); [apply list_perm | exact Hchain].
      * intros other Hother. apply Hmin.
        apply (chain_perm r); [symmetry; apply list_perm | exact Hother].
    + exists None. split; [reflexivity|]. intros other Hc.
      apply Hto. apply (closed_under_chain (list_ r) seen' Hclosed other from_ to_);
        [|exact Hfrom].
      apply (chain_perm r); [symmetry; apply list_perm | exact Hc].
Qed.

(** X11. [findPlan] always returns: the steps it returns are registered
    and lead, each from the version the one before ends in, from [from]
    to [to] (no step at all when [from] is [to]), and it answers [null]
    only when no chain of registered steps leads from [from] to [to]. The
    order that [localeCompare] gives the steps plays no part in this. *)
Theorem findPlan_finds_a_chain r from_ to_ :
  exists answer,
    findPlan r from_ to_ = Some answer
    /\ match answer with
       | Some path => chain r from_ to_ path /\ (from_ = to_ -> path = [])
       | None => from_ <> to_ /\ forall other, ~ chain r from_ to_ other
       end.
Proof.
  destruct (findPlan_spec r from_ to_) as ([path|] & Hfind & Hans).
  - exists (Some path). split; [exact Hfind|]. destruct Hans as [Hchain Hmin].
    split; [exact Hchain|]. intros ->.
    specialize (Hmin [] eq_refl). destruct path; [reflexivity|simpl in Hmin; lia].
  - exists None. split; [exact Hfind|]. split; [|exact Hans].
    intros ->. now apply (Hans []).
Qed.

(** X12. The plan that [findPlan] returns has the fewest steps: no chain
    of registered steps from [from] to [to] is shorter. *)
Theorem findPlan_fewest_steps r from_ to_ path other :
  findPlan r from_ to_ = Some (Some path) ->
  chain r from_ to_ other ->
  (length path <= length other)%nat.
Proof.
  intros Hfind Hother.
  destruct (findPlan_spec r from_ to_) as (answer & Hfind' & Hans).
  rewrite Hfind in Hfind'. injection Hfind' as <-.
  now apply Hans.
Qed.

End RegistrySearch.

Section RegistryPlans.
Import Js Upgrade Registry.
Context {State : Type}.

Lemma byId_other (r : Registry State) : forall (m : gmap string (MigrationStep State)) k,
  k ∉ ms_id <$> r ->
  fold_left (fun m s => <[ms_id s := s]> m) r m !! k = m !! k.
Proof.
  induction r as [|x r IH]; intros m k Hk; simpl; [reflexivity|].
  rewrite fmap_cons in Hk. apply not_elem_of_cons in Hk as [Hne Hk].
  rewrite IH by exact Hk. now rewrite lookup_insert_ne.
Qed.

(** With distinct ids, [byId] maps the id of every registered step to that
    step. *)
Lemma byId_lookup (r : Registry State) (s : MigrationStep State) :
  NoDup (ms_id <$> r) -> s ∈ r -> byId r !! ms_id s = Some s.
Proof.
  unfold byId. generalize (∅ : gmap string (MigrationStep State)).
  induction r as [|x r IH]; intros m Hnd Hs; [inversion Hs|].
  rewrite fmap_cons in Hnd. apply NoDup_cons in Hnd as [Hx Hnd]. simpl.
  apply elem_of_cons in Hs as [->|Hs].
  - rewrite byId_other by exact Hx. apply lookup_insert_eq.
  - now apply IH.
Qed.

Lemma resolve_loop_picked (r : Registry State) (path : list (MigrationStep State)) :
  NoDup (ms_id <$> r) -> (forall s, s ∈ path -> s ∈ r) ->
  resolve_loop (byId r) (map pick path) = inr path.
Proof.
  intros Hnd. induction path as [|s path IH]; intros Hin; simpl; [reflexivity|].
  rewrite (byId_lookup r s Hnd) by (apply Hin; left).
  rewrite !String.eqb_refl. simpl.
  rewrite IH; [reflexivity|]. intros x Hx. apply Hin. now right.
Qed.

Lemma chain_registered (r : Registry State) (path : list (MigrationStep State)) :
  forall cur to_, chain r cur to_ path -> forall s, s ∈ path -> s ∈ r.
Proof.
  induction path as [|x path IH]; intros cur to_ Hc s Hs; [inversion Hs|].
  destruct Hc as (Hx & _ & Hc). apply elem_of_cons in Hs as [->|Hs]; [exact Hx|].
  now apply (IH _ _ Hc).
Qed.

(** X13. When the ids of the registered steps are distinct (which
    [register] does not check), [makePlan] returns a plan whenever
    [findPlan] finds steps, and [resolveSteps] on that plan returns
    exactly the steps found, in their order: it does not throw. *)
Theorem plan_resolves_to_found_steps `{Platform} `{Locale} (r : Registry State)
    (from_ to_ : string) (path : list (MigrationStep State)) :
  NoDup (ms_id <$> r) ->
  findPlan r from_ to_ = Some (Some path) ->
  exists plan,
    makePlan r from_ to_ = Some (inr plan)
    /\ plan_from plan = from_ /\ plan_to plan = to_
    /\ resolveSteps r plan = inr path.
Proof.
  intros Hnd Hfind. unfold makePlan. rewrite Hfind. simpl.
  eexists. split; [reflexivity|]. split; [reflexivity|]. split; [reflexivity|].
  unfold resolveSteps. simpl. apply resolve_loop_picked; [exact Hnd|].
  destruct (findPlan_spec r from_ to_) as (answer & Hfind' & Hans).
  rewrite Hfind in Hfind'. injection Hfind' as <-.
  exact (chain_registered r path _ _ (proj1 Hans)).
Qed.

(** X14. [applyPlan] runs the steps in order, each on the state the one
    before returned, and stops at the first step that throws or fails its
    validation: the steps after it are not run. The result is [ok] with
    the final state, or not [ok] with an error and no state. *)
Theorem applyPlan_stops_at_first_failure (state : State)
    (first rest : list (MigrationStep State)) :
  applyPlan state (first ++ rest)
  = match ap_state (applyPlan state first) with
    | Some cur => applyPlan cur rest
    | None => applyPlan state first
    end
  /\ (ap_ok (applyPlan state first) = true
      <-> is_Some (ap_state (applyPlan state first)))
  /\ (ap_ok (applyPlan state first) = false
      <-> is_Some (ap_error (applyPlan state first))).
Proof.
  revert state. induction first as [|step first IH]; intros state; simpl.
  - split; [reflexivity|]. split; split; intros Hx; eauto; try discriminate.
    destruct Hx; discriminate.
  - destruct (migrate step state) as [msg|cur]; simpl.
    { split; [reflexivity|]. split; split; intros Hx; eauto; try discriminate.
      destruct Hx; discriminate. }
    destruct (validate step) as [check|]; [|apply IH].
    destruct (check cur) as [msg|[[] err]]; simpl; [|apply IH|].
    + split; [reflexivity|]. split; split; intros Hx; eauto; try discriminate.
      destruct Hx; discriminate.
    + split; [reflexivity|]. split; split; intros Hx; eauto; try discriminate.
      destruct Hx; discriminate.
Qed.

End RegistryPlans.

Lemma sample_plan_found :
  Registry.findPlan sample_registry "1" "3" = Some (Some [step_of "m_003" "1" "3" 30]).
Proof. vm_compute. reflexivity. Qed.

Lemma findPlan_fewest_steps_witness :
  (length [step_of "m_003" "1" "3" 30]
   <= length [step_of "m_001" "1" "2" 10; step_of "m_002" "2" "3" 20])%nat.
Proof.
  apply (findPlan_fewest_steps sample_registry "1" "3").
  - exact sample_plan_found.
  - simpl. repeat split; repeat constructor.
Defined.

Lemma plan_resolves_to_found_steps_witness :
  Registry.resolveSteps sample_registry
    (Upgrade.makePlan (H := Reference.platform) "1" "3"
       (map Registry.pick [step_of "m_003" "1" "3" 30]))
  = inr [step_of "m_003" "1" "3" 30].
Proof.
  assert (Hnd : NoDup (Registry.ms_id <$> sample_registry))
    by (apply (bool_decide_unpack _); vm_compute; exact I).
  destruct (plan_resolves_to_found_steps (H := Reference.platform) sample_registry
              "1" "3" _ Hnd sample_plan_found) as (plan & Hplan & _ & _ & Hres).
  unfold Registry.makePlan in Hplan. rewrite sample_plan_found in Hplan.
  simpl in Hplan. injection Hplan as <-. exact Hres.
Defined.

(** ** The locator without assumption on the logs *)

Section LocatorSound.
Import Js Audit.
Context `{Platform}.
Variables (eventsA eventsB : list AuditEvent) (allowedPrefixes : list string).

Local Abbreviation agree := (agree eventsA eventsB allowedPrefixes).
Local Abbreviation differ := (differ eventsA eventsB allowedPrefixes).
Local Abbreviation nMax := (Nat.min (length eventsA) (length eventsB)).




Hypothesis replays_return : comparable eventsA eventsB allowedPrefixes.



End LocatorSound.


(** ** The deep-diff report: bounds *)

Section DiffBound.
Import Js Diff.
Context `{Platform}.
Variable o : DivergenceReportOptions.

Lemma record_tidy a p l r k :
  tidy o a -> full a o = false -> tidy o (record a p l r k o).
Proof.
  intros (Hlen & Hnone & Hsome) Hfull. unfold record. rewrite Hfull.
  unfold full in Hfull. apply Z.leb_gt in Hfull.
  split; [|split]; cbn [out first].
  - rewrite length_app. simpl. lia.
  - intros Hnil. apply app_eq_nil in Hnil as [_ Hnil]. discriminate.
  - intros d rest Hout. destruct (out a) as [|d0 rest0] eqn:Ha.
    + rewrite (Hnone eq_refl). simpl in Hout. injection Hout as <- <-.
      unfold no_first. rewrite (Hnone eq_refl). exists p. split; reflexivity.
    + simpl in Hout. injection Hout as <- <-.
      destruct (Hsome _ _ eq_refl) as (p0 & Hp0 & Hpath).
      unfold no_first. rewrite Hp0. destruct (String.eqb p0 "") eqn:He.
      * apply String.eqb_eq in He. subst p0. exists p. split; [reflexivity|].
        intros Hne. exfalso. apply Hne. symmetry. now apply Hpath.
      * exists p0. split; [reflexivity | exact Hpath].
Qed.

Lemma array_loop_tidy rec xs ys basePath :
  (forall x y p a, tidy o a -> tidy o (rec x y p a)) ->
  forall n i a, tidy o a -> tidy o (array_loop rec xs ys basePath o n i a).
Proof.
  intros Hrec. induction n as [|n IH]; intros i a Ha; simpl; [exact Ha|].
  destruct (full a o) eqn:Hfull; [exact Ha|].
  destruct (length xs <=? i)%nat; [apply IH; now apply record_tidy|].
  destruct (length ys <=? i)%nat; [apply IH; now apply record_tidy|].
  destruct (negb (no_first _) && full _ o); [now apply Hrec|].
  apply IH. now apply Hrec.
Qed.

Lemma object_loop_tidy rec kl kr basePath :
  (forall x y p a, tidy o a -> tidy o (rec x y p a)) ->
  forall keys a, tidy o a -> tidy o (object_loop rec kl kr basePath o keys a).
Proof.
  intros Hrec. induction keys as [|k keys IH]; intros a Ha; simpl; [exact Ha|].
  destruct (full a o) eqn:Hfull; [exact Ha|].
  destruct (obj_get k kl), (obj_get k kr); apply IH;
    first [now apply Hrec | now apply record_tidy].
Qed.

Lemma deepDiff_tidy fuel : forall l r basePath depth a,
  tidy o a -> tidy o (deepDiff fuel l r basePath depth a o).
Proof.
  induction fuel as [|fuel IH]; intros l r basePath depth a Ha; simpl; [exact Ha|].
  destruct (full a o) eqn:Hfull; [exact Ha|].
  destruct (maxDepth o <? depth)%Z; [exact Ha|].
  destruct (strict_eq l r); [exact Ha|].
  destruct (negb (JsType_eqb (diff_type l) (diff_type r))); [now apply record_tidy|].
  destruct l, r; try (now apply record_tidy).
  - apply array_loop_tidy; [|exact Ha]. intros; now apply IH.
  - apply object_loop_tidy; [|exact Ha]. intros; now apply IH.
Qed.

End DiffBound.

Section DiffReportBound.
Import Js Diff.
Context `{Platform}.

(** X17. The report is bounded. Whatever the two snapshots and the
    options, [firstDivergenceReport] lists at most [maxDiffs] differences
    (none when [maxDiffs] is zero or negative); with no difference listed
    there is no first mismatch path, and with one listed there is a first
    mismatch path, which is the path of the first difference listed unless
    that path is empty; and a limit of zero differences makes the report
    [ok] for any two snapshots. *)
Theorem diff_report_is_bounded (l r : Json) (o : DivergenceReportOptions) :
  let rep := firstDivergenceReport l r o in
  (Z.of_nat (length (diffs rep)) <= Z.max 0 (maxDiffs o))%Z
  /\ (diffs rep = [] -> firstMismatchPath rep = None)
  /\ (forall d rest, diffs rep = d :: rest ->
        exists p, firstMismatchPath rep = Some p /\ (path d <> "" -> p = path d))
  /\ ((maxDiffs o <= 0)%Z -> ok rep = true).
Proof.
  cbv zeta. unfold firstDivergenceReport. cbv zeta. cbn [diffs firstMismatchPath ok].
  set (a0 := {| out := []; first := None |}).
  assert (Ha0 : tidy o a0).
  { split; [simpl; lia|]. split; [reflexivity | discriminate]. }
  pose proof (deepDiff_tidy o (levels o) (orElse l (JObj [])) (orElse r (JObj [])) "" 0 a0
                Ha0) as (Hlen & Hnone & Hsome).
  split; [exact Hlen|]. split; [exact Hnone|]. split; [exact Hsome|].
  intros Hmax. apply Nat.eqb_eq. lia.
Qed.

End DiffReportBound.

(** ** The replica servers: what a frame can touch *)

Section ReplicaLocal.
Import Js Collab.

Lemma send_only {P} s c (m : Msg P) c' m' :
  (c', m') ∈ send s c m -> c' = c /\ m' = m.
Proof.
  unfold send. destruct (heap s !! c) as [ctx|]; [|inversion 1].
  destruct (ws_open ctx); [|inversion 1].
  intros [= -> ->]%list_elem_of_singleton. auto.
Qed.

(** A run that leaves the server as it is and answers the sender alone. *)
Lemma reply_local {P Q} s c (f : Frame P) (out : list (nat * Msg Q)) ended :
  (forall c' m, (c', m) ∈ out -> c' = c) ->
  stays_local s c f (Build_Run s out ended).
Proof.
  intros Hout. repeat split; try reflexivity.
  intros c' m Hin Hne. now apply Hout in Hin.
Qed.

Lemma getOrCreateDoc_local s d s1 doc :
  getOrCreateDoc s d = (s1, doc) ->
  (forall d', d' <> d -> docs s1 !! d' = docs s !! d')
  /\ heap s1 = heap s /\ clients s1 = clients s
  /\ maxMessageBytes s1 = maxMessageBytes s
  /\ docs s1 !! d = Some doc.
Proof.
  unfold getOrCreateDoc. destruct (docs s !! d) as [doc0|] eqn:Hd; intros [= <- <-].
  - auto.
  - simpl. repeat split; [|apply lookup_insert_eq].
    intros d' Hne. now apply lookup_insert_ne.
Qed.

(** A run that changes the frame's document at most and answers the
    sender alone. *)
Lemma doc_reply_local {P Q} s c (f : Frame P) d s1 (out : list (nat * Msg Q)) ended :
  target s c f = Some d ->
  (forall d', d' <> d -> docs s1 !! d' = docs s !! d') ->
  (forall c', c' <> c -> heap s1 !! c' = heap s !! c') ->
  clients s1 = clients s -> maxMessageBytes s1 = maxMessageBytes s ->
  (forall c' m, (c', m) ∈ out -> c' = c) ->
  stays_local s c f (Build_Run s1 out ended).
Proof.
  intros Ht Hdocs Hheap Hcl Hmax Hout. split; [|split; [|split; [|split]]]; simpl.
  - intros d' Hd'. apply Hdocs. congruence.
  - exact Hheap.
  - exact Hcl.
  - exact Hmax.
  - intros c' m Hin Hne. now apply Hout in Hin.
Qed.

Lemma broadcast_local {P} s c ctx d (m : Msg P) c' m' :
  heap s !! c = Some ctx -> session_of ctx = Some d -> msg_about d m ->
  (c', m') ∈ broadcast s d m (Some c) ->
  exists ctx0 d0 ctx',
    heap s !! c = Some ctx0 /\ session_of ctx0 = Some d0
    /\ c' ∈ clients s /\ heap s !! c' = Some ctx'
    /\ ctx_docId ctx' = Some d0 /\ ws_open ctx' = true
    /\ msg_about d0 m'.
Proof.
  intros Hc Hsess Hm Hin.
  apply broadcast_only in Hin as (-> & Hcl & _ & ctx' & Hc' & Hd' & Ho').
  exists ctx, d, ctx'. auto 10.
Qed.

Ltac to_sender :=
  let c' := fresh "c'" in let m := fresh "m" in let Hin := fresh "Hin" in
  intros c' m Hin; rewrite ?elem_of_app in Hin;
  repeat match goal with
         | H : _ \/ _ |- _ => destruct H
         | H : _ ∈ send _ _ _ |- _ => apply send_only in H as [-> _]
         | H : _ ∈ [] |- _ => inversion H
         end; try reflexivity.

Lemma onMessage2_local apply s c f clock :
  server_wf s -> stays_local s c f (ReplicaV2.onMessage_with apply s c f clock).
Proof.
  intros Hwf. unfold ReplicaV2.onMessage_with, ReplicaV2.done.
  destruct (heap s !! c) as [ctx|] eqn:Hc; [|apply reply_local; intros ? ? Hin; inversion Hin].
  destruct (maxMessageBytes s <? raw_length f)%Z; [apply reply_local; to_sender|].
  destruct (parsed f) as [[d|opId bv patch|cursor selection|t]|] eqn:Hf;
    [| | | apply reply_local; to_sender | apply reply_local; to_sender].
  - destruct (String.eqb d ""); [apply reply_local; to_sender|].
    destruct (getOrCreateDoc (set_ctx_docId s c d) d) as [s2 doc] eqn:Hg.
    apply getOrCreateDoc_local in Hg as (Hdocs & Hheap & Hcl & Hmax & _).
    apply (doc_reply_local _ _ _ d); try assumption.
    + unfold target. now rewrite Hf.
    + intros c' Hne. rewrite Hheap. simpl. now apply lookup_alter_ne.
    + to_sender.
  - destruct (session_of ctx) as [d|] eqn:Hsess; [|apply reply_local; to_sender].
    assert (Ht : target s c f = Some d).
    { unfold target. rewrite Hf, Hc. exact Hsess. }
    destruct (getOrCreateDoc s d) as [s1 doc] eqn:Hg.
    pose proof (getOrCreateDoc_eq _ _ _ _ Hg) as (_ & _ & _ & Hwf1).
    apply getOrCreateDoc_local in Hg as (Hdocs & Hheap & Hcl & Hmax & Hdoc).
    assert (Hheap' : forall c', c' <> c -> heap s1 !! c' = heap s !! c')
      by (intros; now rewrite Hheap).
    destruct (String.eqb opId "");
      [apply (doc_reply_local _ _ _ d); try assumption; to_sender|].
    destruct bv as [bv|];
      [|apply (doc_reply_local _ _ _ d); try assumption; to_sender].
    destruct (bv <? 0)%Z;
      [apply (doc_reply_local _ _ _ d); try assumption; to_sender|].
    destruct patch as [p|];
      [|apply (doc_reply_local _ _ _ d); try assumption; to_sender].
    destruct (negb (ReplicaV2.canLww p) && negb (bv =? version doc)%Z);
      [apply (doc_reply_local _ _ _ d); try assumption; to_sender|].
    destruct (apply (state doc) p (clientId ctx) clock) as [[next p']| |];
      [|apply (doc_reply_local _ _ _ d); try assumption; intros ? ? Hin; inversion Hin..].
    assert (Hid : docId doc = d) by (apply (proj1 (Hwf1 Hwf) _ _ Hdoc)).
    split; [|split; [|split; [|split]]]; simpl.
    + intros d' Hd'. rewrite lookup_insert_ne by congruence. apply Hdocs. congruence.
    + exact Hheap'.
    + exact Hcl.
    + exact Hmax.
    + intros c' m Hin Hne. rewrite !elem_of_app in Hin.
      destruct Hin as [Hin|[Hin|Hin]].
      * apply send_only in Hin as [-> _]. contradiction.
      * destruct (ReplicaV2.canLww p && negb (bv =? version doc + 1 - 1)%Z);
          [|inversion Hin].
        apply send_only in Hin as [-> _]. contradiction.
      * rewrite Hid in Hin. apply broadcast_only in Hin as (-> & Hcl' & _ & ctx' & Hc' & Hd' & Ho').
        simpl in Hcl', Hc'. rewrite Hcl in Hcl'. rewrite Hheap in Hc'.
        exists ctx, d, ctx'. repeat split; auto.
  - destruct (session_of ctx) as [d|] eqn:Hsess;
      [|apply reply_local; intros ? ? Hin; inversion Hin].
    repeat split; try reflexivity. simpl.
    intros c' m Hin Hne. eapply (broadcast_local s c); eauto. reflexivity.
Qed.

Lemma onMessage1_local apply s c f :
  server_wf s -> stays_local s c f (ReplicaV1.onMessage_with apply s c f).
Proof.
  intros Hwf. unfold ReplicaV1.onMessage_with, ReplicaV1.done.
  destruct (heap s !! c) as [ctx|] eqn:Hc; [|apply reply_local; intros ? ? Hin; inversion Hin].
  destruct (maxMessageBytes s <? raw_length f)%Z; [apply reply_local; to_sender|].
  destruct (parsed f) as [[d|opId bv patch|cursor selection|t]|] eqn:Hf;
    [| | | apply reply_local; to_sender | apply reply_local; to_sender].
  - destruct (String.eqb d ""); [apply reply_local; to_sender|].
    destruct (getOrCreateDoc (set_ctx_docId s c d) d) as [s2 doc] eqn:Hg.
    apply getOrCreateDoc_local in Hg as (Hdocs & Hheap & Hcl & Hmax & _).
    apply (doc_reply_local _ _ _ d); try assumption.
    + unfold target. now rewrite Hf.
    + intros c' Hne. rewrite Hheap. simpl. now apply lookup_alter_ne.
    + to_sender.
  - destruct (session_of ctx) as [d|] eqn:Hsess; [|apply reply_local; to_sender].
    assert (Ht : target s c f = Some d).
    { unfold target. rewrite Hf, Hc. exact Hsess. }
    destruct (getOrCreateDoc s d) as [s1 doc] eqn:Hg.
    pose proof (getOrCreateDoc_eq _ _ _ _ Hg) as (_ & _ & _ & Hwf1).
    apply getOrCreateDoc_local in Hg as (Hdocs & Hheap & Hcl & Hmax & Hdoc).
    assert (Hheap' : forall c', c' <> c -> heap s1 !! c' = heap s !! c')
      by (intros; now rewrite Hheap).
    destruct (String.eqb opId "");
      [apply (doc_reply_local _ _ _ d); try assumption; to_sender|].
    destruct bv as [bv|];
      [|apply (doc_reply_local _ _ _ d); try assumption; to_sender].
    destruct (bv <? 0)%Z;
      [apply (doc_reply_local _ _ _ d); try assumption; to_sender|].
    destruct (negb (bv =? version doc)%Z);
      [apply (doc_reply_local _ _ _ d); try assumption; to_sender|].
    destruct (apply (state doc) patch) as [[next patch']| |];
      [|apply (doc_reply_local _ _ _ d); try assumption; intros ? ? Hin; inversion Hin..].
    assert (Hid : docId doc = d) by (apply (proj1 (Hwf1 Hwf) _ _ Hdoc)).
    split; [|split; [|split; [|split]]]; simpl.
    + intros d' Hd'. rewrite lookup_insert_ne by congruence. apply Hdocs. congruence.
    + exact Hheap'.
    + exact Hcl.
    + exact Hmax.
    + intros c' m Hin Hne. rewrite !elem_of_app in Hin.
      destruct Hin as [Hin|Hin].
      * apply send_only in Hin as [-> _]. contradiction.
      * rewrite Hid in Hin. apply broadcast_only in Hin as (-> & Hcl' & _ & ctx' & Hc' & Hd' & Ho').
        simpl in Hcl', Hc'. rewrite Hcl in Hcl'. rewrite Hheap in Hc'.
        exists ctx, d, ctx'. repeat split; auto.
  - destruct (session_of ctx) as [d|] eqn:Hsess;
      [|apply reply_local; intros ? ? Hin; inversion Hin].
    repeat split; try reflexivity. simpl.
    intros c' m Hin Hne. eapply (broadcast_local s c); eauto. reflexivity.
Qed.

(** X18. A frame stays within its document, on both servers. Whatever a
    connection sends to a consistent server, the handler run leaves every
    document but the frame's as it is (the one a hello names, the one the
    sender is bound to for an op), leaves the context of every other
    connection and the set of connections as they are, and sends to a
    connection other than the sender only op and presence frames of the
    sender's document, and only to open connections bound to that
    document. *)
Theorem frames_stay_in_their_document (s : Server) (c : nat) :
  server_wf s ->
  (forall f clock, stays_local s c f (ReplicaV2.onMessage s c f clock))
  /\ (forall f, stays_local s c f (ReplicaV1.onMessage s c f)).
Proof.
  intros Hwf. split; intros; [now apply onMessage2_local | now apply onMessage1_local].
Qed.

End ReplicaLocal.

Lemma frames_stay_in_their_document_witness :
  Collab.docs (Collab.srv (ReplicaV2.onMessage live_server 1
                             (op_frame 60 "op2" 1 (ReplicaV2.PSet (Js.JNum 7))) tick))
    !! "other"
  = Collab.docs live_server !! "other".
Proof.
  destruct (frames_stay_in_their_document live_server 1 live_server_wf) as [H2 _].
  destruct (H2 (op_frame 60 "op2" 1 (ReplicaV2.PSet (Js.JNum 7))) tick) as (Hdocs & _).
  apply Hdocs. vm_compute. discriminate.
Defined.

Section ReplicaSession.
Import Js Collab ReplicaV2.

(** X19. Joining and writing, on the v2 server. A hello for document [d]
    from an open connection is answered by one frame, the snapshot of [d]
    with the version and state the server holds (version 0 and the empty
    object for a document it did not hold), and by nothing to anyone else;
    and an op the same connection then sends on the version of that
    snapshot is applied when [applyPatch] returns: the document holds the
    patched state one version up and the sender is sent the ack with that
    version. *)
Theorem hello_then_op_is_applied (s : Server) (c : nat) (ctx : ClientCtx) (d : string)
    (fh fo : Frame2) (opId : string) (p p' : Patch) (next : Json)
    (clock clock' : nat -> Z) :
  server_wf s ->
  heap s !! c = Some ctx -> ws_open ctx = true ->
  (raw_length fh <= maxMessageBytes s)%Z -> parsed fh = Some (InHello d) -> d <> "" ->
  let r1 := onMessage s c fh clock in
  let v := from_option version 0%Z (docs s !! d) in
  let st := from_option state (JObj []) (docs s !! d) in
  sent r1 = [(c, MSnapshot d v st)]
  /\ ended r1 = Returned
  /\ (valid_op (srv r1) fo opId v p ->
      applyPatch st p (clientId ctx) clock' = Ok (next, p') ->
      let r2 := onMessage (srv r1) c fo clock' in
      docs (srv r2) !! d = Some {| docId := d; version := v + 1; state := next |}
      /\ (c, MAck d opId (v + 1)) ∈ sent r2
      /\ ended r2 = Returned).
Proof.
  intros Hwf Hc Hopen Hlen Hparsed Hd. cbv zeta.
  assert (Hl : (maxMessageBytes s <? raw_length fh)%Z = false) by (apply Z.ltb_ge; lia).
  apply String.eqb_neq in Hd as Hd'.
  assert (Hr1 : onMessage s c fh clock
                = let '(s2, doc) := getOrCreateDoc (set_ctx_docId s c d) d in
                  done s2 (send s2 c (MSnapshot d (version doc) (state doc)))).
  { unfold onMessage, onMessage_with. now rewrite Hc, Hl, Hparsed, Hd'. }
  rewrite Hr1. clear Hr1.
  pose proof (hello_wf s c d Hwf Hd) as Hwf2.
  destruct (getOrCreateDoc (set_ctx_docId s c d) d) as [s2 doc] eqn:Hg.
  cbn [fst] in Hwf2.
  pose proof (getOrCreateDoc_local _ _ _ _ Hg) as (_ & Hheap & _ & Hmax & Hdoc).
  assert (Hc2 : heap s2 !! c = Some (bound_to ctx d)).
  { rewrite Hheap. simpl. rewrite lookup_alter_eq, Hc. reflexivity. }
  assert (Hdocv : version doc = from_option version 0%Z (docs s !! d)
                  /\ state doc = from_option state (JObj []) (docs s !! d)
                  /\ docId doc = d).
  { unfold getOrCreateDoc in Hg. simpl in Hg.
    destruct (docs s !! d) as [doc0|] eqn:Hd0; injection Hg as <- <-; simpl.
    - split; [reflexivity|]. split; [reflexivity|]. apply (proj1 Hwf _ _ Hd0).
    - auto. }
  destruct Hdocv as (Hv & Hst & Hid).
  cbn [sent ended srv done]. rewrite <- Hv, <- Hst.
  split; [now apply (send_open _ _ (bound_to ctx d))|]. split; [reflexivity|].
  intros Hvalid Happly.
  assert (Hsess : session_of (bound_to ctx d) = Some d).
  { unfold session_of. simpl. now rewrite Hd'. }
  unfold onMessage.
  rewrite (onMessage_op applyPatch s2 c (bound_to ctx d) d doc fo opId (version doc) p
             clock' Hc2 Hsess Hdoc Hvalid).
  unfold op_outcome. rewrite Z.eqb_refl, andb_false_r.
  change (clientId (bound_to ctx d)) with (clientId ctx). rewrite Happly.
  cbn [srv sent ended done]. rewrite Hid. split; [apply lookup_insert_eq|].
  split; [|reflexivity].
  apply elem_of_app. left. cbn [docId version].
  rewrite send_set_doc, (send_open _ _ (bound_to ctx d)) by assumption. left.
Qed.

End ReplicaSession.

Section PatchForms.
Import Js Collab ReplicaV2.

Lemma apply_path_sets_v1 (ops : list PathSetOp) : forall next cid clock i,
  ReplicaV1.apply_path_sets next (map v1_op ops)
  = (r ← apply_ops next ops cid clock i; Ok r.1).
Proof.
  induction ops as [|op ops IH]; intros next cid clock i; [reflexivity|].
  simpl. destruct (String.eqb (path op) "") eqn:Hp.
  - rewrite (IH next cid clock (S i)).
    now destruct (apply_ops next ops cid clock (S i)) as [[n1 o1]| |].
  - destruct (setByPath next (path op) (value op)) as [next'| |]; [|reflexivity..].
    rewrite !bind_Ok. rewrite (IH next' cid clock (S i)).
    now destruct (apply_ops next' ops cid clock (S i)) as [[n1 o1]| |].
Qed.

(** X20. The two servers agree on what a patch does to a state: for a
    full replace, a shallow merge and a list of path writes, the v1
    function [applyServerPatch] on the v1 form of the patch ([{ $set }],
    [{ $merge }], the array of [{ path, value }]) returns the state that
    the v2 function [applyPatch] returns on the v2 patch, and throws when
    it throws; client ids and clock readings do not enter the state. *)
Theorem patch_forms_agree (st : Json) (p : Patch) (cid : string) (clock : nat -> Z) :
  ReplicaV1.applyServerPatch st (v1_patch p)
  = (r ← applyPatch st p cid clock; Ok r.1).
Proof.
  destruct p as [v|v|ops pol|kind ops].
  - reflexivity.
  - unfold ReplicaV1.applyServerPatch, applyPatch. simpl.
    destruct (truthy v), (JsType_eqb (typeof v) TObject), (isArray v); reflexivity.
  - unfold ReplicaV1.applyServerPatch, applyPatch. simpl.
    rewrite (apply_path_sets_v1 ops _ cid clock 0).
    now destruct (apply_ops (own (orElse st (JObj []))) ops cid clock 0) as [[n1 o1]| |].
  - unfold ReplicaV1.applyServerPatch, applyPatch. simpl.
    rewrite (apply_path_sets_v1 ops _ cid clock 0).
    now destruct (apply_ops (own (orElse st (JObj []))) ops cid clock 0) as [[n1 o1]| |].
Qed.

End PatchForms.

Lemma hello_then_op_is_applied_witness :
  Collab.sent (ReplicaV2.onMessage (Collab.onConn (Collab.new_server [] None) 1 "u1") 1
                 (hello_frame "doc") tick)
  = [(1%nat, Collab.MSnapshot "doc" 0 (Js.JObj []))].
Proof.
  refine (proj1 (hello_then_op_is_applied
                   (Collab.onConn (Collab.new_server [] None) 1 "u1") 1
                   {| Collab.ws_open := true; Collab.clientId := "u1";
                      Collab.ctx_docId := None |}
                   "doc" (hello_frame "doc")
                   (op_frame 60 "op1" 0 (ReplicaV2.PSet Js.JNull)) "op1"
                   (ReplicaV2.PSet Js.JNull) (ReplicaV2.PSet Js.JNull) Js.JNull tick tick
                   _ _ _ _ _ _)).
  - apply onConn_wf, new_server_wf.
  - reflexivity.
  - reflexivity.
  - vm_compute. discriminate.
  - reflexivity.
  - discriminate.
Defined.

(** ** The replay *)

Section ReplayAccounting.
Import Js Audit.
Context `{Platform}.

Lemma write_all_app (xs ys : list (string * Json)) : forall root,
  write_all root (xs ++ ys) = (r ← write_all root xs; write_all r ys).
Proof.
  induction xs as [|s xs IH]; intros root; [reflexivity|].
  simpl. destruct (store_set root s.1 s.2) as [r| |]; [apply IH | reflexivity..].
Qed.

Lemma apply_sets_spec (P : list string) (sets : list (string * Json)) : forall acc,
  apply_sets P acc sets
  = (r ← write_all (root acc) (admitted P sets);
     Ok {| root := r;
           n_applied := n_applied acc + length (admitted P sets);
           n_rejected := n_rejected acc + length (turned_away P sets);
           n_started := n_started acc; n_failed := n_failed acc |}).
Proof.
  unfold admitted, turned_away.
  induction sets as [|s sets IH]; intros acc.
  - simpl. rewrite !Nat.add_0_r. now destruct acc.
  - simpl apply_sets. unfold apply_set. rewrite !filter_cons.
    destruct (allowed s.1 P) eqn:Ha; simpl negb; cbv iota.
    + rewrite decide_True by reflexivity. rewrite decide_False by auto.
      simpl write_all. destruct (store_set (root acc) s.1 s.2) as [r| |]; [|reflexivity..].
      rewrite !bind_Ok. rewrite IH. simpl.
      destruct (write_all r _); [|reflexivity..]. rewrite !bind_Ok.
      do 2 f_equal; lia.
    + rewrite decide_False by discriminate. rewrite decide_True by discriminate.
      rewrite bind_Ok. rewrite IH. simpl.
      destruct (write_all (root acc) _); [|reflexivity..]. rewrite !bind_Ok.
      do 2 f_equal; lia.
Qed.

Lemma replay_event_spec (P : list string) (acc : ReplayAcc) (e : AuditEvent) :
  replay_event P acc e
  = (r ← write_all (root acc) (admitted P (sets_of e));
     Ok {| root := r;
           n_applied := n_applied acc + length (admitted P (sets_of e));
           n_rejected := n_rejected acc + length (turned_away P (sets_of e));
           n_started := n_started acc + (if starts e then 1 else 0);
           n_failed := n_failed acc + (if fails e then 1 else 0) |}).
Proof.
  unfold replay_event, sets_of, starts, fails.
  destruct (String.eqb (type e) "nl.actions") eqn:Hnl.
  { apply String.eqb_eq in Hnl. rewrite Hnl. simpl.
    destruct (ok e); simpl.
    - rewrite apply_sets_spec. destruct (write_all _ _); [|reflexivity..].
      rewrite !bind_Ok. do 2 f_equal; lia.
    - rewrite !Nat.add_0_r. now destruct acc. }
  destruct (String.eqb (type e) "crdt.set") eqn:Hcrdt.
  { apply String.eqb_eq in Hcrdt. rewrite Hcrdt. simpl.
    destruct (ok e); simpl.
    - destruct (extractSetFromCrdt (payload e)) as [s|]; simpl option_list.
      + transitivity (apply_sets P acc [s]).
        { simpl. now destruct (apply_set P acc s). }
        rewrite apply_sets_spec. destruct (write_all _ _); [|reflexivity..].
        rewrite !bind_Ok. do 2 f_equal; lia.
      + simpl. rewrite !Nat.add_0_r. now destruct acc.
    - rewrite !Nat.add_0_r. now destruct acc. }
  simpl. rewrite !Nat.add_0_r.
  do 2 f_equal; repeat case_match; lia.
Qed.

Lemma replay_loop_spec (P : list string) (events : list AuditEvent) : forall acc,
  replay_loop P acc events
  = (r ← write_all (root acc) (admitted P (all_sets events));
     Ok {| root := r;
           n_applied := n_applied acc + length (admitted P (all_sets events));
           n_rejected := n_rejected acc + length (turned_away P (all_sets events));
           n_started := n_started acc + count_where starts events;
           n_failed := n_failed acc + count_where fails events |}).
Proof.
  unfold admitted, turned_away, all_sets, count_where.
  induction events as [|e events IH]; intros acc.
  - simpl. rewrite !Nat.add_0_r. now destruct acc.
  - simpl replay_loop. rewrite replay_event_spec. unfold admitted, turned_away.
    simpl flat_map. rewrite !filter_app, !length_app, write_all_app.
    destruct (write_all (root acc) _) as [r| |]; [|reflexivity..].
    rewrite !bind_Ok. rewrite IH. cbn [root n_applied n_rejected n_started n_failed].
    destruct (write_all r _); [|reflexivity..]. rewrite !bind_Ok.
    simpl List.filter. do 2 f_equal; repeat case_match; simpl; lia.
Qed.

(** Writes of primitives along keys other than [__proto__] return. *)
Lemma write_all_plain (sets : list (string * Json)) : forall kvs,
  plain_cell (Node kvs) = true -> Forall plain_set sets ->
  exists kvs', write_all (Node kvs) sets = Ok (Node kvs').
Proof.
  induction sets as [|s sets IH]; intros kvs Hkvs Hall; [simpl; eauto|].
  inversion Hall as [|? ? [Hv Hp] Hrest]; subst.
  simpl. unfold store_set.
  destruct (path_parts s.1) as [|k parts] eqn:Hparts.
  - rewrite bind_Ok. now apply IH.
  - destruct (setByPath_parts_plain (k :: parts) s.2 Hv Hp kvs Hkvs) as (kvs1 & -> & Hp1).
    rewrite bind_Ok. now apply IH.
Qed.

Lemma admitted_split (P : list string) (l : list (string * Json)) :
  (length (admitted P l) + length (turned_away P l))%nat = length l.
Proof.
  unfold admitted, turned_away. induction l as [|s l IH]; [reflexivity|].
  rewrite !filter_cons. destruct (decide (allowed s.1 P = true)) as [Ha|Ha].
  - rewrite decide_False by auto. simpl. lia.
  - rewrite decide_True by exact Ha. simpl. lia.
Qed.

Lemma turned_away_none (l : list (string * Json)) : turned_away [] l = [].
Proof.
  unfold turned_away. induction l as [|s l IH]; [reflexivity|].
  rewrite filter_cons, decide_False by auto. exact IH.
Qed.

(** X21. The replay accounts for every set operation. When the admitted set
    operations of the log write primitive values along keys other than
    [__proto__], the replay returns. And whenever it returns, the state it
    returns is the empty object written to by the admitted operations in
    log order; [appliedSets] is the number of set operations whose path is
    admitted by the allowed prefixes and [rejected] the number of the
    others, so the two add up to the number of set operations the log
    carries; with no allowed prefix given nothing is rejected; and the
    pipeline counters count the successful [pipeline.start] and the failed
    [pipeline.fail] events. *)
Theorem replay_accounts_for_every_set (events : list AuditEvent) (P : list string) :
  (Forall plain_set (admitted P (all_sets events)) ->
   exists st m, replayAuditLog events P = Ok (st, m))
  /\ (forall st m,
        replayAuditLog events P = Ok (st, m) ->
        (r ← write_all (Node []) (admitted P (all_sets events)); Ok (seal r)) = Ok st
        /\ appliedSets m = length (admitted P (all_sets events))
        /\ rejected m = length (turned_away P (all_sets events))
        /\ (appliedSets m + rejected m)%nat = length (all_sets events)
        /\ (P = [] -> rejected m = 0%nat)
        /\ events_seen m = length events
        /\ pipelinesStarted m = count_where starts events
        /\ pipelinesFailed m = count_where fails events
        /\ finalStateHashHex m = sha256Hex (stableStringify st)).
Proof.
  unfold replayAuditLog. rewrite replay_loop_spec. cbn [root]. split.
  - intros Hplain.
    destruct (write_all_plain _ [] eq_refl Hplain) as (kvs & ->).
    rewrite !bind_Ok. eauto.
  - intros st m Hr.
    destruct (write_all (Node []) (admitted P (all_sets events))) as [r| |];
      [|discriminate..].
    rewrite !bind_Ok in Hr. injection Hr as <- <-.
    cbn [appliedSets rejected events_seen pipelinesStarted pipelinesFailed
         finalStateHashHex root n_applied n_rejected n_started n_failed].
    rewrite bind_Ok. repeat split.
    + simpl. apply admitted_split.
    + intros ->. simpl. now rewrite turned_away_none.
Qed.

(** X22. The replayed state depends on the admitted set operations alone. Two
    logs that carry the same admitted set operations in the same order
    replay to the same state and the same final hash (or neither replay
    returns), whatever else the logs hold: other event types, failed
    events, rejected operations, time stamps, session and client names. *)
Theorem replay_depends_on_admitted_sets (eventsA eventsB : list AuditEvent)
    (P : list string) :
  admitted P (all_sets eventsA) = admitted P (all_sets eventsB) ->
  replayed_state (replayAuditLog eventsA P) = replayed_state (replayAuditLog eventsB P)
  /\ replayed_hash (replayAuditLog eventsA P) = replayed_hash (replayAuditLog eventsB P)
  /\ prefixHash eventsA (length eventsA) P = prefixHash eventsB (length eventsB) P.
Proof.
  intros Hsame. unfold prefixHash. rewrite !firstn_all.
  unfold replayed_state, replayed_hash, replayAuditLog.
  rewrite !replay_loop_spec, Hsame. cbn [root].
  destruct (write_all (Node []) (admitted P (all_sets eventsB))) as [st| |];
    [|repeat split..].
  rewrite !bind_Ok. repeat split.
Qed.

End ReplayAccounting.

Lemma replay_accounts_for_every_set_witness :
  exists st m,
    Audit.replayAuditLog sample_log ["x"] = Js.Ok (st, m)
    /\ Audit.appliedSets m = 1%nat /\ Audit.rejected m = 1%nat.
Proof.
  assert (Hadm : admitted ["x"] (all_sets sample_log) = [("x", Js.JNum 1)])
    by (vm_compute; reflexivity).
  destruct (replay_accounts_for_every_set sample_log ["x"]) as [Hret Hacc].
  destruct Hret as (st & m & Hr).
  - rewrite Hadm. constructor; [|constructor]. split; [reflexivity|].
    change (Js.path_parts ("x", Js.JNum 1).1) with ["x"].
    intros Hin. apply list_elem_of_singleton in Hin. discriminate.
  - exists st, m. split; [exact Hr|].
    destruct (Hacc st m Hr) as (_ & Ha & Hrej & _). split.
    + rewrite Ha, Hadm. reflexivity.
    + rewrite Hrej. vm_compute. reflexivity.
Defined.

Lemma replay_depends_on_admitted_sets_witness :
  replayed_hash (Audit.replayAuditLog sample_log [])
  = replayed_hash (Audit.replayAuditLog sample_log_bare []).
Proof.
  assert (Hsame : admitted [] (all_sets sample_log) = admitted [] (all_sets sample_log_bare))
    by (vm_compute; reflexivity).
  exact (proj1 (proj2 (replay_depends_on_admitted_sets sample_log sample_log_bare []
                         Hsame))).
Defined.

(** ** Objects, path writes and merges *)

Section ObjectEntries.
Import Js.
Context {A : Type}.
Implicit Types (kvs : list (string * A)) (k : string) (v : A).

Lemma obj_get_None k kvs : obj_get k kvs = None <-> k ∉ obj_keys kvs.
Proof.
  induction kvs as [|[k' v'] kvs IH]; simpl.
  - split; [intros _ Hin; inversion Hin | reflexivity].
  - destruct (String.eqb k k') eqn:Hk.
    + apply String.eqb_eq in Hk. subst. split; [discriminate|].
      intros Hn. contradiction Hn. left.
    + apply String.eqb_neq in Hk. rewrite IH. rewrite not_elem_of_cons. tauto.
Qed.

Lemma obj_has_elem k kvs : obj_has k kvs = true <-> k ∈ obj_keys kvs.
Proof.
  unfold obj_has. pose proof (obj_get_None k kvs) as Hn.
  destruct (obj_get k kvs); split; try discriminate; try reflexivity.
  - intros _. destruct (decide (k ∈ obj_keys kvs)) as [Hin|Hnin]; [exact Hin|].
    apply Hn in Hnin. discriminate.
  - intros Hin. now apply (proj1 Hn) in Hin.
Qed.

Lemma obj_get_replace_eq k v kvs :
  k ∈ obj_keys kvs -> obj_get k (obj_replace k v kvs) = Some v.
Proof.
  induction kvs as [|[k' v'] kvs IH]; [inversion 1|]. simpl.
  destruct (String.eqb k k') eqn:Hk; simpl.
  - now rewrite String.eqb_refl.
  - rewrite Hk. intros [->|Hin]%elem_of_cons; [|now apply IH].
    now rewrite String.eqb_refl in Hk.
Qed.

Lemma obj_get_replace_ne k k' v kvs :
  k <> k' -> obj_get k' (obj_replace k v kvs) = obj_get k' kvs.
Proof.
  intros Hne. induction kvs as [|[k0 v0] kvs IH]; [reflexivity|]. simpl.
  destruct (String.eqb k k0) eqn:Hk; simpl.
  - apply String.eqb_eq in Hk. subst k0.
    apply not_eq_sym, String.eqb_neq in Hne. now rewrite Hne.
  - now rewrite IH.
Qed.

Lemma obj_get_add_eq k v kvs :
  k ∉ obj_keys kvs -> obj_get k (obj_add k v kvs) = Some v.
Proof.
  induction kvs as [|[k' v'] kvs IH]; simpl.
  - now rewrite String.eqb_refl.
  - intros [Hne Hn]%not_elem_of_cons. destruct (before k k'); simpl.
    + now rewrite String.eqb_refl.
    + apply String.eqb_neq in Hne. rewrite Hne. now apply IH.
Qed.

Lemma obj_get_add_ne k k' v kvs :
  k <> k' -> obj_get k' (obj_add k v kvs) = obj_get k' kvs.
Proof.
  intros Hne. induction kvs as [|[k0 v0] kvs IH]; simpl.
  - apply not_eq_sym, String.eqb_neq in Hne. now rewrite Hne.
  - destruct (before k k0); simpl.
    + apply not_eq_sym, String.eqb_neq in Hne. now rewrite Hne.
    + now rewrite IH.
Qed.

Lemma obj_get_set_eq k v kvs : obj_get k (obj_set k v kvs) = Some v.
Proof.
  unfold obj_set. destruct (obj_has k kvs) eqn:Hh.
  - apply obj_get_replace_eq. now apply obj_has_elem.
  - apply obj_get_add_eq. intros Hin. apply obj_has_elem in Hin. congruence.
Qed.

Lemma obj_get_set_ne k k' v kvs :
  k <> k' -> obj_get k' (obj_set k v kvs) = obj_get k' kvs.
Proof.
  intros Hne. unfold obj_set.
  destruct (obj_has k kvs); [now apply obj_get_replace_ne | now apply obj_get_add_ne].
Qed.

Lemma obj_keys_replace k v kvs : obj_keys (obj_replace k v kvs) = obj_keys kvs.
Proof.
  induction kvs as [|[k' v'] kvs IH]; [reflexivity|]. simpl.
  destruct (String.eqb k k') eqn:Hk; simpl.
  - apply String.eqb_eq in Hk. now subst.
  - now rewrite IH.
Qed.

(** A key that is no array index is enumerated last. *)
Lemma obj_add_last k v kvs : key_index k = None -> obj_add k v kvs = kvs ++ [(k, v)].
Proof.
  intros Hk. induction kvs as [|[k' v'] kvs IH]; [reflexivity|]. simpl.
  unfold before. rewrite Hk. now rewrite IH.
Qed.

Lemma obj_keys_set k v kvs :
  key_index k = None ->
  obj_keys (obj_set k v kvs)
  = if decide (k ∈ obj_keys kvs) then obj_keys kvs else obj_keys kvs ++ [k].
Proof.
  intros Hk. unfold obj_set. destruct (obj_has k kvs) eqn:Hh.
  - apply obj_has_elem in Hh. rewrite decide_True by exact Hh. apply obj_keys_replace.
  - rewrite decide_False by (intros Hin; apply obj_has_elem in Hin; congruence).
    rewrite obj_add_last by exact Hk. unfold obj_keys. now rewrite map_app.
Qed.

End ObjectEntries.

Section Merge.
Import Js ReplicaV2.

Local Abbreviation put_entry :=
  (fun (acc : list (string * Json)) (kv : string * Json) => obj_set kv.1 kv.2 acc).

Lemma spread_over_get (b : list (string * Json)) : forall acc k,
  NoDup (obj_keys b) ->
  obj_get k (fold_left put_entry b acc)
  = match obj_get k b with Some x => Some x | None => obj_get k acc end.
Proof.
  induction b as [|[k1 v1] b IH]; intros acc k Hnd; [reflexivity|].
  apply NoDup_cons in Hnd as [Hk1 Hnd]. simpl. rewrite IH by exact Hnd.
  destruct (String.eqb k k1) eqn:Hk.
  - apply String.eqb_eq in Hk. subst k1.
    rewrite (proj2 (obj_get_None k b) Hk1). apply obj_get_set_eq.
  - apply String.eqb_neq in Hk. destruct (obj_get k b); [reflexivity|].
    apply obj_get_set_ne. congruence.
Qed.

Lemma spread_over_keys (b : list (string * Json)) : forall acc,
  NoDup (obj_keys b) -> Forall (fun k => key_index k = None) (obj_keys b) ->
  obj_keys (fold_left put_entry b acc)
  = obj_keys acc ++ filter (fun k => k ∉ obj_keys acc) (obj_keys b).
Proof.
  induction b as [|[k1 v1] b IH]; intros acc Hnd Hidx; simpl.
  - now rewrite app_nil_r.
  - apply NoDup_cons in Hnd as [Hk1 Hnd].
    inversion Hidx as [|? ? Hi1 Hidx']; subst.
    rewrite IH by assumption.
    rewrite obj_keys_set by exact Hi1. rewrite filter_cons. simpl.
    destruct (decide (k1 ∈ obj_keys acc)) as [Hin|Hn].
    + rewrite decide_False by auto. reflexivity.
    + rewrite decide_True by exact Hn. rewrite <- app_assoc. simpl. do 2 f_equal.
      apply filter_iff_on. intros k Hk. rewrite elem_of_app, list_elem_of_singleton.
      split; [tauto|]. intros Hnk [Hin| ->]; contradiction.
Qed.

(** X23. A merge is shallow. On a state and a patch value that are objects,
    [applyPatch] with a merge returns an object in which every key of the
    patch holds the patch's value and every other key of the state holds
    its old value, whole (nothing is merged below the first level); when no
    key is an array index, the keys of the state come first, in their
    order, then the new keys of the patch in theirs. A merge whose value is
    no object (null, a number, a string) leaves the state as it is, and so
    does a merge whose value is an array. *)
Theorem merge_is_shallow (a b : list (string * Json)) (cid : string) (clock : nat -> Z) :
  NoDup (obj_keys a) -> NoDup (obj_keys b) ->
  (exists m,
     applyPatch (JObj a) (PMerge (JObj b)) cid clock = Ok (JObj m, PMerge (JObj b))
     /\ (forall k, obj_get k m
                   = match obj_get k b with Some x => Some x | None => obj_get k a end)
     /\ (Forall (fun k => key_index k = None) (obj_keys a ++ obj_keys b) ->
         obj_keys m = obj_keys a ++ filter (fun k => k ∉ obj_keys a) (obj_keys b)))
  /\ (forall st v, match v with JObj _ => False | _ => True end ->
        applyPatch st (PMerge v) cid clock = Ok (st, PMerge v)).
Proof.
  intros Ha Hb. split.
  - eexists. split; [reflexivity|]. simpl. split.
    + intros k. rewrite spread_over_get by exact Hb.
      destruct (obj_get k b); [reflexivity|].
      rewrite spread_over_get by exact Ha. now destruct (obj_get k a).
    + intros [Hia Hib]%Forall_app.
      rewrite spread_over_keys by assumption.
      rewrite (spread_over_keys a []) by assumption. simpl.
      assert (Hall : forall l : list string,
                filter (fun k => k ∉ obj_keys ([] : list (string * Json))) l = l).
      { induction l as [|x l IHl]; [reflexivity|].
        rewrite filter_cons, decide_True by (intros Hin; inversion Hin). now f_equal. }
      now rewrite Hall.
  - intros st v Hv.
    destruct v as [| |[]|n| |s|xs|kvs]; try contradiction; try reflexivity.
    + simpl. now destruct (n =? 0)%Z.
    + simpl. now destruct (String.eqb s "").
Qed.

End Merge.

Lemma merge_is_shallow_witness :
  exists m,
    ReplicaV2.applyPatch (Js.JObj [("n", Js.JNum 1); ("opt", Js.JObj [("lo", Js.JNum 0)])])
      (ReplicaV2.PMerge (Js.JObj [("opt", Js.JObj [("hi", Js.JNum 1)]); ("tag", Js.JNull)]))
      "u1" tick
    = Js.Ok (Js.JObj m,
             ReplicaV2.PMerge (Js.JObj [("opt", Js.JObj [("hi", Js.JNum 1)]);
                                        ("tag", Js.JNull)]))
    /\ Js.obj_get "opt" m = Some (Js.JObj [("hi", Js.JNum 1)])
    /\ Js.obj_get "n" m = Some (Js.JNum 1).
Proof.
  destruct (merge_is_shallow [("n", Js.JNum 1); ("opt", Js.JObj [("lo", Js.JNum 0)])]
              [("opt", Js.JObj [("hi", Js.JNum 1)]); ("tag", Js.JNull)] "u1" tick)
    as [(m & Hm & Hget & _) _].
  - apply (bool_decide_unpack _). vm_compute. exact I.
  - apply (bool_decide_unpack _). vm_compute. exact I.
  - exists m. split; [exact Hm|]. rewrite !Hget. split; reflexivity.
Defined.

Section PathWrites.
Import Js.


Lemma obj_get_map {A B} (f : A -> B) k (kvs : list (string * A)) :
  obj_get k (map (fun kv => (kv.1, f kv.2)) kvs) = f <$> obj_get k kvs.
Proof.
  induction kvs as [|[k' v] kvs IH]; [reflexivity|]. simpl.
  destruct (String.eqb k k'); [reflexivity | exact IH].
Qed.









End PathWrites.


(** ** Canonical serialisation *)

Section JsonInduction.
Import Js.

(** Induction on a tree, with the hypothesis for every element and every
    entry. *)
Lemma Json_induction (P : Json -> Prop) :
  P JUndefined -> P JNull -> (forall b, P (JBool b)) -> (forall n, P (JNum n)) ->
  P JNaN -> (forall s, P (JStr s)) ->
  (forall xs, Forall P xs -> P (JArr xs)) ->
  (forall kvs, Forall (fun kv => P kv.2) kvs -> P (JObj kvs)) ->
  forall x, P x.
Proof.
  intros Hu Hn Hb Hz Hnan Hs Ha Ho. fix IH 1. intros [| |b|n| |s|xs|kvs].
  - exact Hu.
  - exact Hn.
  - apply Hb.
  - apply Hz.
  - exact Hnan.
  - apply Hs.
  - apply Ha. induction xs as [|x xs IHxs]; constructor; [apply IH | exact IHxs].
  - apply Ho. induction kvs as [|[k v] kvs IHkvs]; constructor; [apply IH | exact IHkvs].
Qed.

End JsonInduction.

Section KeyOrder.
Import Js Canonical.

Lemma lex_eq (a : list N) : forall b, lex a b = Eq -> a = b.
Proof.
  induction a as [|x a IH]; intros [|y b]; simpl; try discriminate; [reflexivity|].
  destruct (N.compare x y) eqn:Exy; try discriminate.
  apply N.compare_eq_iff in Exy. subst y. intros Hab. f_equal. now apply IH.
Qed.

Lemma lex_refl (a : list N) : lex a a = Eq.
Proof. induction a as [|x a IH]; [reflexivity|]. simpl. now rewrite N.compare_refl. Qed.

Lemma lex_antisym (a : list N) : forall b, lex b a = CompOpp (lex a b).
Proof.
  induction a as [|x a IH]; intros [|y b]; simpl; try reflexivity.
  rewrite (N.compare_antisym x y). destruct (N.compare x y); simpl; auto.
Qed.

Lemma lex_lt_trans (a : list N) : forall b c,
  lex a b = Lt -> lex b c = Lt -> lex a c = Lt.
Proof.
  induction a as [|x a IH]; intros [|y b] [|z c]; simpl; try congruence.
  destruct (N.compare x y) eqn:Exy; try discriminate.
  - apply N.compare_eq_iff in Exy. subst y.
    destruct (N.compare x z); try congruence. apply IH.
  - destruct (N.compare y z) eqn:Eyz; try discriminate.
    + apply N.compare_eq_iff in Eyz. subst z. now rewrite Exy.
    + intros _ _. apply N.compare_lt_iff in Exy, Eyz.
      now rewrite (proj2 (N.compare_lt_iff _ _) (N.lt_trans _ _ _ Exy Eyz)).
Qed.

Lemma string_compare_trans (a : string) : forall b c,
  String.compare a b <> Gt -> String.compare b c <> Gt -> String.compare a c <> Gt.
Proof.
  induction a as [|x a IH]; intros [|y b] [|z c]; simpl; try congruence.
  destruct (Ascii.compare x y) eqn:Exy; [| |congruence].
  - apply Ascii.compare_eq_iff in Exy. subst y.
    destruct (Ascii.compare x z); [apply IH | congruence | congruence].
  - destruct (Ascii.compare y z) eqn:Eyz; [| |congruence].
    + apply Ascii.compare_eq_iff in Eyz. subst z. rewrite Exy. congruence.
    + intros _ _. unfold Ascii.compare in *.
      apply N.compare_lt_iff in Exy, Eyz.
      rewrite (proj2 (N.compare_lt_iff _ _) (N.lt_trans _ _ _ Exy Eyz)). congruence.
Qed.

Lemma unit_compare_antisym a b : unit_compare b a = CompOpp (unit_compare a b).
Proof.
  unfold unit_compare. rewrite (lex_antisym (units a) (units b)).
  destruct (lex (units a) (units b)); simpl; [|reflexivity..].
  apply String.compare_antisym.
Qed.

#[local] Instance key_le_trans : Transitive key_le.
Proof.
  intros a b c. unfold key_le, unit_leb, unit_compare. intros Hab Hbc.
  destruct (lex (units a) (units b)) eqn:Eab; [| |discriminate].
  - apply lex_eq in Eab. rewrite Eab.
    destruct (lex (units b) (units c)) eqn:Ebc; [|reflexivity|discriminate].
    pose proof (string_compare_trans a b c).
    destruct (String.compare a b), (String.compare b c), (String.compare a c);
      try reflexivity; try discriminate; exfalso; apply H; congruence.
  - destruct (lex (units b) (units c)) eqn:Ebc; [| |discriminate].
    + apply lex_eq in Ebc. rewrite <- Ebc, Eab. reflexivity.
    + now rewrite (lex_lt_trans _ _ _ Eab Ebc).
Qed.

#[local] Instance key_le_antisym : AntiSymm (=) key_le.
Proof.
  intros a b. unfold key_le, unit_leb. rewrite (unit_compare_antisym a b).
  unfold unit_compare.
  destruct (lex (units a) (units b)); simpl; try discriminate.
  destruct (String.compare a b) eqn:Eab; simpl; try discriminate.
  intros _ _. now apply String.compare_eq_iff.
Qed.

#[local] Instance key_le_total : Total key_le.
Proof.
  intros a b. unfold key_le, unit_leb. rewrite (unit_compare_antisym a b).
  destruct (unit_compare a b); simpl; auto.
Qed.

Lemma insert_sorted_perm k l : insert_sorted k l ≡ₚ k :: l.
Proof.
  induction l as [|k' l IH]; simpl; [reflexivity|].
  destruct (unit_leb k k'); [reflexivity|].
  rewrite IH. apply Permutation_swap.
Qed.

Lemma sort_strings_perm l : sort_strings l ≡ₚ l.
Proof.
  induction l as [|k l IH]; simpl; [reflexivity|].
  now rewrite insert_sorted_perm, IH.
Qed.

Lemma insert_sorted_sorted k l : Sorted key_le l -> Sorted key_le (insert_sorted k l).
Proof.
  induction l as [|k' l IH]; intros Hs; simpl.
  - repeat constructor.
  - destruct (unit_leb k k') eqn:Hk.
    + constructor; [exact Hs | constructor; exact Hk].
    + apply Sorted_inv in Hs as [Hs Hhd]. constructor; [now apply IH|].
      assert (Hk' : key_le k' k).
      { destruct (key_le_total k k') as [H|H]; [unfold key_le in H; congruence | exact H]. }
      destruct l as [|k2 l]; simpl.
      * constructor. exact Hk'.
      * destruct (unit_leb k k2); constructor; [exact Hk'|].
        now apply HdRel_inv in Hhd.
Qed.

Lemma sort_strings_sorted l : Sorted key_le (sort_strings l).
Proof.
  induction l as [|k l IH]; simpl; [constructor | now apply insert_sorted_sorted].
Qed.

(** Sorting forgets the order the keys came in. *)
Lemma sort_strings_order l1 l2 : l1 ≡ₚ l2 -> sort_strings l1 = sort_strings l2.
Proof.
  intros Hp. apply (Sorted_unique key_le); try apply sort_strings_sorted.
  now rewrite !sort_strings_perm.
Qed.

Lemma sort_strings_fixed l : Sorted key_le l -> sort_strings l = l.
Proof.
  intros Hs. apply (Sorted_unique key_le); [apply sort_strings_sorted | exact Hs |].
  apply sort_strings_perm.
Qed.

(** The fill of [sortKeys] depends on the entries of the keys it goes
    through alone. *)
Lemma fill_ext (f g : string -> Json) (ks : list string) : forall acc,
  (forall k, k ∈ ks -> f k = g k) ->
  fold_left (fun out k => obj_assign k (f k) out) ks acc
  = fold_left (fun out k => obj_assign k (g k) out) ks acc.
Proof.
  induction ks as [|k ks IH]; intros acc Hfg; [reflexivity|]. simpl.
  rewrite (Hfg k) by left. apply IH. intros k' Hk'. apply Hfg. now right.
Qed.

End KeyOrder.

Section CanonicalOrder.
Import Js Canonical.

Local Abbreviation canon_entries d m kvs :=
  (map (fun kv : string * Json => (kv.1, canonicalizeInner kv.2 (d + 1) m)) kvs).

Lemma canonicalizeInner_eq (x : Json) (d m : Z) :
  canonicalizeInner x d m
  = if Z.ltb m d then JStr "[MAX_DEPTH]" else
    match x with
    | JArr xs => JArr (map (fun v => canonicalizeInner v (d + 1) m) xs)
    | JObj kvs => JObj (sortKeys (canon_entries d m kvs))
    | JUndefined => JStr "undefined"
    | JNaN => JStr "NaN"
    | _ => x
    end.
Proof.
  destruct x as [| |b|n| |s|xs|kvs]; simpl; try reflexivity.
  destruct (m <? d)%Z; [reflexivity|]. do 2 f_equal.
  induction kvs as [|[k v] kvs IH]; [reflexivity|]. simpl. now rewrite IH.
Qed.

Lemma obj_keys_map_values (f : Json -> Json) (kvs : list (string * Json)) :
  obj_keys (map (fun kv : string * Json => (kv.1, f kv.2)) kvs) = obj_keys kvs.
Proof. unfold obj_keys. rewrite map_map. reflexivity. Qed.

Lemma obj_get_key k (kvs : list (string * Json)) :
  k ∈ obj_keys kvs -> exists u, obj_get k kvs = Some u /\ (k, u) ∈ kvs.
Proof.
  induction kvs as [|[k' v'] kvs IH]; [inversion 1|]. simpl.
  destruct (String.eqb k k') eqn:Hk.
  - apply String.eqb_eq in Hk. subst. intros _. exists v'. split; [reflexivity | left].
  - apply String.eqb_neq in Hk. intros [?|Hin]%elem_of_cons; [contradiction|].
    destruct (IH Hin) as (u & Hu & Hin'). exists u. split; [exact Hu | now right].
Qed.

(** The entries two objects are related by. *)
Lemma same_tree_entry (a b : list (string * Json)) k u :
  same_tree (JObj a) (JObj b) -> (k, u) ∈ a ->
  exists v, obj_get k b = Some v /\ same_tree u v.
Proof.
  intros (_ & _ & Hall) Hin. induction a as [|[k' u'] a IH]; [inversion Hin|].
  destruct Hall as [Hhd Hall]. apply elem_of_cons in Hin as [[= -> ->]|Hin].
  - destruct (obj_get k' b) as [v|]; [eauto | contradiction].
  - now apply IH.
Qed.

(** Two objects with the same keys and, key by key, values that a function
    sends to one value, are sorted into one object. *)
Lemma sortKeys_order (f : Json -> Json) (a b : list (string * Json)) :
  same_tree (JObj a) (JObj b) ->
  (forall k u v, (k, u) ∈ a -> obj_get k b = Some v -> same_tree u v -> f u = f v) ->
  sortKeys (map (fun kv : string * Json => (kv.1, f kv.2)) a)
  = sortKeys (map (fun kv : string * Json => (kv.1, f kv.2)) b).
Proof.
  intros Hsame Hf. pose proof Hsame as (Hnd & Hperm & _).
  unfold sortKeys. rewrite !obj_keys_map_values, (sort_strings_order _ _ Hperm).
  apply fill_ext. intros k Hk. rewrite sort_strings_perm, <- Hperm in Hk.
  destruct (obj_get_key k a Hk) as (u & Hu & Hin).
  destruct (same_tree_entry a b k u Hsame Hin) as (v & Hv & Huv).
  rewrite !obj_get_map, Hu, Hv. simpl. now rewrite (Hf k u v Hin Hv Huv).
Qed.

Lemma sortRec_eq (x : Json) :
  Audit.sortRec x
  = match x with
    | JArr xs => JArr (map Audit.sortRec xs)
    | JObj kvs =>
        JObj (sortKeys (map (fun kv : string * Json => (kv.1, Audit.sortRec kv.2)) kvs))
    | _ => x
    end.
Proof.
  destruct x as [| |b|n| |s|xs|kvs]; simpl; try reflexivity. do 2 f_equal.
  induction kvs as [|[k v] kvs IH]; [reflexivity|]. simpl. now rewrite IH.
Qed.

Lemma sortRec_order (x : Json) : forall y,
  same_tree x y -> Audit.sortRec x = Audit.sortRec y.
Proof.
  induction x as [| |b|n| |s|xs IH|a IH] using Json_induction;
    intros y Hsame; rewrite !sortRec_eq;
    destruct y as [| |b'|n'| |s'|ys|b']; try contradiction; try discriminate;
    try (now rewrite Hsame); try reflexivity.
  - f_equal. revert ys Hsame. induction xs as [|u xs IHxs]; intros [|v ys] Hsame;
      try contradiction; [reflexivity|].
    destruct Hsame as [Hu Hrest]. inversion IH as [|? ? Hhd Htl]; subst.
    simpl. rewrite (Hhd v Hu). f_equal. now apply IHxs.
  - f_equal. apply sortKeys_order; [exact Hsame|].
    intros k u v Hin _ Huv. rewrite Forall_forall in IH. exact (IH (k, u) Hin v Huv).
Qed.

(** X25. The canonical form does not depend on the order of the keys. Two
    values that differ only in the order in which the keys of their
    objects were inserted (each object having each key once) have the same
    canonical form at every depth limit, hence the same canonical text and
    the same canonical hash; and the replay store's [stableStringify]
    gives them the same text, so that the final state hash of a replay
    does not depend on the order in which the paths were first written. *)
Theorem canonical_form_ignores_key_order `{Platform} (x : Json) : forall y,
  same_tree x y ->
  (forall d m, canonicalizeInner x d m = canonicalizeInner y d m)
  /\ (forall maxDepth, canonicalize x maxDepth = canonicalize y maxDepth)
  /\ canonicalJSONStringify x = canonicalJSONStringify y
  /\ canonicalHash x = canonicalHash y
  /\ Audit.stableStringify x = Audit.stableStringify y.
Proof.
  assert (Hmain : forall x y, same_tree x y ->
            forall d m, canonicalizeInner x d m = canonicalizeInner y d m).
  { clear x. intros x. induction x as [| |b|n| |s|xs IH|a IH] using Json_induction;
      intros y Hsame d m; rewrite !canonicalizeInner_eq;
      destruct (m <? d)%Z; try reflexivity;
      destruct y as [| |b'|n'| |s'|ys|b']; try contradiction; try discriminate;
      try (now rewrite Hsame); try reflexivity.
    - f_equal. revert ys Hsame. induction xs as [|u xs IHxs]; intros [|v ys] Hsame;
        try contradiction; [reflexivity|].
      destruct Hsame as [Hu Hrest]. inversion IH as [|? ? Hhd Htl]; subst.
      simpl. rewrite (Hhd v Hu). f_equal. now apply IHxs.
    - f_equal.
      apply (sortKeys_order (fun v => canonicalizeInner v (d + 1) m)); [exact Hsame|].
      intros k u v Hin _ Huv. rewrite Forall_forall in IH.
      exact (IH (k, u) Hin v Huv (d + 1)%Z m). }
  intros y Hsame. split; [now apply Hmain|].
  split; [intros; now apply Hmain|].
  unfold canonicalHash, canonicalJSONStringify, canonicalize, Audit.stableStringify.
  rewrite (Hmain x y Hsame), (sortRec_order x y Hsame). auto.
Qed.

Lemma well_keyed_arr xs : well_keyed (JArr xs) -> Forall well_keyed xs.
Proof.
  induction xs as [|x xs IH]; [constructor|]. intros [Hx Hxs]. constructor; auto.
Qed.

Lemma well_keyed_obj kvs :
  well_keyed (JObj kvs) -> NoDup (obj_keys kvs) /\ Forall (fun kv => well_keyed kv.2) kvs.
Proof.
  intros [Hnd Hall]. split; [exact Hnd|]. clear Hnd.
  induction kvs as [|[k v] kvs IH]; [constructor|]. destruct Hall as [Hv Hall].
  constructor; auto.
Qed.

End CanonicalOrder.

Lemma doc_orders_same : same_tree doc_lo_hi doc_hi_lo.
Proof.
  simpl. split; [apply (bool_decide_unpack _); vm_compute; exact I|].
  split; [apply Permutation_swap|]. split; [|auto].
  split; [apply (bool_decide_unpack _); vm_compute; exact I|].
  split; [apply Permutation_swap|]. auto.
Qed.

Lemma canonical_form_ignores_key_order_witness :
  Canonical.canonicalHash doc_lo_hi = Canonical.canonicalHash doc_hi_lo
  /\ doc_lo_hi <> doc_hi_lo.
Proof.
  split; [|discriminate].
  exact (proj1 (proj2 (proj2 (proj2 (canonical_form_ignores_key_order doc_lo_hi doc_hi_lo
                                        doc_orders_same))))).
Defined.

Section SortedFill.
Import Js Canonical.

Local Abbreviation fill f ks acc :=
  (fold_left (fun out k => obj_assign k (f k) out) ks acc).

Local Abbreviation named k := (k <> "__proto__").

Lemma obj_keys_add {A} k (v : A) kvs : obj_keys (obj_add k v kvs) ≡ₚ k :: obj_keys kvs.
Proof.
  induction kvs as [|[k' v'] kvs IH]; [reflexivity|]. simpl.
  destruct (before k k'); [reflexivity|]. simpl. rewrite IH. apply Permutation_swap.
Qed.

Lemma obj_assign_named k v acc :
  "__proto__" ∉ obj_keys acc ->
  obj_assign k v acc = if decide (named k) then obj_set k v acc else acc.
Proof.
  intros Hacc. unfold obj_assign. destruct (String.eqb k "__proto__") eqn:Hk.
  - apply String.eqb_eq in Hk. subst k. rewrite decide_False by auto.
    assert (Hh : obj_has "__proto__" acc = false).
    { destruct (obj_has "__proto__" acc) eqn:Hh; [|reflexivity].
      apply obj_has_elem in Hh. contradiction. }
    now rewrite Hh.
  - apply String.eqb_neq in Hk. now rewrite decide_True.
Qed.

Lemma obj_set_keeps k (v : Json) acc :
  named k -> "__proto__" ∉ obj_keys acc -> "__proto__" ∉ obj_keys (obj_set k v acc).
Proof.
  intros Hk Hacc. unfold obj_set. destruct (obj_has k acc).
  - now rewrite obj_keys_replace.
  - rewrite obj_keys_add. intros [?|?]%elem_of_cons; [congruence | contradiction].
Qed.

(** What the fill leaves under a key. *)
Lemma fill_get (f : string -> Json) (ks : list string) : forall acc k,
  "__proto__" ∉ obj_keys acc ->
  obj_get k (fill f ks acc)
  = if decide (k ∈ ks /\ named k) then Some (f k) else obj_get k acc.
Proof.
  induction ks as [|k1 ks IH]; intros acc k Hacc.
  - cbn [fold_left]. rewrite decide_False; [reflexivity|]. intros [Hin _]. inversion Hin.
  - cbn [fold_left]. rewrite obj_assign_named by exact Hacc.
    destruct (decide (named k1)) as [Hk1|Hk1].
    + rewrite IH by now apply obj_set_keeps.
      destruct (decide (k ∈ ks /\ named k)) as [[Hin Hk]|Hn].
      * rewrite decide_True; [reflexivity|]. split; [now right | exact Hk].
      * destruct (decide (k = k1)) as [->|Hne].
        -- rewrite obj_get_set_eq. rewrite decide_True; [reflexivity|]. split; [left | exact Hk1].
        -- rewrite obj_get_set_ne by congruence.
           rewrite decide_False; [reflexivity|].
           intros [[?|Hin]%elem_of_cons Hk]; [contradiction | apply Hn; auto].
    + rewrite IH by exact Hacc. apply decide_ext. rewrite elem_of_cons.
      split; [intros [? ?]; auto|]. intros [[->|Hin] Hk]; [contradiction | auto].
Qed.

(** The keys the fill leaves. *)
Lemma fill_keys (f : string -> Json) (ks : list string) : forall acc,
  NoDup ks -> "__proto__" ∉ obj_keys acc -> (forall k, k ∈ ks -> k ∉ obj_keys acc) ->
  obj_keys (fill f ks acc) ≡ₚ obj_keys acc ++ filter (fun k => named k) ks.
Proof.
  induction ks as [|k1 ks IH]; intros acc Hnd Hacc Hfresh.
  - cbn [fold_left]. rewrite filter_nil. now rewrite app_nil_r.
  - apply NoDup_cons in Hnd as [Hk1 Hnd]. cbn [fold_left].
    rewrite obj_assign_named by exact Hacc. rewrite filter_cons.
    destruct (decide (named k1)) as [Hn1|Hn1].
    + assert (Hadd : obj_keys (obj_set k1 (f k1) acc) ≡ₚ k1 :: obj_keys acc).
      { unfold obj_set. destruct (obj_has k1 acc) eqn:Hh; [|apply obj_keys_add].
        apply obj_has_elem in Hh. exfalso. apply (Hfresh k1); [left | exact Hh]. }
      rewrite IH; [| exact Hnd | now apply obj_set_keeps |].
      * rewrite Hadd. cbn [app]. now rewrite Permutation_middle.
      * intros k Hk. rewrite Hadd. intros [->|Hin]%elem_of_cons; [contradiction|].
        apply (Hfresh k); [now right | exact Hin].
    + apply IH; [exact Hnd | exact Hacc |]. intros k Hk. apply Hfresh. now right.
Qed.

Lemma fill_named (f : string -> Json) (ks : list string) : forall acc,
  "__proto__" ∉ obj_keys acc ->
  fill f ks acc = fill f (filter (fun k => named k) ks) acc.
Proof.
  induction ks as [|k1 ks IH]; intros acc Hacc; [reflexivity|].
  cbn [fold_left]. rewrite filter_cons, (obj_assign_named k1) by exact Hacc.
  destruct (decide (named k1)) as [Hn1|Hn1].
  - cbn [fold_left]. rewrite (obj_assign_named k1) by exact Hacc.
    rewrite decide_True by exact Hn1.
    apply IH. now apply obj_set_keeps.
  - now apply IH.
Qed.

Lemma sorted_filter (P : string -> Prop) `{forall k, Decision (P k)} (l : list string) :
  Sorted key_le l -> Sorted key_le (filter P l).
Proof.
  intros Hs. apply Sorted_StronglySorted in Hs; [|apply key_le_trans].
  apply StronglySorted_Sorted.
  induction Hs as [|k l Hs IH Hall]; [constructor|].
  rewrite filter_cons. destruct (decide (P k)); [|exact IH].
  constructor; [exact IH|]. rewrite Forall_forall in *.
  intros k' [_ Hk']%list_elem_of_filter. now apply Hall.
Qed.

(** The entries of a sorted object. *)
Lemma sortKeys_get (o : list (string * Json)) k :
  obj_get k (sortKeys o)
  = if decide (k ∈ obj_keys o /\ named k) then Some (default JUndefined (obj_get k o))
    else None.
Proof.
  unfold sortKeys. rewrite fill_get by (intros Hin; inversion Hin).
  apply decide_ext. now rewrite sort_strings_perm.
Qed.

Lemma sortKeys_keys (o : list (string * Json)) :
  NoDup (obj_keys o) ->
  obj_keys (sortKeys o) ≡ₚ filter (fun k => named k) (sort_strings (obj_keys o)).
Proof.
  intros Hnd. unfold sortKeys. rewrite fill_keys; [reflexivity| | |].
  - now rewrite sort_strings_perm.
  - intros Hin. inversion Hin.
  - intros k _ Hin. inversion Hin.
Qed.

(** Sorting a sorted object gives it back. *)
Lemma sortKeys_idem (o : list (string * Json)) :
  NoDup (obj_keys o) -> sortKeys (sortKeys o) = sortKeys o.
Proof.
  intros Hnd.
  set (ks := filter (fun k => named k) (sort_strings (obj_keys o))).
  assert (Hsorted : sort_strings (obj_keys (sortKeys o)) = ks).
  { rewrite (sort_strings_order _ _ (sortKeys_keys o Hnd)).
    apply sort_strings_fixed, sorted_filter, sort_strings_sorted. }
  assert (H1 : sortKeys (sortKeys o)
               = fill (fun k => default JUndefined (obj_get k (sortKeys o))) ks []).
  { unfold sortKeys at 1. now rewrite Hsorted. }
  assert (H2 : sortKeys o = fill (fun k => default JUndefined (obj_get k o)) ks []).
  { unfold sortKeys. apply fill_named. intros Hin. inversion Hin. }
  etrans; [exact H1|]. etrans; [|symmetry; exact H2].
  apply fill_ext. intros k Hk. rewrite sortKeys_get.
  apply list_elem_of_filter in Hk as [Hn Hk]. rewrite sort_strings_perm in Hk.
  now rewrite decide_True.
Qed.

Lemma sortKeys_entry (o : list (string * Json)) k w :
  NoDup (obj_keys o) -> (k, w) ∈ sortKeys o ->
  exists u, (k, u) ∈ o /\ w = u.
Proof.
  intros Hnd Hin.
  assert (Hndk : NoDup (obj_keys (sortKeys o))).
  { rewrite (sortKeys_keys o Hnd). apply NoDup_filter. now rewrite sort_strings_perm. }
  assert (Hget : obj_get k (sortKeys o) = Some w).
  { clear Hnd. revert Hndk Hin. generalize (sortKeys o) as l.
    induction l as [|[k' w'] l IH]; [inversion 2|]. simpl.
    intros [Hk Hndl]%NoDup_cons [[= -> ->]|Hin]%elem_of_cons.
    - now rewrite String.eqb_refl.
    - destruct (String.eqb k k') eqn:He; [|now apply IH].
      apply String.eqb_eq in He. subst k'. contradiction Hk.
      apply list_elem_of_fmap. now exists (k, w). }
  rewrite sortKeys_get in Hget.
  destruct (decide (k ∈ obj_keys o /\ named k)) as [[Hk _]|]; [|discriminate].
  destruct (obj_get_key k o Hk) as (u & Hu & Hinu).
  rewrite Hu in Hget. injection Hget as <-. eauto.
Qed.

End SortedFill.

Section CanonicalStable.
Import Js Canonical.

Local Abbreviation canon_entries d m kvs :=
  (map (fun kv : string * Json => (kv.1, canonicalizeInner kv.2 (d + 1) m)) kvs).

(** X26. Canonicalising twice is canonicalising once: on a value whose objects
    have each key once, the canonical form is a fixed point of
    [canonicalizeInner] at the same depth and depth limit, so that a
    canonical value that is stored and canonicalised again keeps its text
    and its hash. *)
Theorem canonical_form_is_stable `{Platform} (x : Json) :
  well_keyed x ->
  (forall d m,
     canonicalizeInner (canonicalizeInner x d m) d m = canonicalizeInner x d m)
  /\ (forall maxDepth,
        canonicalize (canonicalize x maxDepth) maxDepth = canonicalize x maxDepth)
  /\ canonicalHash (canonicalize x None) = canonicalHash x.
Proof.
  assert (Hmain : forall x, well_keyed x -> forall d m,
            canonicalizeInner (canonicalizeInner x d m) d m = canonicalizeInner x d m).
  { clear x. intros x. induction x as [| |b|n| |s|xs IH|a IH] using Json_induction;
      intros Hwk d m;
      match goal with
      | |- canonicalizeInner (canonicalizeInner ?x _ _) _ _ = _ =>
          rewrite (canonicalizeInner_eq x d m)
      end;
      destruct (m <? d)%Z eqn:Hlt;
      try (rewrite canonicalizeInner_eq, Hlt; reflexivity).
    - rewrite canonicalizeInner_eq, Hlt. f_equal. rewrite map_map.
      apply well_keyed_arr in Hwk. apply map_ext_in. intros u Hu.
      apply list_elem_of_In in Hu. rewrite Forall_forall in IH, Hwk. now apply IH; auto.
    - rewrite canonicalizeInner_eq, Hlt. f_equal.
      apply well_keyed_obj in Hwk as [Hnd Hwk].
      assert (Hndc : NoDup (obj_keys (canon_entries d m a)))
        by now rewrite (obj_keys_map_values (fun v => canonicalizeInner v (d + 1) m)).
      set (o2 := sortKeys (canon_entries d m a)).
      assert (Hfix : canon_entries d m o2 = o2).
      { rewrite <- (map_id o2) at 2. apply map_ext_in. intros [k w] Hin.
        apply list_elem_of_In in Hin.
        destruct (sortKeys_entry _ k w Hndc Hin) as (u' & Hin' & ->).
        apply list_elem_of_fmap in Hin' as ([k0 u] & [= -> ->] & Hin0). simpl. f_equal.
        rewrite Forall_forall in IH, Hwk. apply (IH (k0, u) Hin0). apply (Hwk (k0, u) Hin0). }
      rewrite Hfix. now apply sortKeys_idem. }
  intros Hwk. split; [now apply Hmain|]. split; [intros; now apply Hmain|].
  unfold canonicalHash, canonicalJSONStringify, canonicalize. now rewrite Hmain.
Qed.

End CanonicalStable.

Lemma canonical_form_is_stable_witness :
  Canonical.canonicalize (Canonical.canonicalize doc_lo_hi None) None
  = Canonical.canonicalize doc_lo_hi None.
Proof.
  refine (proj1 (proj2 (canonical_form_is_stable doc_lo_hi _)) None).
  simpl. repeat split; apply (bool_decide_unpack _); vm_compute; exact I.
Defined.

(** ** The deep-diff report: what [ok] means *)

Section DiffAlike.
Import Js Canonical Diff.
Context `{Platform}.
Variable o : DivergenceReportOptions.

Lemma strict_eq_true (x y : Json) :
  strict_eq x y = true ->
  x = y /\ match x with JArr _ | JObj _ => False | _ => True end.
Proof.
  destruct x as [| |b|n| |s|xs|kvs], y as [| |b'|n'| |s'|ys|kvs']; simpl;
    try discriminate; auto.
  - intros Hb. apply Bool.eqb_prop in Hb. now subst.
  - intros Hn. apply Z.eqb_eq in Hn. now subst.
  - intros Hs. apply String.eqb_eq in Hs. now subst.
Qed.

Lemma same_tree_prim (x y : Json) :
  match x with JArr _ | JObj _ => False | _ => True end -> x = y -> same_tree x y.
Proof. intros Hx <-. now destruct x. Qed.

Lemma same_tree_arr (xs ys : list Json) :
  same_tree (JArr xs) (JArr ys) <-> Forall2 same_tree xs ys.
Proof.
  revert ys. induction xs as [|x xs IH]; intros [|y ys]; simpl.
  - split; [constructor | auto].
  - split; [contradiction | inversion 1].
  - split; [contradiction | inversion 1].
  - split.
    + intros [Hx Hxs]. constructor; [exact Hx | now apply IH].
    + intros Hall. inversion Hall; subst. split; [assumption | now apply IH].
Qed.

Lemma same_tree_obj (a b : list (string * Json)) :
  same_tree (JObj a) (JObj b)
  <-> NoDup (obj_keys a) /\ obj_keys a ≡ₚ obj_keys b
      /\ Forall (fun kv => exists v, obj_get kv.1 b = Some v /\ same_tree kv.2 v) a.
Proof.
  simpl. split; intros (Hnd & Hperm & Hall); (split; [exact Hnd|split; [exact Hperm|]]).
  - clear Hnd Hperm. induction a as [|[k u] a IH]; constructor.
    + destruct Hall as [Hhd _]. simpl.
      destruct (obj_get k b) as [v|]; [exists v; auto | contradiction].
    + apply IH. apply Hall.
  - clear Hnd Hperm. induction a as [|[k u] a IH]; [exact I|].
    inversion Hall as [|? ? (v & Hv & Huv) Htl]; subst. simpl in Hv. rewrite Hv.
    split; [exact Huv | now apply IH].
Qed.

Lemma union_keys_elem (a b : list (string * Json)) k :
  k ∈ union_keys a b <-> k ∈ obj_keys a \/ k ∈ obj_keys b.
Proof.
  unfold union_keys. rewrite sort_strings_perm.
  assert (Hd : forall l seen, k ∈ dedup_keys l seen <-> k ∈ l /\ k ∉ seen).
  { induction l as [|x l IH]; intros seen; simpl.
    - split; [inversion 1 | intros [Hin _]; inversion Hin].
    - case_bool_decide as Hx.
      + rewrite IH, elem_of_cons. split; [tauto|].
        intros [[->|Hin] Hn]; [contradiction | tauto].
      + rewrite elem_of_cons, IH. rewrite !elem_of_cons.
        destruct (decide (k = x)) as [->|Hne]; tauto. }
  rewrite Hd, elem_of_app. split; [tauto|]. intros Hk. split; [exact Hk | inversion 1].
Qed.

Lemma obj_get_in (kvs : list (string * Json)) k u :
  NoDup (obj_keys kvs) -> (k, u) ∈ kvs -> obj_get k kvs = Some u.
Proof.
  induction kvs as [|[k' u'] kvs IH]; [inversion 2|]. simpl.
  intros [Hk Hnd]%NoDup_cons [[= -> ->]|Hin]%elem_of_cons.
  - now rewrite String.eqb_refl.
  - destruct (String.eqb k k') eqn:He; [|now apply IH].
    apply String.eqb_eq in He. subst k'. contradiction Hk.
    apply list_elem_of_fmap. now exists (k, u).
Qed.

(** Two trees that differ in key order only give no difference. *)
Lemma array_loop_alike rec (xs ys : list Json) basePath :
  Forall2 (fun x y => forall p acc, rec x y p acc = acc) xs ys ->
  forall n i a, (n + i <= length xs)%nat ->
    array_loop rec xs ys basePath o n i a = a.
Proof.
  intros Hall. pose proof (Forall2_length _ _ _ Hall) as Hlen.
  induction n as [|n IH]; intros i a Hle; simpl; [reflexivity|].
  destruct (full a o) eqn:Hfull; [reflexivity|].
  assert (Hi : (length xs <=? i)%nat = false) by (apply Nat.leb_gt; lia).
  assert (Hi' : (length ys <=? i)%nat = false) by (apply Nat.leb_gt; lia).
  rewrite Hi, Hi'.
  destruct (lookup_lt_is_Some_2 xs i ltac:(lia)) as [x Hx].
  destruct (lookup_lt_is_Some_2 ys i ltac:(lia)) as [y Hy].
  rewrite Hx, Hy. simpl default.
  rewrite (Forall2_lookup_lr _ _ _ _ _ _ Hall Hx Hy), Hfull, andb_false_r.
  apply IH. lia.
Qed.

Lemma object_loop_alike rec (kl kr : list (string * Json)) basePath :
  forall keys a,
    (forall k, k ∈ keys ->
       exists vl vr, obj_get k kl = Some vl /\ obj_get k kr = Some vr
                     /\ forall p acc, rec vl vr p acc = acc) ->
    object_loop rec kl kr basePath o keys a = a.
Proof.
  induction keys as [|k keys IH]; intros a Hall; simpl; [reflexivity|].
  destruct (full a o); [reflexivity|].
  destruct (Hall k) as (vl & vr & -> & -> & Hrec); [left|].
  rewrite Hrec. apply IH. intros k' Hk'. apply Hall. now right.
Qed.

Lemma nan_free_arr (xs : list Json) : nan_free (JArr xs) = true -> Forall (fun x => nan_free x = true) xs.
Proof. simpl. intros Hall. apply Forall_forall. intros x Hx. now apply (nan_free_element xs). Qed.

Lemma Forall2_with {A B} (P : A -> B -> Prop) (Q : A -> Prop) (xs : list A) (ys : list B) :
  Forall2 P xs ys -> Forall Q xs -> Forall2 (fun x y => P x y /\ Q x) xs ys.
Proof.
  induction 1 as [|x y xs ys Hxy Hall IH]; intros HQ; [constructor|].
  inversion HQ; subst. constructor; auto.
Qed.

Lemma deepDiff_alike (fuel : nat) : forall l r basePath depth a,
  same_tree l r -> nan_free l = true -> deepDiff fuel l r basePath depth a o = a.
Proof.
  induction fuel as [|fuel IH]; intros l r basePath depth a Hsame Hnan; [reflexivity|].
  destruct l as [| |b|n| |s|xs|kl], r as [| |b'|n'| |s'|ys|kr];
    try contradiction; try discriminate.
  - now apply deepDiff_same.
  - now apply deepDiff_same.
  - simpl in Hsame. injection Hsame as <-. now apply deepDiff_same.
  - simpl in Hsame. injection Hsame as <-. now apply deepDiff_same.
  - simpl in Hsame. injection Hsame as <-. now apply deepDiff_same.
  - simpl. destruct (full a o); [reflexivity|].
    destruct (maxDepth o <? depth)%Z; [reflexivity|].
    apply array_loop_alike.
    + apply same_tree_arr in Hsame.
      eapply Forall2_impl; [exact (Forall2_with _ _ _ _ Hsame (nan_free_arr xs Hnan))|].
      intros x y [Hxy Hx] p acc. now apply IH.
    + pose proof (Forall2_length _ _ _ (proj1 (same_tree_arr _ _) Hsame)). lia.
  - simpl. destruct (full a o); [reflexivity|].
    destruct (maxDepth o <? depth)%Z; [reflexivity|].
    apply object_loop_alike. intros k Hk.
    pose proof Hsame as (Hnd & Hperm & Hall)%same_tree_obj.
    assert (Hka : k ∈ obj_keys kl).
    { apply union_keys_elem in Hk as [Hk|Hk]; [exact Hk | now rewrite Hperm]. }
    destruct (obj_get_key k kl Hka) as (u & Hu & Hin).
    rewrite Forall_forall in Hall. destruct (Hall _ Hin) as (v & Hv & Huv).
    exists u, v. split; [exact Hu|]. split; [exact Hv|]. intros p acc. apply IH; [exact Huv|].
    now apply (nan_free_entry kl k).
Qed.

(** The list of differences only grows. *)
Lemma record_grows a p l r k :
  (length (out a) <= length (out (record a p l r k o)))%nat.
Proof.
  unfold record. destruct (full a o); cbn [out]; [lia|]. rewrite length_app. lia.
Qed.

Lemma record_lists a p l r k :
  full a o = false -> out (record a p l r k o) <> [].
Proof.
  intros Hfull. unfold record. rewrite Hfull. cbn [out].
  intros Hnil. apply app_eq_nil in Hnil as [_ Hnil]. discriminate.
Qed.

Lemma array_loop_grows rec xs ys basePath :
  (forall x y p a, (length (out a) <= length (out (rec x y p a)))%nat) ->
  forall n i a,
    (length (out a) <= length (out (array_loop rec xs ys basePath o n i a)))%nat.
Proof.
  intros Hrec. induction n as [|n IH]; intros i a; simpl; [lia|].
  destruct (full a o); [lia|].
  destruct (length xs <=? i)%nat; [etrans; [apply record_grows | apply IH]|].
  destruct (length ys <=? i)%nat; [etrans; [apply record_grows | apply IH]|].
  destruct (negb (no_first _) && full _ o); [apply Hrec|].
  etrans; [apply Hrec | apply IH].
Qed.

Lemma object_loop_grows rec kl kr basePath :
  (forall x y p a, (length (out a) <= length (out (rec x y p a)))%nat) ->
  forall keys a,
    (length (out a) <= length (out (object_loop rec kl kr basePath o keys a)))%nat.
Proof.
  intros Hrec. induction keys as [|k keys IH]; intros a; simpl; [lia|].
  destruct (full a o); [lia|].
  destruct (obj_get k kl), (obj_get k kr);
    (etrans; [|apply IH]); first [apply Hrec | apply record_grows].
Qed.

Lemma deepDiff_grows fuel : forall l r basePath depth a,
  (length (out a) <= length (out (deepDiff fuel l r basePath depth a o)))%nat.
Proof.
  induction fuel as [|fuel IH]; intros l r basePath depth a; simpl; [lia|].
  destruct (full a o); [lia|].
  destruct (maxDepth o <? depth)%Z; [lia|].
  destruct (strict_eq l r); [lia|].
  destruct (negb (JsType_eqb (diff_type l) (diff_type r))); [apply record_grows|].
  destruct l, r; try apply record_grows.
  - apply array_loop_grows. intros. apply IH.
  - apply object_loop_grows. intros. apply IH.
Qed.

Lemma grows_nil (a a' : Acc) :
  (length (out a) <= length (out a'))%nat -> out a' = [] -> out a = [].
Proof. intros Hle Hnil. rewrite Hnil in Hle. apply length_zero_iff_nil. simpl in Hle. lia. Qed.

Hypothesis some_diffs : (0 < maxDiffs o)%Z.

Lemma empty_not_full a : out a = [] -> full a o = false.
Proof. intros Ha. unfold full. rewrite Ha. apply Z.leb_gt. simpl. lia. Qed.

(** When no difference is listed, the loops have compared every element
    and every key. *)
Lemma array_loop_sound rec (xs ys : list Json) basePath (P : Json -> Json -> Prop) :
  (forall x y p a, (length (out a) <= length (out (rec x y p a)))%nat) ->
  (forall j x y p a, xs !! j = Some x -> ys !! j = Some y ->
     out a = [] -> out (rec x y p a) = [] -> P x y) ->
  forall n i a,
    out a = [] -> out (array_loop rec xs ys basePath o n i a) = [] ->
    forall j, (i <= j < i + n)%nat ->
      exists x y, xs !! j = Some x /\ ys !! j = Some y /\ P x y.
Proof.
  intros Hgrow Hrec. induction n as [|n IH]; intros i a Ha Hend j Hj; [lia|].
  simpl in Hend. rewrite (empty_not_full a Ha) in Hend.
  destruct (length xs <=? i)%nat eqn:Hi.
  { exfalso. apply (record_lists a (pathJoin_index basePath i) JUndefined
                      (default JUndefined (ys !! i)) KMissingLocal (empty_not_full a Ha)).
    eapply grows_nil; [apply array_loop_grows, Hgrow | exact Hend]. }
  destruct (length ys <=? i)%nat eqn:Hi'.
  { exfalso. apply (record_lists a (pathJoin_index basePath i)
                      (default JUndefined (xs !! i)) JUndefined KMissingRef
                      (empty_not_full a Ha)).
    eapply grows_nil; [apply array_loop_grows, Hgrow | exact Hend]. }
  apply Nat.leb_gt in Hi, Hi'.
  destruct (lookup_lt_is_Some_2 xs i Hi) as [x Hx].
  destruct (lookup_lt_is_Some_2 ys i Hi') as [y Hy].
  rewrite Hx, Hy in Hend. simpl default in Hend.
  set (a' := rec x y (pathJoin_index basePath i) a) in *.
  assert (Ha' : out a' = []).
  { destruct (negb (no_first a') && full a' o); [exact Hend|].
    eapply grows_nil; [apply array_loop_grows, Hgrow | exact Hend]. }
  rewrite (empty_not_full a' Ha'), andb_false_r in Hend.
  destruct (decide (j = i)) as [->|Hne].
  - exists x, y. split; [exact Hx|]. split; [exact Hy|].
    apply (Hrec i x y (pathJoin_index basePath i) a Hx Hy Ha Ha').
  - apply (IH (S i) a' Ha' Hend). lia.
Qed.

Lemma object_loop_sound rec (kl kr : list (string * Json)) basePath
    (P : Json -> Json -> Prop) :
  (forall x y p a, (length (out a) <= length (out (rec x y p a)))%nat) ->
  (forall k x y p a, obj_get k kl = Some x -> obj_get k kr = Some y ->
     out a = [] -> out (rec x y p a) = [] -> P x y) ->
  forall keys a,
    out a = [] -> out (object_loop rec kl kr basePath o keys a) = [] ->
    forall k, k ∈ keys -> is_Some (obj_get k kl) \/ is_Some (obj_get k kr) ->
      exists x y, obj_get k kl = Some x /\ obj_get k kr = Some y /\ P x y.
Proof.
  intros Hgrow Hrec. induction keys as [|k0 keys IH]; intros a Ha Hend k Hk Hhas;
    [inversion Hk|].
  simpl in Hend. rewrite (empty_not_full a Ha) in Hend.
  destruct (obj_get k0 kl) as [vl|] eqn:Hl, (obj_get k0 kr) as [vr|] eqn:Hr.
  - set (a' := rec vl vr (pathJoin_key basePath k0) a) in *.
    assert (Ha' : out a' = [])
      by (eapply grows_nil; [apply object_loop_grows, Hgrow | exact Hend]).
    apply elem_of_cons in Hk as [->|Hk].
    + exists vl, vr. split; [exact Hl|]. split; [exact Hr|].
      apply (Hrec k0 vl vr (pathJoin_key basePath k0) a Hl Hr Ha Ha').
    + now apply (IH a' Ha' Hend).
  - exfalso. apply (record_lists a (pathJoin_key basePath k0) vl JUndefined KMissingRef
                      (empty_not_full a Ha)).
    eapply grows_nil; [apply object_loop_grows, Hgrow | exact Hend].
  - exfalso. apply (record_lists a (pathJoin_key basePath k0) JUndefined vr KMissingLocal
                      (empty_not_full a Ha)).
    eapply grows_nil; [apply object_loop_grows, Hgrow | exact Hend].
  - set (a' := rec JUndefined JUndefined (pathJoin_key basePath k0) a) in *.
    assert (Ha' : out a' = [])
      by (eapply grows_nil; [apply object_loop_grows, Hgrow | exact Hend]).
    apply elem_of_cons in Hk as [->|Hk].
    + rewrite Hl, Hr in Hhas. destruct Hhas as [[? [=]]|[? [=]]].
    + now apply (IH a' Ha' Hend).
Qed.

Lemma depth_of_nonneg (x : Json) : (0 <= depth_of x)%Z.
Proof.
  destruct x as [| |b|n| |s|xs|kvs]; simpl; try lia.
  - induction xs as [|x xs IH]; lia.
  - induction kvs as [|[k v] kvs IH]; lia.
Qed.

Lemma depth_of_element (xs : list Json) x :
  x ∈ xs -> (depth_of x + 1 <= depth_of (JArr xs))%Z.
Proof.
  simpl. induction xs as [|y xs IH]; [inversion 1|].
  intros [->|Hin]%elem_of_cons; [lia|]. specialize (IH Hin). lia.
Qed.

Lemma depth_of_entry (kvs : list (string * Json)) k v :
  (k, v) ∈ kvs -> (depth_of v + 1 <= depth_of (JObj kvs))%Z.
Proof.
  simpl. induction kvs as [|[k' v'] kvs IH]; [inversion 1|].
  intros [[= -> ->]|Hin]%elem_of_cons; [lia|]. specialize (IH Hin). lia.
Qed.

Lemma obj_get_elem (kvs : list (string * Json)) k v :
  obj_get k kvs = Some v -> (k, v) ∈ kvs.
Proof.
  induction kvs as [|[k' v'] kvs IH]; [discriminate|]. simpl.
  destruct (String.eqb k k') eqn:He.
  - apply String.eqb_eq in He. subst. intros [= ->]. left.
  - intros Hg. right. now apply IH.
Qed.

(** With room for a difference and within the depth limit, no difference
    listed means the trees differ in key order at most. *)
Lemma deepDiff_sound (fuel : nat) : forall l r basePath depth a,
  (0 <= depth)%Z -> (maxDepth o - depth < Z.of_nat fuel)%Z ->
  (depth + depth_of l <= maxDepth o)%Z ->
  well_keyed l -> well_keyed r ->
  out a = [] -> out (deepDiff fuel l r basePath depth a o) = [] ->
  same_tree l r.
Proof.
  induction fuel as [|fuel IH]; intros l r basePath depth a Hd Hfuel Hdepth Hwl Hwr Ha Hend.
  { pose proof (depth_of_nonneg l). simpl in Hfuel. lia. }
  simpl in Hend. rewrite (empty_not_full a Ha) in Hend.
  assert (Hdl : (maxDepth o <? depth)%Z = false).
  { apply Z.ltb_ge. pose proof (depth_of_nonneg l). lia. }
  rewrite Hdl in Hend.
  destruct (strict_eq l r) eqn:Heq.
  { apply strict_eq_true in Heq as [<- Hprim]. now apply same_tree_prim. }
  destruct (negb (JsType_eqb (diff_type l) (diff_type r))) eqn:Hty.
  { now apply record_lists in Hend; [|apply empty_not_full]. }
  destruct l as [| |b|n| |s|xs|kl], r as [| |b'|n'| |s'|ys|kr];
    try discriminate;
    try (now apply record_lists in Hend; [|apply empty_not_full]).
  - apply same_tree_arr.
    pose proof (array_loop_sound _ xs ys basePath same_tree
                  (fun x y p a => deepDiff_grows fuel x y p (depth + 1) a)) as Hloop.
    specialize (Hloop
      (fun j x y p a0 Hx Hy Ha0 Hend0 =>
         IH x y p (depth + 1)%Z a0 ltac:(lia) ltac:(lia)
            ltac:(pose proof (depth_of_element xs x (list_elem_of_lookup_2 _ _ _ Hx)); lia)
            (proj1 (Forall_forall _ _) (well_keyed_arr _ Hwl) x
               (list_elem_of_lookup_2 _ _ _ Hx))
            (proj1 (Forall_forall _ _) (well_keyed_arr _ Hwr) y
               (list_elem_of_lookup_2 _ _ _ Hy))
            Ha0 Hend0)).
    specialize (Hloop _ 0%nat a Ha Hend).
    assert (Hlen : length xs = length ys).
    { destruct (Nat.lt_trichotomy (length xs) (length ys)) as [Hlt|[Heq'|Hgt]];
        [|exact Heq'|].
      - destruct (Hloop (length xs) ltac:(lia)) as (x & _ & Hx & _).
        apply lookup_lt_Some in Hx. lia.
      - destruct (Hloop (length ys) ltac:(lia)) as (_ & y & _ & Hy & _).
        apply lookup_lt_Some in Hy. lia. }
    apply Forall2_same_length_lookup. split; [exact Hlen|].
    intros j x y Hx Hy. apply lookup_lt_Some in Hx as Hj.
    destruct (Hloop j ltac:(lia)) as (x' & y' & Hx' & Hy' & Hxy). congruence.
  - pose proof (object_loop_sound _ kl kr basePath same_tree
                  (fun x y p a => deepDiff_grows fuel x y p (depth + 1) a)) as Hloop.
    apply well_keyed_obj in Hwl as Hwl'. destruct Hwl' as [Hndl Hwl'].
    apply well_keyed_obj in Hwr as Hwr'. destruct Hwr' as [Hndr Hwr'].
    specialize (Hloop
      (fun k x y p a0 Hx Hy Ha0 Hend0 =>
         IH x y p (depth + 1)%Z a0 ltac:(lia) ltac:(lia)
            ltac:(pose proof (depth_of_entry kl k x (obj_get_elem _ _ _ Hx)); lia)
            (proj1 (Forall_forall _ _) Hwl' (k, x) (obj_get_elem _ _ _ Hx))
            (proj1 (Forall_forall _ _) Hwr' (k, y) (obj_get_elem _ _ _ Hy))
            Ha0 Hend0)).
    specialize (Hloop _ a Ha Hend).
    assert (Hboth : forall k, k ∈ obj_keys kl \/ k ∈ obj_keys kr ->
              exists x y, obj_get k kl = Some x /\ obj_get k kr = Some y /\ same_tree x y).
    { intros k Hk. apply Hloop; [now apply union_keys_elem|].
      destruct Hk as [Hk|Hk]; [left|right];
        destruct (obj_get_key _ _ Hk) as (u & -> & _); eauto. }
    apply same_tree_obj. split; [exact Hndl|]. split.
    + apply NoDup_Permutation; [exact Hndl | exact Hndr|]. intros k. split; intros Hk.
      * destruct (Hboth k (or_introl Hk)) as (_ & y & _ & Hy & _).
        apply obj_get_elem in Hy. apply list_elem_of_fmap. now exists (k, y).
      * destruct (Hboth k (or_intror Hk)) as (x & _ & Hx & _).
        apply obj_get_elem in Hx. apply list_elem_of_fmap. now exists (k, x).
    + apply Forall_forall. intros [k u] Hin. simpl.
      assert (Hk : k ∈ obj_keys kl) by (apply list_elem_of_fmap; now exists (k, u)).
      destruct (Hboth k (or_introl Hk)) as (x & y & Hx & Hy & Hxy).
      rewrite (obj_get_in kl k u Hndl Hin) in Hx. injection Hx as <-. eauto.
Qed.

End DiffAlike.

Section DiffReportMeaning.
Import Js Canonical Diff.
Context `{Platform}.

(** X27. What an [ok] report means. Two snapshots without [NaN] that differ
    only in the order of the keys of their objects get an [ok] report with
    equal hashes, under any options. Conversely, when the options leave
    room for a difference ([maxDiffs] at least one) and the local snapshot
    is no deeper than [maxDepth], an [ok] report means that the snapshots
    differ in key order at most, and the two hashes of the report are
    equal. (Objects have each key once. With [maxDiffs] zero, or below
    [maxDepth], differences go unreported.) *)
Theorem ok_report_means_same_snapshot (l r : Json) (o : DivergenceReportOptions) :
  let l0 := orElse l (JObj []) in
  let r0 := orElse r (JObj []) in
  let rep := firstDivergenceReport l r o in
  (same_tree l0 r0 -> nan_free l0 = true -> ok rep = true /\ localHash rep = refHash rep)
  /\ ((0 < maxDiffs o)%Z -> (depth_of l0 <= maxDepth o)%Z ->
      well_keyed l0 -> well_keyed r0 ->
      ok rep = true -> same_tree l0 r0 /\ localHash rep = refHash rep).
Proof.
  cbv zeta. unfold firstDivergenceReport. cbv zeta. cbn [ok localHash refHash].
  set (l0 := orElse l (JObj [])). set (r0 := orElse r (JObj [])).
  assert (Hhash : same_tree l0 r0 ->
            sha256Hex (stableStringify l0) = sha256Hex (stableStringify r0)).
  { intros Hsame. unfold stableStringify. now rewrite (sortRec_order l0 r0 Hsame). }
  split.
  - intros Hsame Hnan. split; [|now apply Hhash].
    now rewrite (deepDiff_alike o (levels o) l0 r0 "" 0 _ Hsame Hnan).
  - intros Hmax Hdepth Hwl Hwr Hok.
    assert (Hsame : same_tree l0 r0).
    { apply (deepDiff_sound o Hmax (levels o) l0 r0 "" 0 {| out := []; first := None |});
        try assumption; try reflexivity; try lia.
      - unfold levels. lia.
      - apply Nat.eqb_eq in Hok. now apply length_zero_iff_nil. }
    split; [exact Hsame | now apply Hhash].
Qed.

End DiffReportMeaning.

Lemma ok_report_means_same_snapshot_witness :
  same_tree doc_lo_hi doc_hi_lo
  /\ Diff.localHash (Diff.firstDivergenceReport doc_lo_hi doc_hi_lo Diff.DEFAULTS)
     = Diff.refHash (Diff.firstDivergenceReport doc_lo_hi doc_hi_lo Diff.DEFAULTS).
Proof.
  apply (proj2 (ok_report_means_same_snapshot doc_lo_hi doc_hi_lo Diff.DEFAULTS)).
  - reflexivity.
  - vm_compute. discriminate.
  - simpl. repeat split; apply (bool_decide_unpack _); vm_compute; exact I.
  - simpl. repeat split; apply (bool_decide_unpack _); vm_compute; exact I.
  - vm_compute. reflexivity.
Defined.

